(* ===== verification/_CoqProject ===== *)
-Q . S2P
Prelude.v
GoLib.v
Json.v
Url.v
Sequence.v
DataStore.v
StoreInv.v
StoreSpec.v
RaftLog.v
RaftState.v
Config.v
RaftNode.v
RaftVote.v
RaftCommit.v
RaftLoop.v
RaftProc.v
Words.v
Transport.v
Grpc.v
RaftGrpc.v
RaftCluster.v
RaftReplicate.v
Sessions.v
SessionLoop.v
Watches.v
Locks.v
LockQueue.v
LockOps.v
System.v
Api.v
ApiSpec.v
Daemon.v
Http.v
Network.v
Client.v
ClientSpec.v
ClientLocks.v
ClientSession.v
Ctl.v
