(* ===== verification/Prelude.v ===== *)
(** * SkyLock: a verification development

    SkyLock (Go, under src/) is a coordination service in the style of
    ZooKeeper: a server keeps a tree of nodes, sessions with time-outs, locks
    built from ephemeral sequential nodes, watches, and a Raft node that elects
    a leader and replicates a log; a client library and a command line tool talk
    to it over HTTP.  This library translates the program into Rocq definitions
    that compute and proves what makes its parts correct; where the code falls
    short of that, the theorem states what it does instead.

    ** The program and its models

    - Prelude.v (this file): Go's integers and errors, slices, shared automation
      (hint database [sky], rewrite database [sky_rw], [split_matches]).
    - GoLib.v, Json.v, Url.v: what the code uses of Go's library: strings, path
      and sort, ranging over a string (UTF-8 decoding), encoding/json between Go
      values and JSON values, net/url.
    - Sequence.v, DataStore.v: internal/store/store.go.  [Store.Store] is the Go
      struct; every method is a function from the store to (result, store,
      goroutines started).  StoreInv.v has the tree invariant [wf] and its
      preservation, StoreSpec.v the abstract store and the refinement.
    - RaftLog.v, RaftState.v, RaftNode.v: internal/raft/log.go, state.go, node.go
      (and errors.go): the log, the node state, the RPC handlers, the halves of
      the goroutines that send RPCs, the commit rule.  RaftVote.v
      adds one round of runCandidate and the theorems on elections, RaftCommit.v
      those on replication and commit, RaftLoop.v the three roles of the event
      loop with their timers as a step relation, RaftProc.v the started process
      (run, applyLoop, Start, Stop), RaftReplicate.v a round of heartbeats through
      a transport.
    - Words.v: the widths of the store's integers.
    - Transport.v, Grpc.v: internal/transport/grpc.go and proto.go.  The Go
      interface raft.Transport is the class [Raft.Transport]; the gRPC transport
      is one instance, the in-memory cluster of RaftCluster.v another.  Grpc.v has
      the stubs, the service descriptor and the server side; RaftGrpc.v has the
      event loop of a node whose votes come through this transport.
    - Config.v: internal/config/config.go.
    - Sessions.v, SessionLoop.v: internal/session/manager.go, the methods and the
      goroutine that expires sessions.
    - Watches.v: internal/watch/watcher.go, with watchers in a heap (they are
      shared pointers) and channels that can be full or closed.
    - Locks.v: internal/lock/manager.go, cut into the pieces that are atomic;
      LockQueue.v and LockOps.v have its theorems.
    - System.v: cmd/skylock/main.go (wiring, callbacks, command-line helpers).
    - Api.v: the handlers of internal/api/server.go; ApiSpec.v: the reachable
      states of a whole server and theorems across components; Http.v: its routes
      and the JSON of its requests and responses, around the handlers.
    - Daemon.v: the life of the process, main from start-up to shutdown, and
      Start and Stop of the HTTP server.
    - Network.v: net/http's client as the class [HTTP]; a server of this
      development behind a base URL is its instance.
    - Client.v: pkg/client/client.go, over any instance of [HTTP]; ClientSpec.v,
      ClientLocks.v and ClientSession.v have its theorems against the server.
    - Ctl.v: cmd/skylockctl/main.go, over any instance of [HTTP].

    The client and the tool reach the API through HTTP; the API calls the
    session, lock and store managers; the lock manager works
    only through the store; the store starts goroutines for its callbacks,
    which main directs to the watch manager; the session manager's expiry
    callback deletes the session's nodes in the store.  The Raft node talks to
    its peers through the transport and is, in the code as it is, not connected
    to the store.

    ** Modelling conventions

    A method that holds its mutex for its whole body is one function; a method
    that does not is a composition of functions, one per critical section, and
    the theorems about concurrency quantify over sequences of these.  A uint64,
    int64 or int32 is a [Z] with the wrap-around written out.  Clock readings,
    random numbers and generated UUIDs are arguments in the order the code takes
    them.  The iteration order of a map is an argument, constrained to be a
    permutation of the keys.  A Go error is a constructor of the component's
    error type in [result]; a run-time panic is [Panic] or [None].  Callbacks
    are named ([Store.Callback]), since the program installs only four.  What
    lies outside src/ is a parameter: viper in Config.v, grpc in Transport.v and
    Grpc.v, the router chi as the class [chi.Mux] with its documented laws in
    Http.v ([chi.plain_mux] is an instance), net.Listen in Daemon.v.  Of a body of
    a request or response the model has the JSON value, not its text.

    The only fuel is in the digit loops: 20 iterations for a uint64 and 19 for a
    positive int, the number of their decimal digits (the round trip of
    formatSequence shows that it suffices), and the exchange sort, the back-off
    rounds and a pass of applyLoop, bounded by the length of the list, by
    nextIndex and by the number of indexes to apply ([sort_indexes_is_sort],
    [backoff_converges], [apply_pass_exact], which also shows where no fuel is
    enough).

    ** What the theorems show

    - Store: every history without a sequential node at the root path keeps the
      map a tree and refines the abstract tree; compare-and-set; sequential names grow with the counter; deleting a
      session's nodes does not depend on map order.
    - Locks: mutual exclusion and grant in request order under every
      interleaving in which only tickets are created in the lock's directory,
      behaviour of TryLock and Unlock on free and busy locks.
    - Sessions: each session ends exactly once; timely heartbeats keep it alive;
      the checker removes exactly the expired ones, at most one pass late.
    - Watches: no channel is misused, one-time watches fire at most once,
      delivery to exactly the registered watchers with room.
    - Raft: when votes are granted, how a candidate's round ends for every case
      of its select, majority elections with the votes recorded by the voters,
      election safety as long as no member clears its vote or lowers its term,
      the commit rule, the handler of AppendEntries
      branch by branch, convergence of the back-off (to the leader's log where
      log matching is assumed), a proposal committed by one round when a majority
      is reachable; in the running process, as long as the commit index is below
      the greatest uint64, entries applied at most once and in increasing order
      under every interleaving, a pass without interruption applying exactly the
      committed entries, and Stop never blocked.
    - Widths: the store's counter and versions stay uint64 values.
    - Server: an invariant across all components for every reachable server;
      closing a session releases everything it owned; start-up, the life of the
      process and its shutdown.
    - Client and tool: any sequence of node operations of the SDK, on paths
      that a URL carries as they are, is the same sequence on the store; what
      is written is read back; locks are taken and given back; Connect,
      heartbeats and Close; the tool sends one request per run, the one the SDK
      would send, and prints its answer.
    - Shortcomings stated as theorems: a server with peers never becomes
      leader, since grpc's codec refuses the messages, waiting lock requests
      are never woken, any other node in a lock's directory can block the lock,
      locks need a /locks node that nothing creates, a late heartbeat orphans
      nodes, the version of a conditional delete is ignored, a follower does
      not time out after a heartbeat, a vote can be given twice in a term, a
      late reply lowers the term, even clusters commit on half, a repeated
      append truncates, a follower's commit index can regress, a sequential
      node at the root is unlisted, applyLoop does not end at the greatest
      commit index, a server goes on without HTTP when its port is taken, a
      long wait for a lock outlasts the write timeout, a second Close of a
      client panics.

    ** Not modelled, and the plan

    The client's thirty seconds and the float64 of a session's TTL, which have no
    effect within the server's limits; sockets, the terminal, logging, the text of JSON and of HTTP messages, the
    parsing of the server's flags, and the internals of chi, grpc and viper; of
    the API's middlewares only that Recoverer answers 500.  Next: a
    cluster of running nodes as one step relation, the commit index and
    application on followers, and requests of several clients interleaved on one
    server through the network. *)

From Stdlib Require Export Ascii.
From stdpp Require Export numbers base gmap strings list sorting.

(** ** Machine integers

    Go integers are modelled as [Z]; the width is written out by applying one
    of these wrap functions at every operation that can leave the range. *)

Definition u64_max : Z := 2 ^ 64.

(** Conversion to uint64: reduction modulo 2^64. *)
Definition u64 (x : Z) : Z := x `mod` u64_max.

(** Conversion to a signed 64-bit or 32-bit integer: two's complement. *)
Definition i64 (x : Z) : Z := (x + 2 ^ 63) `mod` 2 ^ 64 - 2 ^ 63.
Definition i32 (x : Z) : Z := (x + 2 ^ 31) `mod` 2 ^ 32 - 2 ^ 31.

Definition in_u64 (x : Z) : Prop := (0 ≤ x < u64_max)%Z.

(** ** Fallible results

    A Go function returning (T, error) becomes a function into [result];
    [Panic] is a run-time panic (a nil dereference, a send on a closed
    channel, an index out of range). *)
Inductive result (E A : Type) : Type :=
| Ok (a : A)
| Err (e : E)
| Panic.
Arguments Ok {E A} a.
Arguments Err {E A} e.
Arguments Panic {E A}.

#[export] Instance result_eq_dec {E A} `{EqDecision E, EqDecision A} :
  EqDecision (result E A).
Proof. solve_decision. Defined.

(** ** Slices

    The Go loop
      for i, x := range l { if x == y { l = append(l[:i], l[i+1:]...); break } }
    removes the first occurrence of [y]; the store, the session manager, the
    lock manager and the watch manager all contain it. *)
Fixpoint remove_first {A} `{EqDecision A} (y : A) (l : list A) : list A :=
  match l with
  | [] => []
  | x :: l' => if decide (x = y) then l' else x :: remove_first y l'
  end.

(** ** Proof automation *)

Create HintDb sky.
Create Rewrite HintDb sky_rw.

(** Split every match/if of the goal and of the hypotheses on its scrutinee. *)
Ltac split_matches :=
  repeat (first [progress simplify_eq/= | case_match]).

Lemma u64_small x : in_u64 x → u64 x = x.
Proof. unfold in_u64, u64. intros. by apply Z.mod_small. Qed.

Lemma u64_range x : in_u64 (u64 x).
Proof. unfold in_u64, u64. apply Z.mod_pos_bound. done. Qed.

Lemma u64_idemp x : u64 (u64 x) = u64 x.
Proof. apply u64_small, u64_range. Qed.

Lemma i64_small x : (- 2 ^ 63 ≤ x < 2 ^ 63)%Z → i64 x = x.
Proof. unfold i64. intros. rewrite Z.mod_small; lia. Qed.

Lemma i32_small x : (- 2 ^ 31 ≤ x < 2 ^ 31)%Z → i32 x = x.
Proof. unfold i32. intros. rewrite Z.mod_small; lia. Qed.

Lemma i64_range x : (- 2 ^ 63 ≤ i64 x < 2 ^ 63)%Z.
Proof.
  unfold i64. pose proof (Z.mod_pos_bound (x + 2 ^ 63) (2 ^ 64) ltac:(lia)). lia.
Qed.

#[export] Hint Resolve u64_range : sky.
#[export] Hint Rewrite u64_idemp : sky_rw.

Section RemoveFirst.
Context {A : Type} `{EqDecision A}.
Implicit Types (x y : A) (l : list A).

Lemma remove_first_notin y l : y ∉ l → remove_first y l = l.
Proof.
  induction l as [|x l IH]; simpl; [done|].
  rewrite not_elem_of_cons. intros [Hne Hni].
  rewrite decide_False by congruence. f_equal. auto.
Qed.

Lemma remove_first_perm y l : y ∈ l → l ≡ₚ y :: remove_first y l.
Proof.
  induction l as [|x l IH]; simpl; [by rewrite elem_of_nil|].
  intros Hin. case_decide as E; [by rewrite E|].
  apply elem_of_cons in Hin as [->|Hin]; [done|].
  rewrite (IH Hin) at 1. apply Permutation_swap.
Qed.

Lemma remove_first_sublist y l : remove_first y l `sublist_of` l.
Proof.
  induction l as [|x l IH]; simpl; [done|].
  case_decide; [by apply sublist_cons|by apply sublist_skip].
Qed.

Lemma remove_first_NoDup y l : NoDup l → NoDup (remove_first y l).
Proof. intros. by eapply sublist_NoDup, remove_first_sublist. Qed.

Lemma elem_of_remove_first x y l :
  NoDup l → x ∈ remove_first y l ↔ x ∈ l ∧ x ≠ y.
Proof.
  intros Hnd. destruct (decide (y ∈ l)) as [Hin|Hni].
  - pose proof (remove_first_perm y l Hin) as Hp.
    rewrite Hp in Hnd. apply NoDup_cons in Hnd as [Hy _].
    rewrite (elem_of_Permutation_proper x _ _ Hp), elem_of_cons.
    split; [intros Hx; split; [by right|by intros ->]|naive_solver].
  - rewrite remove_first_notin by done. split; [|naive_solver].
    intros Hx. split; [done|by intros ->].
Qed.

Lemma length_remove_first y l :
  y ∈ l → length l = S (length (remove_first y l)).
Proof. intros Hin. by rewrite (Permutation_length (remove_first_perm y l Hin)). Qed.
End RemoveFirst.

#[export] Hint Resolve remove_first_NoDup : sky.

(** Filtering by a predicate that holds everywhere. *)
Lemma filter_Forall_id {A} (P : A → Prop) `{!∀ x, Decision (P x)} (l : list A) :
  Forall P l → filter P l = l.
Proof.
  induction 1 as [|x l Hx _ IH]; [done|]. rewrite filter_cons_True by done. by rewrite IH.
Qed.

Lemma filter_Forall_none {A} (P : A → Prop) `{!∀ x, Decision (P x)} (l : list A) :
  Forall (λ x, ¬ P x) l → filter P l = [].
Proof. induction 1 as [|x l Hx _ IH]; [done|]. by rewrite filter_cons_False. Qed.

Lemma filter_ext_elem {A} (P Q : A → Prop) `{!∀ x, Decision (P x), !∀ x, Decision (Q x)}
    (l : list A) :
  (∀ x, x ∈ l → P x ↔ Q x) → filter P l = filter Q l.
Proof.
  induction l as [|x l IH]; intros HPQ; [done|]. rewrite !filter_cons.
  rewrite IH by (intros; apply HPQ; by right). apply decide_ext. apply HPQ. by left.
Qed.

(** Removing [p] first and then the rest of a list of removals. *)
Lemma filter_remove_first {A} `{EqDecision A} (p : A) (rest l : list A) :
  NoDup l → filter (λ x, x ∉ rest) (remove_first p l) = filter (λ x, x ∉ p :: rest) l.
Proof.
  induction l as [|x l IH]; intros Hnd; [done|]. simpl. apply NoDup_cons in Hnd as [Hx Hnd].
  rewrite (filter_cons _ x l). case_decide as E.
  - rewrite (decide_False (P := x ∉ p :: rest)) by set_solver. subst.
    apply filter_ext_elem. intros y Hy. rewrite not_elem_of_cons.
    split; [|naive_solver]. intros ?. split; [by intros ->|done].
  - rewrite filter_cons, IH by done. apply decide_ext. rewrite not_elem_of_cons. naive_solver.
Qed.
