(* ===== verification/GoLib.v ===== *)
(** * The part of the Go language and standard library SkyLock uses

    Byte strings are [string] (a Go string is a sequence of bytes; [ascii] is a
    byte).  Modelled here: [strings.HasPrefix], [TrimPrefix], [Split] (by a
    one-byte separator) and [Replace] (with count 1), [path.Clean], [path.Dir]
    and [path.Base], [sort.Strings], and the rune decoding of a range loop over
    a string.  The lemmas describe canonical absolute paths: [abs_path cs] is
    the path with components [cs], and [path.Clean], [path.Dir] and [path.Base]
    act on it as on the list of components. *)

From S2P Require Import Prelude.

(** ** Package strings *)
Module strings.

(** strings.HasPrefix(s, prefix) *)
Definition HasPrefix (s p : string) : bool := String.prefix p s.

(** s[n:] *)
Fixpoint drop (n : nat) (s : string) : string :=
  match n, s with
  | 0%nat, _ => s
  | S n', String _ s' => drop n' s'
  | S _, EmptyString => EmptyString
  end.

(** strings.TrimPrefix(s, prefix) *)
Definition TrimPrefix (s p : string) : string :=
  if HasPrefix s p then drop (String.length p) s else s.

(** strings.Split(s, sep) for a separator of one byte. *)
Fixpoint Split (sep : ascii) (s : string) : list string :=
  match s with
  | EmptyString => [""]
  | String a s' =>
      if decide (a = sep) then "" :: Split sep s'
      else match Split sep s' with
           | h :: t => String a h :: t
           | [] => [String a ""]
           end
  end.

(** The first occurrence of [old] replaced by [new]. *)
Fixpoint replace_first (old new s : string) : string :=
  if String.prefix old s then new +:+ drop (String.length old) s
  else match s with
       | EmptyString => EmptyString
       | String a s' => String a (replace_first old new s')
       end.

(** strings.Replace(s, old, new, 1): returns s unchanged when old = new. *)
Definition Replace1 (s old new : string) : string :=
  if decide (old = new) then s else replace_first old new s.

Fixpoint has_char (c : ascii) (s : string) : bool :=
  match s with
  | EmptyString => false
  | String a s' => bool_decide (a = c) || has_char c s'
  end.

End strings.

(** ** Package sort *)

(** sort.Strings: ascending byte-wise order ([String.le] is a total order, so
    the sorted permutation is unique and the algorithm does not matter). *)
Definition sort_Strings (l : list string) : list string := merge_sort String.le l.

(** ** Package path *)
Module path.

Definition slash : ascii := "/"%char.

(** One element of the path, pushed on the reversed output. *)
Definition clean_step (rooted : bool) (out : list string) (c : string) : list string :=
  if decide (c = "") then out
  else if decide (c = ".") then out
  else if decide (c = "..") then
    match out with
    | [] => if rooted then [] else [".."]
    | top :: out' => if decide (top = "..") then ".." :: out else out'
    end
  else c :: out.

Definition clean_comps (rooted : bool) (cs : list string) : list string :=
  reverse (foldl (clean_step rooted) [] cs).

(** path.Clean *)
Definition Clean (p : string) : string :=
  if decide (p = "") then "."
  else
    let rooted := strings.HasPrefix p "/" in
    let s := String.concat "/" (clean_comps rooted (strings.Split slash p)) in
    if rooted then "/" +:+ s
    else if decide (s = "") then "." else s.

(** path.Split: everything up to and including the last slash, and the rest. *)
Definition Split (p : string) : string * string :=
  let cs := strings.Split slash p in
  (String.concat "/" (removelast cs ++ [""]), List.last cs "").

(** path.Dir *)
Definition Dir (p : string) : string := Clean (Split p).1.

(** Drop the empty components a path ends with (trailing slashes). *)
Fixpoint strip_trailing (cs : list string) : list string :=
  match cs with
  | [] => []
  | c :: cs' =>
      match strip_trailing cs' with
      | [] => if decide (c = "") then [] else [c]
      | cs'' => c :: cs''
      end
  end.

(** path.Base *)
Definition Base (p : string) : string :=
  if decide (p = "") then "."
  else
    match strip_trailing (strings.Split slash p) with
    | [] => "/"
    | cs => List.last cs ""
    end.

End path.

(** ** Runes: the values of a range loop over a string *)
Module runes.

Definition RuneError : Z := 0xFFFD.

Definition byte_Z (a : ascii) : Z := Z.of_N (N_of_ascii a).

Fixpoint bytes_Z (s : string) : list Z :=
  match s with
  | EmptyString => []
  | String a s' => byte_Z a :: bytes_Z s'
  end.

Definition between (lo x hi : Z) : bool := (lo <=? x)%Z && (x <=? hi)%Z.

(** The accepted range of the second byte, by the first (unicode/utf8). *)
Definition accept2 (b0 b1 : Z) : bool :=
  if (b0 =? 0xE0)%Z then between 0xA0 b1 0xBF
  else if (b0 =? 0xED)%Z then between 0x80 b1 0x9F
  else if (b0 =? 0xF0)%Z then between 0x90 b1 0xBF
  else if (b0 =? 0xF4)%Z then between 0x80 b1 0x8F
  else between 0x80 b1 0xBF.

Definition cont (b : Z) : bool := between 0x80 b 0xBF.

(** An invalid encoding yields U+FFFD and consumes one byte. *)
Fixpoint decode (bs : list Z) : list Z :=
  match bs with
  | [] => []
  | b0 :: r0 =>
      if (b0 <? 0x80)%Z then b0 :: decode r0
      else
        match r0 with
        | b1 :: r1 =>
            if between 0xC2 b0 0xDF && accept2 b0 b1 then
              ((b0 - 0xC0) * 64 + (b1 - 0x80))%Z :: decode r1
            else
              match r1 with
              | b2 :: r2 =>
                  if between 0xE0 b0 0xEF && accept2 b0 b1 && cont b2 then
                    ((b0 - 0xE0) * 4096 + (b1 - 0x80) * 64 + (b2 - 0x80))%Z :: decode r2
                  else
                    match r2 with
                    | b3 :: r3 =>
                        if between 0xF0 b0 0xF4 && accept2 b0 b1 && cont b2 && cont b3 then
                          ((b0 - 0xF0) * 262144 + (b1 - 0x80) * 4096
                             + (b2 - 0x80) * 64 + (b3 - 0x80))%Z :: decode r3
                        else RuneError :: decode r0
                    | [] => RuneError :: decode r0
                    end
              | [] => RuneError :: decode r0
              end
        | [] => RuneError :: decode r0
        end
  end.

(** for _, c := range s *)
Definition of_string (s : string) : list Z := decode (bytes_Z s).

Definition byte_of (z : Z) : ascii := ascii_of_N (Z.to_N z).

(** string(c) for a rune c *)
Definition to_string (c : Z) : string :=
  let c := if between 0 c 0x10FFFF && negb (between 0xD800 c 0xDFFF) then c
           else RuneError in
  if (c <? 0x80)%Z then String (byte_of c) ""
  else if (c <? 0x800)%Z then
    String (byte_of (0xC0 + c / 64)) (String (byte_of (0x80 + c mod 64)) "")
  else if (c <? 0x10000)%Z then
    String (byte_of (0xE0 + c / 4096))
      (String (byte_of (0x80 + (c / 64) mod 64)) (String (byte_of (0x80 + c mod 64)) ""))
  else
    String (byte_of (0xF0 + c / 262144))
      (String (byte_of (0x80 + (c / 4096) mod 64))
        (String (byte_of (0x80 + (c / 64) mod 64)) (String (byte_of (0x80 + c mod 64)) ""))).

End runes.

(** ** Strings: append, prefix and split *)

Lemma str_app_assoc (a b c : string) : (a +:+ b) +:+ c = a +:+ (b +:+ c).
Proof. induction a as [|x a IH]; [done|]. change (String x ((a +:+ b) +:+ c) = String x (a +:+ (b +:+ c))). by rewrite IH. Qed.

Lemma str_app_nil_r (a : string) : a +:+ "" = a.
Proof. induction a as [|x a IH]; [done|]. change (String x (a +:+ "") = String x a). by rewrite IH. Qed.

Lemma str_app_cons x (a b : string) : String x a +:+ b = String x (a +:+ b).
Proof. done. Qed.

Lemma str_length_app (a b : string) :
  String.length (a +:+ b) = (String.length a + String.length b)%nat.
Proof. induction a as [|x a IH]; [done|]. rewrite str_app_cons. simpl. by rewrite IH. Qed.

Lemma str_drop_app (a b : string) : strings.drop (String.length a) (a +:+ b) = b.
Proof. induction a as [|x a IH]; [done|]. by rewrite str_app_cons. Qed.

Lemma str_prefix_app (a b : string) : String.prefix a (a +:+ b) = true.
Proof.
  induction a as [|x a IH]; [by destruct b|]. rewrite str_app_cons. simpl.
  destruct (ascii_dec x x); done.
Qed.

Lemma str_prefix_inv (a s : string) :
  String.prefix a s = true → ∃ b, s = a +:+ b.
Proof.
  revert s. induction a as [|x a IH]; intros s; [by exists s|].
  destruct s as [|y s]; simpl; [done|].
  destruct (ascii_dec x y) as [->|]; [|done].
  intros [b ->]%IH. by exists b.
Qed.

(** Trimming a prefix that was just prepended gives the string back. *)
Lemma TrimPrefix_app (a b : string) : strings.TrimPrefix (a +:+ b) a = b.
Proof.
  unfold strings.TrimPrefix, strings.HasPrefix.
  by rewrite str_prefix_app, str_drop_app.
Qed.

Lemma HasPrefix_spec (s p : string) :
  strings.HasPrefix s p = true ↔ ∃ r, s = p +:+ r.
Proof.
  split; [apply str_prefix_inv|]. intros [r ->]. apply str_prefix_app.
Qed.

Lemma has_char_app c (a b : string) :
  strings.has_char c (a +:+ b) = strings.has_char c a || strings.has_char c b.
Proof.
  induction a as [|x a IH]; [done|]. rewrite str_app_cons. simpl.
  by rewrite IH, orb_assoc.
Qed.

Lemma Split_nonempty sep s : strings.Split sep s ≠ [].
Proof. destruct s; simpl; repeat case_match; done. Qed.

Lemma Split_no_sep sep s : strings.has_char sep s = false → strings.Split sep s = [s].
Proof.
  induction s as [|a s IH]; simpl; [done|].
  rewrite orb_false_iff, bool_decide_eq_false. intros [Hne Hs].
  rewrite decide_False by done. by rewrite IH.
Qed.

Lemma Split_app_sep sep (a b : string) :
  strings.has_char sep a = false →
  strings.Split sep (a +:+ String sep b) = a :: strings.Split sep b.
Proof.
  induction a as [|x a IH].
  - intros _. change ("" +:+ String sep b) with (String sep b). simpl.
    by rewrite decide_True.
  - simpl (strings.has_char _ _). rewrite orb_false_iff, bool_decide_eq_false.
    intros [Hne Ha]. rewrite str_app_cons. simpl. rewrite decide_False by done.
    by rewrite IH.
Qed.

(** No piece of a split contains the separator. *)
Lemma Split_pieces sep s :
  Forall (λ c, strings.has_char sep c = false) (strings.Split sep s).
Proof.
  induction s as [|a s IH]; simpl; [by repeat constructor|].
  case_decide; [by constructor|].
  destruct (strings.Split sep s) as [|h t]; [by constructor; [|constructor]; simpl; rewrite bool_decide_eq_false_2|].
  apply Forall_cons in IH as [Hh Ht]. constructor; [|done].
  simpl. by rewrite bool_decide_eq_false_2, Hh.
Qed.

Lemma concat_cons (c : string) (cs : list string) :
  cs ≠ [] → String.concat "/" (c :: cs) = c +:+ String path.slash (String.concat "/" cs).
Proof. by destruct cs. Qed.

Lemma Split_concat (cs : list string) :
  cs ≠ [] → Forall (λ c, strings.has_char path.slash c = false) cs →
  strings.Split path.slash (String.concat "/" cs) = cs.
Proof.
  induction cs as [|c cs IH]; [done|]. intros _ [Hc Hcs]%Forall_cons.
  destruct cs as [|c' cs]; [by apply Split_no_sep|].
  rewrite concat_cons by done. rewrite Split_app_sep by done. by rewrite IH.
Qed.

Lemma concat_Split (s : string) :
  String.concat "/" (strings.Split path.slash s) = s.
Proof.
  induction s as [|a s IH]; [done|]. simpl.
  pose proof (Split_nonempty path.slash s) as Hne.
  case_decide as Ha.
  - subst a. rewrite concat_cons by done. by rewrite IH.
  - destruct (strings.Split path.slash s) as [|h t]; [done|].
    rewrite <- IH. destruct t; [done|]. by rewrite !concat_cons by done.
Qed.

(** ** Canonical absolute paths *)

(** A path element that [path.Clean] keeps as it is. *)
Definition valid_comp (c : string) : Prop :=
  c ≠ "" ∧ c ≠ "." ∧ c ≠ ".." ∧ strings.has_char path.slash c = false.

#[export] Instance valid_comp_dec c : Decision (valid_comp c).
Proof. unfold valid_comp. apply _. Defined.

(** The absolute path with the given elements. *)
Definition abs_path (cs : list string) : string := "/" +:+ String.concat "/" cs.

Definition canonical (p : string) : Prop :=
  ∃ cs, Forall valid_comp cs ∧ p = abs_path cs.

Lemma valid_no_slash cs :
  Forall valid_comp cs → Forall (λ c, strings.has_char path.slash c = false) cs.
Proof. intros H. eapply Forall_impl; [exact H|]. by intros c (?&?&?&?). Qed.

Lemma abs_path_rooted cs : strings.HasPrefix (abs_path cs) "/" = true.
Proof. apply HasPrefix_spec. by eexists. Qed.

Lemma abs_path_nonempty cs : abs_path cs ≠ "".
Proof. done. Qed.

(** Splitting an absolute path: an empty first element, then the elements. *)
Lemma Split_abs cs :
  Forall valid_comp cs →
  strings.Split path.slash (abs_path cs) = "" :: (if decide (cs = []) then [""] else cs).
Proof.
  intros Hcs. unfold abs_path.
  change ("/" +:+ String.concat "/" cs) with ("" +:+ String path.slash (String.concat "/" cs)).
  rewrite Split_app_sep by done. case_decide as E; [by rewrite E|].
  rewrite Split_concat by auto using valid_no_slash. done.
Qed.

Lemma abs_path_inj cs cs' :
  Forall valid_comp cs → Forall valid_comp cs' → abs_path cs = abs_path cs' → cs = cs'.
Proof.
  intros H H' E. pose proof (f_equal (strings.Split path.slash) E) as Es.
  rewrite !Split_abs in Es by done. repeat case_decide; simplify_eq; try done.
  - by inv H' as [|? ? (?&?&?&?)].
  - by inv H as [|? ? (?&?&?&?)].
Qed.

Lemma clean_step_valid rooted out c : valid_comp c → path.clean_step rooted out c = c :: out.
Proof. intros (?&?&?&?). unfold path.clean_step. by rewrite !decide_False. Qed.

Lemma foldl_clean_valid rooted out cs :
  Forall valid_comp cs → foldl (path.clean_step rooted) out cs = reverse cs ++ out.
Proof.
  intros Hcs. revert out. induction Hcs as [|c cs Hc Hcs IH]; intros out; [done|].
  simpl. rewrite clean_step_valid by done. rewrite IH, reverse_cons.
  by rewrite <- (assoc_L (++)).
Qed.

(** Cleaning a rooted path keeps only valid elements on the output. *)
Lemma foldl_clean_rooted out cs :
  Forall (λ c, strings.has_char path.slash c = false) cs → Forall valid_comp out →
  Forall valid_comp (foldl (path.clean_step true) out cs).
Proof.
  intros Hcs. revert out. induction Hcs as [|c cs Hc Hcs IH]; intros out Hout; [done|].
  simpl. apply IH. unfold path.clean_step.
  repeat case_decide; try done; [|by constructor].
  destruct Hout as [|top out Htop Hout]; [by constructor|].
  rewrite decide_False; [done|]. by destruct Htop as (?&?&?&?).
Qed.

Lemma Clean_rooted p :
  strings.HasPrefix p "/" = true →
  ∃ cs, Forall valid_comp cs ∧ path.Clean p = abs_path cs.
Proof.
  intros Hp. unfold path.Clean.
  rewrite decide_False by (intros ->; done). rewrite Hp.
  eexists; split; [|reflexivity]. unfold path.clean_comps.
  apply Forall_reverse, foldl_clean_rooted; [apply Split_pieces|constructor].
Qed.

(** [path.Clean] is the identity on canonical paths. *)
Lemma Clean_abs cs : Forall valid_comp cs → path.Clean (abs_path cs) = abs_path cs.
Proof.
  intros Hcs. unfold path.Clean. rewrite decide_False by done.
  rewrite abs_path_rooted. unfold abs_path at 2. f_equal. f_equal.
  rewrite Split_abs by done. unfold path.clean_comps. simpl.
  case_decide as E; [by rewrite E|].
  change (path.clean_step true [] "") with (@nil string).
  rewrite foldl_clean_valid by done. by rewrite (right_id_L [] (++)), reverse_involutive.
Qed.

Lemma removelast_snoc {A} (l : list A) x : removelast (l ++ [x]) = l.
Proof. apply removelast_last. Qed.

Lemma Split_abs_snoc cs c :
  Forall valid_comp (cs ++ [c]) →
  strings.Split path.slash (abs_path (cs ++ [c])) = ("" :: cs) ++ [c].
Proof. intros H. rewrite Split_abs by done. rewrite decide_False; [done|]. by destruct cs. Qed.

(** The directory of a canonical path drops the last element. *)
Lemma Dir_abs cs c :
  Forall valid_comp (cs ++ [c]) → path.Dir (abs_path (cs ++ [c])) = abs_path cs.
Proof.
  intros H. pose proof H as [Hcs _]%Forall_app.
  unfold path.Dir, path.Split. rewrite Split_abs_snoc by done.
  rewrite removelast_snoc. cbn [fst].
  assert (Hne : cs ++ [""] ≠ []) by (by destruct cs).
  change (("" :: cs) ++ [""]) with ("" :: (cs ++ [""])).
  rewrite concat_cons by done.
  unfold path.Clean. rewrite decide_False by done.
  assert (strings.HasPrefix ("" +:+ String path.slash (String.concat "/" (cs ++ [""]))) "/"
          = true) as -> by (by apply HasPrefix_spec; eexists).
  unfold abs_path. cbv zeta. f_equal. f_equal.
  rewrite Split_app_sep by done.
  rewrite Split_concat; [|done|].
  2: { apply Forall_app; split; [by apply valid_no_slash|by constructor]. }
  unfold path.clean_comps. simpl.
  change (path.clean_step true [] "") with (@nil string).
  rewrite foldl_app, (foldl_clean_valid _ _ cs) by done. simpl.
  change (path.clean_step true ?l "") with l.
  by rewrite (right_id_L [] (++)), reverse_involutive.
Qed.

Lemma strip_trailing_snoc l c : c ≠ "" → path.strip_trailing (l ++ [c]) = l ++ [c].
Proof.
  intros Hc. induction l as [|x l IH]; simpl; [by rewrite decide_False|].
  rewrite IH. by destruct l.
Qed.

(** The base of a canonical path is its last element. *)
Lemma Base_abs cs c :
  Forall valid_comp (cs ++ [c]) → path.Base (abs_path (cs ++ [c])) = c.
Proof.
  intros H. pose proof H as [_ [(Hc&_) _]%Forall_cons]%Forall_app.
  unfold path.Base. rewrite decide_False by done. rewrite Split_abs_snoc by done.
  rewrite strip_trailing_snoc by done.
  destruct (("" :: cs) ++ [c]) as [|x l] eqn:E; [done|]. rewrite <- E.
  apply List.last_last.
Qed.

Lemma abs_path_snoc cs c :
  abs_path (cs ++ [c]) =
    (if decide (cs = []) then "/" +:+ c else abs_path cs +:+ "/" +:+ c).
Proof.
  unfold abs_path. case_decide as E; [by rewrite E|].
  rewrite str_app_assoc. f_equal.
  induction cs as [|x cs IH]; [done|]. destruct cs as [|y cs]; [done|].
  change ((x :: y :: cs) ++ [c]) with (x :: ((y :: cs) ++ [c])).
  rewrite !concat_cons by done. rewrite IH by done.
  rewrite str_app_assoc. done.
Qed.

(** Appending bytes to a canonical path extends its last element. *)
Lemma abs_path_snoc_app cs c d : abs_path (cs ++ [c]) +:+ d = abs_path (cs ++ [c +:+ d]).
Proof. rewrite !abs_path_snoc. case_decide; by rewrite !str_app_assoc. Qed.

Lemma abs_root : abs_path [] = "/".
Proof. done. Qed.

Lemma abs_path_snoc_not_root cs c : Forall valid_comp (cs ++ [c]) → abs_path (cs ++ [c]) ≠ "/".
Proof.
  intros H E. rewrite <- abs_root in E. apply abs_path_inj in E; [|done|constructor].
  by destruct cs.
Qed.

#[export] Hint Resolve abs_path_snoc_not_root valid_no_slash : sky.
