(* ===== verification/Json.v ===== *)
(** * JSON bodies (encoding/json)

    The requests and responses of the HTTP API are JSON.  A body is modelled by
    the value it encodes: json.Marshal builds the value, json.Unmarshal and
    Decoder.Decode read it into a struct.  Two things the program relies on
    happen on the way and are modelled: a Go string that is not valid UTF-8 is
    coerced ([coerce]: U+FFFD for each invalid byte), and decoding matches the
    keys of an object with the fields of a struct, exactly or up to case, in
    the order of the object, ignores unknown keys, leaves a field at null, and
    fails on a value of the wrong type. *)

From S2P Require Import Prelude GoLib.

Module json.

(** [JInt] is an integer literal; [JSeconds] a number of nanoseconds written in
    seconds that is not an integer; [JTime] the text of an instant (no struct of
    the program reads one). *)
Inductive value :=
| JNull
| JBool (b : bool)
| JInt (z : Z)
| JSeconds (ns : Z)
| JStr (s : string)
| JTime (t : Z)
| JArr (vs : list value)
| JObj (ms : list (string * value)).

(** What encoding and decoding make of the bytes of a string. *)
Definition coerce (s : string) : string :=
  String.concat "" (runes.to_string <$> runes.of_string s).

(** ** Encoding *)

Definition str (s : string) : value := JStr (coerce s).

(** A Duration d as the float64 d.Seconds(). *)
Definition seconds (ns : Z) : value :=
  if (ns mod 1000000000 =? 0)%Z then JInt (ns / 1000000000) else JSeconds ns.

(** A map of strings; encoding/json sorts the keys, which are given sorted. *)
Definition obj (ms : list (string * value)) : value := JObj ms.

(** ** Decoding *)

(** Letters up to case; U+017F and U+212A fold to S and K. *)
Definition fold_rune (c : Z) : Z :=
  if runes.between 97 c 122 then (c - 32)%Z
  else if (c =? 0x17F)%Z then 83%Z
  else if (c =? 0x212A)%Z then 75%Z
  else c.

Definition fold_name (s : string) : list Z := fold_rune <$> runes.of_string s.

(** Decoding a value into a variable that holds [old]. *)
Definition to_str (v : value) (old : string) : option string :=
  match v with JNull => Some old | JStr s => Some s | _ => None end.

Definition to_bool (v : value) (old : bool) : option bool :=
  match v with JNull => Some old | JBool b => Some b | _ => None end.

Definition to_int (v : value) (old : Z) : option Z :=
  match v with
  | JNull => Some old
  | JInt z => if runes.between (- 2 ^ 63) z (2 ^ 63 - 1) then Some z else None
  | _ => None
  end.

Definition to_uint (v : value) (old : Z) : option Z :=
  match v with
  | JNull => Some old
  | JInt z => if runes.between 0 z (2 ^ 64 - 1) then Some z else None
  | _ => None
  end.

(** A float64 that holds a number of seconds, kept as nanoseconds. *)
Definition to_seconds (v : value) (old : Z) : option Z :=
  match v with
  | JNull => Some old
  | JInt z => Some (z * 1000000000)%Z
  | JSeconds ns => Some ns
  | _ => None
  end.

(** A []string; null makes it nil. *)
Definition to_strs (v : value) (old : list string) : option (list string) :=
  match v with
  | JNull => Some []
  | JArr vs => mapM (λ v, to_str v "") vs
  | _ => None
  end.

(** A struct type: its tags, each with the decoder of its field. *)
Definition fields (A : Type) := list (string * (value → A → option A)).

Fixpoint find_field {A} (p : string → bool) (fs : fields A) : option (value → A → option A) :=
  match fs with
  | [] => None
  | (tag, f) :: fs => if p tag then Some f else find_field p fs
  end.

Definition field {A} (fs : fields A) (key : string) : option (value → A → option A) :=
  match find_field (λ tag, bool_decide (tag = key)) fs with
  | Some f => Some f
  | None => find_field (λ tag, bool_decide (fold_name tag = fold_name key)) fs
  end.

Definition member {A} (fs : fields A) (acc : option A) (m : string * value) : option A :=
  match acc with
  | None => None
  | Some a => match field fs m.1 with Some f => f m.2 a | None => Some a end
  end.

(** Decoding into a struct with initial value [zero]; None is an error. *)
Definition decode {A} (fs : fields A) (zero : A) (v : value) : option A :=
  match v with
  | JNull => Some zero
  | JObj ms => foldl (member fs) (Some zero) ms
  | _ => None
  end.

End json.

(** ** UTF-8 *)

(** A Unicode scalar value. *)
Definition scalar (c : Z) : Prop :=
  (0 ≤ c < 0xD800 ∨ 0xE000 ≤ c ≤ 0x10FFFF)%Z.

Lemma byte_Z_range a : (0 ≤ runes.byte_Z a < 256)%Z.
Proof. unfold runes.byte_Z. pose proof (N_ascii_bounded a). lia. Qed.

Lemma byte_Z_byte_of z : (0 ≤ z < 256)%Z → runes.byte_Z (runes.byte_of z) = z.
Proof.
  intros Hz. unfold runes.byte_Z, runes.byte_of. rewrite N_ascii_embedding by lia. lia.
Qed.

Lemma bytes_Z_app a b : runes.bytes_Z (a +:+ b) = runes.bytes_Z a ++ runes.bytes_Z b.
Proof. induction a as [|x a IH]; [done|]. rewrite str_app_cons. simpl. by rewrite IH. Qed.

Lemma between_true lo x hi : runes.between lo x hi = true ↔ (lo ≤ x ≤ hi)%Z.
Proof. unfold runes.between. rewrite andb_true_iff, !Z.leb_le. lia. Qed.

Lemma between_false lo x hi : runes.between lo x hi = false ↔ (x < lo ∨ hi < x)%Z.
Proof. rewrite <- not_true_iff_false, between_true. lia. Qed.

Lemma accept2_cont b0 b1 : runes.accept2 b0 b1 = true → (0x80 ≤ b1 ≤ 0xBF)%Z.
Proof. unfold runes.accept2. repeat case_match; rewrite between_true; lia. Qed.

Lemma to_string_scalar c :
  scalar c →
  (if runes.between 0 c 0x10FFFF && negb (runes.between 0xD800 c 0xDFFF) then c
   else runes.RuneError) = c.
Proof.
  intros Hc. rewrite (proj2 (between_true 0 c _)) by (unfold scalar in Hc; lia).
  by rewrite (proj2 (between_false 0xD800 c _)) by (unfold scalar in Hc; lia).
Qed.

(** Decoding what [to_string] wrote, one lemma per length of the encoding. *)
Lemma decode_1 c bs : (0 ≤ c < 0x80)%Z → runes.decode (c :: bs) = c :: runes.decode bs.
Proof. intros Hc. cbn [runes.decode]. destruct (Z.ltb_spec c 128); [done|lia]. Qed.

Lemma accept2_true b0 b1 :
  (0x80 ≤ b1 ≤ 0xBF)%Z → (b0 = 0xE0 → 0xA0 ≤ b1)%Z → (b0 = 0xED → b1 ≤ 0x9F)%Z →
  (b0 = 0xF0 → 0x90 ≤ b1)%Z → (b0 = 0xF4 → b1 ≤ 0x8F)%Z →
  runes.accept2 b0 b1 = true.
Proof.
  intros. unfold runes.accept2.
  repeat case_match; rewrite ?Z.eqb_eq in *; apply between_true; lia.
Qed.

Lemma decode_2 c bs :
  (0x80 ≤ c < 0x800)%Z →
  runes.decode ((0xC0 + c / 64)%Z :: (0x80 + c mod 64)%Z :: bs) = c :: runes.decode bs.
Proof.
  intros Hc. pose proof (Z.div_mod c 64 ltac:(lia)) as Hd.
  pose proof (Z.mod_pos_bound c 64 ltac:(lia)) as Hm.
  set (q := (c / 64)%Z) in *. set (m := (c mod 64)%Z) in *. cbn [runes.decode].
  set (b0 := (0xC0 + q)%Z) in *.
  rewrite (proj2 (Z.ltb_ge b0 _)), (proj2 (between_true 0xC2 b0 _)), (accept2_true b0) by lia.
  cbn [andb]. f_equal. lia.
Qed.

Lemma decode_3 c bs :
  (0x800 ≤ c < 0xD800 ∨ 0xE000 ≤ c < 0x10000)%Z →
  runes.decode ((0xE0 + c / 4096)%Z :: (0x80 + (c / 64) mod 64)%Z :: (0x80 + c mod 64)%Z :: bs)
  = c :: runes.decode bs.
Proof.
  intros Hc. replace (c / 4096)%Z with (c / 64 / 64)%Z by (by rewrite Z.div_div by lia).
  pose proof (Z.div_mod c 64 ltac:(lia)) as Hd.
  pose proof (Z.mod_pos_bound c 64 ltac:(lia)) as Hm.
  pose proof (Z.div_mod (c / 64) 64 ltac:(lia)) as Hd2.
  pose proof (Z.mod_pos_bound (c / 64) 64 ltac:(lia)) as Hm2.
  set (q2 := (c / 64 / 64)%Z) in *. set (m2 := ((c / 64) mod 64)%Z) in *.
  set (q := (c / 64)%Z) in *. set (m := (c mod 64)%Z) in *. cbn [runes.decode].
  set (b0 := (0xE0 + q2)%Z) in *.
  rewrite (proj2 (Z.ltb_ge b0 _)), (proj2 (between_false 0xC2 b0 _)),
    (proj2 (between_true 0xE0 b0 _)), (accept2_true b0) by lia.
  change runes.cont with (λ b, runes.between 0x80 b 0xBF). cbv beta. rewrite (proj2 (between_true 0x80 (0x80 + m) _)) by lia.
  cbn [andb]. f_equal. lia.
Qed.

Lemma decode_4 c bs :
  (0x10000 ≤ c ≤ 0x10FFFF)%Z →
  runes.decode ((0xF0 + c / 262144)%Z :: (0x80 + (c / 4096) mod 64)%Z
                  :: (0x80 + (c / 64) mod 64)%Z :: (0x80 + c mod 64)%Z :: bs)
  = c :: runes.decode bs.
Proof.
  intros Hc. replace (c / 262144)%Z with (c / 64 / 64 / 64)%Z by (by rewrite !Z.div_div by lia).
  replace (c / 4096)%Z with (c / 64 / 64)%Z by (by rewrite Z.div_div by lia).
  pose proof (Z.div_mod c 64 ltac:(lia)) as Hd.
  pose proof (Z.mod_pos_bound c 64 ltac:(lia)) as Hm.
  pose proof (Z.div_mod (c / 64) 64 ltac:(lia)) as Hd2.
  pose proof (Z.mod_pos_bound (c / 64) 64 ltac:(lia)) as Hm2.
  pose proof (Z.div_mod (c / 64 / 64) 64 ltac:(lia)) as Hd3.
  pose proof (Z.mod_pos_bound (c / 64 / 64) 64 ltac:(lia)) as Hm3.
  set (q3 := (c / 64 / 64 / 64)%Z) in *. set (m3 := ((c / 64 / 64) mod 64)%Z) in *.
  set (q2 := (c / 64 / 64)%Z) in *. set (m2 := ((c / 64) mod 64)%Z) in *.
  set (q := (c / 64)%Z) in *. set (m := (c mod 64)%Z) in *. cbn [runes.decode].
  set (b0 := (0xF0 + q3)%Z) in *. change runes.cont with (λ b, runes.between 0x80 b 0xBF).
  cbv beta. rewrite (proj2 (Z.ltb_ge b0 _)), (proj2 (between_false 0xC2 b0 _)),
    (proj2 (between_false 0xE0 b0 _)), (proj2 (between_true 0xF0 b0 _)), (accept2_true b0),
    (proj2 (between_true 0x80 (0x80 + m) _)), (proj2 (between_true 0x80 (0x80 + m2) _)) by lia.
  cbn [andb]. f_equal. lia.
Qed.

(** A scalar value survives encoding and decoding. *)
Lemma decode_to_string c bs :
  scalar c → runes.decode (runes.bytes_Z (runes.to_string c) ++ bs) = c :: runes.decode bs.
Proof.
  intros Hc. unfold runes.to_string. rewrite to_string_scalar by done. unfold scalar in Hc.
  pose proof (Z.mod_pos_bound c 64 ltac:(lia)).
  pose proof (Z.mod_pos_bound (c / 64) 64 ltac:(lia)).
  pose proof (Z.mod_pos_bound (c / 4096) 64 ltac:(lia)).
  destruct (Z.ltb_spec c 0x80); [|destruct (Z.ltb_spec c 0x800); [|destruct (Z.ltb_spec c 0x10000)]];
    cbn [runes.bytes_Z app].
  - rewrite byte_Z_byte_of by lia. apply decode_1. lia.
  - assert (0 ≤ c / 64 < 32)%Z by (split; [apply Z.div_pos|apply Z.div_lt_upper_bound]; lia).
    rewrite !byte_Z_byte_of by lia. apply decode_2. lia.
  - assert (0 ≤ c / 4096 < 16)%Z by (split; [apply Z.div_pos|apply Z.div_lt_upper_bound]; lia).
    rewrite !byte_Z_byte_of by lia. apply decode_3. lia.
  - assert (0 ≤ c / 262144 < 8)%Z by (split; [apply Z.div_pos|apply Z.div_lt_upper_bound]; lia).
    rewrite !byte_Z_byte_of by lia. apply decode_4. lia.
Qed.

Lemma of_string_concat cs :
  Forall scalar cs → runes.of_string (String.concat "" (runes.to_string <$> cs)) = cs.
Proof.
  unfold runes.of_string. induction 1 as [|c cs Hc Hcs IH]; [done|].
  assert (String.concat "" (runes.to_string <$> c :: cs) =
          runes.to_string c +:+ String.concat "" (runes.to_string <$> cs)) as ->.
  { destruct cs; [|done]. cbn. by rewrite str_app_nil_r. }
  by rewrite bytes_Z_app, decode_to_string, IH.
Qed.


(** The decoder only produces scalar values. *)
Lemma decode_scalar_len n bs :
  (length bs ≤ n)%nat → Forall (λ b, 0 ≤ b < 256)%Z bs → Forall scalar (runes.decode bs).
Proof.
  revert bs. induction n as [|n IH]; intros bs Hl Hbs.
  { destruct bs; simpl in Hl; [constructor|lia]. }
  destruct Hbs as [|b0 r0 H0 Hr0]; [constructor|]. cbn [runes.decode].
  assert (scalar runes.RuneError) as HE by (unfold scalar, runes.RuneError; lia).
  assert (∀ r, (length r ≤ length r0)%nat → Forall (λ b, 0 ≤ b < 256)%Z r →
    Forall scalar (runes.decode r)) as Hrec by (intros r ? ?; apply IH; [simpl in Hl; lia|done]).
  destruct (Z.ltb_spec b0 0x80).
  { constructor; [unfold scalar; lia|by apply Hrec]. }
  destruct Hr0 as [|b1 r1 H1 Hr1]; [by constructor; [|apply (Hrec [])]|].
  destruct (runes.between 0xC2 b0 0xDF && runes.accept2 b0 b1) eqn:E.
  { apply andb_true_iff in E as [E Ea]. apply between_true in E. apply accept2_cont in Ea.
    constructor; [unfold scalar; lia|apply Hrec; [simpl; lia|done]]. }
  destruct Hr1 as [|b2 r2 H2 Hr2]; [by constructor; [|apply (Hrec [b1]); [|rewrite ?Forall_cons, ?Forall_nil]]|].
  destruct (runes.between 0xE0 b0 0xEF && runes.accept2 b0 b1 && runes.cont b2) eqn:E3.
  { constructor; [|apply Hrec; [simpl; lia|done]].
    rewrite !andb_true_iff in E3. destruct E3 as [[E1 Ea] Ec].
    apply between_true in E1, Ec. unfold scalar. unfold runes.accept2 in Ea.
    repeat case_match; rewrite ?Z.eqb_eq, ?Z.eqb_neq in *; apply between_true in Ea; lia. }
  destruct Hr2 as [|b3 r3 H3 Hr3]; [by constructor; [|apply (Hrec [b1; b2]); [|rewrite ?Forall_cons, ?Forall_nil]]|].
  destruct (runes.between 0xF0 b0 0xF4 && runes.accept2 b0 b1 && runes.cont b2 && runes.cont b3) eqn:E4.
  { constructor; [|apply Hrec; [simpl; lia|done]].
    rewrite !andb_true_iff in E4. destruct E4 as [[[E1 Ea] Ec] Ec'].
    apply between_true in E1, Ec, Ec'. unfold scalar. unfold runes.accept2 in Ea.
    repeat case_match; rewrite ?Z.eqb_eq, ?Z.eqb_neq in *; apply between_true in Ea; lia. }
  constructor; [done|]. apply (Hrec (b1 :: b2 :: b3 :: r3)); [done|by rewrite ?Forall_cons, ?Forall_nil].
Qed.

Lemma of_string_scalar s : Forall scalar (runes.of_string s).
Proof.
  eapply decode_scalar_len; [done|].
  induction s as [|a s IH]; constructor; [apply byte_Z_range|done].
Qed.

(** ** Strings on the wire *)

Definition valid_utf8 (s : string) : Prop := json.coerce s = s.

#[export] Instance valid_utf8_dec s : Decision (valid_utf8 s).
Proof. unfold valid_utf8. apply _. Defined.

(** Coercion happens once: the result is valid. *)
Lemma coerce_idemp s : json.coerce (json.coerce s) = json.coerce s.
Proof.
  unfold json.coerce at 1. unfold json.coerce at 1.
  by rewrite of_string_concat by apply of_string_scalar.
Qed.

Lemma coerce_nil : json.coerce "" = "".
Proof. done. Qed.

(** ASCII strings are valid. *)
Lemma ascii_valid s :
  Forall (λ b, 0 ≤ b < 0x80)%Z (runes.bytes_Z s) → valid_utf8 s.
Proof.
  unfold valid_utf8, json.coerce, runes.of_string.
  induction s as [|a s IH]; [done|]. cbn [runes.bytes_Z]. intros [Ha Hs]%Forall_cons.
  rewrite decode_1 by done. rewrite fmap_cons.
  assert (runes.to_string (runes.byte_Z a) = String a "") as ->.
  { unfold runes.to_string. rewrite to_string_scalar by (unfold scalar; lia).
    destruct (Z.ltb_spec (runes.byte_Z a) 0x80); [|lia]. f_equal.
    unfold runes.byte_of, runes.byte_Z. rewrite N2Z.id. apply ascii_N_embedding. }
  specialize (IH Hs). destruct (runes.to_string <$> _) as [|t l]; [by rewrite <- IH|].
  change (String a (String.concat "" (t :: l)) = String a s). by rewrite IH.
Qed.

(** Valid strings can be put together. *)
Lemma concat_app_nil (l l' : list string) :
  String.concat "" (l ++ l') = String.concat "" l +:+ String.concat "" l'.
Proof.
  assert (∀ (x : string) m, String.concat "" (x :: m) = x +:+ String.concat "" m) as Hc
    by (intros x [|y m]; [by rewrite str_app_nil_r|done]).
  induction l as [|x l IH]; [done|]. rewrite <- app_comm_cons, !Hc, IH. by rewrite str_app_assoc.
Qed.

Lemma valid_utf8_app a b : valid_utf8 a → valid_utf8 b → valid_utf8 (a +:+ b).
Proof.
  unfold valid_utf8. intros Ha Hb.
  assert (a +:+ b =
    String.concat "" (runes.to_string <$> (runes.of_string a ++ runes.of_string b))) as ->.
  { rewrite fmap_app, concat_app_nil. unfold json.coerce in Ha, Hb. by rewrite Ha, Hb. }
  unfold json.coerce. rewrite of_string_concat; [done|].
  apply Forall_app; split; apply of_string_scalar.
Qed.

Lemma digits_valid s :
  Forall (λ b, 48 ≤ b ≤ 57)%Z (runes.bytes_Z s) → valid_utf8 s.
Proof. intros H. apply ascii_valid. eapply Forall_impl; [exact H|]. simpl. lia. Qed.

#[export] Hint Rewrite coerce_idemp : sky_rw.
#[export] Hint Resolve valid_utf8_app : sky.
