(* ===== verification/Url.v ===== *)
(** * URLs (net/url, as net/http uses it)

    A client gives net/http a URL as a string; the server's router sees the
    path net/http has parsed from the request line.  Modelled: the escaping
    rules for paths, the split into path and query, what a client sends for a
    URL and what the server makes of it.  [transparent_path]: a path without
    percent sign, question mark, hash or control byte arrives as it was. *)

From S2P Require Import Prelude GoLib Json.

Module url.

Definition byte (a : ascii) : Z := runes.byte_Z a.

(** A byte below 0x20, or 0x7F. *)
Definition ctl (a : ascii) : bool := (byte a <? 0x20)%Z || (byte a =? 0x7F)%Z.

Fixpoint any (p : ascii → bool) (s : string) : bool :=
  match s with EmptyString => false | String a s' => p a || any p s' end.

(** stringContainsCTLByte *)
Definition stringContainsCTLByte (s : string) : bool := any ctl s.

(** strings.Cut(s, sep) for a separator of one byte: before, after, found. *)
Fixpoint Cut (sep : ascii) (s : string) : string * string * bool :=
  match s with
  | EmptyString => ("", "", false)
  | String a s' =>
      if decide (a = sep) then ("", s', true)
      else let '(x, y, f) := Cut sep s' in (String a x, y, f)
  end.

(** ** Percent escapes *)

Definition unhex (a : ascii) : option Z :=
  let c := byte a in
  if runes.between 48 c 57 then Some (c - 48)%Z
  else if runes.between 97 c 102 then Some (c - 97 + 10)%Z
  else if runes.between 65 c 70 then Some (c - 65 + 10)%Z
  else None.

Definition upperhex (d : Z) : ascii := runes.byte_of (if (d <? 10)%Z then 48 + d else 55 + d).

(** unescape: in a query a plus sign is a space.  None is an EscapeError. *)
Fixpoint unescape (query : bool) (s : string) : option string :=
  match s with
  | EmptyString => Some ""
  | String a s1 =>
      if decide (a = "%"%char) then
        match s1 with
        | String h (String l s2) =>
            match unhex h, unhex l with
            | Some x, Some y => String (runes.byte_of (x * 16 + y)) <$> unescape query s2
            | _, _ => None
            end
        | _ => None
        end
      else if query && bool_decide (a = "+"%char) then String " "%char <$> unescape query s1
      else String a <$> unescape query s1
  end.

(** Letters, digits and the unreserved marks - _ . ~ *)
Definition unreserved (a : ascii) : bool :=
  let c := byte a in
  runes.between 97 c 122 || runes.between 65 c 90 || runes.between 48 c 57
  || strings.has_char a "-_.~".

(** shouldEscape in the mode of a path. *)
Definition shouldEscape (a : ascii) : bool :=
  negb (unreserved a || strings.has_char a "$&+,/:;=@").

Fixpoint escape (s : string) : string :=
  match s with
  | EmptyString => ""
  | String a s' =>
      if shouldEscape a
      then String "%"%char (String (upperhex (byte a / 16)) (String (upperhex (byte a mod 16))
             (escape s')))
      else String a (escape s')
  end.

(** validEncoded in the mode of a path. *)
Definition validEncoded (s : string) : bool :=
  negb (any (λ a, negb (strings.has_char a "!$&'()*+,;=:@[]%") && shouldEscape a) s).

(** URL.setPath: the fields Path and RawPath. *)
Definition setPath (p : string) : option (string * string) :=
  match unescape false p with
  | None => None
  | Some path => Some (path, if decide (escape path = p) then "" else p)
  end.

(** URL.EscapedPath *)
Definition EscapedPath (u : string * string) : string :=
  let '(path, raw) := u in
  if negb (bool_decide (raw = "")) && validEncoded raw
     && bool_decide (unescape false raw = Some path)
  then raw
  else if decide (path = "*") then "%2A" else escape path.

(** ** A request on its way *)

(** What follows the authority in the URL of a request: the fields Path,
    RawPath and RawQuery, or a parse error.  The fragment is cut off first. *)
Definition parse_target (t : string) : option (string * string * string) :=
  let '(t, frag, _) := Cut "#"%char t in
  match unescape false frag with
  | None => None
  | Some _ =>
      if stringContainsCTLByte t then None
      else
        let '(p, q, _) := Cut "?"%char t in
        match setPath p with
        | None => None
        | Some (path, raw) => Some (path, raw, q)
        end
  end.

(** The server parses the path of the request line; the router takes RawPath
    when it is set and Path otherwise. *)
Definition server_path (line_path : string) : option string :=
  match setPath line_path with
  | None => None
  | Some (path, raw) => Some (if decide (raw = "") then path else raw)
  end.

(** Query().Get(key): the first value of the key, or the empty string; a pair
    that does not unescape, or contains a semicolon, is skipped. *)
Definition query_pair (key pair : string) : option string :=
  if strings.has_char ";"%char pair then None
  else
    let '(k, v, _) := Cut "="%char pair in
    match unescape true k, unescape true v with
    | Some k, Some v => if decide (k = key) then Some v else None
    | _, _ => None
    end.

Definition Query_Get (key rawquery : string) : string :=
  default "" (head (omap (query_pair key)
    (filter (λ p, p ≠ "") (strings.Split "&"%char rawquery)))).

End url.
Import url.

(** ** Transparent paths *)

(** No percent sign, question mark, hash or control byte. *)
Definition transparent_byte (a : ascii) : bool :=
  negb (ctl a || strings.has_char a "%?#").

Definition transparent (s : string) : Prop := any (λ a, negb (transparent_byte a)) s = false.

#[export] Instance transparent_dec s : Decision (transparent s).
Proof. unfold transparent. apply _. Defined.

Lemma any_app p a b : any p (a +:+ b) = any p a || any p b.
Proof. induction a as [|x a IH]; [done|]. rewrite str_app_cons. simpl. by rewrite IH, orb_assoc. Qed.

Lemma transparent_app a b : transparent (a +:+ b) ↔ transparent a ∧ transparent b.
Proof. unfold transparent. by rewrite any_app, orb_false_iff. Qed.

Lemma any_impl (p q : ascii → bool) s :
  (∀ a, p a = true → q a = true) → any q s = false → any p s = false.
Proof.
  intros Hpq. induction s as [|a s IH]; [done|]. simpl. rewrite !orb_false_iff.
  intros [Hq Hs]. split; [|by apply IH]. destruct (p a) eqn:E; [|done].
  apply Hpq in E. congruence.
Qed.

(** A statement about every byte, decided by going through the 256 of them. *)
Definition all_bytes (p : ascii → bool) : bool :=
  forallb (λ n, p (ascii_of_nat n)) (seq 0 256).

Lemma all_bytes_spec p a : all_bytes p = true → p a = true.
Proof.
  unfold all_bytes. rewrite forallb_forall. intros H.
  rewrite <- (ascii_nat_embedding a). apply H. apply in_seq. pose proof (nat_ascii_bounded a). lia.
Qed.

Lemma transparent_no c s : transparent_byte c = false → transparent s → strings.has_char c s = false.
Proof.
  intros Hc. unfold transparent. induction s as [|a s IH]; [done|]. simpl.
  rewrite !orb_false_iff. intros [Ha Hs]. split; [|by apply IH].
  apply bool_decide_eq_false. intros ->. by rewrite Hc in Ha.
Qed.

Lemma Cut_absent c s : strings.has_char c s = false → Cut c s = (s, "", false).
Proof.
  induction s as [|a s IH]; [done|]. simpl. rewrite orb_false_iff, bool_decide_eq_false.
  intros [Ha Hs]. rewrite decide_False by done. by rewrite IH.
Qed.

Lemma unescape_absent s : strings.has_char "%"%char s = false → unescape false s = Some s.
Proof.
  induction s as [|a s IH]; [done|]. simpl. rewrite orb_false_iff, bool_decide_eq_false.
  intros [Ha Hs]. rewrite decide_False by done. by rewrite IH.
Qed.

Lemma hex_roundtrip a :
  unhex (upperhex (byte a / 16)) = Some (byte a / 16)%Z ∧
  unhex (upperhex (byte a mod 16)) = Some (byte a mod 16)%Z.
Proof.
  pose proof (all_bytes_spec (λ a,
    bool_decide (unhex (upperhex (byte a / 16)) = Some (byte a / 16)%Z) &&
    bool_decide (unhex (upperhex (byte a mod 16)) = Some (byte a mod 16)%Z)) a) as H.
  rewrite andb_true_iff, !bool_decide_eq_true in H. apply H. vm_compute. reflexivity.
Qed.

(** Escaping is undone by unescaping. *)
Lemma unescape_escape s : unescape false (escape s) = Some s.
Proof.
  induction s as [|a s IH]; [done|]. simpl. destruct (shouldEscape a) eqn:E; simpl.
  - destruct (hex_roundtrip a) as [-> ->]. rewrite IH. simpl. f_equal. f_equal.
    rewrite (Z.mul_comm _ 16), <- Z.div_mod by lia. unfold byte, runes.byte_of, runes.byte_Z.
    rewrite N2Z.id. apply ascii_N_embedding.
  - rewrite decide_False by (by intros ->). by rewrite IH.
Qed.

(** The client parses a transparent path, sends it escaped or raw, the server
    parses it again: the router sees the path itself. *)
Lemma transparent_path p :
  transparent p → p ≠ "*" →
  ∃ raw, parse_target p = Some (p, raw, "") ∧
    server_path (EscapedPath (p, raw)) = Some p.
Proof.
  intros Hp Hstar. pose proof (transparent_no "%" p eq_refl Hp) as H1.
  pose proof (unescape_absent p H1) as Hu.
  exists (if decide (escape p = p) then "" else p). split.
  - unfold parse_target. rewrite (Cut_absent "#") by (by apply transparent_no). simpl.
    rewrite (Cut_absent "?") by (by apply transparent_no).
    unfold setPath. rewrite Hu.
    unfold stringContainsCTLByte. rewrite (any_impl _ (λ a, negb (transparent_byte a))); [done| |done].
    intros a Ha. unfold transparent_byte. by rewrite Ha.
  - unfold EscapedPath, server_path, setPath.
    destruct (decide (escape p = p)) as [E|E]; simpl.
    + rewrite decide_False by done. rewrite unescape_escape.
        by rewrite (decide_True (P := escape p = escape p)).
    + destruct (negb _ && _ && _) eqn:Ev.
      * rewrite Hu, (decide_False (P := escape p = p)) by done. by rewrite decide_False
          by (intros ->; simpl in E; done).
      * rewrite decide_False by done. rewrite unescape_escape.
        by rewrite (decide_True (P := escape p = escape p)).
Qed.
