(* ===== verification/Sequence.v ===== *)
(** * Sequence numbers (internal/store/store.go, formatSequence and helpers)

    A sequential node is named by its prefix followed by [formatSequence] of a
    uint64 counter.  The lock manager depends on two facts proved here: the
    number can be read back from the name, and the byte order of the names is
    the order of the numbers as long as they fit the ten padded digits. *)

From S2P Require Import Prelude GoLib.

Module Sequence.

(** The byte '0' + d. *)
Definition digit (d : Z) : ascii := runes.byte_of (48 + d).

(** The loop of itoa: one digit is prepended per iteration. *)
Fixpoint itoa_loop (fuel : nat) (n : Z) (result : string) : string :=
  match fuel with
  | O => result
  | S fuel' =>
      if (0 <? n)%Z then itoa_loop fuel' (n / 10) (String (digit (n mod 10)) result)
      else result
  end.

(** A uint64 has at most 20 decimal digits. *)
Definition itoa_fuel : nat := 20.

Definition itoa (n : Z) : string :=
  if (n =? 0)%Z then "0" else itoa_loop itoa_fuel n "".

Definition string_replicate (n : nat) (a : ascii) : string :=
  Nat.iter n (String a) "".

Definition padLeft (s : string) (length : nat) (pad : ascii) : string :=
  if decide (length ≤ String.length s)%nat then s
  else string_replicate (length - String.length s) pad +:+ s.

Definition formatSequence (seq : Z) : string :=
  strings.Replace1
    (strings.Replace1 (strings.Replace1 "%010d" "%d" "") "%010d" "") "" ""
  +:+ padLeft (itoa seq) 10 "0"%char.

(** ** Decimal values *)

(** The value of a string read as decimal digits, starting from [acc]. *)
Definition dec_from (acc : Z) (s : string) : Z :=
  foldl (λ a b, a * 10 + (b - 48))%Z acc (runes.bytes_Z s).

Fixpoint all_digits (s : string) : bool :=
  match s with
  | EmptyString => true
  | String a s' => runes.between 48 (runes.byte_Z a) 57 && all_digits s'
  end.

Definition pow10 (s : string) : Z := 10 ^ Z.of_nat (String.length s).

End Sequence.

Import Sequence.

Example formatSequence_12 : formatSequence 12 = "0000000012".
Proof. reflexivity. Qed.

Example itoa_max_uint64 : itoa (2 ^ 64 - 1) = "18446744073709551615".
Proof. reflexivity. Qed.

Lemma byte_Z_digit d : (0 ≤ d < 10)%Z → runes.byte_Z (digit d) = (48 + d)%Z.
Proof.
  intros Hd. unfold runes.byte_Z, digit, runes.byte_of.
  rewrite N_ascii_embedding; lia.
Qed.

Lemma dec_from_cons acc a s :
  dec_from acc (String a s) = dec_from (acc * 10 + (runes.byte_Z a - 48)) s.
Proof. done. Qed.

Lemma pow10_cons a s : pow10 (String a s) = (10 * pow10 s)%Z.
Proof. unfold pow10. simpl String.length. rewrite Nat2Z.inj_succ, Z.pow_succ_r; lia. Qed.

Lemma dec_from_acc acc s : dec_from acc s = (acc * pow10 s + dec_from 0 s)%Z.
Proof.
  revert acc. induction s as [|a s IH]; intros acc.
  - unfold dec_from, pow10. simpl. lia.
  - rewrite !dec_from_cons, IH, (IH (0 * 10 + _)%Z), pow10_cons. lia.
Qed.

Lemma dec_from_app acc s t : dec_from acc (s +:+ t) = dec_from (dec_from acc s) t.
Proof.
  revert acc. induction s as [|a s IH]; intros acc; [done|].
  rewrite str_app_cons, !dec_from_cons. apply IH.
Qed.

Lemma pow10_pos s : (0 < pow10 s)%Z.
Proof. unfold pow10. lia. Qed.

Lemma dec_bounds s : all_digits s = true → (0 ≤ dec_from 0 s < pow10 s)%Z.
Proof.
  induction s as [|a s IH]; [unfold dec_from, pow10; simpl; lia|].
  simpl. unfold runes.between. intros [Ha Hs]%andb_true_iff. specialize (IH Hs).
  rewrite dec_from_cons, dec_from_acc.
  rewrite pow10_cons. nia.
Qed.

(** Byte order of digit strings of the same length is numeric order. *)
Lemma compare_digits s t :
  all_digits s = true → all_digits t = true → String.length s = String.length t →
  String.compare s t = Z.compare (dec_from 0 s) (dec_from 0 t).
Proof.
  revert t. induction s as [|a s IH]; intros [|b t]; try done.
  intros Hs Ht [= Hlen]. pose proof Hs as [Ha Hs']%andb_true_iff.
  pose proof Ht as [Hb Ht']%andb_true_iff.
  pose proof (dec_bounds s Hs'). pose proof (dec_bounds t Ht').
  assert (pow10 s = pow10 t) as Hp by (unfold pow10; by rewrite Hlen).
  rewrite !dec_from_cons, (dec_from_acc _ s), (dec_from_acc _ t).
  simpl String.compare. unfold Ascii.compare.
  assert (N.compare (N_of_ascii a) (N_of_ascii b)
          = Z.compare (runes.byte_Z a) (runes.byte_Z b)) as ->.
  { unfold runes.byte_Z. by rewrite N2Z.inj_compare. }
  rewrite (IH t) by done.
  destruct (Z.compare_spec (runes.byte_Z a) (runes.byte_Z b)) as [E|E|E].
  - rewrite E, Hp. symmetry. apply Zcompare_plus_compat.
  - symmetry. apply Z.compare_lt_iff. nia.
  - symmetry. apply Z.compare_gt_iff. nia.
Qed.

(** ** itoa and padLeft *)

Lemma all_digits_app s t : all_digits (s +:+ t) = all_digits s && all_digits t.
Proof.
  induction s as [|a s IH]; [done|]. rewrite str_app_cons. simpl.
  by rewrite IH, andb_assoc.
Qed.

Lemma digit_ok d : (0 ≤ d < 10)%Z → runes.between 48 (runes.byte_Z (digit d)) 57 = true.
Proof. intros. rewrite byte_Z_digit by done. unfold runes.between. lia. Qed.

Lemma itoa_loop_spec fuel n r :
  (0 ≤ n < 10 ^ Z.of_nat fuel)%Z → all_digits r = true →
  all_digits (itoa_loop fuel n r) = true ∧
  dec_from 0 (itoa_loop fuel n r) = (n * pow10 r + dec_from 0 r)%Z.
Proof.
  revert n r. induction fuel as [|fuel IH]; intros n r Hn Hr; simpl.
  - assert (n = 0)%Z as -> by (simpl in Hn; lia). split; [done|lia].
  - destruct (Z.ltb_spec 0 n); [|assert (n = 0)%Z as -> by lia; split; [done|lia]].
    rewrite Nat2Z.inj_succ, Z.pow_succ_r in Hn by lia.
    pose proof (Z.mod_pos_bound n 10 ltac:(lia)) as Hm.
    pose proof (Z.div_mod n 10 ltac:(lia)) as Hdm.
    destruct (IH (n / 10)%Z (String (digit (n mod 10)) r)) as [IHd IHv].
    { split; [apply Z.div_pos; lia|apply Z.div_lt_upper_bound; lia]. }
    { simpl. by rewrite digit_ok. }
    split; [done|]. rewrite IHv, dec_from_cons, dec_from_acc, byte_Z_digit by done.
    rewrite pow10_cons. rewrite Hdm at 3. lia.
Qed.

(** The number of digits: at most k for a number below 10^k. *)
Lemma itoa_loop_length fuel n r k :
  (0 ≤ n < 10 ^ Z.of_nat k)%Z →
  (String.length (itoa_loop fuel n r) ≤ k + String.length r)%nat.
Proof.
  revert n r k. induction fuel as [|fuel IH]; intros n r k Hn; simpl; [lia|].
  destruct (Z.ltb_spec 0 n); [|lia].
  destruct k as [|k]; [simpl in Hn; lia|].
  rewrite Nat2Z.inj_succ, Z.pow_succ_r in Hn by lia.
  pose proof (IH (n / 10)%Z (String (digit (n mod 10)) r) k) as H'. simpl in H'.
  assert (0 ≤ n / 10 < 10 ^ Z.of_nat k)%Z as Hq.
  { split; [apply Z.div_pos; lia|apply Z.div_lt_upper_bound; lia]. }
  specialize (H' Hq). lia.
Qed.

Lemma itoa_spec n :
  in_u64 n → all_digits (itoa n) = true ∧ dec_from 0 (itoa n) = n.
Proof.
  intros Hn. unfold itoa. destruct (Z.eqb_spec n 0) as [->|]; [done|].
  destruct (itoa_loop_spec itoa_fuel n "") as [Hd Hv]; [|done|].
  - unfold in_u64, u64_max, itoa_fuel in *. lia.
  - split; [done|]. rewrite Hv. unfold pow10, dec_from. simpl. lia.
Qed.

Lemma itoa_length n : (0 ≤ n < 10 ^ 10)%Z → (String.length (itoa n) ≤ 10)%nat.
Proof.
  intros Hn. unfold itoa. destruct (Z.eqb_spec n 0); [simpl; lia|].
  pose proof (itoa_loop_length itoa_fuel n "" 10 Hn). simpl in *. lia.
Qed.

Lemma replicate_zeros k s :
  all_digits (string_replicate k "0"%char +:+ s) = all_digits s ∧
  dec_from 0 (string_replicate k "0"%char +:+ s) = dec_from 0 s ∧
  String.length (string_replicate k "0"%char +:+ s) = (k + String.length s)%nat.
Proof.
  induction k as [|k (IHd & IHv & IHl)]; [done|].
  change (string_replicate (S k) "0"%char) with (String "0" (string_replicate k "0"%char)).
  rewrite str_app_cons. simpl. rewrite IHd, IHl. by rewrite dec_from_cons.
Qed.

Lemma formatSequence_eq seq : formatSequence seq = padLeft (itoa seq) 10 "0"%char.
Proof. done. Qed.

Lemma padLeft_zeros s :
  all_digits (padLeft s 10 "0"%char) = all_digits s ∧
  dec_from 0 (padLeft s 10 "0"%char) = dec_from 0 s.
Proof.
  unfold padLeft. case_decide; [done|].
  destruct (replicate_zeros (10 - String.length s) s) as (? & ? & ?). done.
Qed.

Lemma formatSequence_digits n :
  in_u64 n → all_digits (formatSequence n) = true ∧ dec_from 0 (formatSequence n) = n.
Proof.
  intros Hn. rewrite formatSequence_eq.
  destruct (padLeft_zeros (itoa n)) as [-> ->]. by apply itoa_spec.
Qed.

Lemma formatSequence_length n :
  (0 ≤ n < 10 ^ 10)%Z → String.length (formatSequence n) = 10%nat.
Proof.
  intros Hn. rewrite formatSequence_eq. unfold padLeft.
  pose proof (itoa_length n Hn). case_decide; [lia|].
  destruct (replicate_zeros (10 - String.length (itoa n)) (itoa n)) as (_ & _ & ->). lia.
Qed.

Lemma formatSequence_compare a b :
  (0 ≤ a < 10 ^ 10)%Z → (0 ≤ b < 10 ^ 10)%Z →
  String.compare (formatSequence a) (formatSequence b) = Z.compare a b.
Proof.
  intros Ha Hb.
  destruct (formatSequence_digits a) as [Hda Hva]; [unfold in_u64, u64_max; lia|].
  destruct (formatSequence_digits b) as [Hdb Hvb]; [unfold in_u64, u64_max; lia|].
  rewrite compare_digits, Hva, Hvb; [done..|].
  by rewrite !formatSequence_length.
Qed.

Lemma formatSequence_inj a b :
  in_u64 a → in_u64 b → formatSequence a = formatSequence b → a = b.
Proof.
  intros Ha Hb E. destruct (formatSequence_digits a Ha) as [_ <-].
  destruct (formatSequence_digits b Hb) as [_ <-]. by rewrite E.
Qed.

Lemma all_digits_no_char c s :
  runes.between 48 (runes.byte_Z c) 57 = false → all_digits s = true →
  strings.has_char c s = false.
Proof.
  intros Hc. induction s as [|a s IH]; simpl; [done|].
  intros [Ha Hs]%andb_true_iff. rewrite IH by done.
  rewrite bool_decide_eq_false_2; [done|]. intros ->. congruence.
Qed.

(** A digit suffix keeps a path element valid. *)
Lemma valid_comp_seq c n :
  strings.has_char path.slash c = false → in_u64 n → valid_comp (c +:+ formatSequence n).
Proof.
  intros Hc Hn. destruct (formatSequence_digits n Hn) as [Hd Hv].
  assert (Hl : (10 ≤ String.length (formatSequence n))%nat).
  { rewrite formatSequence_eq. unfold padLeft. case_decide; [done|].
    destruct (replicate_zeros (10 - String.length (itoa n)) (itoa n)) as (_ & _ & ->). lia. }
  assert (Hlen : (10 ≤ String.length (c +:+ formatSequence n))%nat)
    by (rewrite str_length_app; lia).
  split_and!; try (intros E; rewrite E in Hlen; simpl in Hlen; lia).
  rewrite has_char_app, Hc. simpl. by apply all_digits_no_char.
Qed.
