(* ===== verification/DataStore.v ===== *)
(** * The hierarchical data store (internal/store/store.go)

    [Store.Store] is the Go struct: the map from paths to nodes, the sequence
    counter and the three watch callbacks.  Every exported method is one
    definition; a method that takes the write lock is a function from the
    store to (result, new store, goroutines started).  The mutex makes each
    method atomic, so a concurrent history is a sequence of these functions. *)

From S2P Require Import Prelude GoLib Sequence.

Module Store.

Inductive Error :=
| ErrNodeExists
| ErrNodeNotFound
| ErrVersionMismatch
| ErrNotEmpty
| ErrInvalidPath
| ErrEphemeralParent   (** errors.New("cannot create child under ephemeral node") *)
| ErrDeleteRoot.       (** errors.New("cannot delete root") *)

#[export] Instance Error_eq_dec : EqDecision Error.
Proof. solve_decision. Defined.

(** A []byte is a byte string; no operation distinguishes nil from empty. *)
Record Node := mkNode {
  Path : string;
  Data : string;
  Version : Z;
  Ephemeral : bool;
  SessionID : string;
  Sequential : bool;
  Seq : Z;                 (** the field Sequence *)
  Children : list string;
  CreateTime : Z;
  ModifyTime : Z
}.

(** The function values the program installs as callbacks, by name: the lock
    manager's onNodeDeleted and the three closures of cmd/skylock/main.go. *)
Inductive Callback :=
| lock_onNodeDeleted
| main_onCreate
| main_onUpdate
| main_onDelete.

(** A goroutine started by an operation: go s.onNodeX(path, node).  The node
    recorded is the content of the argument when the goroutine is started. *)
Inductive Goroutine :=
| GoCreate (f : Callback) (path : string) (node : Node)
| GoUpdate (f : Callback) (path : string) (node : Node)
| GoDelete (f : Callback) (path : string).

Record Store := mkStore {
  nodes : gmap string Node;
  seqCounter : Z;
  onNodeCreate : option Callback;
  onNodeDelete : option Callback;
  onNodeUpdate : option Callback
}.

Definition set_nodes (m : gmap string Node) (s : Store) : Store :=
  mkStore m (seqCounter s) (onNodeCreate s) (onNodeDelete s) (onNodeUpdate s).

Definition set_seqCounter (n : Z) (s : Store) : Store :=
  mkStore (nodes s) n (onNodeCreate s) (onNodeDelete s) (onNodeUpdate s).

Definition set_Children (cs : list string) (n : Node) : Node :=
  mkNode (Path n) (Data n) (Version n) (Ephemeral n) (SessionID n) (Sequential n)
    (Seq n) cs (CreateTime n) (ModifyTime n).

(** parentNode.Children = append(parentNode.Children, name) *)
Definition add_child (name : string) (n : Node) : Node :=
  set_Children (Children n ++ [name]) n.

(** The removal loop over parentNode.Children. *)
Definition drop_child (name : string) (n : Node) : Node :=
  set_Children (remove_first name (Children n)) n.

(** NewStore, with the two clock readings of the root node. *)
Definition NewStore (now1 now2 : Z) : Store :=
  mkStore {[ "/" := mkNode "/" "" 0 false "" false 0 [] now1 now2 ]} 0 None None None.

Definition SetWatchCallbacks (onCreate onUpdate onDelete : option Callback) (s : Store)
  : Store :=
  mkStore (nodes s) (seqCounter s) onCreate onDelete onUpdate.

Definition normalizePath (p : string) : string :=
  if decide (p = "") then "/"
  else
    let p := if strings.HasPrefix p "/" then p else "/" +:+ p in
    path.Clean p.

Definition parentPath (p : string) : string :=
  if decide (p = "/") then ""
  else
    let parent := path.Dir p in
    if decide (parent = ".") then "/" else parent.

Definition baseName (p : string) : string := path.Base p.

(** go f(...), when the callback is set. *)
Definition spawn (f : option Callback) (g : Callback → Goroutine) : list Goroutine :=
  match f with Some f => [g f] | None => [] end.

Definition Create (nodePath data : string) (ephemeral : bool) (sessionID : string)
    (sequential : bool) (now1 now2 : Z) (s : Store)
  : result Error string * Store * list Goroutine :=
  let nodePath := normalizePath nodePath in
  let parent := parentPath nodePath in
  let parentCheck :=
    if decide (parent = "") then None
    else match nodes s !! parent with
         | None => Some ErrNodeNotFound
         | Some parentNode =>
             if Ephemeral parentNode then Some ErrEphemeralParent else None
         end in
  match parentCheck with
  | Some e => (Err e, s, [])
  | None =>
      let s := if sequential then set_seqCounter (u64 (seqCounter s + 1)) s else s in
      let actualPath :=
        if sequential then nodePath +:+ Sequence.formatSequence (seqCounter s)
        else nodePath in
      match nodes s !! actualPath with
      | Some _ => (Err ErrNodeExists, s, [])
      | None =>
          let node := mkNode actualPath data 1 ephemeral sessionID sequential
                        (seqCounter s) [] now1 now2 in
          let m := <[actualPath := node]> (nodes s) in
          let m := if decide (parent = "") then m
                   else alter (add_child (baseName actualPath)) parent m in
          (Ok actualPath, set_nodes m s,
           spawn (onNodeCreate s) (λ f, GoCreate f actualPath node))
      end
  end.

Definition Get (nodePath : string) (s : Store) : result Error Node :=
  match nodes s !! normalizePath nodePath with
  | None => Err ErrNodeNotFound
  | Some node => Ok node
  end.

(** The CAS guard: expectedVersion >= 0 && uint64(expectedVersion) != node.Version *)
Definition version_conflict (expectedVersion : Z) (node : Node) : bool :=
  (0 <=? expectedVersion)%Z && negb (u64 expectedVersion =? Version node)%Z.

Definition Set_ (nodePath data : string) (expectedVersion now : Z) (s : Store)
  : result Error Node * Store * list Goroutine :=
  let nodePath := normalizePath nodePath in
  match nodes s !! nodePath with
  | None => (Err ErrNodeNotFound, s, [])
  | Some node =>
      if version_conflict expectedVersion node then (Err ErrVersionMismatch, s, [])
      else
        let node := mkNode (Path node) data (u64 (Version node + 1)) (Ephemeral node)
                      (SessionID node) (Sequential node) (Seq node) (Children node)
                      (CreateTime node) now in
        (Ok node, set_nodes (<[nodePath := node]> (nodes s)) s,
         spawn (onNodeUpdate s) (λ f, GoUpdate f nodePath node))
  end.

Definition Delete (nodePath : string) (expectedVersion : Z) (s : Store)
  : result Error unit * Store * list Goroutine :=
  let nodePath := normalizePath nodePath in
  if decide (nodePath = "/") then (Err ErrDeleteRoot, s, [])
  else
    match nodes s !! nodePath with
    | None => (Err ErrNodeNotFound, s, [])
    | Some node =>
        if version_conflict expectedVersion node then (Err ErrVersionMismatch, s, [])
        else if decide (0 < length (Children node))%nat then (Err ErrNotEmpty, s, [])
        else
          let parent := parentPath nodePath in
          (* parentNode := s.nodes[parent] is dereferenced without a check *)
          if decide (parent ≠ "" ∧ nodes s !! parent = None) then (Panic, s, [])
          else
            let m := if decide (parent = "") then nodes s
                     else alter (drop_child (baseName nodePath)) parent (nodes s) in
            (Ok tt, set_nodes (delete nodePath m) s,
             spawn (onNodeDelete s) (λ f, GoDelete f nodePath))
    end.

Definition GetChildren (nodePath : string) (s : Store) : result Error (list string) :=
  match nodes s !! normalizePath nodePath with
  | None => Err ErrNodeNotFound
  | Some node => Ok (sort_Strings (Children node))
  end.

Definition Exists (nodePath : string) (s : Store) : bool :=
  bool_decide (is_Some (nodes s !! normalizePath nodePath)).

(** node.Ephemeral && node.SessionID == sessionID *)
Definition owned_ephemeral (sessionID : string) (n : Node) : bool :=
  Ephemeral n && bool_decide (SessionID n = sessionID).

Definition owned_at (sessionID : string) (m : gmap string Node) (p : string) : bool :=
  match m !! p with Some n => owned_ephemeral sessionID n | None => false end.

(** The keys the first loop of DeleteEphemerals collects.  A Go map is
    iterated in an unspecified order: [order] is the sequence of keys the loop
    meets, any permutation of the keys of the map. *)
Definition ephemeral_keys (order : list string) (sessionID : string) (s : Store)
  : list string :=
  filter (λ p, owned_at sessionID (nodes s) p = true) order.

(** sort.Slice by descending path length. *)
Definition longer (p q : string) : Prop := (String.length q ≤ String.length p)%nat.
#[export] Instance longer_dec : RelDecision longer.
Proof. intros p q. unfold longer. apply _. Defined.

(** One iteration of the deletion loop. *)
Definition delete_ephemeral (nodePath : string) (m : gmap string Node)
  : gmap string Node :=
  let parent := parentPath nodePath in
  let m := if decide (parent = "") then m
           else match m !! parent with
                | Some _ => alter (drop_child (baseName nodePath)) parent m
                | None => m
                end in
  delete nodePath m.

Definition DeleteEphemerals (order : list string) (sessionID : string) (s : Store)
  : list string * Store * list Goroutine :=
  let deleted := merge_sort longer (ephemeral_keys order sessionID s) in
  let m := foldl (λ m p, delete_ephemeral p m) (nodes s) deleted in
  (deleted, set_nodes m s,
   flat_map (λ p, spawn (onNodeDelete s) (λ f, GoDelete f p)) deleted).

(** GetByPrefix; the order of the result is the map iteration order. *)
Definition GetByPrefix (order : list string) (prefix : string) (s : Store) : list Node :=
  let prefix := normalizePath prefix in
  omap (λ p, if strings.HasPrefix p prefix then nodes s !! p else None) order.

Definition Count (s : Store) : Z := Z.of_nat (size (nodes s)).

(** The keys of the map, one possible iteration order. *)
Definition keys (s : Store) : list string := (map_to_list (nodes s)).*1.

End Store.
