(* ===== verification/StoreInv.v ===== *)
(** * The tree invariant of the store

    [wf] says that the map of internal/store/store.go is a tree: every key is
    canonical, every node but the root has an existing, non-ephemeral parent
    that lists it, every listed child exists, and no child is listed twice.
    Every operation preserves it, with one exception that [Create] has in the
    code: a sequential node requested at the root path. *)

From S2P Require Import Prelude GoLib Sequence DataStore.
Import Store.

(** ** Paths *)

Lemma normalizePath_abs p :
  ∃ cs, Forall valid_comp cs ∧ normalizePath p = abs_path cs.
Proof.
  unfold normalizePath. case_decide; [by exists []|].
  destruct (strings.HasPrefix p "/") eqn:E; apply Clean_rooted; [done|].
  apply HasPrefix_spec. by eexists.
Qed.

Lemma normalizePath_canonical p : canonical (normalizePath p).
Proof. destruct (normalizePath_abs p) as (cs & ? & ->). by exists cs. Qed.

Lemma normalizePath_id cs : Forall valid_comp cs → normalizePath (abs_path cs) = abs_path cs.
Proof.
  intros. unfold normalizePath. rewrite decide_False by done.
  rewrite abs_path_rooted. by apply Clean_abs.
Qed.

Lemma normalizePath_of_canonical p : canonical p → normalizePath p = p.
Proof. intros (cs & ? & ->). by apply normalizePath_id. Qed.

Lemma parentPath_abs cs c :
  Forall valid_comp (cs ++ [c]) → parentPath (abs_path (cs ++ [c])) = abs_path cs.
Proof.
  intros H. unfold parentPath. rewrite decide_False by auto with sky.
  rewrite Dir_abs by done. by rewrite decide_False.
Qed.

Lemma baseName_abs cs c :
  Forall valid_comp (cs ++ [c]) → baseName (abs_path (cs ++ [c])) = c.
Proof. apply Base_abs. Qed.

(** A canonical path is the root or a child of a canonical path. *)
Inductive path_view : string → Prop :=
| view_root : path_view "/"
| view_child cs c : Forall valid_comp (cs ++ [c]) → path_view (abs_path (cs ++ [c])).

Lemma canonical_view p : canonical p → path_view p.
Proof.
  intros (cs & Hcs & ->). induction cs as [|c cs _] using rev_ind; [constructor|].
  by constructor.
Qed.

Lemma normalizePath_view p : path_view (normalizePath p).
Proof. apply canonical_view, normalizePath_canonical. Qed.

(** ** The invariant *)

Record wf_nodes (m : gmap string Node) : Prop := {
  wf_root : ∃ r, m !! "/" = Some r ∧ Ephemeral r = false;
  wf_key : ∀ p n, m !! p = Some n → Path n = p ∧ canonical p;
  wf_parent : ∀ cs c n, Forall valid_comp (cs ++ [c]) →
    m !! abs_path (cs ++ [c]) = Some n →
    ∃ pn, m !! abs_path cs = Some pn ∧ Ephemeral pn = false ∧ c ∈ Children pn;
  wf_child : ∀ cs n c, Forall valid_comp cs → m !! abs_path cs = Some n →
    c ∈ Children n → valid_comp c ∧ is_Some (m !! abs_path (cs ++ [c]));
  wf_nodup : ∀ p n, m !! p = Some n → NoDup (Children n);
  wf_version : ∀ p n, m !! p = Some n → in_u64 (Version n)
}.

Definition wf (s : Store) : Prop := wf_nodes (nodes s) ∧ in_u64 (seqCounter s).

Lemma wf_NewStore now1 now2 : wf (NewStore now1 now2).
Proof.
  split; [|done]. split; simpl.
  - eexists. by rewrite lookup_singleton_eq.
  - intros p n [<- <-]%lookup_singleton_Some. split; [done|]. by exists [].
  - intros cs c n H E. exfalso. apply lookup_singleton_Some in E as [E _].
    by eapply abs_path_snoc_not_root.
  - intros cs n c _ [_ <-]%lookup_singleton_Some. simpl. by rewrite elem_of_nil.
  - intros p n [_ <-]%lookup_singleton_Some. constructor.
  - intros p n [_ <-]%lookup_singleton_Some. done.
Qed.

(** An ephemeral node has no children: they could not have been created. *)
Lemma wf_ephemeral_leaf m p n :
  wf_nodes m → m !! p = Some n → Ephemeral n = true → Children n = [].
Proof.
  intros Hwf Hp He. destruct (wf_key _ Hwf _ _ Hp) as [_ (cs & Hcs & ->)].
  destruct (Children n) as [|c l] eqn:E; [done|].
  destruct (wf_child _ Hwf cs n c) as [Hc [cn Hcn]]; [done..|by rewrite E; left|].
  destruct (wf_parent _ Hwf cs c cn) as (pn & Hpn & ? & _);
    [by apply Forall_app; split; [|constructor]|done|]. congruence.
Qed.

(** Whether a node is listed by its parent is whether it exists. *)
Lemma wf_listed m cs c pn :
  wf_nodes m → Forall valid_comp (cs ++ [c]) → m !! abs_path cs = Some pn →
  c ∈ Children pn ↔ is_Some (m !! abs_path (cs ++ [c])).
Proof.
  intros Hwf Hv Hp. split.
  - intros Hin. apply Forall_app in Hv as [? _]. by eapply wf_child.
  - intros [n Hn]. destruct (wf_parent _ Hwf _ _ _ Hv Hn) as (pn' & Hp' & _ & ?).
    congruence.
Qed.

Lemma abs_path_child_ne cs c : Forall valid_comp (cs ++ [c]) → abs_path cs ≠ abs_path (cs ++ [c]).
Proof.
  intros H E. pose proof H as [Hcs _]%Forall_app. apply abs_path_inj in E; [|done..].
  apply (f_equal length) in E. rewrite length_app in E. simpl in E. lia.
Qed.

(** ** Linking and unlinking a leaf *)

(** Add a childless node under an existing, non-ephemeral parent. *)
Definition link (cs : list string) (c : string) (node : Node) (m : gmap string Node) :=
  alter (add_child c) (abs_path cs) (<[abs_path (cs ++ [c]) := node]> m).

(** Remove a node and its name in the parent. *)
Definition unlink (cs : list string) (c : string) (m : gmap string Node) :=
  delete (abs_path (cs ++ [c])) (alter (drop_child c) (abs_path cs) m).

(** What a lookup gives after [link]. *)
Lemma lookup_link cs c node m p n :
  Forall valid_comp (cs ++ [c]) →
  link cs c node m !! p = Some n →
  (p = abs_path (cs ++ [c]) ∧ n = node) ∨
  (p ≠ abs_path (cs ++ [c]) ∧ ∃ n0, m !! p = Some n0 ∧
     n = if decide (p = abs_path cs) then add_child c n0 else n0).
Proof.
  intros Hv. pose proof (abs_path_child_ne cs c Hv) as Hne. unfold link.
  destruct (decide (p = abs_path (cs ++ [c]))) as [->|Hp].
  - rewrite lookup_alter_ne, lookup_insert_eq by done. left. by simplify_eq.
  - intros Hl. right. split; [done|]. case_decide as Hd.
    + subst p. rewrite lookup_alter_eq, lookup_insert_ne in Hl by done.
      apply fmap_Some in Hl as (n0 & ? & ->). by exists n0.
    + rewrite lookup_alter_ne, lookup_insert_ne in Hl by done. by exists n.
Qed.

Lemma lookup_link_other cs c node m p n0 :
  Forall valid_comp (cs ++ [c]) → m !! p = Some n0 → p ≠ abs_path (cs ++ [c]) →
  link cs c node m !! p = Some (if decide (p = abs_path cs) then add_child c n0 else n0).
Proof.
  intros Hv Hp Hne. unfold link. rewrite lookup_alter.
  case_decide as E; subst; rewrite lookup_insert_ne, Hp by done; by case_decide.
Qed.

Lemma lookup_link_new cs c node m :
  Forall valid_comp (cs ++ [c]) → link cs c node m !! abs_path (cs ++ [c]) = Some node.
Proof.
  intros Hv. unfold link. rewrite lookup_alter, decide_False by (by apply abs_path_child_ne).
  by rewrite lookup_insert_eq.
Qed.

Lemma lookup_unlink cs c m p n :
  Forall valid_comp (cs ++ [c]) →
  unlink cs c m !! p = Some n ↔
  p ≠ abs_path (cs ++ [c]) ∧
  ∃ n0, m !! p = Some n0 ∧ n = if decide (p = abs_path cs) then drop_child c n0 else n0.
Proof.
  intros Hv. unfold unlink. rewrite lookup_delete_Some. case_decide as Hd.
  - subst p. rewrite lookup_alter_eq, fmap_Some. naive_solver.
  - rewrite lookup_alter_ne by done. naive_solver.
Qed.

(** [link] preserves the invariant. *)
Lemma wf_link m cs c node pn :
  wf_nodes m → Forall valid_comp (cs ++ [c]) →
  m !! abs_path (cs ++ [c]) = None → m !! abs_path cs = Some pn → Ephemeral pn = false →
  Path node = abs_path (cs ++ [c]) → Children node = [] → in_u64 (Version node) →
  wf_nodes (link cs c node m).
Proof.
  intros Hwf Hv Hfresh Hpn He HP HC HV.
  pose proof Hv as [Hcs [Hc _]%Forall_cons]%Forall_app.
  assert (Hni : c ∉ Children pn).
  { rewrite (wf_listed m cs c pn) by done. rewrite Hfresh. by intros [? ?]. }
  split.
  - destruct (wf_root _ Hwf) as (r & Hr & Her).
    eexists. split; [apply lookup_link_other; [done|exact Hr|]|by case_decide].
    intros E. rewrite <- E in Hfresh. congruence.
  - intros p n [[-> ->]|[Hne (n0 & H0 & ->)]]%lookup_link; [split; [done|by exists (cs ++ [c])]| |done].
    case_decide; exact (wf_key _ Hwf _ _ H0).
  - intros cs' c' n Hv' [[E ->]|[Hne (n0 & H0 & ->)]]%lookup_link; [| |done].
    + apply abs_path_inj in E as [-> [= ->]]%app_inj_2; [|done..].
      exists (add_child c pn). split_and!; [|done|].
      * erewrite lookup_link_other; [|done..|by apply abs_path_child_ne].
        by rewrite decide_True.
      * simpl. apply elem_of_app. right. by left.
    + destruct (wf_parent _ Hwf _ _ _ Hv' H0) as (pn' & Hpn' & He' & Hin').
      eexists. split_and!; [apply lookup_link_other; [done..|]|by case_decide|].
      * intros E. rewrite E in Hpn'. congruence.
      * case_decide; [|done]. simpl. apply elem_of_app. by left.
  - intros cs' n c' Hcs' [[E ->]|[Hne (n0 & H0 & ->)]]%lookup_link Hin; [| |done].
    + rewrite HC in Hin. by apply elem_of_nil in Hin.
    + assert (c' = c ∧ cs' = cs ∨ c' ∈ Children n0) as [[-> ->]|Hin'].
      { case_decide as E; [|by right]. apply abs_path_inj in E; [|done..].
        simpl in Hin. apply elem_of_app in Hin as [?|?%list_elem_of_singleton]; [by right|by left]. }
      * split; [done|]. rewrite lookup_link_new by done. by eexists.
      * destruct (wf_child _ Hwf _ _ _ Hcs' H0 Hin') as [Hc' [n' Hn']]. split; [done|].
        eexists. apply lookup_link_other; [done..|]. intros E. rewrite E in Hn'. congruence.
  - intros p n [[-> ->]|[Hne (n0 & H0 & ->)]]%lookup_link; [rewrite HC; constructor| |done].
    case_decide; [|by eapply wf_nodup]. simpl. subst p. rewrite H0 in Hpn. simplify_eq.
    apply NoDup_app. split_and!; [by eapply wf_nodup| |by apply NoDup_singleton].
    intros x Hx ->%list_elem_of_singleton. done.
  - intros p n [[-> ->]|[Hne (n0 & H0 & ->)]]%lookup_link; [done| |done].
    case_decide; exact (wf_version _ Hwf _ _ H0).
Qed.

(** [unlink] of a childless node preserves the invariant. *)
Lemma wf_unlink m cs c n :
  wf_nodes m → Forall valid_comp (cs ++ [c]) →
  m !! abs_path (cs ++ [c]) = Some n → Children n = [] →
  wf_nodes (unlink cs c m).
Proof.
  intros Hwf Hv Hn HC. pose proof Hv as [Hcs [Hc _]%Forall_cons]%Forall_app.
  split.
  - destruct (wf_root _ Hwf) as (r & Hr & Her).
    eexists. split; [apply lookup_unlink; [done|]; split; [|by eexists]|by case_decide].
    intros E. by eapply abs_path_snoc_not_root.
  - intros p n' [Hne (n0 & H0 & ->)]%lookup_unlink; [|done].
    case_decide; exact (wf_key _ Hwf _ _ H0).
  - intros cs' c' n' Hv' [Hne (n0 & H0 & ->)]%lookup_unlink; [|done].
    destruct (wf_parent _ Hwf _ _ _ Hv' H0) as (pn & Hpn & He & Hin).
    eexists. split_and!; [apply lookup_unlink; [done|]; split; [|by eexists]|by case_decide|].
    + intros E. rewrite E in Hpn. rewrite Hn in Hpn. simplify_eq.
      rewrite HC in Hin. by apply elem_of_nil in Hin.
    + case_decide as E; [|done]. simpl. apply elem_of_remove_first; [by eapply wf_nodup|].
      split; [done|]. intros ->. apply Hne.
      apply Forall_app in Hv' as [? _]. by apply abs_path_inj in E as ->.
  - intros cs' n' c' Hcs' [Hne (n0 & H0 & ->)]%lookup_unlink Hin; [|done].
    assert (c' ∈ Children n0 ∧ (cs' = cs → c' ≠ c)) as [Hin' Hne'].
    { case_decide as E.
      - simpl in Hin. apply elem_of_remove_first in Hin as [??]; [done|by eapply wf_nodup].
      - split; [done|]. by intros ->. }
    destruct (wf_child _ Hwf _ _ _ Hcs' H0 Hin') as [Hc' [n1 Hn1]]. split; [done|].
    eexists. apply lookup_unlink; [done|]. split; [|by eexists].
    intros E. apply abs_path_inj in E as [-> [= ->]]%app_inj_2;
      [by apply Hne'|done|by apply Forall_app; split; [|constructor]|done].
  - intros p n' [Hne (n0 & H0 & ->)]%lookup_unlink; [|done].
    case_decide; [|by eapply wf_nodup]. simpl. eapply remove_first_NoDup, wf_nodup; done.
  - intros p n' [Hne (n0 & H0 & ->)]%lookup_unlink; [|done].
    case_decide; exact (wf_version _ Hwf _ _ H0).
Qed.

(** ** The operations in terms of [link] and [unlink] *)

Lemma valid_snoc_seq cs c n :
  Forall valid_comp (cs ++ [c]) → in_u64 n →
  Forall valid_comp (cs ++ [c +:+ Sequence.formatSequence n]).
Proof.
  intros [Hcs [(_&_&_&Hc) _]%Forall_cons]%Forall_app Hn.
  apply Forall_app; split; [done|]. constructor; [|done]. by apply valid_comp_seq.
Qed.

(** The sequence counter after a request, and the last element of the path the
    node gets. *)
Definition bump (sequential : bool) (s : Store) : Store :=
  if sequential then set_seqCounter (u64 (seqCounter s + 1)) s else s.

Definition seq_name (sequential : bool) (c : string) (s : Store) : string :=
  if sequential then c +:+ Sequence.formatSequence (seqCounter (bump sequential s)) else c.

Lemma seq_name_valid sequential cs c s :
  Forall valid_comp (cs ++ [c]) → Forall valid_comp (cs ++ [seq_name sequential c s]).
Proof.
  intros H. unfold seq_name, bump. destruct sequential; [|done].
  apply valid_snoc_seq; [done|]. apply u64_range.
Qed.

Lemma bump_nodes sequential s : nodes (bump sequential s) = nodes s.
Proof. by destruct sequential. Qed.

Lemma bump_onCreate sequential s : onNodeCreate (bump sequential s) = onNodeCreate s.
Proof. by destruct sequential. Qed.

Lemma Create_child p data eph sid sequential t1 t2 s cs c :
  normalizePath p = abs_path (cs ++ [c]) → Forall valid_comp (cs ++ [c]) →
  Create p data eph sid sequential t1 t2 s =
  match nodes s !! abs_path cs with
  | None => (Err ErrNodeNotFound, s, [])
  | Some pn =>
      if Ephemeral pn then (Err ErrEphemeralParent, s, [])
      else
        let name := seq_name sequential c s in
        let ap := abs_path (cs ++ [name]) in
        match nodes s !! ap with
        | Some _ => (Err ErrNodeExists, bump sequential s, [])
        | None =>
            let node := mkNode ap data 1 eph sid sequential
                          (seqCounter (bump sequential s)) [] t1 t2 in
            (Ok ap, set_nodes (link cs name node (nodes s)) (bump sequential s),
             spawn (onNodeCreate s) (λ f, GoCreate f ap node))
        end
  end.
Proof.
  intros Hp Hv. unfold Create. rewrite Hp. cbv zeta. rewrite parentPath_abs by done.
  rewrite (decide_False (P := abs_path cs = "")) by done.
  destruct (nodes s !! abs_path cs) as [pn|]; [|done].
  destruct (Ephemeral pn); [done|].
  fold (bump sequential s). rewrite bump_nodes, bump_onCreate.
  assert ((if sequential
           then abs_path (cs ++ [c]) +:+ Sequence.formatSequence (seqCounter (bump sequential s))
           else abs_path (cs ++ [c])) = abs_path (cs ++ [seq_name sequential c s])) as ->.
  { unfold seq_name. destruct sequential; [|done]. apply abs_path_snoc_app. }
  case_match; [done|].
  rewrite baseName_abs by (by apply seq_name_valid). done.
Qed.

Lemma Create_root p data eph sid sequential t1 t2 s :
  normalizePath p = "/" →
  Create p data eph sid sequential t1 t2 s =
  let ap := if sequential
            then abs_path [Sequence.formatSequence (seqCounter (bump sequential s))]
            else "/" in
  match nodes s !! ap with
  | Some _ => (Err ErrNodeExists, bump sequential s, [])
  | None =>
      let node := mkNode ap data 1 eph sid sequential
                    (seqCounter (bump sequential s)) [] t1 t2 in
      (Ok ap, set_nodes (<[ap := node]> (nodes s)) (bump sequential s),
       spawn (onNodeCreate s) (λ f, GoCreate f ap node))
  end.
Proof.
  intros Hp. unfold Create. rewrite Hp. cbv zeta.
  replace (parentPath "/") with "" by done. rewrite !(decide_True (P := "" = "")) by done.
  fold (bump sequential s). rewrite bump_nodes, bump_onCreate. by destruct sequential.
Qed.

Lemma Delete_child p v s cs c :
  wf s → normalizePath p = abs_path (cs ++ [c]) → Forall valid_comp (cs ++ [c]) →
  Delete p v s =
  match nodes s !! abs_path (cs ++ [c]) with
  | None => (Err ErrNodeNotFound, s, [])
  | Some node =>
      if version_conflict v node then (Err ErrVersionMismatch, s, [])
      else if decide (0 < length (Children node))%nat then (Err ErrNotEmpty, s, [])
      else (Ok tt, set_nodes (unlink cs c (nodes s)) s,
            spawn (onNodeDelete s) (λ f, GoDelete f (abs_path (cs ++ [c]))))
  end.
Proof.
  intros [Hwf _] Hp Hv. unfold Delete. rewrite Hp.
  rewrite (decide_False (P := abs_path (cs ++ [c]) = "/")) by auto with sky.
  destruct (nodes s !! abs_path (cs ++ [c])) as [node|] eqn:Hn; [|done].
  case_match; [done|]. case_decide; [done|].
  rewrite parentPath_abs, baseName_abs by done.
  destruct (wf_parent _ Hwf _ _ _ Hv Hn) as (pn & Hpn & _ & _).
  rewrite (decide_False (P := abs_path cs ≠ "" ∧ nodes s !! abs_path cs = None)).
  - by rewrite (decide_False (P := abs_path cs = "")).
  - rewrite Hpn. by intros [_ ?].
Qed.

Lemma delete_ephemeral_unlink m cs c n :
  wf_nodes m → Forall valid_comp (cs ++ [c]) → m !! abs_path (cs ++ [c]) = Some n →
  delete_ephemeral (abs_path (cs ++ [c])) m = unlink cs c m.
Proof.
  intros Hwf Hv Hn. unfold delete_ephemeral.
  rewrite parentPath_abs, baseName_abs by done.
  rewrite (decide_False (P := abs_path cs = "")) by done.
  by destruct (wf_parent _ Hwf _ _ _ Hv Hn) as (pn & -> & _ & _).
Qed.

(** A node found in the map at a canonical path that is not the root is a child. *)
Lemma ephemeral_not_root m p n :
  wf_nodes m → m !! p = Some n → Ephemeral n = true →
  ∃ cs c, Forall valid_comp (cs ++ [c]) ∧ p = abs_path (cs ++ [c]).
Proof.
  intros Hwf Hp He. destruct (wf_key _ Hwf _ _ Hp) as [_ Hc].
  destruct (canonical_view _ Hc) as [|cs c Hv]; [|by exists cs, c].
  destruct (wf_root _ Hwf) as (r & Hr & ?). congruence.
Qed.

(** ** Entries: a node without its child list *)

Definition entry (n : Node) : Node := set_Children [] n.

Lemma entry_alter_drop c p (m : gmap string Node) :
  entry <$> alter (drop_child c) p m = entry <$> m.
Proof.
  apply map_eq. intros q. rewrite !lookup_fmap, lookup_alter.
  case_decide; [subst|done]. by destruct (m !! q).
Qed.

Lemma entry_alter_add c p (m : gmap string Node) :
  entry <$> alter (add_child c) p m = entry <$> m.
Proof.
  apply map_eq. intros q. rewrite !lookup_fmap, lookup_alter.
  case_decide; [subst|done]. by destruct (m !! q).
Qed.

Lemma entry_unlink cs c m :
  entry <$> unlink cs c m = delete (abs_path (cs ++ [c])) (entry <$> m).
Proof. unfold unlink. by rewrite fmap_delete, entry_alter_drop. Qed.

Lemma entry_link cs c node m :
  entry <$> link cs c node m = <[abs_path (cs ++ [c]) := entry node]> (entry <$> m).
Proof. unfold link. by rewrite entry_alter_add, fmap_insert. Qed.

(** ** The deletion loop of DeleteEphemerals *)

Lemma fold_delete_ephemeral l m :
  wf_nodes m → NoDup l →
  (∀ p, p ∈ l → ∃ n, m !! p = Some n ∧ Ephemeral n = true) →
  let m' := foldl (λ m p, delete_ephemeral p m) m l in
  wf_nodes m' ∧ entry <$> m' = foldl (λ m p, delete p m) (entry <$> m) l.
Proof.
  revert m. induction l as [|p l IH]; intros m Hwf Hnd Hl; [done|].
  apply NoDup_cons in Hnd as [Hp Hnd]. simpl.
  destruct (Hl p) as (n & Hn & He); [by left|].
  destruct (ephemeral_not_root _ _ _ Hwf Hn He) as (cs & c & Hv & ->).
  erewrite delete_ephemeral_unlink by done.
  destruct (IH (unlink cs c m)) as [IHwf IHe]; [|done| |].
  - eapply wf_unlink; [done..|]. by eapply wf_ephemeral_leaf.
  - intros q Hq. destruct (Hl q) as (n' & Hn' & He'); [by right|].
    eexists. split; [apply lookup_unlink; [done|]; split; [by intros ->|by eexists]|].
    by case_decide.
  - split; [done|]. by rewrite IHe, entry_unlink.
Qed.

Lemma merge_sort_longer_perm l : merge_sort longer l ≡ₚ l.
Proof. apply merge_sort_Permutation. Qed.

Lemma elem_of_ephemeral_keys order sid s p :
  p ∈ merge_sort longer (ephemeral_keys order sid s) ↔
  p ∈ order ∧ owned_at sid (nodes s) p = true.
Proof.
  rewrite (merge_sort_longer_perm _). unfold ephemeral_keys.
  rewrite list_elem_of_filter. naive_solver.
Qed.

Lemma owned_at_ephemeral sid m p :
  owned_at sid m p = true →
  ∃ n, m !! p = Some n ∧ Ephemeral n = true ∧ SessionID n = sid.
Proof.
  unfold owned_at, owned_ephemeral. destruct (m !! p) as [n|]; [|done].
  intros [? ?%bool_decide_eq_true]%andb_true_iff. by exists n.
Qed.

(** [order] is an iteration order of the map. *)
Definition iteration_order (order : list string) (m : gmap string Node) : Prop :=
  order ≡ₚ (map_to_list m).*1.

Lemma iteration_order_NoDup order m : iteration_order order m → NoDup order.
Proof. intros ->. apply NoDup_fst_map_to_list. Qed.

Lemma elem_of_iteration_order order m p :
  iteration_order order m → p ∈ order ↔ is_Some (m !! p).
Proof.
  intros ->. rewrite list_elem_of_fmap. split.
  - intros ([q n] & -> & Hin%elem_of_map_to_list). by eexists.
  - intros [n Hn]. exists (p, n). split; [done|]. by apply elem_of_map_to_list.
Qed.

Lemma deleted_NoDup order sid s :
  iteration_order order (nodes s) →
  NoDup (merge_sort longer (ephemeral_keys order sid s)).
Proof.
  intros Ho. rewrite (merge_sort_longer_perm _).
  apply NoDup_filter. by eapply iteration_order_NoDup.
Qed.

(** ** Preservation, operation by operation *)

Lemma wf_bump sequential s : wf s → wf (bump sequential s).
Proof.
  intros [? ?]. destruct sequential; [|done]. split; [done|]. apply u64_range.
Qed.

Lemma wf_set_nodes m s : wf_nodes m → wf s → wf (set_nodes m s).
Proof. by intros ? [_ ?]. Qed.

Lemma normalizePath_cases p :
  normalizePath p = "/" ∨
  ∃ cs c, Forall valid_comp (cs ++ [c]) ∧ normalizePath p = abs_path (cs ++ [c]).
Proof.
  pose proof (normalizePath_view p) as H.
  remember (normalizePath p) as q eqn:E. destruct H as [|cs c Hv]; [by left|].
  right. by exists cs, c.
Qed.

Lemma Create_wf p data eph sid sequential t1 t2 s r s' gs :
  wf s → ¬ (normalizePath p = "/" ∧ sequential = true) →
  Create p data eph sid sequential t1 t2 s = (r, s', gs) → wf s'.
Proof.
  intros Hwf Hroot. destruct (normalizePath_cases p) as [Hp|(cs & c & Hv & Hp)].
  - rewrite Create_root by done. destruct sequential; [naive_solver|]. cbv zeta.
    destruct (wf_root _ (proj1 Hwf)) as (r0 & -> & _). intros [= <- <- <-]. done.
  - rewrite (Create_child _ _ _ _ _ _ _ _ cs c) by done. cbv zeta.
    pose proof (wf_bump sequential s Hwf) as Hwfb.
    repeat case_match; intros [= <- <- <-]; try done.
    apply wf_set_nodes; [|done]. eapply wf_link; try done; [apply Hwf|].
    by apply seq_name_valid.
Qed.

Lemma Set_wf p data v t s r s' gs :
  wf s → Set_ p data v t s = (r, s', gs) → wf s'.
Proof.
  intros Hwf. unfold Set_.
  destruct (nodes s !! normalizePath p) as [n|] eqn:Hn; [|by intros [= <- <- <-]].
  case_match; intros [= <- <- <-]; [done|].
  apply wf_set_nodes; [|done]. destruct Hwf as [Hwf _].
  destruct (wf_key _ Hwf _ _ Hn) as [HP HC]. set (q := normalizePath p) in *. split.
  - destruct (wf_root _ Hwf) as (r & Hr & He).
    destruct (decide (q = "/")) as [E|E]; [|by rewrite lookup_insert_ne; eauto].
    rewrite E in *. rewrite lookup_insert_eq. eexists; split; [done|]. simpl. congruence.
  - intros p' n' [[<- <-]|[_ Hn']]%lookup_insert_Some; [done|]. by apply (wf_key _ Hwf).
  - intros cs c n' Hv Hl.
    assert (∃ n0, nodes s !! abs_path (cs ++ [c]) = Some n0) as [n0 Hn0].
    { apply lookup_insert_Some in Hl as [[<- _]|[_ ?]]; eauto. }
    destruct (wf_parent _ Hwf _ _ _ Hv Hn0) as (pn & Hpn & ? & ?).
    destruct (decide (q = abs_path cs)) as [E|E]; [|by rewrite lookup_insert_ne; eauto].
    rewrite <- E in *. rewrite lookup_insert_eq. eexists; split; [done|]. simpl.
    by simplify_eq.
  - intros cs n' c Hcs Hl Hin.
    assert (∃ n0, nodes s !! abs_path cs = Some n0 ∧ c ∈ Children n0) as (n0 & Hn0 & Hin0).
    { apply lookup_insert_Some in Hl as [[<- <-]|[_ ?]]; [by exists n|by exists n']. }
    destruct (wf_child _ Hwf _ _ _ Hcs Hn0 Hin0) as [? ?]. split; [done|].
    rewrite lookup_insert. by case_decide.
  - intros p' n' [[<- <-]|[_ Hn']]%lookup_insert_Some; [|by eapply wf_nodup].
    simpl. by eapply wf_nodup.
  - intros p' n' [[<- <-]|[_ Hn']]%lookup_insert_Some; [|by eapply wf_version].
    simpl. apply u64_range.
Qed.

Lemma Children_nil_of_length n : ¬ (0 < length (Children n))%nat → Children n = [].
Proof. destruct (Children n); simpl; [done|lia]. Qed.

Lemma Delete_root p v s : normalizePath p = "/" → Delete p v s = (Err ErrDeleteRoot, s, []).
Proof. intros E. unfold Delete. by rewrite E, decide_True. Qed.

Lemma Delete_wf p v s r s' gs :
  wf s → Delete p v s = (r, s', gs) → wf s'.
Proof.
  intros Hwf. destruct (normalizePath_cases p) as [Hp|(cs & c & Hv & Hp)].
  - rewrite Delete_root by done. by intros [= <- <- <-].
  - rewrite (Delete_child _ _ _ cs c) by done.
    repeat case_match; intros [= <- <- <-]; try done.
    apply wf_set_nodes; [|done]. eapply wf_unlink; [apply Hwf|done..|].
    by apply Children_nil_of_length.
Qed.

(** The loop's precondition, for the list DeleteEphemerals sorts. *)
Lemma deleted_ephemeral order sid s p :
  p ∈ merge_sort longer (ephemeral_keys order sid s) →
  ∃ n, nodes s !! p = Some n ∧ Ephemeral n = true.
Proof.
  intros [_ (n & ? & ? & _)%owned_at_ephemeral]%elem_of_ephemeral_keys. by exists n.
Qed.

Lemma DeleteEphemerals_loop order sid s :
  wf s → iteration_order order (nodes s) →
  let deleted := (DeleteEphemerals order sid s).1.1 in
  let s' := (DeleteEphemerals order sid s).1.2 in
  wf s' ∧ entry <$> nodes s' = foldl (λ m p, delete p m) (entry <$> nodes s) deleted.
Proof.
  intros [Hwf Hseq] Ho. unfold DeleteEphemerals. cbn.
  destruct (fold_delete_ephemeral (merge_sort longer (ephemeral_keys order sid s)) (nodes s))
    as [Hwf' He]; [done|by apply deleted_NoDup| |by split].
  intros p. apply deleted_ephemeral.
Qed.
