(* ===== verification/StoreSpec.v ===== *)
(** * What the store promises, and that the code keeps it

    The abstract store is a map from canonical paths to entries (nodes without
    child lists) and a counter; the children of a path are computed from the
    keys.  [exec] runs one method of internal/store/store.go and [a_exec] its
    abstract counterpart; [store_refines_spec] is the simulation between them.
    The second half states the functional properties of single operations. *)

From S2P Require Import Prelude GoLib Sequence DataStore StoreInv.
Import Store.

(** ** The abstract store *)
Module Spec.

Record AState := mkAState { tree : gmap string Node; counter : Z }.

Definition child_names (m : gmap string Node) (p : string) : list string :=
  baseName <$> filter (λ q, q ≠ "/" ∧ parentPath q = p) (map_to_list m).*1.

Definition a_Create (p data : string) (eph : bool) (sid : string) (sequential : bool)
    (t1 t2 : Z) (a : AState) : result Error string * AState :=
  let p := normalizePath p in
  match (if decide (p = "/") then None
         else match tree a !! parentPath p with
              | None => Some ErrNodeNotFound
              | Some pn => if Ephemeral pn then Some ErrEphemeralParent else None
              end) with
  | Some e => (Err e, a)
  | None =>
      let n := if sequential then u64 (counter a + 1) else counter a in
      let p := if sequential then p +:+ Sequence.formatSequence n else p in
      match tree a !! p with
      | Some _ => (Err ErrNodeExists, mkAState (tree a) n)
      | None => (Ok p, mkAState
                   (<[p := mkNode p data 1 eph sid sequential n [] t1 t2]> (tree a)) n)
      end
  end.

Definition a_Set (p data : string) (v t : Z) (a : AState) : result Error Node * AState :=
  let p := normalizePath p in
  match tree a !! p with
  | None => (Err ErrNodeNotFound, a)
  | Some n =>
      if version_conflict v n then (Err ErrVersionMismatch, a)
      else let n := mkNode (Path n) data (u64 (Version n + 1)) (Ephemeral n) (SessionID n)
                      (Sequential n) (Seq n) [] (CreateTime n) t in
           (Ok n, mkAState (<[p := n]> (tree a)) (counter a))
  end.

Definition a_Delete (p : string) (v : Z) (a : AState) : result Error unit * AState :=
  let p := normalizePath p in
  if decide (p = "/") then (Err ErrDeleteRoot, a)
  else match tree a !! p with
       | None => (Err ErrNodeNotFound, a)
       | Some n =>
           if version_conflict v n then (Err ErrVersionMismatch, a)
           else if decide (child_names (tree a) p = []) then
             (Ok tt, mkAState (delete p (tree a)) (counter a))
           else (Err ErrNotEmpty, a)
       end.

Definition a_GetChildren (p : string) (a : AState) : result Error (list string) :=
  match tree a !! normalizePath p with
  | None => Err ErrNodeNotFound
  | Some _ => Ok (sort_Strings (child_names (tree a) (normalizePath p)))
  end.

(** Expiring a session removes its ephemeral entries and nothing else. *)
Definition a_DeleteEphemerals (sid : string) (a : AState) : gset string * AState :=
  (dom (filter (λ '(_, n), owned_ephemeral sid n = true) (tree a)),
   mkAState (filter (λ '(_, n), owned_ephemeral sid n = false) (tree a)) (counter a)).

(** ** Operations and observations *)

Inductive op :=
| OCreate (p data : string) (eph : bool) (sid : string) (sequential : bool) (t1 t2 : Z)
| OGet (p : string)
| OSet (p data : string) (v t : Z)
| ODelete (p : string) (v : Z)
| OGetChildren (p : string)
| OExists (p : string)
| ODeleteEphemerals (order : list string) (sid : string)
| OCount.

Inductive obs :=
| RPath (r : result Error string)
| RNode (r : result Error Node)
| RUnit (r : result Error unit)
| RNames (r : result Error (list string))
| RBool (b : bool)
| RDeleted (ps : gset string)
| RCount (n : Z).

(** A returned node is observed with its children sorted: the order of creation
    is not part of the contract. *)
Definition obs_node (r : result Error Node) : obs :=
  RNode (match r with
         | Ok n => Ok (set_Children (sort_Strings (Children n)) n)
         | Err e => Err e
         | Panic => Panic
         end).

(** The entry at [p] as a node, with the children the keys give it. *)
Definition a_node (p : string) (m : gmap string Node) (n : Node) : Node :=
  set_Children (sort_Strings (child_names m p)) n.

Definition exec (o : op) (s : Store) : obs * Store :=
  match o with
  | OCreate p data eph sid sq t1 t2 =>
      let '(r, s', _) := Create p data eph sid sq t1 t2 s in (RPath r, s')
  | OGet p => (obs_node (Get p s), s)
  | OSet p data v t => let '(r, s', _) := Set_ p data v t s in (obs_node r, s')
  | ODelete p v => let '(r, s', _) := Delete p v s in (RUnit r, s')
  | OGetChildren p => (RNames (GetChildren p s), s)
  | OExists p => (RBool (Exists p s), s)
  | ODeleteEphemerals order sid =>
      let '(ps, s', _) := DeleteEphemerals order sid s in (RDeleted (list_to_set ps), s')
  | OCount => (RCount (Count s), s)
  end.

Definition a_exec (o : op) (a : AState) : obs * AState :=
  match o with
  | OCreate p data eph sid sq t1 t2 =>
      let '(r, a') := a_Create p data eph sid sq t1 t2 a in (RPath r, a')
  | OGet p =>
      (RNode (match tree a !! normalizePath p with
              | Some n => Ok (a_node (normalizePath p) (tree a) n)
              | None => Err ErrNodeNotFound
              end), a)
  | OSet p data v t =>
      let '(r, a') := a_Set p data v t a in
      (RNode (match r with
              | Ok n => Ok (a_node (normalizePath p) (tree a') n)
              | Err e => Err e
              | Panic => Panic
              end), a')
  | ODelete p v => let '(r, a') := a_Delete p v a in (RUnit r, a')
  | OGetChildren p => (RNames (a_GetChildren p a), a)
  | OExists p => (RBool (bool_decide (is_Some (tree a !! normalizePath p))), a)
  | ODeleteEphemerals _ sid =>
      let '(ps, a') := a_DeleteEphemerals sid a in (RDeleted ps, a')
  | OCount => (RCount (Z.of_nat (size (tree a))), a)
  end.

Definition abs (s : Store) : AState := mkAState (entry <$> nodes s) (seqCounter s).

(** The guard of a step: a sequential node is not requested at the root, and
    the iteration order of DeleteEphemerals is one of the map's. *)
Definition op_ok (o : op) (s : Store) : Prop :=
  match o with
  | OCreate p _ _ _ sq _ _ => ¬ (normalizePath p = "/" ∧ sq = true)
  | ODeleteEphemerals order _ => iteration_order order (nodes s)
  | _ => True
  end.

(** A history: operations executed one after the other (the store's mutex). *)
Inductive history : Store → list (op * obs) → Store → Prop :=
| h_nil s : history s [] s
| h_cons s o r s1 h s2 :
    op_ok o s → exec o s = (r, s1) → history s1 h s2 → history s ((o, r) :: h) s2.

Inductive a_history : AState → list (op * obs) → AState → Prop :=
| ah_nil a : a_history a [] a
| ah_cons a o r a1 h a2 :
    a_exec o a = (r, a1) → a_history a1 h a2 → a_history a ((o, r) :: h) a2.

End Spec.
Import Spec.

(** ** Children *)

(** A key whose parent is [abs_path cs] is [abs_path cs] extended by one element. *)
Lemma child_key m cs q :
  wf_nodes m → Forall valid_comp cs →
  q ∈ filter (λ q, q ≠ "/" ∧ parentPath q = abs_path cs) (map_to_list (entry <$> m)).*1 →
  ∃ c, Forall valid_comp (cs ++ [c]) ∧ q = abs_path (cs ++ [c]) ∧ is_Some (m !! q).
Proof.
  intros Hwf Hcs Hq. apply list_elem_of_filter in Hq as [[Hr Hpar] Hin].
  apply list_elem_of_fmap in Hin as ([q' n] & -> & Hin). simpl in *.
  apply elem_of_map_to_list, lookup_fmap_Some in Hin as (n0 & _ & Hq).
  destruct (wf_key _ Hwf _ _ Hq) as [_ Hc].
  destruct (canonical_view _ Hc) as [|cs' c' Hv]; [done|].
  rewrite parentPath_abs in Hpar by done. pose proof Hv as [Hcs' _]%Forall_app.
  apply abs_path_inj in Hpar as ->; [|done..]. by exists c'.
Qed.

Lemma elem_of_child_names m cs c :
  wf_nodes m → Forall valid_comp cs →
  c ∈ child_names (entry <$> m) (abs_path cs) ↔
  valid_comp c ∧ is_Some (m !! abs_path (cs ++ [c])).
Proof.
  intros Hwf Hcs. unfold child_names. rewrite list_elem_of_fmap. split.
  - intros (q & -> & (c' & Hv & -> & Hs)%child_key); [|done..].
    rewrite baseName_abs by done.
    by pose proof Hv as [_ [Hc' _]%Forall_cons]%Forall_app.
  - intros [Hc [n Hn]].
    assert (Forall valid_comp (cs ++ [c])) as Hv by (apply Forall_app; split; [|constructor]; done).
    exists (abs_path (cs ++ [c])). split; [by rewrite baseName_abs|].
    apply list_elem_of_filter. split; [split; [auto with sky|by apply parentPath_abs]|].
    apply list_elem_of_fmap. exists (abs_path (cs ++ [c]), entry n). split; [done|].
    apply elem_of_map_to_list. by rewrite lookup_fmap, Hn.
Qed.

Lemma child_names_NoDup m cs :
  wf_nodes m → Forall valid_comp cs → NoDup (child_names (entry <$> m) (abs_path cs)).
Proof.
  intros Hwf Hcs. unfold child_names. apply NoDup_fmap_2_strong.
  - intros q q' (c & Hv & -> & _)%child_key (c' & Hv' & -> & _)%child_key; [|done..].
    by rewrite !baseName_abs; [intros ->|..].
  - apply NoDup_filter, NoDup_fst_map_to_list.
Qed.

Lemma Children_perm m cs n :
  wf_nodes m → Forall valid_comp cs → m !! abs_path cs = Some n →
  Children n ≡ₚ child_names (entry <$> m) (abs_path cs).
Proof.
  intros Hwf Hcs Hn. apply NoDup_Permutation.
  - by eapply wf_nodup.
  - by apply child_names_NoDup.
  - intros c. rewrite elem_of_child_names by done. split.
    + intros Hin. by eapply wf_child.
    + intros [Hc Hs]. eapply wf_listed; try done.
      apply Forall_app; split; [|constructor]; done.
Qed.

Lemma sort_Strings_perm l l' : l ≡ₚ l' → sort_Strings l = sort_Strings l'.
Proof.
  intros Hp. unfold sort_Strings. apply (Sorted_unique String.le).
  - apply Sorted_merge_sort, _.
  - apply Sorted_merge_sort, _.
  - by rewrite !merge_sort_Permutation.
Qed.

(** ** Simulation, operation by operation *)

Lemma entry_lookup m p : (entry <$> m : gmap string Node) !! p = entry <$> m !! p.
Proof. apply lookup_fmap. Qed.

Lemma parentPath_empty p : path_view p → (parentPath p = "" ↔ p = "/").
Proof.
  intros [|cs c Hv]; [done|]. rewrite parentPath_abs by done.
  split; [done|]. intros E. exfalso. by eapply abs_path_snoc_not_root.
Qed.

Lemma Create_refines p data eph sid sq t1 t2 s :
  ¬ (normalizePath p = "/" ∧ sq = true) →
  let '(r, s', _) := Create p data eph sid sq t1 t2 s in
  a_Create p data eph sid sq t1 t2 (abs s) = (r, abs s').
Proof.
  intros Hroot. destruct (normalizePath_cases p) as [Hp|(cs & c & Hv & Hp)].
  - rewrite Create_root by done. destruct sq; [naive_solver|]. unfold a_Create.
    rewrite Hp, decide_True by done. simpl. rewrite lookup_fmap.
    destruct (nodes s !! "/"); simpl; [done|]. unfold abs. simpl. by rewrite fmap_insert.
  - rewrite (Create_child _ _ _ _ _ _ _ _ cs c) by done. unfold a_Create.
    rewrite Hp, decide_False by auto with sky. rewrite parentPath_abs by done.
    simpl. rewrite lookup_fmap.
    destruct (nodes s !! abs_path cs) as [pn|]; simpl; [|done].
    destruct (Ephemeral pn); [done|].
    assert ((if sq then abs_path (cs ++ [c]) +:+
               Sequence.formatSequence (if sq then u64 (seqCounter s + 1) else seqCounter s)
             else abs_path (cs ++ [c])) = abs_path (cs ++ [seq_name sq c s])) as ->.
    { unfold seq_name. destruct sq; [|done]. apply abs_path_snoc_app. }
    rewrite lookup_fmap.
    assert (seqCounter (bump sq s) = if sq then u64 (seqCounter s + 1) else seqCounter s)
      as Hc by (by destruct sq).
    destruct (nodes s !! abs_path (cs ++ [seq_name sq c s])); simpl.
    + unfold abs. by rewrite bump_nodes, Hc.
    + unfold abs. simpl. by rewrite entry_link, Hc.
Qed.

Lemma Set_refines p data v t s :
  let '(r, s', _) := Set_ p data v t s in
  a_Set p data v t (abs s) =
    (match r with Ok n => Ok (entry n) | Err e => Err e | Panic => Panic end, abs s').
Proof.
  unfold Set_, a_Set. simpl. rewrite lookup_fmap.
  destruct (nodes s !! normalizePath p) as [n|]; simpl; [|done].
  change (version_conflict v (entry n)) with (version_conflict v n).
  destruct (version_conflict v n); [done|]. unfold abs. simpl. by rewrite fmap_insert.
Qed.

Lemma Delete_refines p v s :
  wf s →
  let '(r, s', _) := Delete p v s in a_Delete p v (abs s) = (r, abs s').
Proof.
  intros Hwf. unfold a_Delete. destruct (normalizePath_cases p) as [Hp|(cs & c & Hv & Hp)].
  - rewrite Delete_root by done. by rewrite Hp, decide_True.
  - rewrite (Delete_child _ _ _ cs c) by done. rewrite Hp, decide_False by auto with sky.
    simpl. rewrite lookup_fmap.
    destruct (nodes s !! abs_path (cs ++ [c])) as [n|] eqn:Hn; simpl; [|done].
    change (version_conflict v (entry n)) with (version_conflict v n).
    destruct (version_conflict v n); [done|].
    pose proof (Children_perm _ _ _ (proj1 Hwf) Hv Hn) as Hperm.
    destruct (decide (0 < length (Children n))%nat) as [Hlen|Hlen].
    + rewrite decide_False; [done|]. intros E. rewrite E in Hperm.
      apply Permutation_nil_r in Hperm. rewrite Hperm in Hlen. simpl in Hlen. lia.
    + apply Children_nil_of_length in Hlen. rewrite Hlen in Hperm.
      symmetry in Hperm. apply Permutation_nil_r in Hperm. rewrite decide_True by done.
      unfold abs. simpl. by rewrite entry_unlink.
Qed.

Lemma GetChildren_refines p s : wf s → a_GetChildren p (abs s) = GetChildren p s.
Proof.
  intros [Hwf _]. unfold a_GetChildren, GetChildren. simpl. rewrite lookup_fmap.
  destruct (normalizePath_abs p) as (cs & Hcs & ->).
  destruct (nodes s !! abs_path cs) as [n|] eqn:Hn; simpl; [|done].
  f_equal. apply sort_Strings_perm. symmetry. by apply Children_perm.
Qed.

Lemma foldl_delete_lookup (l : list string) (m : gmap string Node) p :
  foldl (λ m p, delete p m) m l !! p = if decide (p ∈ l) then None else m !! p.
Proof.
  revert m. induction l as [|q l IH]; intros m; simpl; [done|].
  rewrite IH. destruct (decide (p = q)) as [->|Hne].
  - rewrite lookup_delete_eq, (decide_True (P := q ∈ q :: l)) by (by left). by case_decide.
  - rewrite lookup_delete_ne by done. apply decide_ext. rewrite elem_of_cons. naive_solver.
Qed.

Lemma DeleteEphemerals_refines order sid s :
  wf s → iteration_order order (nodes s) →
  let '(ps, s', _) := DeleteEphemerals order sid s in
  a_DeleteEphemerals sid (abs s) = (list_to_set ps, abs s').
Proof.
  intros Hwf Ho.
  pose proof (DeleteEphemerals_loop order sid s Hwf Ho) as [_ He]. revert He.
  destruct (DeleteEphemerals order sid s) as [[ps s'] gs] eqn:E. simpl. intros He.
  assert (Hps : ∀ p, p ∈ ps ↔ owned_at sid (nodes s) p = true).
  { intros p. injection E as <- _ _. rewrite elem_of_ephemeral_keys. split; [naive_solver|].
    intros Hown. split; [|done]. rewrite elem_of_iteration_order by done.
    destruct (owned_at_ephemeral _ _ _ Hown) as (n & ? & _). by eexists. }
  assert (Hown : ∀ p n, nodes s !! p = Some n → owned_at sid (nodes s) p = owned_ephemeral sid n).
  { intros p n Hn. unfold owned_at. by rewrite Hn. }
  unfold a_DeleteEphemerals. f_equal.
  - apply set_eq. intros p. rewrite elem_of_dom, elem_of_list_to_set, Hps. simpl.
    unfold is_Some. setoid_rewrite map_lookup_filter_Some. setoid_rewrite lookup_fmap_Some.
    split.
    + intros (n & (n0 & <- & Hn) & Ho'). by rewrite (Hown _ _ Hn).
    + intros (n & Hn & ? & ?)%owned_at_ephemeral. exists (entry n). split; [by exists n|].
      unfold owned_ephemeral. simpl. rewrite bool_decide_eq_true_2 by done. by apply andb_true_iff.
  - unfold abs. simpl. f_equal; [|by injection E as _ <- _].
    rewrite He. apply map_eq. intros p. rewrite foldl_delete_lookup.
    apply option_eq. intros n. rewrite map_lookup_filter_Some, lookup_fmap_Some.
    case_decide as Hin.
    + split; [|done]. intros [(n0 & <- & Hn) Hf]. exfalso.
      apply Hps in Hin. rewrite (Hown _ _ Hn) in Hin. unfold owned_ephemeral in *. simpl in Hf.
      congruence.
    + rewrite lookup_fmap_Some. split; [naive_solver|].
      intros (n0 & <- & Hn). split; [by exists n0|].
      rewrite Hps, (Hown _ _ Hn) in Hin. by apply not_true_is_false in Hin.
Qed.

(** A stored node as it is observed is the abstract one. *)
Lemma node_refines p n s :
  wf s → nodes s !! normalizePath p = Some n →
  set_Children (sort_Strings (Children n)) n = a_node (normalizePath p) (entry <$> nodes s) (entry n).
Proof.
  intros Hwf Hn. destruct (normalizePath_canonical p) as (cs & Hcs & E). rewrite E in *.
  pose proof (Children_perm _ _ _ (proj1 Hwf) Hcs Hn) as Hp.
  unfold a_node. by rewrite (sort_Strings_perm _ _ Hp).
Qed.

Lemma Set_stored p data v t s n s' gs :
  Set_ p data v t s = (Ok n, s', gs) → nodes s' !! normalizePath p = Some n.
Proof.
  unfold Set_. intros E. repeat case_match; simplify_eq. simpl. apply lookup_insert_eq.
Qed.

Lemma exec_refines o s :
  wf s → op_ok o s → a_exec o (abs s) = ((exec o s).1, abs (exec o s).2).
Proof.
  intros Hwf Hok. destruct o; cbn [exec a_exec op_ok abs tree] in *.
  - pose proof (Create_refines p data eph sid sequential t1 t2 s Hok) as H.
    destruct (Create _ _ _ _ _ _ _ _) as [[r s'] gs]. by rewrite H.
  - rewrite lookup_fmap. unfold Get. destruct (nodes s !! normalizePath p) as [n|] eqn:E; [|done].
    unfold obs_node. cbn [fmap option_fmap option_map fst snd]. by rewrite (node_refines p n s).
  - pose proof (Set_refines p data v t s) as H.
    destruct (Set_ p data v t s) as [[r s'] gs] eqn:E. rewrite H. destruct r as [n| |]; [|done..].
    unfold obs_node. rewrite (node_refines p n s'); [done|by eapply Set_wf|by eapply Set_stored].
  - pose proof (Delete_refines p v s Hwf) as H.
    destruct (Delete _ _ _) as [[r s'] gs]. by rewrite H.
  - by rewrite GetChildren_refines.
  - unfold Exists. rewrite lookup_fmap. by destruct (nodes s !! normalizePath p).
  - pose proof (DeleteEphemerals_refines order sid s Hwf Hok) as H.
    destruct (DeleteEphemerals _ _ _) as [[r s'] gs]. by rewrite H.
  - unfold Count. by rewrite map_size_fmap.
Qed.

Lemma exec_wf o s : wf s → op_ok o s → wf (exec o s).2.
Proof.
  intros Hwf Hok. destruct o; cbn [exec op_ok] in *; try done.
  - destruct (Create _ _ _ _ _ _ _ _) as [[r s'] gs] eqn:E. by eapply Create_wf.
  - destruct (Set_ _ _ _ _ _) as [[r s'] gs] eqn:E. by eapply Set_wf.
  - destruct (Delete _ _ _) as [[r s'] gs] eqn:E. by eapply Delete_wf.
  - pose proof (DeleteEphemerals_loop order sid s Hwf Hok) as [H _].
    by destruct (DeleteEphemerals _ _ _) as [[r s'] gs].
Qed.

Lemma history_wf s h s' : history s h s' → wf s → wf s'.
Proof.
  induction 1 as [|s o r s1 h s2 Hok Hex _ IH]; [done|]. intros Hwf. apply IH.
  replace s1 with (exec o s).2 by (by rewrite Hex). by apply exec_wf.
Qed.

(** ** The contract of the store *)

(** Every history of store operations from NewStore (each atomic under the
    store's mutex, sequential nodes not requested at the root path itself)
    keeps the map a tree: keys canonical, parents existing, non-ephemeral and
    listing each child exactly once, listed children existing. *)
Theorem store_history_tree t1 t2 h s : history (NewStore t1 t2) h s → wf s.
Proof. intros H. eapply history_wf; [exact H|apply wf_NewStore]. Qed.

Definition demo_history : list (op * obs) :=
  [(OCreate "app" "x" false "" false 1 1, RPath (Ok "/app"));
   (OCreate "/app/n-" "y" true "S" true 2 2, RPath (Ok "/app/n-0000000001"));
   (ODelete "/app" (-1), RUnit (Err ErrNotEmpty));
   (OGet "/app", RNode (Ok (mkNode "/app" "x" 1 false "" false 0 ["n-0000000001"] 1 1)));
   (ODeleteEphemerals ["/app/n-0000000001"; "/app"; "/"] "S",
    RDeleted {["/app/n-0000000001"]});
   (ODelete "/app/" 1, RUnit (Ok tt))].

Definition demo_store : Store :=
  foldl (λ s o, (exec o s).2) (NewStore 0 0) demo_history.*1.

Lemma demo_history_runs : history (NewStore 0 0) demo_history demo_store.
Proof.
  unfold demo_history.
  econstructor; [by intros [? ?]|vm_compute; reflexivity|].
  econstructor; [by intros [? ?]|vm_compute; reflexivity|].
  econstructor; [done|vm_compute; reflexivity|].
  econstructor; [done|vm_compute; reflexivity|].
  econstructor; [|vm_compute; reflexivity|].
  { unfold op_ok, iteration_order. apply NoDup_Permutation; [by apply (bool_decide_unpack _); vm_compute| |].
    - apply NoDup_fst_map_to_list.
    - intros x. vm_compute map_to_list. simpl. set_solver. }
  econstructor; [done|vm_compute; reflexivity|].
  vm_compute. constructor.
Qed.

Lemma store_history_tree_witness :
  history (NewStore 0 0) demo_history demo_store ∧ wf demo_store.
Proof.
  split; [exact demo_history_runs|].
  exact (store_history_tree 0 0 demo_history demo_store demo_history_runs).
Defined.

(** C2. The store refines the abstract tree: every history of the code in which
    no sequential node is requested at the root path itself (there the code
    leaves the node unlisted, see [create_sequential_at_root_unlisted]), with the
    results it returned, is a history of the abstract store, whose children are
    computed from the keys and whose session expiry is a filter.  A returned node
    is compared in every field, its children up to their order. *)
Theorem store_refines_spec t1 t2 h s :
  history (NewStore t1 t2) h s → a_history (abs (NewStore t1 t2)) h (abs s).
Proof.
  pose proof (wf_NewStore t1 t2) as Hwf. revert Hwf. generalize (NewStore t1 t2) as s0.
  intros s0 Hwf. induction 1 as [|s1 o r s2 h s3 Hok Hex _ IH]; [constructor|].
  assert (s2 = (exec o s1).2) as -> by (by rewrite Hex).
  econstructor; [|apply IH; by apply exec_wf].
  rewrite exec_refines by done. by rewrite Hex.
Qed.

Lemma store_refines_spec_witness :
  a_history (abs (NewStore 0 0)) demo_history (abs demo_store).
Proof. exact (store_refines_spec 0 0 demo_history demo_store demo_history_runs). Defined.

(** Delete dereferences its parent without a nil check; in every reachable
    state the parent exists, so Delete never panics. *)
Theorem delete_never_panics t1 t2 h s p v :
  history (NewStore t1 t2) h s → (Delete p v s).1.1 ≠ Panic.
Proof.
  intros Hwf%history_wf; [|apply wf_NewStore].
  destruct (normalizePath_cases p) as [Hp|(cs & c & Hv & Hp)].
  - by rewrite Delete_root.
  - rewrite (Delete_child _ _ _ cs c) by done. by repeat case_match.
Qed.

Lemma delete_never_panics_witness :
  (Delete "/app" (-1) demo_store).1.1 ≠ Panic.
Proof. exact (delete_never_panics 0 0 demo_history demo_store "/app" (-1) demo_history_runs). Defined.

(** Two order-preserving selections of a duplicate-free list with the same
    elements are equal. *)
Lemma sublist_same_elements {A} (l l1 l2 : list A) :
  NoDup l → l1 `sublist_of` l → l2 `sublist_of` l → (∀ x, x ∈ l1 ↔ x ∈ l2) → l1 = l2.
Proof.
  revert l1 l2. induction l as [|x l IH]; intros l1 l2 Hnd H1 H2 Heq.
  - apply sublist_nil_r in H1 as ->. by apply sublist_nil_r in H2 as ->.
  - apply NoDup_cons in Hnd as [Hx Hnd].
    assert (Hsub : ∀ l', l' `sublist_of` l → x ∉ l').
    { intros l' Hs Hin. by apply Hx, (elem_of_sublist _ _ _ Hin Hs). }
    apply sublist_cons_r in H1 as [H1|(l1' & -> & H1)];
      apply sublist_cons_r in H2 as [H2|(l2' & -> & H2)].
    + by apply IH.
    + exfalso. apply (Hsub l1 H1), Heq. by left.
    + exfalso. apply (Hsub l2 H2), Heq. by left.
    + f_equal. apply IH; [done..|]. intros y.
      pose proof (Hsub _ H1). pose proof (Hsub _ H2).
      specialize (Heq y). rewrite !elem_of_cons in Heq. naive_solver.
Qed.

(** The loop of DeleteEphemerals keeps the order of every child list. *)
Lemma delete_ephemeral_sublist q m p n' :
  delete_ephemeral q m !! p = Some n' →
  ∃ n, m !! p = Some n ∧ Children n' `sublist_of` Children n.
Proof.
  unfold delete_ephemeral. rewrite lookup_delete_Some. intros [_ Hl]. revert Hl.
  assert (Ha : ∀ c r, alter (drop_child c) r m !! p = Some n' →
            ∃ n, m !! p = Some n ∧ Children n' `sublist_of` Children n).
  { intros c r. rewrite lookup_alter. case_decide; [subst|by eauto].
    intros (n & Hn & ->)%fmap_Some. exists n. split; [done|]. apply remove_first_sublist. }
  repeat case_match; eauto.
Qed.

Lemma fold_ephemeral_sublist l m p n' :
  foldl (λ m q, delete_ephemeral q m) m l !! p = Some n' →
  ∃ n, m !! p = Some n ∧ Children n' `sublist_of` Children n.
Proof.
  revert m. induction l as [|q l IH]; intros m; simpl; [by eauto|].
  intros (n & Hn & Hs)%IH. destruct (delete_ephemeral_sublist _ _ _ _ Hn) as (n0 & ? & ?).
  exists n0. split; [done|]. by etrans.
Qed.

Lemma set_Children_entry n n' : entry n = entry n' → Children n = Children n' → n = n'.
Proof. destruct n, n'. unfold entry, set_Children. simpl. by intros [=] ->; simplify_eq. Qed.

(** C33. DeleteEphemerals does not depend on Go's unspecified map iteration
    order or on the unstable sort: any two iteration orders leave the same
    store. *)
Theorem delete_ephemerals_deterministic order1 order2 sid s :
  wf s → iteration_order order1 (nodes s) → iteration_order order2 (nodes s) →
  (DeleteEphemerals order1 sid s).1.2 = (DeleteEphemerals order2 sid s).1.2.
Proof.
  intros Hwf H1 H2.
  destruct (DeleteEphemerals_loop order1 sid s Hwf H1) as [[Hw1 _] _].
  destruct (DeleteEphemerals_loop order2 sid s Hwf H2) as [[Hw2 _] _].
  pose proof (DeleteEphemerals_refines order1 sid s Hwf H1) as R1.
  pose proof (DeleteEphemerals_refines order2 sid s Hwf H2) as R2.
  unfold DeleteEphemerals in *. cbn [fst snd] in *. rewrite R1 in R2.
  injection R2 as _ He. clear R1. unfold set_nodes in *. simpl in *. f_equal.
  revert Hw1 Hw2 He. set (l1 := merge_sort _ _). set (l2 := merge_sort _ _).
  set (m1 := foldl _ _ l1). set (m2 := foldl _ _ l2). intros Hw1 Hw2 He.
  assert (Hl : ∀ p, entry <$> m1 !! p = entry <$> m2 !! p)
    by (intros p; by rewrite <- !lookup_fmap, He).
  apply map_eq. intros p. specialize (Hl p) as Hlp.
  destruct (m1 !! p) as [n1|] eqn:E1, (m2 !! p) as [n2|] eqn:E2; try done.
  f_equal. injection Hlp as Hn. apply set_Children_entry; [by unfold entry, set_Children; f_equal|].
  destruct (fold_ephemeral_sublist _ _ _ _ E1) as (n & Hn0 & Hs1).
  destruct (fold_ephemeral_sublist _ _ _ _ E2) as (n' & Hn0' & Hs2).
  simplify_eq. destruct (wf_key _ Hw1 _ _ E1) as [_ (cs & Hcs & ->)].
  eapply sublist_same_elements; [eapply (wf_nodup _ (proj1 Hwf)); exact Hn0|done..|].
  intros c. rewrite (Children_perm _ _ _ Hw1 Hcs E1), (Children_perm _ _ _ Hw2 Hcs E2).
  by rewrite He.
Qed.

Lemma wf_demo_prefix : wf (exec (OCreate "n-" "y" true "S" true 2 2)
  (exec (OCreate "m" "y" true "S" false 1 1) (NewStore 0 0)).2).2.
Proof.
  apply exec_wf; [apply exec_wf; [apply wf_NewStore|by intros [? ?]]|by intros [? ?]].
Qed.

Lemma delete_ephemerals_deterministic_witness :
  let s := (exec (OCreate "n-" "y" true "S" true 2 2)
             (exec (OCreate "m" "y" true "S" false 1 1) (NewStore 0 0)).2).2 in
  (DeleteEphemerals (keys s) "S" s).1.2 = (DeleteEphemerals (reverse (keys s)) "S" s).1.2.
Proof.
  intros s.
  apply (delete_ephemerals_deterministic (keys s) (reverse (keys s)) "S" s wf_demo_prefix).
  - unfold iteration_order, keys. reflexivity.
  - unfold iteration_order, keys. apply reverse_Permutation.
Defined.

(** ** Compare-and-set *)

(** C32. Versions give compare-and-set: a Set with an expected version v >= 0
    succeeds only when v is the current version, then stores the data and
    moves the version to v + 1 (mod 2^64), and a second writer that expected
    the same v gets ErrVersionMismatch and changes nothing. *)
Theorem set_compare_and_swap p d1 d2 v t t' s n s1 gs :
  (0 ≤ v < 2 ^ 63)%Z → wf s →
  Set_ p d1 v t s = (Ok n, s1, gs) →
  (∃ n0, Get p s = Ok n0 ∧ Version n0 = v) ∧
  Get p s1 = Ok n ∧ Data n = d1 ∧ Version n = (v + 1)%Z ∧
  Set_ p d2 v t' s1 = (Err ErrVersionMismatch, s1, []).
Proof.
  intros Hv [Hwf _]. unfold Set_, Get.
  destruct (nodes s !! normalizePath p) as [n0|] eqn:Hn0; [|done].
  destruct (version_conflict v n0) eqn:Hc; [done|]. intros [= <- <- <-]. simpl.
  assert (Version n0 = v) as Hver.
  { unfold version_conflict in Hc. rewrite u64_small in Hc by (unfold in_u64, u64_max; lia). lia. }
  assert (u64 (Version n0 + 1) = v + 1)%Z as Hu.
  { rewrite Hver. apply u64_small. unfold in_u64, u64_max. lia. }
  rewrite lookup_insert_eq. split_and!; [by exists n0|done|done|done|].
  unfold version_conflict. simpl. rewrite Hu.
  rewrite u64_small by (unfold in_u64, u64_max; lia).
  destruct (Z.leb_spec 0 v); [|lia]. by destruct (Z.eqb_spec v (v + 1)); [lia|].
Qed.

Definition demo_app : Store := (exec (OCreate "app" "x" false "" false 1 1) (NewStore 0 0)).2.

Lemma wf_demo_app : wf demo_app.
Proof. apply exec_wf; [apply wf_NewStore|by intros [? ?]]. Qed.

Lemma set_compare_and_swap_witness :
  ∃ n s1 gs, Set_ "app" "d1" 1 7 demo_app = (Ok n, s1, gs) ∧ Version n = 2%Z ∧
    Set_ "app" "d2" 1 8 s1 = (Err ErrVersionMismatch, s1, []).
Proof.
  eexists _, _, _. split; [reflexivity|].
  destruct (set_compare_and_swap "app" "d1" "d2" 1 7 8 demo_app _ _ _ ltac:(lia)
              wf_demo_app eq_refl) as (_ & _ & _ & Hv & H2).
  split; [exact Hv|exact H2].
Defined.

(** ** Sequential nodes *)

Lemma exec_counter o s :
  in_u64 (seqCounter s) →
  seqCounter (exec o s).2 = seqCounter s ∨ seqCounter (exec o s).2 = u64 (seqCounter s + 1).
Proof.
  intros Hs. destruct o; cbn [exec]; try (by left).
  - unfold Create. repeat case_match; simplify_eq; simpl; auto.
  - unfold Set_. repeat case_match; simplify_eq; simpl; auto.
  - unfold Delete. repeat case_match; simplify_eq; simpl; auto.
Qed.

(** The counter grows by at most one per operation, and never shrinks before
    it wraps. *)
Lemma history_counter s h s' :
  history s h s' → wf s → (seqCounter s + Z.of_nat (length h) < u64_max)%Z →
  (seqCounter s ≤ seqCounter s' ≤ seqCounter s + Z.of_nat (length h))%Z.
Proof.
  induction 1 as [s|s o r s1 h s2 Hok Hex _ IH]; intros Hwf Hb; simpl in *; [lia|].
  assert (s1 = (exec o s).2) as -> by (by rewrite Hex).
  pose proof (exec_wf o s Hwf Hok) as Hwf1.
  pose proof (proj2 Hwf) as Hin. unfold in_u64 in Hin.
  assert (seqCounter s ≤ seqCounter (exec o s).2 ≤ seqCounter s + 1)%Z.
  { destruct (exec_counter o s) as [->| ->]; [done|lia|].
    rewrite u64_small; unfold in_u64; lia. }
  specialize (IH Hwf1 ltac:(lia)). lia.
Qed.

Lemma compare_app a b c : String.compare (a +:+ b) (a +:+ c) = String.compare b c.
Proof.
  induction a as [|x a IH]; [done|]. rewrite !str_app_cons. simpl.
  unfold Ascii.compare. by rewrite N.compare_refl.
Qed.

(** The path and counter of a successful sequential Create. *)
Lemma Create_sequential_path p data eph sid t1 t2 s a s' gs :
  Create p data eph sid true t1 t2 s = (Ok a, s', gs) →
  normalizePath p ≠ "/" →
  seqCounter s' = u64 (seqCounter s + 1) ∧
  a = normalizePath p +:+ Sequence.formatSequence (seqCounter s').
Proof.
  intros HC Hp. destruct (normalizePath_cases p) as [?|(cs & c & Hv & E)]; [done|].
  rewrite (Create_child _ _ _ _ _ _ _ _ cs c) in HC by done. cbv zeta in HC.
  repeat case_match; simplify_eq. simpl. split; [done|].
  rewrite E. by rewrite <- abs_path_snoc_app.
Qed.

(** Sequential nodes are created in the order of their names: of two
    sequential creations with the same prefix in one history, the later one
    gets the byte-wise larger path, as long as the counter stays below 10^10
    (ten padded digits). *)
Theorem sequential_names_increase p d d' e e' sid sid' t1 t2 t3 t4 s a s1 gs h s2 b s3 gs' :
  wf s → normalizePath p ≠ "/" →
  Create p d e sid true t1 t2 s = (Ok a, s1, gs) →
  history s1 h s2 →
  Create p d' e' sid' true t3 t4 s2 = (Ok b, s3, gs') →
  (seqCounter s + Z.of_nat (length h) + 2 < 10 ^ 10)%Z →
  String.compare a b = Lt.
Proof.
  intros Hwf Hp H1 Hh H2 Hb.
  destruct (Create_sequential_path _ _ _ _ _ _ _ _ _ _ H1 Hp) as [C1 ->].
  destruct (Create_sequential_path _ _ _ _ _ _ _ _ _ _ H2 Hp) as [C2 ->].
  assert (wf s1) as Hwf1 by (eapply Create_wf; [exact Hwf| |exact H1]; by intros [? _]).
  pose proof (proj2 Hwf) as Hin. unfold in_u64 in Hin.
  rewrite u64_small in C1 by (unfold in_u64, u64_max; lia).
  pose proof (history_counter _ _ _ Hh Hwf1 ltac:(unfold u64_max; lia)) as Hc.
  rewrite u64_small in C2 by (unfold in_u64, u64_max; lia).
  rewrite compare_app, formatSequence_compare by lia. apply Z.compare_lt_iff. lia.
Qed.

Lemma sequential_names_increase_witness :
  String.compare "/n-0000000001" "/n-0000000002" = Lt.
Proof.
  refine (sequential_names_increase "n-" "a" "b" true true "S" "T" 1 1 2 2 (NewStore 0 0)
            "/n-0000000001" _ _ [] _ "/n-0000000002" _ _ (wf_NewStore 0 0) _
            _ (h_nil _) _ _).
  - by vm_compute.
  - vm_compute. reflexivity.
  - vm_compute. reflexivity.
  - simpl. lia.
Defined.

(** ** Creation *)

(** What a successful Create does to the map. *)
Lemma Create_ok p data eph sid sq t1 t2 s a s' gs :
  Create p data eph sid sq t1 t2 s = (Ok a, s', gs) →
  let node := mkNode a data 1 eph sid sq (seqCounter s') [] t1 t2 in
  canonical a ∧ nodes s !! a = None ∧ nodes s' !! a = Some node ∧
  entry <$> nodes s' = <[a := node]> (entry <$> nodes s).
Proof.
  intros HC. destruct (normalizePath_cases p) as [Hp|(cs & c & Hv & Hp)].
  - rewrite Create_root in HC by done. cbv zeta in HC. case_match eqn:Hf; [done|].
    injection HC as <- <- <-. simpl. rewrite lookup_insert_eq. split_and!; [|done|done|].
    + destruct sq; [|by exists []]. eexists. split; [|done].
      constructor; [|done]. apply (valid_comp_seq "" _ eq_refl), u64_range.
    + by rewrite fmap_insert.
  - rewrite (Create_child _ _ _ _ _ _ _ _ cs c) in HC by done. cbv zeta in HC.
    pose proof (seq_name_valid sq cs c s Hv) as Hv'.
    case_match; [|done]. case_match; [done|]. case_match eqn:Hf; [done|].
    injection HC as <- <- <-. simpl. rewrite lookup_link_new, entry_link by done.
    split_and!; [by eexists|done..].
Qed.

Lemma Exists_canonical a s : canonical a → Exists a s = bool_decide (is_Some (nodes s !! a)).
Proof. intros Hc. unfold Exists. by rewrite normalizePath_of_canonical. Qed.

(** A successful Create is visible: the path it returns is the canonical
    path of a new node, Get returns exactly the data, owner and flags that
    were given with version 1 and no children, Exists is true, and every other
    path has the same entry as before. *)
Theorem create_then_get p data eph sid sq t1 t2 s a s' gs :
  Create p data eph sid sq t1 t2 s = (Ok a, s', gs) →
  nodes s !! a = None ∧ normalizePath a = a ∧
  Get a s' = Ok (mkNode a data 1 eph sid sq (seqCounter s') [] t1 t2) ∧
  Exists a s' = true ∧
  ∀ q, q ≠ a → entry <$> nodes s' !! q = entry <$> nodes s !! q.
Proof.
  intros HC. destruct (Create_ok _ _ _ _ _ _ _ _ _ _ _ HC) as (Hcan & Hfresh & Hnew & He).
  pose proof (normalizePath_of_canonical _ Hcan) as Hn.
  split_and!; [done|done| | |].
  - unfold Get. by rewrite Hn, Hnew.
  - rewrite Exists_canonical, Hnew by done. by apply bool_decide_eq_true.
  - intros q Hq. by rewrite <- !lookup_fmap, He, lookup_insert_ne.
Qed.

Lemma create_then_get_witness :
  Get "/app/x" (Create "app//./x" "v" true "S" false 3 4 demo_app).1.2
    = Ok (mkNode "/app/x" "v" 1 true "S" false 0 [] 3 4).
Proof.
  destruct (create_then_get "app//./x" "v" true "S" false 3 4 demo_app "/app/x" _ _ eq_refl)
    as (_ & _ & H & _). exact H.
Defined.

(** A sequential node requested at the root path itself is stored but
    never listed: it exists afterwards, and the children of the root are the
    same as before. *)
Theorem create_sequential_at_root_unlisted data eph sid t1 t2 s a s' gs :
  wf s → Create "/" data eph sid true t1 t2 s = (Ok a, s', gs) →
  Exists a s' = true ∧ parentPath a = "/" ∧ GetChildren "/" s' = GetChildren "/" s.
Proof.
  intros Hwf HC.
  destruct (Create_ok _ _ _ _ _ _ _ _ _ _ _ HC) as (Hcan & Hfresh & Hnew & _).
  split; [rewrite Exists_canonical, Hnew by done; by apply bool_decide_eq_true|].
  rewrite Create_root in HC by done. cbv zeta in HC. case_match; [done|].
  injection HC as <- <- <-. split.
  - apply (parentPath_abs [] (Sequence.formatSequence (u64 (seqCounter s + 1)))).
    constructor; [|done]. apply (valid_comp_seq "" _ eq_refl), u64_range.
  - unfold GetChildren. simpl. rewrite lookup_insert_ne; [done|].
    intros E. destruct (wf_root _ (proj1 Hwf)) as (r & Hr & _). rewrite E in Hfresh.
    change (normalizePath "/") with "/" in *. congruence.
Qed.

Lemma create_sequential_at_root_unlisted_witness :
  let s' := (Create "/" "d" false "" true 1 1 demo_app).1.2 in
  Exists "/0000000001" s' = true ∧ GetChildren "/" s' = Ok ["app"].
Proof.
  intros s'.
  destruct (create_sequential_at_root_unlisted "d" false "" 1 1 demo_app "/0000000001" s' []
              wf_demo_app eq_refl) as (H & _ & E).
  split; [exact H|]. rewrite E. reflexivity.
Defined.
