(* ===== verification/RaftLog.v ===== *)
(** * The Raft log (internal/raft/log.go)

    Indices are uint64 values held in [Z].  [len l.entries] is a Go int, so it
    is non-negative and below 2^63 and its conversions to uint64 are exact.
    Get, GetRange and EntriesAfter return copies, so no slice of the log is
    shared and a log is just a list of entries. *)

From S2P Require Import Prelude.

Module Log.

(** type LogEntryType int, with its three named constants. *)
Definition LogEntryCommand : Z := 0.
Definition LogEntryConfig : Z := 1.
Definition LogEntryNoop : Z := 2.

Record LogEntry := mkEntry {
  Index : Z;
  Term : Z;
  Type_ : Z;
  Command : string
}.

#[export] Instance LogEntry_eq_dec : EqDecision LogEntry.
Proof. solve_decision. Defined.

Record Log := mkLog { entries : list LogEntry }.

Definition set_Index (i : Z) (e : LogEntry) : LogEntry :=
  mkEntry i (Term e) (Type_ e) (Command e).

Definition NewLog : Log := mkLog [].

(** int(len(l.entries)) *)
Definition Length (l : Log) : Z := Z.of_nat (length (entries l)).

Definition Append (entry : LogEntry) (l : Log) : Z * Log :=
  let entry := set_Index (Length l + 1) entry in
  (Index entry, mkLog (entries l ++ [entry])).

(** The loop of AppendEntries: entry number i gets the index prevIndex + i + 1. *)
Definition reindex (prevIndex : Z) (es : list LogEntry) : list LogEntry :=
  imap (λ i e, set_Index (prevIndex + Z.of_nat i + 1) e) es.

Definition AppendEntries (prevIndex : Z) (es : list LogEntry) (l : Log) : bool * Log :=
  if (Length l <? prevIndex)%Z then (false, l)
  else (true, mkLog (take (Z.to_nat prevIndex) (entries l) ++ reindex prevIndex es)).

(** index == 0 || index > len: the bounds test shared by Get and TermAt. *)
Definition out_of_range (index : Z) (l : Log) : bool :=
  (index =? 0)%Z || (Length l <? index)%Z.

Definition Get (index : Z) (l : Log) : option LogEntry :=
  if out_of_range index l then None else entries l !! Z.to_nat (index - 1).

Definition GetRange (start end_ : Z) (l : Log) : list LogEntry :=
  if (start =? 0)%Z || (end_ <? start)%Z || (Length l <? start)%Z then []
  else
    let end_ := if (Length l <? end_)%Z then Length l else end_ in
    take (Z.to_nat (end_ - (start - 1))) (drop (Z.to_nat (start - 1)) (entries l)).

Definition LastIndex (l : Log) : Z := Length l.

Definition LastTerm (l : Log) : Z :=
  match last (entries l) with Some e => Term e | None => 0 end.

Definition TermAt (index : Z) (l : Log) : Z :=
  if out_of_range index l then 0
  else match entries l !! Z.to_nat (index - 1) with Some e => Term e | None => 0 end.

Definition EntriesAfter (index : Z) (l : Log) : list LogEntry :=
  if (Length l <=? index)%Z then [] else drop (Z.to_nat index) (entries l).

End Log.

Import Log.

(** ** Well-formed logs: entry number i carries the index i + 1 *)

Definition wf_log (l : Log) : Prop :=
  ∀ i e, entries l !! i = Some e → Index e = (Z.of_nat i + 1)%Z.

Lemma wf_NewLog : wf_log NewLog.
Proof. by intros i e. Qed.

Lemma wf_log_app es1 es2 :
  wf_log (mkLog es1) →
  (∀ i e, es2 !! i = Some e → Index e = (Z.of_nat (length es1) + Z.of_nat i + 1)%Z) →
  wf_log (mkLog (es1 ++ es2)).
Proof.
  intros H1 H2 i e. simpl. rewrite lookup_app_Some. intros [?|[Hge ?]].
  - by apply H1.
  - rewrite (H2 (i - length es1)%nat e) by done. lia.
Qed.

Lemma wf_log_take k l : wf_log l → wf_log (mkLog (take k (entries l))).
Proof. intros H i e [? _]%lookup_take_Some. by apply H. Qed.

Lemma wf_Append e l : wf_log l → wf_log (Append e l).2.
Proof.
  intros H. apply wf_log_app; [by destruct l|].
  intros [|i] e' He; simplify_eq/=. unfold Length. lia.
Qed.

Lemma lookup_reindex p es i :
  reindex p es !! i = set_Index (p + Z.of_nat i + 1) <$> es !! i.
Proof. unfold reindex. by rewrite list_lookup_imap. Qed.

Lemma length_reindex p es : length (reindex p es) = length es.
Proof. apply length_imap. Qed.

Lemma wf_AppendEntries p es l :
  (0 ≤ p)%Z → wf_log l → wf_log (AppendEntries p es l).2.
Proof.
  intros Hp H. unfold AppendEntries, Length. destruct (Z.ltb_spec (Z.of_nat (length (entries l))) p); [done|].
  apply wf_log_app; [by apply wf_log_take|].
  intros i e. rewrite lookup_reindex. intros (e0 & _ & ->)%fmap_Some. simpl.
  rewrite length_take. lia.
Qed.

(** Re-indexing a piece of a well-formed log at its own place changes nothing. *)
Lemma reindex_drop k l :
  wf_log l → (k ≤ length (entries l))%nat →
  reindex (Z.of_nat k) (drop k (entries l)) = drop k (entries l).
Proof.
  intros H Hk. apply list_eq. intros i. rewrite lookup_reindex, lookup_drop.
  destruct (entries l !! (k + i)%nat) as [e|] eqn:E; simpl; [|done].
  f_equal. apply H in E. destruct e. unfold set_Index. simpl in *. f_equal. lia.
Qed.

(** ** Reading *)

Lemma TermAt_lookup i l :
  TermAt (Z.of_nat (S i)) l = match entries l !! i with Some e => Term e | None => 0%Z end.
Proof.
  unfold TermAt, out_of_range, Length.
  replace (Z.to_nat (Z.of_nat (S i) - 1)) with i by lia.
  destruct (Z.eqb_spec (Z.of_nat (S i)) 0); [lia|].
  destruct (Z.ltb_spec (Z.of_nat (length (entries l))) (Z.of_nat (S i))); simpl; [|done].
  by rewrite lookup_ge_None_2 by lia.
Qed.

Lemma TermAt_0 l : TermAt 0 l = 0%Z.
Proof. done. Qed.

Lemma EntriesAfter_drop k l : EntriesAfter (Z.of_nat k) l = drop k (entries l).
Proof.
  unfold EntriesAfter, Length. rewrite Nat2Z.id.
  destruct (Z.leb_spec (Z.of_nat (length (entries l))) (Z.of_nat k)); [|done].
  rewrite drop_ge; [done|lia].
Qed.

Lemma Get_lookup i l : Get (Z.of_nat (S i)) l = entries l !! i.
Proof.
  unfold Get, out_of_range, Length.
  replace (Z.to_nat (Z.of_nat (S i) - 1)) with i by lia.
  destruct (Z.eqb_spec (Z.of_nat (S i)) 0); [lia|].
  destruct (Z.ltb_spec (Z.of_nat (length (entries l))) (Z.of_nat (S i))); simpl; [|done].
  by rewrite lookup_ge_None_2 by lia.
Qed.

(** ** Histories *)

(** One mutation of the log by its two mutating methods. *)
Inductive log_step : Log → Log → Prop :=
| log_append e l : log_step l (Append e l).2
| log_append_entries p es l : (0 ≤ p)%Z → log_step l (AppendEntries p es l).2.

Lemma log_step_wf l l' : log_step l l' → wf_log l → wf_log l'.
Proof. destruct 1; auto using wf_Append, wf_AppendEntries. Qed.

Lemma log_reachable_wf l : rtc log_step NewLog l → wf_log l.
Proof.
  intros H. pose proof wf_NewLog as Hwf. revert Hwf.
  induction H as [|l1 l2 l3 Hs _ IH]; [done|]. intros Hwf. apply IH. by eapply log_step_wf.
Qed.

(** In every log built by Append and AppendEntries from NewLog, the entry
    at 1-based position i carries the index i, Get i returns exactly the i-th
    entry and its term is TermAt i, LastIndex is the number of entries, and
    reading outside 1..LastIndex returns nothing (term 0). *)
Theorem log_positions l i :
  rtc log_step NewLog l → (0 ≤ i)%Z →
  match Get i l with
  | Some e => (1 ≤ i ≤ LastIndex l)%Z ∧ Index e = i ∧ TermAt i l = Term e ∧
              entries l !! Z.to_nat (i - 1) = Some e
  | None => (i = 0 ∨ LastIndex l < i)%Z ∧ TermAt i l = 0%Z
  end.
Proof.
  intros Hwf%log_reachable_wf Hi. unfold LastIndex, Length.
  destruct (decide (i = 0)%Z) as [->|]; [simpl; auto|].
  destruct (Z.to_nat i) as [|k] eqn:Hk; [lia|].
  assert (i = Z.of_nat (S k)) as -> by lia. rewrite Get_lookup, TermAt_lookup.
  replace (Z.to_nat (Z.of_nat (S k) - 1)) with k by lia.
  destruct (entries l !! k) as [e|] eqn:E.
  - pose proof (lookup_lt_Some _ _ _ E). rewrite (Hwf k e E). split_and!; try done; lia.
  - apply lookup_ge_None in E. split; [right; lia|done].
Qed.

Definition demo_log : Log :=
  (AppendEntries 1 [mkEntry 9 2 0 "b"; mkEntry 9 2 0 "c"]
     (Append (mkEntry 0 1 0 "z") (Append (mkEntry 0 1 0 "a") NewLog).2).2).2.

Lemma demo_log_reachable : rtc log_step NewLog demo_log.
Proof.
  unfold demo_log. do 2 (eapply rtc_l; [apply log_append|]).
  apply rtc_once. apply log_append_entries. lia.
Qed.

Lemma log_positions_witness :
  Get 3 demo_log = Some (mkEntry 3 2 0 "c") ∧ TermAt 3 demo_log = 2%Z.
Proof.
  split; [reflexivity|].
  pose proof (log_positions demo_log 3 demo_log_reachable ltac:(lia)) as H.
  destruct H as (_ & _ & H & _). exact H.
Defined.

(** AppendEntries either refuses (prevIndex beyond the log) and changes
    nothing, or leaves exactly the first prevIndex entries followed by the new
    ones, in order and with contiguous indices; in particular an entry at or
    below prevIndex is never lost, and every entry above it is replaced. *)
Theorem append_entries_spec p es l :
  (0 ≤ p)%Z →
  let '(ok, l') := AppendEntries p es l in
  if ok
  then (p ≤ LastIndex l)%Z ∧ LastIndex l' = (p + Z.of_nat (length es))%Z ∧
       (∀ i, (1 ≤ i ≤ p)%Z → Get i l' = Get i l) ∧
       (∀ k e, es !! k = Some e →
          Get (p + Z.of_nat k + 1) l' = Some (set_Index (p + Z.of_nat k + 1) e))
  else (LastIndex l < p)%Z ∧ l' = l.
Proof.
  intros Hp. unfold AppendEntries, LastIndex, Length.
  destruct (Z.ltb_spec (Z.of_nat (length (entries l))) p); [done|].
  cbn [entries]. split_and!.
  - lia.
  - rewrite length_app, length_take, length_reindex. lia.
  - intros i Hi. assert (i = Z.of_nat (S (Z.to_nat (i - 1)))) as -> by lia.
    rewrite !Get_lookup. cbn [entries]. rewrite lookup_app_l, lookup_take by (rewrite length_take; lia).
    rewrite decide_True by lia. done.
  - intros k e Hk.
    replace (p + Z.of_nat k + 1)%Z with (Z.of_nat (S (Z.to_nat p + k))) at 1 by lia.
    rewrite Get_lookup. cbn [entries].
    rewrite lookup_app_r by (rewrite length_take; lia). rewrite length_take, lookup_reindex.
    replace (Z.to_nat p + k - Z.to_nat p `min` length (entries l))%nat with k by lia.
    by rewrite Hk.
Qed.

Lemma append_entries_spec_witness :
  LastIndex (AppendEntries 1 [mkEntry 0 3 0 "x"] demo_log).2 = 2%Z.
Proof.
  pose proof (append_entries_spec 1 [mkEntry 0 3 0 "x"] demo_log ltac:(lia)) as H.
  vm_compute in H. vm_compute. exact (proj1 (proj2 H)).
Defined.

(** GetRange(start, end) is the list of the entries Get returns for the
    indices from start to min(end, LastIndex), and EntriesAfter(i) is the same
    list for i+1 up to LastIndex: replication sends exactly the missing suffix. *)
Theorem range_reads start end_ l k :
  (1 ≤ start)%Z → (0 ≤ end_)%Z →
  GetRange start end_ l !! k =
    (if decide (start + Z.of_nat k ≤ end_)%Z then Get (start + Z.of_nat k) l else None) ∧
  EntriesAfter (start - 1) l = GetRange start (LastIndex l) l.
Proof.
  intros Hs He. set (a := Z.to_nat (start - 1)).
  assert (Ha : start = Z.of_nat (S a)) by lia.
  assert (HG : Get (start + Z.of_nat k) l = entries l !! (a + k)%nat).
  { replace (start + Z.of_nat k)%Z with (Z.of_nat (S (a + k))) by lia. apply Get_lookup. }
  rewrite HG. unfold GetRange, LastIndex, Length.
  replace (start - 1)%Z with (Z.of_nat a) by lia. rewrite EntriesAfter_drop, Nat2Z.id.
  split.
  - destruct (Z.eqb_spec start 0), (Z.ltb_spec end_ start),
      (Z.ltb_spec (Z.of_nat (length (entries l))) start); try lia; cbn [orb].
    1-3: case_decide; rewrite ?lookup_nil, ?lookup_ge_None_2; (done || lia).
    rewrite lookup_take, lookup_drop.
    destruct (Z.ltb_spec (Z.of_nat (length (entries l))) end_); repeat case_decide; try done; try lia.
    rewrite lookup_ge_None_2 by lia. done.
  - destruct (Z.eqb_spec start 0), (Z.ltb_spec (Z.of_nat (length (entries l))) start);
      try lia; cbn [orb]; rewrite ?Z.ltb_irrefl.
    + rewrite drop_ge by lia. done.
    + rewrite take_ge; [done|]. rewrite length_drop. lia.
Qed.

Lemma range_reads_witness :
  EntriesAfter 1 demo_log = [mkEntry 2 2 0 "b"; mkEntry 3 2 0 "c"].
Proof.
  destruct (range_reads 2 3 demo_log 0 ltac:(lia) ltac:(lia)) as [_ H].
  change (2 - 1)%Z with 1%Z in H. rewrite H. reflexivity.
Defined.
