(* ===== verification/RaftState.v ===== *)
(** * The state of a Raft node (internal/raft/state.go)

    One definition per method; each method holds the state's mutex for its
    whole body, so each is one atomic step.  A clock reading (time.Now) is an
    argument. *)

From S2P Require Import Prelude RaftLog.

Module State.

(** type NodeState int: the three constants the program uses. *)
Inductive NodeState := Follower | Candidate | Leader.

#[export] Instance NodeState_eq_dec : EqDecision NodeState.
Proof. solve_decision. Defined.

Definition String_ (s : NodeState) : string :=
  match s with
  | Follower => "Follower"
  | Candidate => "Candidate"
  | Leader => "Leader"
  end.

Record State := mkState {
  currentTerm : Z;
  votedFor : string;
  log : Log.Log;
  state : NodeState;
  leaderID : string;
  commitIndex : Z;
  lastApplied : Z;
  nextIndex : gmap string Z;
  matchIndex : gmap string Z;
  lastHeartbeat : Z
}.

(** The zero time.Time of a fresh struct is the instant 0 of the model. *)
Definition NewState : State := mkState 0 "" Log.NewLog Follower "" 0 0 ∅ ∅ 0.

(** The getters: each reads one field under the mutex. *)
Definition CurrentTerm (s : State) : Z := currentTerm s.
Definition VotedFor (s : State) : string := votedFor s.
Definition GetState (s : State) : NodeState := state s.
Definition LeaderID (s : State) : string := leaderID s.
Definition CommitIndex (s : State) : Z := commitIndex s.
Definition LastApplied (s : State) : Z := lastApplied s.
Definition LastHeartbeat (s : State) : Z := lastHeartbeat s.

(** The log itself, by pointer: a method that changes it changes the state's log
    ([set_log]). *)
Definition GetLog (s : State) : Log.Log := log s.

Definition SetCurrentTerm (term : Z) (s : State) : State :=
  mkState term "" (log s) (state s) (leaderID s) (commitIndex s) (lastApplied s)
    (nextIndex s) (matchIndex s) (lastHeartbeat s).

Definition IncrementTerm (s : State) : Z * State :=
  let s := mkState (u64 (currentTerm s + 1)) "" (log s) (state s) (leaderID s)
             (commitIndex s) (lastApplied s) (nextIndex s) (matchIndex s) (lastHeartbeat s) in
  (currentTerm s, s).

Definition SetVotedFor (nodeID : string) (s : State) : State :=
  mkState (currentTerm s) nodeID (log s) (state s) (leaderID s) (commitIndex s)
    (lastApplied s) (nextIndex s) (matchIndex s) (lastHeartbeat s).

Definition SetState (st : NodeState) (s : State) : State :=
  mkState (currentTerm s) (votedFor s) (log s) st (leaderID s) (commitIndex s)
    (lastApplied s) (nextIndex s) (matchIndex s) (lastHeartbeat s).

Definition SetLeaderID (id : string) (s : State) : State :=
  mkState (currentTerm s) (votedFor s) (log s) (state s) id (commitIndex s)
    (lastApplied s) (nextIndex s) (matchIndex s) (lastHeartbeat s).

Definition SetCommitIndex (index : Z) (s : State) : State :=
  mkState (currentTerm s) (votedFor s) (log s) (state s) (leaderID s) index
    (lastApplied s) (nextIndex s) (matchIndex s) (lastHeartbeat s).

Definition SetLastApplied (index : Z) (s : State) : State :=
  mkState (currentTerm s) (votedFor s) (log s) (state s) (leaderID s) (commitIndex s)
    index (nextIndex s) (matchIndex s) (lastHeartbeat s).

Definition UpdateHeartbeat (now : Z) (s : State) : State :=
  mkState (currentTerm s) (votedFor s) (log s) (state s) (leaderID s) (commitIndex s)
    (lastApplied s) (nextIndex s) (matchIndex s) now.

Definition BecomeFollower (term : Z) (leader : string) (now : Z) (s : State) : State :=
  mkState term "" (log s) Follower leader (commitIndex s) (lastApplied s)
    (nextIndex s) (matchIndex s) now.

Definition BecomeCandidate (s : State) : Z * State :=
  let s := mkState (u64 (currentTerm s + 1)) (votedFor s) (log s) Candidate ""
             (commitIndex s) (lastApplied s) (nextIndex s) (matchIndex s) (lastHeartbeat s) in
  (currentTerm s, s).

Definition BecomeLeader (nodeID : string) (peers : list string) (s : State) : State :=
  let lastLogIndex := Log.LastIndex (log s) in
  mkState (currentTerm s) (votedFor s) (log s) Leader nodeID (commitIndex s) (lastApplied s)
    (foldl (λ m peer, <[peer := (lastLogIndex + 1)%Z]> m) (nextIndex s) peers)
    (foldl (λ m peer, <[peer := 0%Z]> m) (matchIndex s) peers)
    (lastHeartbeat s).

(** What a method called on GetLog() does to the state. *)
Definition set_log (l : Log.Log) (s : State) : State :=
  mkState (currentTerm s) (votedFor s) l (state s) (leaderID s) (commitIndex s)
    (lastApplied s) (nextIndex s) (matchIndex s) (lastHeartbeat s).

(** Writes to the two maps made by the node itself (node.go). *)
Definition set_nextIndex (peer : string) (i : Z) (s : State) : State :=
  mkState (currentTerm s) (votedFor s) (log s) (state s) (leaderID s) (commitIndex s)
    (lastApplied s) (<[peer := i]> (nextIndex s)) (matchIndex s) (lastHeartbeat s).

Definition set_matchIndex (peer : string) (i : Z) (s : State) : State :=
  mkState (currentTerm s) (votedFor s) (log s) (state s) (leaderID s) (commitIndex s)
    (lastApplied s) (nextIndex s) (<[peer := i]> (matchIndex s)) (lastHeartbeat s).

End State.

Import State.

Lemma foldl_insert_lookup (v : Z) peers (m : gmap string Z) p :
  foldl (λ m peer, <[peer := v]> m) m peers !! p =
    if decide (p ∈ peers) then Some v else m !! p.
Proof.
  revert m. induction peers as [|q l IH]; intros m; simpl; [done|].
  rewrite IH. destruct (decide (p = q)) as [->|Hne].
  - rewrite lookup_insert_eq, (decide_True (P := q ∈ q :: l)) by (by left). by case_decide.
  - rewrite lookup_insert_ne by done. apply decide_ext. rewrite elem_of_cons. naive_solver.
Qed.

(** After an election win every peer is to be sent the entry after the
    leader's last one, and nothing is known to be replicated. *)
Lemma BecomeLeader_indices id peers s p :
  p ∈ peers →
  nextIndex (BecomeLeader id peers s) !! p = Some (Log.LastIndex (log s) + 1)%Z ∧
  matchIndex (BecomeLeader id peers s) !! p = Some 0%Z.
Proof. intros Hp. simpl. by rewrite !foldl_insert_lookup, !decide_True. Qed.
