(* ===== verification/Config.v ===== *)
(** * Configuration (internal/config/config.go)

    Durations are time.Duration values: int64 nanoseconds.  The viper library
    is not part of the repository: reading a file and unmarshalling it into
    the default configuration are parameters of [Load]. *)

From S2P Require Import Prelude.

Module Config.

Definition Millisecond : Z := 1000000.
Definition Second : Z := 1000000000.
Definition Minute : Z := 60 * Second.

Record ClusterConfig := mkCluster { NodeID : string; Peers : list string }.
Record ServerConfig := mkServer { GRPCPort : Z; HTTPPort : Z }.
Record RaftConfig := mkRaft {
  ElectionTimeoutMin : Z;
  ElectionTimeoutMax : Z;
  HeartbeatInterval : Z
}.
Record SessionConfig := mkSession { DefaultTTL : Z; MaxTTL : Z }.
Record StorageConfig := mkStorage {
  DataDir : string;
  WALEnabled : bool;
  SnapshotInterval : Z
}.

Record Config := mkConfig {
  Cluster : ClusterConfig;
  Server : ServerConfig;
  Raft : RaftConfig;
  Session : SessionConfig;
  Storage : StorageConfig
}.

Definition DefaultConfig : Config :=
  mkConfig
    (mkCluster "node-1" [])
    (mkServer 5001 8080)
    (mkRaft (150 * Millisecond) (300 * Millisecond) (50 * Millisecond))
    (mkSession (10 * Second) (60 * Second))
    (mkStorage "./data" false (5 * Minute)).

Section Load.
Context {E : Type}.
(** viper.ReadInConfig after SetConfigFile(path): the parsed file or an error. *)
Variable File : Type.
Variable ReadInConfig : string → result E File.
(** viper.Unmarshal(cfg): the fields present in the file override those of cfg. *)
Variable Unmarshal : File → Config → result E Config.

Definition Load (configPath : string) : result E Config :=
  let cfg := DefaultConfig in
  if decide (configPath = "") then Ok cfg
  else match ReadInConfig configPath with
       | Ok f => match Unmarshal f cfg with
                 | Ok cfg => Ok cfg
                 | Err e => Err e
                 | Panic => Panic
                 end
       | Err e => Err e
       | Panic => Panic
       end.
End Load.

End Config.
