(* ===== verification/RaftNode.v ===== *)
(** * The Raft node (internal/raft/node.go)

    The RPC handlers, the two halves of the goroutines that send RPCs (build
    the request, process the response), the commit rule and Propose, each as a
    function on the node.  HandleRequestVote and HandleAppendEntries hold the node's mutex for their whole body.  A call of
    rand.Int63n is an argument [r]; it panics when its bound is not positive,
    which is the result [None]. *)

From S2P Require Import Prelude RaftLog RaftState Config.
Import State.

Module Raft.

(** errors.go *)
Inductive Error := ErrNotLeader | ErrLeaderUnknown | ErrTimeout.

Record VoteRequest := mkVoteRequest {
  vq_Term : Z;
  vq_CandidateID : string;
  vq_LastLogIndex : Z;
  vq_LastLogTerm : Z
}.

Record VoteResponse := mkVoteResponse { vr_Term : Z; vr_VoteGranted : bool }.

Record AppendEntriesRequest := mkAppend {
  aq_Term : Z;
  aq_LeaderID : string;
  aq_PrevLogIndex : Z;
  aq_PrevLogTerm : Z;
  aq_Entries : list Log.LogEntry;
  aq_LeaderCommit : Z
}.

Record AppendEntriesResponse := mkAppendResponse { ar_Term : Z; ar_Success : bool }.

(** The interface Transport: a call names the target and changes the transport;
    None is an error. *)
Class Transport (T : Type) := {
  rpc_RequestVote : string → VoteRequest → T → option VoteResponse * T;
  rpc_AppendEntries : string → AppendEntriesRequest → T → option AppendEntriesResponse * T
}.

(** A *time.Timer: its channel can still deliver (Armed), holds its value
    (Fired), was read (Drained), or will never deliver (Stopped). *)
Inductive TimerStatus := Armed | Fired | Drained | Stopped.
Record Timer := mkTimer { duration : Z; status : TimerStatus }.

(** timer.Stop() *)
Definition stop_timer (t : Timer) : Timer :=
  match status t with
  | Armed => mkTimer (duration t) Stopped
  | _ => t
  end.

(** [timers] holds every timer allocated so far; electionTimer and
    heartbeatTimer are pointers into it.  [commitCh] says whether the buffered
    channel of capacity 1 is full. *)
Record Node := mkNode {
  id : string;
  peers : list string;
  st : State;
  config : Config.RaftConfig;
  commitCh : bool;
  timers : list Timer;
  electionTimer : option nat;
  heartbeatTimer : option nat
}.

Definition set_st (s : State) (n : Node) : Node :=
  mkNode (id n) (peers n) s (config n) (commitCh n) (timers n)
    (electionTimer n) (heartbeatTimer n).

Definition set_commitCh (b : bool) (n : Node) : Node :=
  mkNode (id n) (peers n) (st n) (config n) b (timers n)
    (electionTimer n) (heartbeatTimer n).

Definition NewNode (nid : string) (ps : list string) (cfg : Config.RaftConfig) : Node :=
  mkNode nid ps NewState cfg false [] None None.

(** resetElectionTimer, with the value [r] of rand.Int63n(int64(max-min)). *)
Definition resetElectionTimer (r : Z) (n : Node) : option Node :=
  let ts := match electionTimer n with
            | Some t => alter stop_timer t (timers n)
            | None => timers n
            end in
  let min := Config.ElectionTimeoutMin (config n) in
  let max := Config.ElectionTimeoutMax (config n) in
  if (i64 (max - min) <=? 0)%Z then None
  else
    let timeout := i64 (min + r) in
    Some (mkNode (id n) (peers n) (st n) (config n) (commitCh n)
            (ts ++ [mkTimer timeout Armed]) (Some (length ts)) (heartbeatTimer n)).

(** The candidate's log is at least as up-to-date as ours. *)
Definition up_to_date (req : VoteRequest) (l : Log.Log) : bool :=
  (Log.LastTerm l <? vq_LastLogTerm req)%Z ||
  ((vq_LastLogTerm req =? Log.LastTerm l)%Z && (Log.LastIndex l <=? vq_LastLogIndex req)%Z).

Definition HandleRequestVote (req : VoteRequest) (now r : Z) (n : Node)
  : option (VoteResponse * Node) :=
  let s := st n in
  if (vq_Term req <? currentTerm s)%Z then Some (mkVoteResponse (currentTerm s) false, n)
  else
    let '(s, respTerm) :=
      if (currentTerm s <? vq_Term req)%Z
      then (BecomeFollower (vq_Term req) "" now s, vq_Term req)
      else (s, currentTerm s) in
    if decide (votedFor s = "" ∨ votedFor s = vq_CandidateID req) then
      if up_to_date req (log s) then
        match resetElectionTimer r (set_st (SetVotedFor (vq_CandidateID req) s) n) with
        | Some n => Some (mkVoteResponse respTerm true, n)
        | None => None
        end
      else Some (mkVoteResponse respTerm false, set_st s n)
    else Some (mkVoteResponse respTerm false, set_st s n).

(** The commit index computed at the end of HandleAppendEntries. *)
Definition new_commit (req : AppendEntriesRequest) (s : State) : State :=
  if (commitIndex s <? aq_LeaderCommit req)%Z then
    let lastNewEntry := match last (aq_Entries req) with
                        | Some e => Log.Index e
                        | None => aq_PrevLogIndex req
                        end in
    let commitIndex := aq_LeaderCommit req in
    let commitIndex := if (lastNewEntry <? commitIndex)%Z then lastNewEntry else commitIndex in
    SetCommitIndex commitIndex s
  else s.

Definition HandleAppendEntries (req : AppendEntriesRequest) (now r : Z) (n : Node)
  : option (AppendEntriesResponse * Node) :=
  let s := st n in
  if (aq_Term req <? currentTerm s)%Z then
    Some (mkAppendResponse (currentTerm s) false, n)
  else
    match resetElectionTimer r n with
    | None => None
    | Some n =>
        (* req.Term >= n.state.CurrentTerm() holds here *)
        let s := if (currentTerm s <=? aq_Term req)%Z
                 then BecomeFollower (aq_Term req) (aq_LeaderID req) now s else s in
        let respTerm := aq_Term req in
        if (0 <? aq_PrevLogIndex req)%Z &&
           negb (Log.TermAt (aq_PrevLogIndex req) (log s) =? aq_PrevLogTerm req)%Z
        then Some (mkAppendResponse respTerm false, set_st s n)
        else
          let s := if decide (0 < length (aq_Entries req))%nat
                   then set_log (Log.AppendEntries (aq_PrevLogIndex req) (aq_Entries req) (log s)).2 s
                   else s in
          Some (mkAppendResponse respTerm true, set_st (new_commit req s) n)
    end.

Definition Propose (command : string) (n : Node) : result Error Z * Node :=
  if decide (GetState (st n) ≠ Leader) then (Err ErrNotLeader, n)
  else
    let entry := Log.mkEntry 0 (currentTerm (st n)) Log.LogEntryCommand command in
    let '(index, l) := Log.Append entry (log (st n)) in
    (Ok index, set_st (set_log l (st n)) n).

Definition IsLeader (n : Node) : bool := bool_decide (GetState (st n) = Leader).
Definition GetLeaderID (n : Node) : string := LeaderID (st n).

(** ** Elections *)

(** votesNeeded := (len(n.peers)+1)/2 + 1 *)
Definition votesNeeded (n : Node) : Z := ((Z.of_nat (length (peers n)) + 1) / 2 + 1)%Z.

(** The first lines of runCandidate. *)
Definition start_candidate (r : Z) (n : Node) : option (Z * Node) :=
  let '(term, s) := BecomeCandidate (st n) in
  let s := SetVotedFor (id n) s in
  match resetElectionTimer r (set_st s n) with
  | Some n => Some (term, n)
  | None => None
  end.

(** The request a vote goroutine builds (it reads the log when it runs). *)
Definition vote_request (term : Z) (n : Node) : VoteRequest :=
  mkVoteRequest term (id n) (Log.LastIndex (GetLog (st n))) (Log.LastTerm (GetLog (st n))).

(** The critical section of a vote goroutine under voteMu; a transport error
    ([None]) returns before it. *)
Definition vote_response (term : Z) (resp : option VoteResponse) (now : Z)
    (votes : Z) (n : Node) : Z * Node :=
  match resp with
  | None => (votes, n)
  | Some resp =>
      if (term <? vr_Term resp)%Z
      then (votes, set_st (BecomeFollower (vr_Term resp) "" now (st n)) n)
      else if vr_VoteGranted resp then ((votes + 1)%Z, n)
      else (votes, n)
  end.

(** After <-done: count the votes. *)
Definition finish_candidate (votes : Z) (r : Z) (n : Node) : option Node :=
  if (votesNeeded n <=? votes)%Z
  then Some (set_st (BecomeLeader (id n) (peers n) (st n)) n)
  else resetElectionTimer r (set_st (SetState Follower (st n)) n).

(** ** Replication *)

Definition lookup_index (m : gmap string Z) (peer : string) : Z := default 0%Z (m !! peer).

(** The request a heartbeat goroutine builds for a peer. *)
Definition heartbeat_request (term : Z) (peer : string) (n : Node) : AppendEntriesRequest :=
  let prevLogIndex := u64 (lookup_index (nextIndex (st n)) peer - 1) in
  let prevLogTerm := Log.TermAt prevLogIndex (log (st n)) in
  let es := Log.EntriesAfter prevLogIndex (log (st n)) in
  mkAppend term (id n) prevLogIndex prevLogTerm es (commitIndex (st n)).

(** The processing of the response to [heartbeat_request]; a transport error
    ([None]) changes nothing. *)
Definition heartbeat_response (term : Z) (peer : string) (es : list Log.LogEntry)
    (resp : option AppendEntriesResponse) (now : Z) (n : Node) : Node :=
  match resp with
  | None => n
  | Some resp =>
      if (term <? ar_Term resp)%Z
      then set_st (BecomeFollower (ar_Term resp) "" now (st n)) n
      else if ar_Success resp then
        let s := match last es with
                 | Some e => set_matchIndex peer (Log.Index e)
                               (set_nextIndex peer (u64 (Log.Index e + 1)) (st n))
                 | None => st n
                 end in
        set_commitCh true (set_st s n)
      else
        let ni := lookup_index (nextIndex (st n)) peer in
        if (1 <? ni)%Z then set_st (set_nextIndex peer (ni - 1) (st n)) n else n
  end.

(** ** The commit rule *)

(** One pass of the outer sorting loop over matchIndexes: matchIndexes[i] is
    [x], the elements after it are [l]; the inner loop swaps when
    matchIndexes[i] > matchIndexes[j]. *)
Fixpoint exchange (x : Z) (l : list Z) : Z * list Z :=
  match l with
  | [] => (x, [])
  | y :: l' =>
      if (y <? x)%Z then let '(m, l'') := exchange y l' in (m, x :: l'')
      else let '(m, l'') := exchange x l' in (m, y :: l'')
  end.

(** The outer loop; the list length bounds the number of passes. *)
Fixpoint exchange_sort (fuel : nat) (l : list Z) : list Z :=
  match fuel, l with
  | S fuel', x :: l' => let '(m, l'') := exchange x l' in m :: exchange_sort fuel' l''
  | _, _ => l
  end.

Definition sort_indexes (l : list Z) : list Z := exchange_sort (length l) l.

(** updateCommitIndex; [order] is the iteration order of the matchIndex map. *)
Definition matchIndexes (order : list Z) (n : Node) : list Z :=
  Log.LastIndex (log (st n)) :: order.

Definition updateCommitIndex (order : list Z) (n : Node) : Node :=
  let sorted := sort_indexes (matchIndexes order n) in
  let majority := (length sorted / 2)%nat in
  match sorted !! majority with
  | None => n   (* the list is never empty *)
  | Some newCommitIndex =>
      if (commitIndex (st n) <? newCommitIndex)%Z &&
         (Log.TermAt newCommitIndex (log (st n)) =? currentTerm (st n))%Z
      then set_st (SetCommitIndex newCommitIndex (st n)) n
      else n
  end.

End Raft.
