(* ===== verification/RaftCommit.v ===== *)
(** * Replication, commitment and application

    The sort of updateCommitIndex is a sort, what a commit by the leader and
    by a follower means, that the apply loop hands over exactly the committed
    suffix, and that the nextIndex back-off brings a follower's log to agree
    with the leader's. *)

From S2P Require Import Prelude RaftLog RaftState Config RaftNode RaftVote.
Import State Raft.

(** ** The sort of updateCommitIndex *)

Lemma exchange_spec x l m l' :
  exchange x l = (m, l') →
  x :: l ≡ₚ m :: l' ∧ (m ≤ x)%Z ∧ Forall (λ y, m ≤ y)%Z l' ∧ length l' = length l.
Proof.
  revert x m l'. induction l as [|y l IH]; intros x m l' E; simpl in E.
  - injection E as <- <-. split_and!; [done|lia|done|done].
  - destruct (Z.ltb_spec y x) as [Hlt|Hge].
    + destruct (exchange y l) as [m1 l1] eqn:E1. injection E as <- <-.
      destruct (IH _ _ _ E1) as (Hp & Hm & Hf & Hl). split_and!.
      * rewrite Hp. apply Permutation_swap.
      * lia.
      * constructor; [lia|done].
      * simpl. lia.
    + destruct (exchange x l) as [m1 l1] eqn:E1. injection E as <- <-.
      destruct (IH _ _ _ E1) as (Hp & Hm & Hf & Hl). split_and!.
      * rewrite (Permutation_swap y x l), Hp. apply Permutation_swap.
      * lia.
      * constructor; [lia|done].
      * simpl. lia.
Qed.

Lemma exchange_sort_perm fuel l : exchange_sort fuel l ≡ₚ l.
Proof.
  revert l. induction fuel as [|fuel IH]; intros [|x l]; simpl; try done.
  destruct (exchange x l) as [m l'] eqn:E. destruct (exchange_spec _ _ _ _ E) as (Hp & _).
  by rewrite IH, Hp.
Qed.

Lemma exchange_sort_sorted fuel l :
  (length l ≤ fuel)%nat → StronglySorted Z.le (exchange_sort fuel l).
Proof.
  revert l. induction fuel as [|fuel IH]; intros [|x l] Hlen; simpl in *; try constructor; try lia.
  destruct (exchange x l) as [m l'] eqn:E.
  destruct (exchange_spec _ _ _ _ E) as (_ & _ & Hf & Hl).
  constructor; [apply IH; lia|]. by rewrite exchange_sort_perm.
Qed.

(** The nested swap loops of updateCommitIndex sort matchIndexes: they
    compute what a library sort computes. *)
Theorem sort_indexes_is_sort l : sort_indexes l = merge_sort Z.le l.
Proof.
  unfold sort_indexes. apply (StronglySorted_unique Z.le).
  - by apply exchange_sort_sorted.
  - apply Sorted_StronglySorted, Sorted_merge_sort; apply _.
  - by rewrite exchange_sort_perm, merge_sort_Permutation.
Qed.

Lemma sort_indexes_sorted l : StronglySorted Z.le (sort_indexes l).
Proof. by apply exchange_sort_sorted. Qed.

Lemma sort_indexes_perm l : sort_indexes l ≡ₚ l.
Proof. apply exchange_sort_perm. Qed.

(** How many servers have replicated index [c]. *)
Definition replicated (c : Z) (l : list Z) : nat := length (filter (λ i, c ≤ i)%Z l).

(** In a sorted list everything from position k on is at least the k-th element. *)
Lemma sorted_suffix_replicated l k c :
  StronglySorted Z.le l → l !! k = Some c → (length l - k ≤ replicated c l)%nat.
Proof.
  intros Hs Hk. rewrite <- (take_drop k l) at 2. unfold replicated.
  rewrite filter_app, length_app.
  rewrite (drop_S l c k) in * by done.
  assert (Forall (λ i, c ≤ i)%Z (c :: drop (S k) l)) as Hf.
  { constructor; [lia|]. rewrite <- (take_drop k l), (drop_S l c k) in Hs by done.
    apply StronglySorted_app in Hs as (_ & _ & Hs). by apply StronglySorted_cons in Hs as [? _]. }
  rewrite (filter_Forall_id _ (c :: drop (S k) l)) by done.
  simpl. rewrite length_drop. lia.
Qed.

Lemma replicated_perm c l l' : l ≡ₚ l' → replicated c l = replicated c l'.
Proof. intros Hp. unfold replicated. by rewrite Hp. Qed.

(** ** Leader commit *)

Lemma updateCommitIndex_cases order n :
  updateCommitIndex order n = n ∨
  ∃ c, updateCommitIndex order n = set_st (SetCommitIndex c (st n)) n ∧
    (commitIndex (st n) < c)%Z ∧ Log.TermAt c (log (st n)) = currentTerm (st n) ∧
    sort_indexes (matchIndexes order n) !! (length (matchIndexes order n) / 2)%nat = Some c.
Proof.
  unfold updateCommitIndex.
  rewrite (Permutation_length (sort_indexes_perm (matchIndexes order n))).
  destruct (sort_indexes _ !! _) as [c|] eqn:E; [|by left].
  destruct (Z.ltb_spec (commitIndex (st n)) c); [|by left].
  destruct (Z.eqb_spec (Log.TermAt c (log (st n))) (currentTerm (st n))); [|by left].
  right. by exists c.
Qed.

(** C8. The leader's commit rule: the commit index never decreases; when it
    moves to c, the entry at c has the leader's current term and at least half
    of the cluster (counting the leader) has replicated c, a strict majority
    when the cluster size is odd. *)
Theorem leader_commit_quorum order n :
  let n' := updateCommitIndex order n in
  let idx := matchIndexes order n in
  let c := commitIndex (st n') in
  (commitIndex (st n) ≤ c)%Z ∧ log (st n') = log (st n) ∧
  currentTerm (st n') = currentTerm (st n) ∧
  (c ≠ commitIndex (st n) →
     Log.TermAt c (log (st n)) = currentTerm (st n) ∧
     (length idx ≤ 2 * replicated c idx)%nat ∧
     (Nat.odd (length idx) = true → (length idx < 2 * replicated c idx)%nat)).
Proof.
  intros n' idx c. subst n' c.
  destruct (updateCommitIndex_cases order n) as [->|(c & -> & Hlt & Ht & Hk)];
    [by split_and!; (done || lia)|].
  cbn [st set_st SetCommitIndex commitIndex log currentTerm].
  split_and!; [lia|done|done|]. intros _. fold idx in Hk.
  pose proof (sorted_suffix_replicated _ _ _ (sort_indexes_sorted idx) Hk) as Hr.
  rewrite (replicated_perm c _ _ (sort_indexes_perm idx)) in Hr.
  rewrite (Permutation_length (sort_indexes_perm idx)) in Hr.
  pose proof (Nat.div_mod_eq (length idx) 2) as Hd.
  pose proof (Nat.mod_upper_bound (length idx) 2 ltac:(lia)) as Hm.
  split_and!; [done|lia|]. intros Hodd.
  assert (length idx `mod` 2 = 1)%nat as Ho.
  { rewrite Nat.odd_spec in Hodd. destruct Hodd as [k ->].
    rewrite Nat.add_comm, Nat.mul_comm, Nat.Div0.mod_add. done. }
  lia.
Qed.

(** A leader of term 1 with one entry, in a cluster of four. *)
Definition demo_leader4 : Node :=
  let s := BecomeLeader "a" ["b"; "c"; "d"] (BecomeCandidate NewState).2 in
  let s := set_log (Log.Append (Log.mkEntry 0 1 0 "x") (log s)).2 s in
  mkNode "a" ["b"; "c"; "d"] (set_matchIndex "b" 1 s) demo_cfg true [] None None.

(** With an even number of servers the median is not a majority: in a
    cluster of four, an entry present on two servers is committed, while an
    election needs three votes, so the two other servers and one of these can
    elect a leader without it. *)
Theorem even_cluster_commits_half :
  let n := demo_leader4 in
  let order := (map_to_list (matchIndex (st n))).*2 in
  let n' := updateCommitIndex order n in
  commitIndex (st n) = 0%Z ∧ commitIndex (st n') = 1%Z ∧
  length (matchIndexes order n) = 4%nat ∧
  replicated 1 (matchIndexes order n) = 2%nat ∧ votesNeeded n = 3%Z.
Proof. vm_compute. done. Qed.

(** ** HandleAppendEntries *)

(** The consistency check of the handler. *)
Definition prev_matches (req : AppendEntriesRequest) (l : Log.Log) : bool :=
  negb ((0 <? aq_PrevLogIndex req)%Z &&
        negb (Log.TermAt (aq_PrevLogIndex req) l =? aq_PrevLogTerm req)%Z).

(** The log after an accepted request. *)
Definition appended (req : AppendEntriesRequest) (l : Log.Log) : Log.Log :=
  if decide (0 < length (aq_Entries req))%nat
  then (Log.AppendEntries (aq_PrevLogIndex req) (aq_Entries req) l).2 else l.

(** The last index the request vouches for. *)
Definition last_new (req : AppendEntriesRequest) : Z :=
  match last (aq_Entries req) with Some e => Log.Index e | None => aq_PrevLogIndex req end.

Definition committed_after (req : AppendEntriesRequest) (ci : Z) : Z :=
  if (ci <? aq_LeaderCommit req)%Z then Z.min (aq_LeaderCommit req) (last_new req) else ci.

Lemma new_commit_spec req s :
  log (new_commit req s) = log s ∧ currentTerm (new_commit req s) = currentTerm s ∧
  votedFor (new_commit req s) = votedFor s ∧ state (new_commit req s) = state s ∧
  leaderID (new_commit req s) = leaderID s ∧
  commitIndex (new_commit req s) = committed_after req (commitIndex s).
Proof.
  unfold new_commit, committed_after, last_new.
  destruct (Z.ltb_spec (commitIndex s) (aq_LeaderCommit req)); simpl; [|done].
  set (ln := match last (aq_Entries req) with Some _ => _ | None => _ end).
  destruct (Z.ltb_spec ln (aq_LeaderCommit req)); simpl; split_and!; try done; lia.
Qed.

Lemma HandleAppendEntries_cases req now r n :
  good_config (config n) → good_rand r (config n) →
  ∃ resp n', HandleAppendEntries req now r n = Some (resp, n') ∧ config n' = config n ∧
  if decide (aq_Term req < currentTerm (st n))%Z
  then resp = mkAppendResponse (currentTerm (st n)) false ∧ n' = n
  else
    ar_Term resp = aq_Term req ∧ currentTerm (st n') = aq_Term req ∧
    state (st n') = Follower ∧ leaderID (st n') = aq_LeaderID req ∧ votedFor (st n') = "" ∧
    ar_Success resp = prev_matches req (log (st n)) ∧
    log (st n') = (if ar_Success resp then appended req (log (st n)) else log (st n)) ∧
    commitIndex (st n') =
      (if ar_Success resp then committed_after req (commitIndex (st n))
       else commitIndex (st n)).
Proof.
  intros Hc Hr. unfold HandleAppendEntries.
  destruct (Z.ltb_spec (aq_Term req) (currentTerm (st n))) as [Hlt|Hge].
  { eexists _, _. split; [reflexivity|]. by rewrite decide_True. }
  destruct (resetElectionTimer_spec r n Hc Hr) as (n0 & -> & Hst & _ & _ & Hcf & _).
  destruct (Z.leb_spec (currentTerm (st n)) (aq_Term req)); [|lia].
  cbv zeta. cbn [log BecomeFollower].
  assert ((0 <? aq_PrevLogIndex req)%Z &&
          negb (Log.TermAt (aq_PrevLogIndex req) (log (st n)) =? aq_PrevLogTerm req)%Z
          = negb (prev_matches req (log (st n)))) as ->
    by (unfold prev_matches; by rewrite negb_involutive).
  destruct (prev_matches req (log (st n))) eqn:Hp; simpl negb; cbv iota.
  - eexists _, _. split; [reflexivity|]. split; [done|].
    rewrite (decide_False (P := (aq_Term req < currentTerm (st n))%Z)) by lia. cbn [st set_st].
    match goal with |- context [new_commit req ?x] => set (s1 := x) end.
    destruct (new_commit_spec req s1) as (-> & -> & -> & -> & -> & ->).
    assert (log s1 = appended req (log (st n)) ∧ currentTerm s1 = aq_Term req ∧
            votedFor s1 = "" ∧ state s1 = Follower ∧ leaderID s1 = aq_LeaderID req ∧
            commitIndex s1 = commitIndex (st n)) as (-> & -> & -> & -> & -> & ->).
    { unfold s1, appended. by case_decide. }
    done.
  - eexists _, _. split; [reflexivity|]. split; [done|]. by rewrite decide_False by lia.
Qed.






(** A follower's commit index can move backwards: an accepted request
    whose leaderCommit is larger but whose last new index is smaller than the
    node's commit index (for instance an empty heartbeat with an early
    prevLogIndex) lowers it. *)
Theorem follower_commit_regresses req now r n :
  good_config (config n) → good_rand r (config n) →
  (currentTerm (st n) ≤ aq_Term req)%Z → prev_matches req (log (st n)) = true →
  (last_new req < commitIndex (st n) < aq_LeaderCommit req)%Z →
  ∃ resp n', HandleAppendEntries req now r n = Some (resp, n') ∧ ar_Success resp = true ∧
    commitIndex (st n') = last_new req ∧ (commitIndex (st n') < commitIndex (st n))%Z.
Proof.
  intros Hc Hr Ht Hp Hl. destruct (HandleAppendEntries_cases req now r n Hc Hr)
    as (resp & n' & HE & _ & H). rewrite decide_False in H by lia.
  destruct H as (_ & _ & _ & _ & _ & Hs & _ & Hci). exists resp, n'.
  rewrite Hs, Hp in Hci. unfold committed_after in Hci.
  destruct (Z.ltb_spec (commitIndex (st n)) (aq_LeaderCommit req)); [|lia].
  rewrite Z.min_r in Hci by lia. split_and!; [done|congruence|done|lia].
Qed.

Definition demo_committed : Node :=
  set_st (SetCommitIndex 3 (set_log demo_log (BecomeFollower 2 "a" 0 NewState)))
    (NewNode "c" ["a"; "b"] demo_cfg).

Lemma follower_commit_regresses_witness :
  ∃ resp n', HandleAppendEntries (mkAppend 2 "a" 1 1 [] 4) 0 7 demo_committed = Some (resp, n') ∧
    commitIndex (st demo_committed) = 3%Z ∧ commitIndex (st n') = 1%Z.
Proof.
  destruct (follower_commit_regresses (mkAppend 2 "a" 1 1 [] 4) 0 7 demo_committed
              demo_cfg_good demo_rand_good ltac:(simpl; lia) eq_refl (conj eq_refl eq_refl))
    as (resp & n' & H & _ & Hci & _).
  exists resp, n'. split; [exact H|]. split; [reflexivity|exact Hci].
Defined.

(** AppendEntries truncates even when nothing conflicts: a repeated
    request that carries k entries the follower already has at its position p
    leaves exactly p + k entries, so when p + k is below the commit index
    committed entries are lost. *)
Theorem repeated_append_truncates n now r p k :
  good_config (config n) → good_rand r (config n) → wf_log (log (st n)) →
  let l := log (st n) in
  (p ≤ length (Log.entries l))%nat → (0 < k)%nat → (p + k ≤ length (Log.entries l))%nat →
  (Z.of_nat (p + k) < commitIndex (st n))%Z →
  let req := mkAppend (currentTerm (st n)) (leaderID (st n)) (Z.of_nat p)
               (Log.TermAt (Z.of_nat p) l) (take k (drop p (Log.entries l)))
               (commitIndex (st n)) in
  ∃ resp n', HandleAppendEntries req now r n = Some (resp, n') ∧ ar_Success resp = true ∧
    Log.entries (log (st n')) = take (p + k) (Log.entries l) ∧
    commitIndex (st n') = commitIndex (st n) ∧
    (Log.LastIndex (log (st n')) < commitIndex (st n'))%Z.
Proof.
  intros Hc Hr Hwf l Hp Hk Hpk Hci req.
  destruct (HandleAppendEntries_cases req now r n Hc Hr) as (resp & n' & HE & _ & H).
  rewrite decide_False in H by (simpl; lia).
  destruct H as (_ & _ & _ & _ & _ & Hs & Hl & Hcm).
  assert (ar_Success resp = true) as Hok.
  { rewrite Hs. unfold prev_matches. simpl. rewrite Z.eqb_refl. simpl. by rewrite andb_false_r. }
  rewrite Hok in Hl, Hcm. unfold committed_after in Hcm. simpl in Hcm. rewrite Z.ltb_irrefl in Hcm.
  assert (Log.entries (log (st n')) = take (p + k) (Log.entries l)) as He.
  { rewrite Hl. unfold appended. simpl aq_Entries. simpl aq_PrevLogIndex.
    rewrite decide_True by (rewrite length_take, length_drop; lia).
    unfold Log.AppendEntries, Log.Length. fold l.
    destruct (Z.ltb_spec (Z.of_nat (length (Log.entries l))) (Z.of_nat p)); [lia|]. simpl.
    rewrite Nat2Z.id. rewrite <- (take_take_drop (Log.entries l) p k). f_equal.
    unfold Log.reindex. apply list_eq. intros i. rewrite list_lookup_imap.
    destruct (take k (drop p (Log.entries l)) !! i) as [e|] eqn:E; [|done]. simpl. f_equal.
    apply lookup_take_Some in E as [E _]. rewrite lookup_drop in E. apply Hwf in E.
    destruct e. unfold Log.set_Index. simpl in *. f_equal. lia. }
  exists resp, n'. split_and!; [done|done|done|done|].
  unfold Log.LastIndex, Log.Length. rewrite He, length_take, Hcm. lia.
Qed.

Lemma repeated_append_truncates_witness :
  ∃ resp n', HandleAppendEntries (mkAppend 2 "a" 0 0 [Log.mkEntry 1 1 0 "a"] 3) 0 7 demo_committed
    = Some (resp, n') ∧ Log.LastIndex (log (st n')) = 1%Z ∧ commitIndex (st n') = 3%Z.
Proof.
  destruct (repeated_append_truncates demo_committed 0 7 0 1 demo_cfg_good demo_rand_good
              (log_reachable_wf _ demo_log_reachable) ltac:(simpl; lia) ltac:(lia)
              ltac:(simpl; lia) ltac:(simpl; lia)) as (resp & n' & H & _ & He & Hci & _).
  exists resp, n'. split; [exact H|]. unfold Log.LastIndex, Log.Length. rewrite He, Hci.
  split; reflexivity.
Defined.

(** ** Bringing a follower up to date *)

(** One round of sendHeartbeats for one peer: the leader builds the request,
    the follower handles it, the leader processes the reply. *)
Definition round (peer : string) (now r : Z) (L F : Node) : option (Node * Node * bool) :=
  let term := currentTerm (st L) in
  let req := heartbeat_request term peer L in
  match HandleAppendEntries req now r F with
  | None => None
  | Some (resp, F') =>
      Some (heartbeat_response term peer (aq_Entries req) (Some resp) now L, F', ar_Success resp)
  end.

(** Rounds until the first success. *)
Fixpoint rounds (fuel : nat) (peer : string) (now r : Z) (L F : Node)
  : option (Node * Node * bool) :=
  match fuel with
  | O => Some (L, F, false)
  | S fuel' =>
      match round peer now r L F with
      | Some (L', F', false) => rounds fuel' peer now r L' F'
      | res => res
      end
  end.

(** Raft's log matching between two logs: entries with the same position and
    term end equal prefixes. *)
Definition log_matching (l l' : Log.Log) : Prop :=
  ∀ i e e', Log.entries l !! i = Some e → Log.entries l' !! i = Some e' →
    Log.Term e = Log.Term e' → take (S i) (Log.entries l) = take (S i) (Log.entries l').

(** What a round relies on: the leader's log fits an int, the follower is not
    ahead of its term. *)
Record repl_ok (L F : Node) : Prop := {
  ro_small : (Log.Length (log (st L)) < 2 ^ 63)%Z;
  ro_term : (currentTerm (st F) ≤ currentTerm (st L))%Z;
  ro_config : good_config (config F)
}.

(** What makes the accepted log right: well-formed entries with real terms in
    the leader's log, and Raft's log matching. *)
Record logs_match (l l' : Log.Log) : Prop := {
  lm_wf : wf_log l;
  lm_terms : Forall (λ e, 1 ≤ Log.Term e)%Z (Log.entries l);
  lm_match : log_matching l l'
}.

(** The consistency check passes exactly where the logs agree. *)
Lemma prefix_check L F k :
  logs_match (log (st L)) (log (st F)) → (k ≤ length (Log.entries (log (st L))))%nat →
  (0 <? Z.of_nat k)%Z &&
    negb (Log.TermAt (Z.of_nat k) (log (st F)) =? Log.TermAt (Z.of_nat k) (log (st L)))%Z = false →
  take k (Log.entries (log (st F))) = take k (Log.entries (log (st L))) ∧
  (k ≤ length (Log.entries (log (st F))))%nat.
Proof.
  intros Hok Hk Hc. destruct k as [|k]; [split; [done|lia]|].
  destruct (lookup_lt_is_Some_2 (Log.entries (log (st L))) k) as [e He]; [lia|].
  pose proof (Forall_lookup_1 _ _ _ _ (lm_terms _ _ Hok) He) as Hpos. simpl in Hpos.
  rewrite !TermAt_lookup, He in Hc.
  destruct (Log.entries (log (st F)) !! k) as [e'|] eqn:He'.
  - destruct (Z.eqb_spec (Log.Term e') (Log.Term e)) as [E|E]; [|done].
    split; [|by apply lookup_lt_Some in He'; lia].
    symmetry. by apply (lm_match _ _ Hok k e e').
  - destruct (Z.eqb_spec 0 (Log.Term e)); [lia|done].
Qed.

(** An accepted suffix of the leader's log makes it a prefix of the follower's. *)
Lemma appended_prefix L F k term lid pt ci :
  logs_match (log (st L)) (log (st F)) → (k ≤ length (Log.entries (log (st L))))%nat →
  (0 <? Z.of_nat k)%Z &&
    negb (Log.TermAt (Z.of_nat k) (log (st F)) =? Log.TermAt (Z.of_nat k) (log (st L)))%Z = false →
  Log.entries (log (st L)) `prefix_of`
  Log.entries (appended (mkAppend term lid (Z.of_nat k) pt
                           (drop k (Log.entries (log (st L)))) ci) (log (st F))).
Proof.
  intros Hok Hk Hc. destruct (prefix_check L F k Hok Hk Hc) as [Hpre Hlen].
  unfold appended. simpl aq_Entries. simpl aq_PrevLogIndex. case_decide as Hd.
  - unfold Log.AppendEntries, Log.Length.
    destruct (Z.ltb_spec (Z.of_nat (length (Log.entries (log (st F))))) (Z.of_nat k)); [lia|].
    simpl. rewrite Nat2Z.id, Hpre, reindex_drop by (done || apply (lm_wf _ _ Hok)).
    by rewrite take_drop.
  - rewrite length_drop in Hd.
    rewrite <- (take_drop k (Log.entries (log (st F)))), Hpre.
    rewrite (take_ge (Log.entries (log (st L)))) by lia. by apply prefix_app_r.
Qed.

(** The outcome of one round, by whether the check passes. *)
Lemma round_spec peer now r L F k :
  repl_ok L F → good_rand r (config F) →
  (k ≤ length (Log.entries (log (st L))))%nat →
  nextIndex (st L) !! peer = Some (Z.of_nat k + 1)%Z →
  ∃ L' F' ok, round peer now r L F = Some (L', F', ok) ∧ log (st L') = log (st L) ∧
    currentTerm (st L') = currentTerm (st L) ∧ config F' = config F ∧
    currentTerm (st F') = currentTerm (st L) ∧
    if ok
    then logs_match (log (st L)) (log (st F)) →
         Log.entries (log (st L)) `prefix_of` Log.entries (log (st F'))
    else log (st F') = log (st F) ∧ (0 < k)%nat ∧
         nextIndex (st L') !! peer = Some (Z.of_nat k).
Proof.
  intros Hok Hr Hk Hnext. unfold round, heartbeat_request, lookup_index. rewrite Hnext. simpl default.
  pose proof (ro_small _ _ Hok) as Hsm. unfold Log.Length in Hsm.
  rewrite (u64_small (Z.of_nat k + 1 - 1)) by (unfold in_u64, u64_max; lia).
  replace (Z.of_nat k + 1 - 1)%Z with (Z.of_nat k) by lia. rewrite EntriesAfter_drop.
  set (req := mkAppend _ _ _ _ _ _).
  destruct (HandleAppendEntries_cases req now r F (ro_config _ _ Hok) Hr)
    as (resp & F' & -> & HcF & H).
  rewrite decide_False in H by (simpl; pose proof (ro_term _ _ Hok); lia).
  destruct H as (Hrt & Ht & _ & _ & _ & Hs & Hl & _).
  eexists _, F', _. split; [reflexivity|]. unfold heartbeat_response.
  rewrite Hrt. simpl aq_Term. rewrite Z.ltb_irrefl.
  destruct (ar_Success resp) eqn:Hsucc.
  - split_and!; try done; try (by destruct (last _)).
    intros Hm. rewrite Hl. apply appended_prefix; [done..|]. symmetry in Hs.
    by apply negb_true_iff in Hs.
  - symmetry in Hs. apply negb_false_iff, andb_true_iff in Hs as [Hpos _]. simpl in Hpos.
    unfold lookup_index. rewrite Hnext. simpl default.
    destruct (Z.ltb_spec 1 (Z.of_nat k + 1)); [|lia]. simpl.
    split_and!; try done; [lia|]. rewrite lookup_insert_eq. f_equal. lia.
Qed.

(** C17. The nextIndex back-off ends: for a follower whose term is not above the
    leader's (and a log shorter than 2^63), starting from any nextIndex of the
    peer within the leader's log, after at most that many request/response
    rounds one succeeds; the leader keeps its own log and term.  If moreover the
    two logs satisfy Raft's log matching property, which is an assumption here,
    and the leader's entries carry their positions and terms from 1 on, the
    follower's log then contains the leader's log as a prefix. *)
Theorem backoff_converges peer now r L F k :
  repl_ok L F → good_rand r (config F) →
  (k ≤ length (Log.entries (log (st L))))%nat →
  nextIndex (st L) !! peer = Some (Z.of_nat k + 1)%Z →
  ∃ L' F', rounds (S k) peer now r L F = Some (L', F', true) ∧
    log (st L') = log (st L) ∧ currentTerm (st L') = currentTerm (st L) ∧
    (logs_match (log (st L)) (log (st F)) →
     Log.entries (log (st L)) `prefix_of` Log.entries (log (st F'))).
Proof.
  revert L F. induction k as [|k IH]; intros L F Hok Hr Hk Hnext;
    destruct (round_spec peer now r L F _ Hok Hr Hk Hnext)
      as (L1 & F1 & [] & HR & Hl & Ht & Hc & HtF & Hcase);
    simpl rounds; rewrite HR.
  - by exists L1, F1.
  - destruct Hcase as (_ & ? & _). lia.
  - by exists L1, F1.
  - destruct Hcase as (HlF & _ & Hn).
    destruct (IH L1 F1) as (L2 & F2 & HR2 & Hl2 & Ht2 & Hp2).
    + destruct Hok. split; rewrite ?Hl, ?HlF, ?Ht, ?HtF, ?Hc; (done || lia).
    + by rewrite Hc.
    + rewrite Hl. lia.
    + rewrite Hn. f_equal. lia.
    + exists L2, F2. simpl in HR2. rewrite Hl, HlF in Hp2. rewrite Hl in Hl2. rewrite Ht in Ht2. done.
Qed.

(** Leader a has two entries of term 1; follower b has a conflicting second one. *)
Definition conv_leader : Node :=
  let l := Log.mkLog [Log.mkEntry 1 1 0 "x"; Log.mkEntry 2 2 0 "y"] in
  mkNode "a" ["b"] (set_nextIndex "b" 3 (set_log l (BecomeFollower 2 "a" 0 NewState)))
    demo_cfg false [] None None.
Definition conv_follower : Node :=
  let l := Log.mkLog [Log.mkEntry 1 1 0 "x"; Log.mkEntry 2 1 0 "z"] in
  mkNode "b" ["a"] (set_log l (BecomeFollower 1 "" 0 NewState)) demo_cfg false [] None None.

Lemma conv_ok : repl_ok conv_leader conv_follower.
Proof. split; simpl; [done|lia|exact demo_cfg_good]. Qed.

Lemma conv_match : logs_match (log (st conv_leader)) (log (st conv_follower)).
Proof.
  split; simpl.
  - intros [|[|i]] e He; simpl in He; by simplify_eq.
  - repeat constructor; simpl; lia.
  - intros [|[|i]] e e' He He'; simpl in He, He'; by simplify_eq/=.
Qed.

Lemma backoff_converges_witness :
  ∃ L' F', rounds 3 "b" 0 7 conv_leader conv_follower = Some (L', F', true) ∧
    Log.entries (log (st conv_leader)) `prefix_of` Log.entries (log (st F')).
Proof.
  destruct (backoff_converges "b" 0 7 conv_leader conv_follower 2 conv_ok demo_rand_good
              ltac:(simpl; lia) eq_refl) as (L' & F' & H & _ & _ & Hp).
  exists L', F'. split; [exact H|exact (Hp conv_match)].
Defined.
