(* ===== verification/RaftLoop.v ===== *)
(** * The event loop of a Raft node (internal/raft/node.go, run and its states)

    The goroutine run executes runFollower, runCandidate or runLeader according
    to the node's state; meanwhile RPC handlers and reply goroutines change the
    same node.  [Loop] is where run is; a select that waits for a timer holds
    the channel of the timer that was current when the select was entered, as
    Go evaluates n.electionTimer.C once.  [lp_step] has one rule per piece of
    code that runs without blocking, and rules for the timers themselves. *)

From S2P Require Import Prelude RaftLog RaftState Config RaftNode RaftVote.
Import State Raft.

Module Loop.

(** In [LCandidate], [open] is the number of vote goroutines not finished, and
    [t] the timer the select waits for, once it is entered. *)
Inductive Loop :=
| LRun
| LFollower (t : nat)
| LCandidate (term votes : Z) (open : nat) (t : option nat)
| LLeader.

#[export] Instance Loop_eq_dec : EqDecision Loop.
Proof. solve_decision. Defined.

Definition set_timers (ts : list Timer) (n : Node) : Node :=
  mkNode (id n) (peers n) (st n) (config n) (commitCh n) ts (electionTimer n) (heartbeatTimer n).

Definition set_heartbeatTimer (t : nat) (n : Node) : Node :=
  mkNode (id n) (peers n) (st n) (config n) (commitCh n) (timers n) (electionTimer n) (Some t).

Definition timer_is (s : TimerStatus) (t : nat) (n : Node) : Prop :=
  status <$> timers n !! t = Some s.

Definition set_status (s : TimerStatus) (t : nat) (n : Node) : Node :=
  set_timers (alter (λ tm, mkTimer (duration tm) s) t (timers n)) n.

(** Start, up to the two goroutines it starts. *)
Definition Start (r : Z) (n : Node) : option Node := resetElectionTimer r n.

(** The branch of runFollower taken when the timer's value is received. *)
Definition follower_timeout (t : nat) (n : Node) : Node :=
  let n := set_status Drained t n in
  set_st (SetState Candidate (st n)) n.

(** runLeader up to its loop; the heartbeats are sent by goroutines. *)
Definition start_leader (n : Node) : Node :=
  let t := length (timers n) in
  set_heartbeatTimer t
    (set_timers (timers n ++ [mkTimer (Config.HeartbeatInterval (config n)) Armed]) n).

(** case <-n.heartbeatTimer.C: the timer is armed again. *)
Definition leader_tick (t : nat) (n : Node) : Node := set_status Armed t n.

(** case <-n.commitCh *)
Definition leader_commit (order : list Z) (n : Node) : Node :=
  updateCommitIndex order (set_commitCh false n).

(** The check at the end of an iteration of runLeader. *)
Definition leader_check (n : Node) : Node * Loop :=
  if decide (state (st n) = Leader) then (n, LLeader)
  else
    (match heartbeatTimer n with
     | Some t => set_timers (alter stop_timer t (timers n)) n
     | None => n
     end, LRun).

Inductive lp_step : Node * Loop → Node * Loop → Prop :=
(* run and runFollower *)
| lp_follower n t :
    state (st n) = Follower → electionTimer n = Some t → lp_step (n, LRun) (n, LFollower t)
| lp_follower_timeout n t :
    timer_is Fired t n → lp_step (n, LFollower t) (follower_timeout t n, LRun)
(* run and runCandidate *)
| lp_candidate n r term n' :
    state (st n) = Candidate → start_candidate r n = Some (term, n') →
    lp_step (n, LRun) (n', LCandidate term 1 (length (peers n)) None)
| lp_candidate_select n term votes k t :
    electionTimer n = Some t →
    lp_step (n, LCandidate term votes k None) (n, LCandidate term votes k (Some t))
| lp_vote n term votes k t resp now votes' n' :
    vote_response term resp now votes n = (votes', n') →
    lp_step (n, LCandidate term votes (S k) t) (n', LCandidate term votes' k t)
| lp_candidate_timeout n term votes k t :
    timer_is Fired t n →
    lp_step (n, LCandidate term votes k (Some t)) (set_status Drained t n, LRun)
| lp_candidate_done n term votes t r n' :
    finish_candidate votes r n = Some n' →
    lp_step (n, LCandidate term votes 0 (Some t)) (n', LRun)
(* run and runLeader *)
| lp_leader n :
    state (st n) = Leader → lp_step (n, LRun) (start_leader n, LLeader)
| lp_leader_tick n t :
    heartbeatTimer n = Some t → timer_is Fired t n →
    lp_step (n, LLeader) (leader_check (leader_tick t n))
| lp_leader_commit n order :
    commitCh n = true → lp_step (n, LLeader) (leader_check (leader_commit order n))
(* other goroutines *)
| lp_request_vote n l req now r resp n' :
    HandleRequestVote req now r n = Some (resp, n') → lp_step (n, l) (n', l)
| lp_append_entries n l req now r resp n' :
    HandleAppendEntries req now r n = Some (resp, n') → lp_step (n, l) (n', l)
| lp_heartbeat_reply n l term peer es resp now :
    lp_step (n, l) (heartbeat_response term peer es resp now n, l)
| lp_late_vote n l term resp now votes votes' n' :
    vote_response term resp now votes n = (votes', n') → lp_step (n, l) (n', l)
| lp_propose n l command : lp_step (n, l) ((Propose command n).2, l)
(* the clock *)
| lp_fire n l t : timer_is Armed t n → lp_step (n, l) (set_status Fired t n, l).

End Loop.
Import Loop.

(** ** A follower that waits for a stopped timer *)

(** Run waits for timer [t], which will never deliver a value. *)
Definition deaf (t : nat) (x : Node * Loop) : Prop :=
  x.2 = LFollower t ∧ timer_is Stopped t x.1 ∧ state (st x.1) = Follower.

Lemma stopped_reset r n n' t :
  resetElectionTimer r n = Some n' → timer_is Stopped t n → timer_is Stopped t n'.
Proof.
  unfold resetElectionTimer, timer_is. case_match; [done|]. intros [= <-] Ht. simpl.
  destruct (timers n !! t) as [tm|] eqn:E; [|done]. simpl in Ht. injection Ht as Hs.
  assert ((match electionTimer n with Some u => alter stop_timer u (timers n) | None => timers n end)
            !! t = Some tm) as E'.
  { destruct (electionTimer n) as [u|]; [|done]. destruct (decide (u = t)) as [->|].
    - rewrite list_lookup_alter_eq, E. simpl. unfold stop_timer. by rewrite Hs.
    - by rewrite list_lookup_alter_ne. }
  rewrite lookup_app_l by (by eapply lookup_lt_Some). rewrite E'. simpl. by rewrite Hs.
Qed.

Lemma reset_state r n n' : resetElectionTimer r n = Some n' → st n' = st n.
Proof. unfold resetElectionTimer. case_match; [done|]. by intros [= <-]. Qed.

(** What the other goroutines do to the timers and to a follower's state. *)
Lemma request_vote_deaf req now r n resp n' t :
  HandleRequestVote req now r n = Some (resp, n') →
  timer_is Stopped t n → state (st n) = Follower →
  timer_is Stopped t n' ∧ state (st n') = Follower.
Proof.
  unfold HandleRequestVote. intros E Ht Hs.
  destruct (vq_Term req <? currentTerm (st n))%Z; [by injection E as <- <-|].
  destruct (if (currentTerm (st n) <? vq_Term req)%Z
            then (BecomeFollower (vq_Term req) "" now (st n), vq_Term req)
            else (st n, currentTerm (st n))) as [s respTerm] eqn:EP.
  assert (state s = Follower) as Hs' 
    by (destruct (currentTerm (st n) <? vq_Term req)%Z; by injection EP as <- <-).
  destruct (decide _); [|by injection E as <- <-].
  destruct (up_to_date req (log s)); [|by injection E as <- <-].
  destruct (resetElectionTimer _ _) as [n1|] eqn:ER; [|done]. injection E as <- <-.
  pose proof (reset_state _ _ _ ER) as Hst.
  split; [by apply (stopped_reset _ _ _ _ ER)|by rewrite Hst].
Qed.

Lemma append_entries_deaf req now r n resp n' t :
  HandleAppendEntries req now r n = Some (resp, n') →
  timer_is Stopped t n → state (st n) = Follower →
  timer_is Stopped t n' ∧ state (st n') = Follower.
Proof.
  unfold HandleAppendEntries. intros E Ht Hs.
  destruct (aq_Term req <? currentTerm (st n))%Z; [by injection E as <- <-|].
  destruct (resetElectionTimer r n) as [n1|] eqn:ER; [|done].
  pose proof (stopped_reset _ _ _ _ ER Ht) as Ht1.
  set (s := if (currentTerm (st n) <=? aq_Term req)%Z
            then BecomeFollower (aq_Term req) (aq_LeaderID req) now (st n) else st n) in *.
  assert (state s = Follower) as Hs' by (unfold s; by destruct (currentTerm (st n) <=? aq_Term req)%Z).
  destruct (_ && _); injection E as <- <-; [done|]. split; [done|].
  unfold new_commit. simpl. by repeat case_match.
Qed.

Lemma deaf_step t x y : deaf t x → lp_step x y → deaf t y.
Proof.
  unfold deaf. intros (Hl & Ht & Hs) Hst. destruct Hst; simpl in *; simplify_eq.
  - exfalso. unfold timer_is in *. congruence.
  - split; [done|]. by eapply request_vote_deaf.
  - split; [done|]. by eapply append_entries_deaf.
  - split; [done|]. unfold heartbeat_response. by repeat case_match.
  - split; [done|]. unfold vote_response in *. by repeat case_match; simplify_eq.
  - split; [done|]. unfold Propose, GetState. by rewrite decide_True by (by rewrite Hs).
  - split; [done|]. split; [|done]. unfold timer_is, set_status in *. simpl.
    rewrite list_lookup_alter_ne; [done|]. intros ->. congruence.
Qed.

(** C37. A follower that has received a heartbeat never stands for election
    again.  While run waits for the election timer, HandleAppendEntries stops
    that timer and creates a new one, but run keeps waiting for the old one: in
    every later state, whatever requests, replies and timer expiries follow, run
    is still blocked there and the node is a follower. *)
Theorem follower_deaf_after_heartbeat n t req now r resp n1 n2 l2 :
  electionTimer n = Some t → timer_is Armed t n → state (st n) = Follower →
  (currentTerm (st n) ≤ aq_Term req)%Z →
  HandleAppendEntries req now r n = Some (resp, n1) →
  rtc lp_step (n1, LFollower t) (n2, l2) →
  l2 = LFollower t ∧ timer_is Stopped t n2 ∧ state (st n2) = Follower.
Proof.
  intros He Ha Hs HT HA Hst.
  assert (deaf t (n1, LFollower t)) as Hd.
  { split; [done|]. unfold HandleAppendEntries in HA.
    destruct (Z.ltb_spec (aq_Term req) (currentTerm (st n))); [lia|].
    destruct (resetElectionTimer r n) as [n0|] eqn:ER; [|done].
    assert (timer_is Stopped t n0) as Ht0.
    { clear HA. unfold resetElectionTimer in ER. case_match; [done|]. injection ER as <-.
      unfold timer_is in *. simpl. rewrite He. destruct (timers n !! t) as [tm|] eqn:Et; [|done].
      simpl in Ha. injection Ha as Ha.
      rewrite lookup_app_l by (rewrite length_alter; by eapply lookup_lt_Some).
      rewrite list_lookup_alter_eq, Et. simpl. unfold stop_timer. by rewrite Ha. }
    destruct (Z.leb_spec (currentTerm (st n)) (aq_Term req)); [|lia].
    destruct (_ && _); injection HA as <- <-; (split; [exact Ht0|]); [done|].
    unfold new_commit. simpl. by repeat case_match. }
  assert (∀ x y, rtc lp_step x y → deaf t x → deaf t y) as Hrtc.
  { intros x y H. induction H as [|x y z Hxy _ IH]; [done|]. intros Hx. by apply IH, (deaf_step t x). }
  by specialize (Hrtc _ _ Hst Hd).
Qed.

(** A started node waits; a heartbeat of term 1 arrives. *)
Definition loop_started : Node :=
  mkNode "c" ["a"; "b"] NewState demo_cfg false [mkTimer 200000000 Armed] (Some 0%nat) None.

Lemma follower_deaf_after_heartbeat_witness :
  Start 50000000 demo_voter = Some loop_started ∧
  lp_step (loop_started, LRun) (loop_started, LFollower 0) ∧
  ∃ resp n1, HandleAppendEntries (mkAppend 1 "a" 0 0 [] 0) 0 7 loop_started = Some (resp, n1) ∧
    ∀ n2 l2, rtc lp_step (n1, LFollower 0) (n2, l2) → l2 = LFollower 0.
Proof.
  split; [vm_compute; reflexivity|]. split; [by apply lp_follower|].
  eexists _, _. split; [vm_compute; reflexivity|]. intros n2 l2 H.
  refine (proj1 (follower_deaf_after_heartbeat loop_started 0 (mkAppend 1 "a" 0 0 [] 0) 0 7 _ _ n2 l2
            eq_refl eq_refl eq_refl _ _ H)).
  - simpl. lia.
  - vm_compute. reflexivity.
Defined.
