(* ===== verification/RaftProc.v ===== *)
(** * A running Raft node (internal/raft/node.go: Start, Stop, run, applyLoop,
    SetApplyFunc)

    Start creates two goroutines, the event loop run (whose roles are those of
    RaftLoop.v) and applyLoop; Stop closes stopCh, which every select of the
    event loop also waits for, and stops the timers.  [pr_step] is a step of the
    whole process: run and applyLoop look at stopCh before every round, and
    applyLoop's reads of the log interleave with the handlers that change it. *)

From S2P Require Import Prelude RaftLog RaftState Config RaftNode RaftVote RaftCommit RaftLoop.
Import State Raft Loop.

Module Proc.

(** Where applyLoop is: before its look at stopCh, or in the inner loop at
    index [i] with the commit index [ci] it read. *)
Inductive Apply := ATop | AEntry (i ci : Z).

(** [looked] says that run has found stopCh open and has not chosen its role
    yet; [applied] lists the calls of applyFunc with the index of each. *)
Record Proc := mkProc {
  node : Node;
  loop : option Loop;                (** None: run has returned *)
  looked : bool;
  applyLoop : option Apply;          (** None: applyLoop has returned *)
  stopCh : bool;                     (** closed *)
  applyFunc : bool;                  (** SetApplyFunc was called *)
  applied : list (Z * Log.LogEntry)
}.

Definition set_node (n : Node) (p : Proc) : Proc :=
  mkProc n (loop p) (looked p) (applyLoop p) (stopCh p) (applyFunc p) (applied p).

Definition set_loop (l : option Loop) (b : bool) (p : Proc) : Proc :=
  mkProc (node p) l b (applyLoop p) (stopCh p) (applyFunc p) (applied p).

Definition set_apply (a : option Apply) (p : Proc) : Proc :=
  mkProc (node p) (loop p) (looked p) a (stopCh p) (applyFunc p) (applied p).

(** A node that was created and not started yet. *)
Definition created (n : Node) : Proc := mkProc n None false None false false [].

Definition SetApplyFunc (p : Proc) : Proc :=
  mkProc (node p) (loop p) (looked p) (applyLoop p) (stopCh p) true (applied p).

(** resetElectionTimer, then the two goroutines. *)
Definition Start (r : Z) (p : Proc) : option Proc :=
  match Loop.Start r (node p) with
  | None => None
  | Some n => Some (mkProc n (Some LRun) false (Some ATop) (stopCh p) (applyFunc p) (applied p))
  end.

(** if t != nil then t.Stop() *)
Definition stop_at (t : option nat) (n : Node) : Node :=
  match t with
  | Some t => set_timers (alter stop_timer t (timers n)) n
  | None => n
  end.

(** Closing stopCh a second time panics. *)
Definition Stop (p : Proc) : option Proc :=
  if stopCh p then None
  else
    let n := stop_at (electionTimer (node p)) (node p) in
    let n := stop_at (heartbeatTimer n) n in
    Some (mkProc n (loop p) (looked p) (applyLoop p) true (applyFunc p) (applied p)).

(** applyLoop after its look at stopCh: the inner loop is entered when
    commitIndex > lastApplied. *)
Definition apply_enter (p : Proc) : Proc :=
  let s := st (node p) in
  if (LastApplied s <? CommitIndex s)%Z
  then set_apply (Some (AEntry (u64 (LastApplied s + 1)) (CommitIndex s))) p
  else p.

(** An iteration of the inner loop: Get returns a copy of the entry, so the
    handlers can only act before or after it. *)
Definition apply_entry (i ci : Z) (p : Proc) : Proc :=
  let p := match Log.Get i (GetLog (st (node p))) with
           | Some entry =>
               mkProc (set_st (SetLastApplied i (st (node p))) (node p))
                 (loop p) (looked p) (applyLoop p) (stopCh p) (applyFunc p)
                 (if applyFunc p then applied p ++ [(i, entry)] else applied p)
           | None => p
           end in
  set_apply (Some (AEntry (u64 (i + 1)) ci)) p.

(** The inner loop, run with at most [fuel] iterations and nothing in between;
    None when that is not enough. *)
Fixpoint apply_pass (fuel : nat) (p : Proc) : option Proc :=
  match applyLoop p with
  | Some (AEntry i ci) =>
      if (i <=? ci)%Z then
        match fuel with
        | O => None
        | S fuel' => apply_pass fuel' (apply_entry i ci p)
        end
      else Some (set_apply (Some ATop) p)
  | _ => Some p
  end.

Inductive pr_step : Proc → Proc → Prop :=
(* run: the look at stopCh *)
| pr_look p :
    loop p = Some LRun → stopCh p = false → pr_step p (set_loop (Some LRun) true p)
| pr_return p :
    loop p = Some LRun → looked p = false → stopCh p = true → pr_step p (set_loop None false p)
(* run: a role begins *)
| pr_role p n' l' :
    loop p = Some LRun → looked p = true → l' ≠ LRun → lp_step (node p, LRun) (n', l') →
    pr_step p (set_loop (Some l') false (set_node n' p))
(* a role's code, or a goroutine of the node while the role waits *)
| pr_loop p l n' l' :
    loop p = Some l → l ≠ LRun → lp_step (node p, l) (n', l') →
    pr_step p (set_loop (Some l') false (set_node n' p))
(* a goroutine of the node while run is between two roles or has returned *)
| pr_other p n' :
    loop p = Some LRun ∨ loop p = None → lp_step (node p, LRun) (n', LRun) →
    pr_step p (set_node n' p)
(* the case of stopCh in the three selects *)
| pr_follower_stop p t :
    loop p = Some (LFollower t) → stopCh p = true → pr_step p (set_loop (Some LRun) false p)
| pr_candidate_stop p term votes k t :
    loop p = Some (LCandidate term votes k (Some t)) → stopCh p = true →
    pr_step p (set_loop (Some LRun) false p)
| pr_leader_stop p :
    loop p = Some LLeader → stopCh p = true → pr_step p (set_loop (Some LRun) false p)
(* applyLoop *)
| pr_apply p :
    applyLoop p = Some ATop → stopCh p = false → pr_step p (apply_enter p)
| pr_apply_entry p i ci :
    applyLoop p = Some (AEntry i ci) → (i ≤ ci)%Z → pr_step p (apply_entry i ci p)
| pr_apply_sleep p i ci :
    applyLoop p = Some (AEntry i ci) → (ci < i)%Z → pr_step p (set_apply (Some ATop) p)
| pr_apply_return p :
    applyLoop p = Some ATop → stopCh p = true → pr_step p (set_apply None p).

End Proc.
Import Proc.

(** ** What the steps of the event loop keep *)

Lemma reset_fields r n n' :
  resetElectionTimer r n = Some n' →
  is_Some (electionTimer n') ∧ config n' = config n ∧ st n' = st n.
Proof. unfold resetElectionTimer. case_match; [done|]. by intros [= <-]. Qed.

(** Once created, the election timer is never nil again; the configuration is
    fixed, and only applyLoop writes lastApplied. *)
Lemma lp_step_keeps x y :
  lp_step x y → is_Some (electionTimer x.1) →
  is_Some (electionTimer y.1) ∧ config y.1 = config x.1 ∧
  lastApplied (st y.1) = lastApplied (st x.1).
Proof.
  intros Hst Ht. destruct Hst; simpl in *; try done.
  - unfold start_candidate in *. simpl in *. destruct (resetElectionTimer _ _) eqn:E; simplify_eq.
    by apply reset_fields in E as (? & ? & ->).
  - unfold vote_response in *. by repeat case_match; simplify_eq.
  - unfold finish_candidate in *. case_match; [by simplify_eq|].
    by apply (reset_fields r) in H as (? & ? & ->).
  - unfold leader_check. case_match; [done|]. by case_match.
  - unfold leader_check, leader_commit, updateCommitIndex. by repeat case_match; simpl in *; simplify_eq.
  - unfold HandleRequestVote in *. repeat case_match; simplify_eq; try done;
      by edestruct reset_fields as (? & ? & ->).
  - unfold HandleAppendEntries, new_commit in *. repeat case_match; simplify_eq; try done;
      by edestruct reset_fields as (? & ? & _).
  - unfold heartbeat_response. by repeat case_match.
  - unfold vote_response in *. by repeat case_match; simplify_eq.
  - unfold Propose. by repeat case_match.
Qed.

(** A started process: rand.Int63n does not panic, run can wait for its timer. *)
Definition running (p : Proc) : Prop :=
  is_Some (electionTimer (node p)) ∧
  (0 < i64 (Config.ElectionTimeoutMax (config (node p)) -
            Config.ElectionTimeoutMin (config (node p))))%Z ∧
  match applyLoop p with Some (AEntry i _) => (0 ≤ i)%Z | _ => True end.

Lemma Start_running r n p : Proc.Start r (created n) = Some p → running p ∧ stopCh p = false.
Proof.
  unfold Proc.Start, Loop.Start, resetElectionTimer. simpl.
  destruct (Z.leb_spec (i64 (Config.ElectionTimeoutMax (config n) -
                             Config.ElectionTimeoutMin (config n))) 0); [done|].
  intros [= <-]. unfold running. simpl. split; [|done]. split; [by eexists|]. by split.
Qed.

Lemma u64_nonneg z : (0 ≤ u64 z)%Z.
Proof. apply u64_range. Qed.

Lemma pr_step_running p q : pr_step p q → running p → running q ∧ stopCh q = stopCh p.
Proof.
  intros Hst (Ht & Hc & Ha). unfold running. destruct Hst as
    [p|p|p n' l' _ _ _ Hlp|p l n' l' _ _ Hlp|p n' _ Hlp|p|p|p|p|p|p|p]; simpl; try done.
  1-3: destruct (lp_step_keeps _ _ Hlp Ht) as (? & Hcf & _); simpl in *; by rewrite Hcf.
  - unfold apply_enter. destruct (_ <? _)%Z; simpl; [|done]. split_and!; try done. apply u64_nonneg.
  - unfold apply_entry. destruct (Log.Get _ _); simpl; split_and!; try done; apply u64_nonneg.
Qed.

Lemma pr_steps_running p q :
  rtc pr_step p q → running p → running q ∧ stopCh q = stopCh p.
Proof.
  induction 1 as [|p q r Hpq _ IH]; [done|]. intros Hp.
  destruct (pr_step_running _ _ Hpq Hp) as [Hq Es]. destruct (IH Hq) as [Hr Es'].
  split; [done|congruence].
Qed.

(** ** Stopping *)

(** From every role the case of stopCh leads back to run, which returns. *)
Lemma role_returns p l :
  running p → stopCh p = true → loop p = Some l → (l = LRun → looked p = false) →
  ∃ q, rtc pr_step p q ∧ loop q = None ∧ applyLoop q = applyLoop p.
Proof.
  intros ((t & Ht) & _) Hs Hl Hlk.
  assert (∀ q, loop q = Some LRun → looked q = false → stopCh q = true →
            ∃ q', rtc pr_step q q' ∧ loop q' = None ∧ applyLoop q' = applyLoop q) as Hret.
  { intros q ? ? ?. exists (set_loop None false q). split; [|done]. by apply rtc_once, pr_return. }
  destruct (Hret (set_loop (Some LRun) false p)) as (q' & Hq & ? & ?); [done..|].
  assert (∀ q, rtc pr_step (set_loop (Some LRun) false p) q → loop q = None →
            applyLoop q = applyLoop p → pr_step p (set_loop (Some LRun) false p) →
            ∃ q, rtc pr_step p q ∧ loop q = None ∧ applyLoop q = applyLoop p) as Hgo.
  { intros q ? ? ? ?. exists q. split; [|done]. by eapply rtc_l. }
  destruct l as [|t'|term votes k [t'|]|].
  - by apply Hret; [|apply Hlk|].
  - eapply Hgo; [done..|]. by eapply pr_follower_stop.
  - eapply Hgo; [done..|]. by eapply pr_candidate_stop.
  - destruct (Hret (set_loop (Some LRun) false
                (set_loop (Some (LCandidate term votes k (Some t))) false (set_node (node p) p))))
      as (q2 & Hq2 & ? & ?); [done..|].
    exists q2. split; [|done].
    eapply rtc_l; [eapply pr_loop; [done..|by apply lp_candidate_select]|].
    eapply rtc_l; [by eapply pr_candidate_stop|done].
  - eapply Hgo; [done..|]. by eapply pr_leader_stop.
Qed.

(** A role that run has already decided to choose can begin. *)
Lemma role_begins p :
  running p → loop p = Some LRun → looked p = true →
  ∃ l q, pr_step p q ∧ loop q = Some l ∧ l ≠ LRun ∧ applyLoop q = applyLoop p.
Proof.
  intros ((t & Ht) & Hc & _) Hl Hlk. destruct (state (st (node p))) eqn:Es.
  - exists (LFollower t), (set_loop (Some (LFollower t)) false (set_node (node p) p)).
    split; [|done]. apply pr_role; [done..|by apply lp_follower].
  - assert (∃ term n', start_candidate 0 (node p) = Some (term, n')) as (term & n' & E).
    { unfold start_candidate, resetElectionTimer. simpl.
      destruct (Z.leb_spec (i64 (Config.ElectionTimeoutMax (config (node p)) -
                                 Config.ElectionTimeoutMin (config (node p)))) 0); [lia|].
      by eexists _, _. }
    set (l := LCandidate term 1 (length (peers (node p))) None).
    exists l, (set_loop (Some l) false (set_node n' p)). split; [|done].
    apply pr_role; [done..|by eapply lp_candidate].
  - exists LLeader, (set_loop (Some LLeader) false (set_node (start_leader (node p)) p)).
    split; [|done]. apply pr_role; [done..|by apply lp_leader].
Qed.

(** The inner loop of applyLoop ends unless the commit index it read is the
    greatest uint64, below which its counter always stays. *)
Lemma apply_returns p a :
  running p → stopCh p = true → applyLoop p = Some a →
  (∀ i ci, a = AEntry i ci → (ci < u64_max - 1)%Z) →
  ∃ q, rtc pr_step p q ∧ applyLoop q = None ∧ loop q = loop p.
Proof.
  intros Hr Hs Ha Hci. destruct a as [|i ci].
  { exists (set_apply None p). split; [by apply rtc_once, pr_apply_return|done]. }
  specialize (Hci i ci eq_refl).
  remember (Z.to_nat (ci + 1 - i)) as k eqn:Ek. revert p i Hr Hs Ha Ek.
  induction k as [|k IH]; intros p i Hr Hs Ha Ek.
  - exists (set_apply None (set_apply (Some ATop) p)). split; [|done].
    eapply rtc_l; [eapply pr_apply_sleep; [done|lia]|]. by apply rtc_once, pr_apply_return.
  - assert (pr_step p (apply_entry i ci p)) as Hst by (apply pr_apply_entry; [done|lia]).
    destruct (pr_step_running _ _ Hst Hr) as [Hr' Hs'].
    assert (u64 (i + 1) = i + 1)%Z as Hu.
    { apply u64_small. unfold in_u64. destruct Hr as (_ & _ & Hi). rewrite Ha in Hi. lia. }
    destruct (IH (apply_entry i ci p) (i + 1)%Z) as (q & Hq & ? & Hlq); [done|congruence| |lia|].
    { unfold apply_entry. by rewrite Hu. }
    exists q. split; [by eapply rtc_l|]. split; [done|]. rewrite Hlq.
    unfold apply_entry. by destruct (Log.Get _ _).
Qed.

(** Once run has seen no open stopCh it can only wait to return. *)
Lemma no_new_role p q :
  rtc pr_step p q → stopCh p = true → looked p = false →
  loop p = Some LRun ∨ loop p = None → loop q = Some LRun ∨ loop q = None.
Proof.
  induction 1 as [|p q r Hpq _ IH]; [done|]. intros Hs Hk Hl.
  apply IH; destruct Hpq; simpl; destruct Hl; unfold apply_enter, apply_entry;
    repeat case_match; simpl; simplify_eq; auto; congruence.
Qed.

(** C19. Stop takes effect in every state of a started node.  Whatever happened
    before Stop and whatever requests, replies and timers follow it: both
    goroutines can always still return, so that neither is blocked (applyLoop
    provided the commit index it works towards is not the greatest uint64);
    once run is back at its look at stopCh no role begins any more; and a second
    Stop panics. *)
Theorem stop_never_blocks r n p0 p p1 p2 :
  Proc.Start r (created n) = Some p0 → rtc pr_step p0 p →
  Stop p = Some p1 → rtc pr_step p1 p2 →
  (∀ i ci, applyLoop p2 = Some (AEntry i ci) → (ci < u64_max - 1)%Z) →
  (∃ q, rtc pr_step p2 q ∧ loop q = None ∧ applyLoop q = None) ∧
  (loop p2 = Some LRun → looked p2 = false →
   ∀ q, rtc pr_step p2 q → loop q = Some LRun ∨ loop q = None) ∧
  Stop p2 = None.
Proof.
  intros [Hr0 _]%Start_running H01 HS H12 Hci.
  destruct (pr_steps_running _ _ H01 Hr0) as [Hr _].
  assert (running p1 ∧ stopCh p1 = true) as [Hr1 Hs1].
  { unfold Stop in HS. case_match; [done|]. injection HS as <-. destruct Hr as (? & ? & ?).
    unfold running, stop_at. simpl. by repeat case_match. }
  destruct (pr_steps_running _ _ H12 Hr1) as [Hr2 Hs2]. rewrite Hs1 in Hs2.
  split_and!.
  - assert (∃ q, rtc pr_step p2 q ∧ loop q = loop p2 ∧ applyLoop q = None) as (q & Hq & Hlq & Haq).
    { destruct (applyLoop p2) as [a|] eqn:Ea; [|by exists p2].
      destruct (apply_returns p2 a) as (q & ? & ? & ?); [done..| |by exists q].
      intros i ci ->. by eapply Hci. }
    destruct (pr_steps_running _ _ Hq Hr2) as [Hrq Hsq].
    destruct (loop q) as [l|] eqn:El; [|by exists q].
    assert (∀ q', rtc pr_step q q' → running q' ∧ stopCh q' = true) as Hkeep.
    { intros q' H'. destruct (pr_steps_running _ _ H' Hrq). split; [done|congruence]. }
    destruct (decide (l = LRun ∧ looked q = true)) as [[-> Hk]|Hn].
    + destruct (role_begins q) as (l & q1 & Hst & Hl1 & Hne & Ha1); [done..|].
      destruct (Hkeep q1) as [? ?]; [by apply rtc_once|].
      destruct (role_returns q1 l) as (q2 & ? & ? & ?); [done..|].
      exists q2. split; [|split; [done|congruence]]. etrans; [done|]. by eapply rtc_l.
    + destruct (role_returns q l) as (q2 & ? & ? & ?); [done|congruence|done| |].
      { intros ->. destruct (looked q); [|done]. by destruct Hn. }
      exists q2. split; [by etrans|]. split; [done|congruence].
  - intros Hl Hk q Hq. eapply no_new_role; eauto.
  - unfold Stop. by rewrite Hs2.
Qed.

(** A started three-node voter, and the same after Stop. *)
Definition proc_at (n : Node) (stopped : bool) : Proc :=
  mkProc n (Some LRun) false (Some ATop) stopped false [].

Lemma stop_never_blocks_witness :
  Proc.Start 50000000 (created demo_voter) = Some (proc_at loop_started false) ∧
  ∃ q, rtc pr_step (proc_at (stop_at (Some 0%nat) loop_started) true) q ∧
    loop q = None ∧ applyLoop q = None.
Proof.
  split; [vm_compute; reflexivity|].
  refine (proj1 (stop_never_blocks 50000000 demo_voter
            (proc_at loop_started false) _ _ _
            _ (rtc_refl _ _) _ (rtc_refl _ _) _)); [vm_compute; reflexivity..|]. done.
Defined.

(** ** The entries given to the state machine *)

(** A run in which the commit index stays below the greatest uint64. *)
Definition pr_run : Proc → Proc → Prop :=
  rtc (λ p q, pr_step p q ∧ (commitIndex (st (node p)) < u64_max - 1)%Z).

(** The indexes applied so far are increasing and at most lastApplied, which
    applyLoop is past. *)
Definition applied_ok (p : Proc) : Prop :=
  is_Some (electionTimer (node p)) ∧ (0 ≤ lastApplied (st (node p)))%Z ∧
  StronglySorted Z.lt (applied p).*1 ∧
  Forall (λ i, i ≤ lastApplied (st (node p)))%Z (applied p).*1 ∧
  match applyLoop p with
  | Some (AEntry i ci) => (lastApplied (st (node p)) < i)%Z ∧ (ci < u64_max - 1)%Z
  | _ => True
  end.

Lemma StronglySorted_snoc (l : list Z) x :
  StronglySorted Z.lt l → Forall (λ y, y < x)%Z l → StronglySorted Z.lt (l ++ [x]).
Proof.
  intros Hs Hf. induction Hs as [|y l Hs IH Hy]; simpl; [by repeat constructor|].
  apply Forall_cons in Hf as [? ?]. constructor; [by apply IH|]. apply Forall_app. by repeat constructor.
Qed.

Lemma apply_entry_ok p i ci :
  applied_ok p → applyLoop p = Some (AEntry i ci) → (i ≤ ci)%Z → applied_ok (apply_entry i ci p).
Proof.
  intros (Ht & H0 & Hs & Hf & Ha) Ea Hi. rewrite Ea in Ha. destruct Ha as [Hla Hci].
  assert (u64 (i + 1) = i + 1)%Z as Hu by (apply u64_small; unfold in_u64; lia).
  assert (Forall (λ j, j < i)%Z (applied p).*1) as Hlt
    by (eapply Forall_impl; [done|]; simpl; intros; lia).
  unfold applied_ok, apply_entry. destruct (Log.Get i _) as [e|]; simpl; rewrite Hu;
    split_and!; try done; try lia.
  - destruct (applyFunc p); [|done]. rewrite fmap_app. by apply StronglySorted_snoc.
  - destruct (applyFunc p); [rewrite fmap_app; apply Forall_app; split; [|by repeat constructor]|];
      (eapply Forall_impl; [done|]); simpl; intros; lia.
Qed.

Lemma pr_step_applied p q :
  pr_step p q → (commitIndex (st (node p)) < u64_max - 1)%Z → applied_ok p → applied_ok q.
Proof.
  intros Hst Hci Hok. pose proof Hok as (Ht & H0 & Hs & Hf & Ha).
  destruct Hst as [p|p|p n' l' _ _ _ Hlp|p l n' l' _ _ Hlp|p n' _ Hlp|p|p|p|p Ea|p i ci|p i ci Ea|p Ea];
    try done; unfold applied_ok; simpl.
  1-3: destruct (lp_step_keeps _ _ Hlp Ht) as (? & _ & Hla); simpl in *; by rewrite Hla.
  - unfold apply_enter, LastApplied, CommitIndex. destruct (Z.ltb_spec (lastApplied (st (node p))) (commitIndex (st (node p))));
      simpl; [|done].
    rewrite u64_small by (unfold in_u64; lia). split_and!; try done. lia.
  - by apply apply_entry_ok.
Qed.

(** C18. The state machine never receives an entry twice or out of order.  In
    every run of a started node, with handlers, replies and timers interleaved
    in any way with the iterations of applyLoop, as long as the commit index
    stays below the greatest uint64 (where the loop's counter wraps), the indexes
    passed to applyFunc are strictly increasing and at most lastApplied. *)
Theorem applied_in_order r n p0 p :
  Proc.Start r (SetApplyFunc (created n)) = Some p0 → (0 ≤ lastApplied (st n))%Z → pr_run p0 p →
  StronglySorted Z.lt (applied p).*1 ∧
  Forall (λ i, i ≤ lastApplied (st (node p)))%Z (applied p).*1.
Proof.
  intros HS H0 Hrun. assert (applied_ok p0) as Hok.
  { unfold Proc.Start, Loop.Start in HS. simpl in HS.
    destruct (resetElectionTimer r n) as [n'|] eqn:E; [|done]. injection HS as <-.
    apply reset_fields in E as (? & _ & Est). unfold applied_ok. simpl. rewrite Est.
    split_and!; try done; constructor. }
  assert (applied_ok p) as (_ & _ & ? & ? & _); [|done]. clear HS H0.
  induction Hrun as [|p q q' [Hpq Hci] _ IH]; [done|]. apply IH. by eapply pr_step_applied.
Qed.

(** A run in which a repeated request truncates the log below the commit index
    while applyLoop is at work: index 2 is found empty and skipped, and never
    applied although the entry comes back. *)
Definition deliver (req : AppendEntriesRequest) (p : Proc) : Proc :=
  match HandleAppendEntries req 0 7 (node p) with
  | Some (_, n) => set_node n p
  | None => p
  end.

Lemma deliver_step req p :
  loop p = Some LRun → HandleAppendEntries req 0 7 (node p) ≠ None → pr_step p (deliver req p).
Proof.
  intros Hl H. unfold deliver. destruct (HandleAppendEntries _ _ _ _) as [[resp n]|] eqn:E; [|done].
  apply pr_other; [by left|]. by eapply lp_append_entries.
Qed.

Definition skip_entry (i : Z) : Log.LogEntry := Log.mkEntry i 1 0 "x".
Definition skip_req1 : AppendEntriesRequest := mkAppend 1 "a" 0 0 [skip_entry 1; skip_entry 2; skip_entry 3] 3.
Definition skip_req2 : AppendEntriesRequest := mkAppend 1 "a" 0 0 [skip_entry 1] 3.
Definition skip_req3 : AppendEntriesRequest := mkAppend 1 "a" 1 1 [skip_entry 2; skip_entry 3] 3.
Definition skip_start : Proc := mkProc loop_started (Some LRun) false (Some ATop) false true [].
Definition skip_1 : Proc :=
  apply_entry 1 3 (apply_enter
    (deliver skip_req1 skip_start)).
Definition skip_2 : Proc :=
  apply_entry 2 3 (deliver skip_req2 skip_1).
Definition skip_3 : Proc :=
  apply_entry 3 3 (deliver skip_req3 skip_2).

Lemma pr_run_l p q q' :
  pr_step p q → (commitIndex (st (node p)) <? u64_max - 1)%Z = true → pr_run q q' → pr_run p q'.
Proof. intros H ?%Z.ltb_lt. by apply rtc_l. Qed.

Lemma skip_run : pr_run skip_start skip_3.
Proof.
  eapply pr_run_l; [apply (deliver_step skip_req1); [reflexivity|vm_compute; discriminate]|reflexivity|].
  eapply pr_run_l; [apply pr_apply; reflexivity|reflexivity|].
  eapply pr_run_l; [apply (pr_apply_entry _ 1 3); [reflexivity|lia]|reflexivity|].
  eapply pr_run_l; [apply (deliver_step skip_req2); [reflexivity|vm_compute; discriminate]|reflexivity|].
  eapply pr_run_l; [apply (pr_apply_entry _ 2 3); [reflexivity|lia]|reflexivity|].
  eapply pr_run_l; [apply (deliver_step skip_req3); [reflexivity|vm_compute; discriminate]|reflexivity|].
  eapply pr_run_l; [apply (pr_apply_entry _ 3 3); [reflexivity|lia]|reflexivity|].
  apply rtc_refl.
Qed.

Lemma applied_in_order_witness :
  StronglySorted Z.lt (applied skip_3).*1 ∧ (applied skip_3).*1 = [1; 3]%Z.
Proof.
  split; [|vm_compute; reflexivity].
  refine (proj1 (applied_in_order 50000000 demo_voter skip_start skip_3 _ _ skip_run)).
  - vm_compute. reflexivity.
  - vm_compute. discriminate.
Defined.

(** ** One pass of applyLoop *)

Lemma apply_pass_at k p i ci :
  applyLoop p = Some (AEntry i ci) → (1 ≤ i)%Z → (ci < u64_max - 1)%Z → k = Z.to_nat (ci + 1 - i) →
  ((i ≤ Log.LastIndex (log (st (node p))))%Z → lastApplied (st (node p)) = (i - 1)%Z) →
  let out := take k (drop (Z.to_nat (i - 1)) (Log.entries (log (st (node p))))) in
  ∃ q, apply_pass k p = Some q ∧ rtc pr_step p q ∧ applyLoop q = Some ATop ∧
    applied q = applied p ++ (if applyFunc p then imap (λ j e, (i + Z.of_nat j, e)%Z) out else []) ∧
    lastApplied (st (node q)) = (lastApplied (st (node p)) + Z.of_nat (length out))%Z ∧
    log (st (node q)) = log (st (node p)) ∧ commitIndex (st (node q)) = commitIndex (st (node p)).
Proof.
  revert p i. induction k as [|k IH]; intros p i Ha Hi Hci Hk Hla out; simpl apply_pass; rewrite Ha.
  { destruct (Z.leb_spec i ci); [lia|]. eexists. split; [reflexivity|].
    split; [apply rtc_once; by apply (pr_apply_sleep p i ci)|]. simpl.
    split_and!; try done; [|lia]. by destruct (applyFunc p); rewrite app_nil_r. }
  destruct (Z.leb_spec i ci); [|lia].
  assert (pr_step p (apply_entry i ci p)) as Hst by (by apply pr_apply_entry).
  assert (u64 (i + 1) = i + 1)%Z as Hu by (apply u64_small; unfold in_u64; lia).
  set (es := Log.entries (log (st (node p)))) in *.
  assert (Log.Get i (log (st (node p))) = es !! Z.to_nat (i - 1)) as HG.
  { replace i with (Z.of_nat (S (Z.to_nat (i - 1)))) at 1 by lia. apply Get_lookup. }
  destruct (IH (apply_entry i ci p) (i + 1)%Z) as (q & HP & HR & HA & Hap & Hl & Hlog & Hc);
    [unfold apply_entry; by rewrite Hu|lia|done|lia| |].
  { unfold apply_entry, GetLog. rewrite HG. destruct (es !! _) as [e|] eqn:He; simpl; [lia|].
    apply lookup_ge_None in He. unfold Log.LastIndex, Log.Length. fold es. lia. }
  exists q. split; [done|]. split; [by eapply rtc_l|]. split; [done|].
  assert (Z.to_nat (i + 1 - 1) = S (Z.to_nat (i - 1))) as Hn by lia. rewrite Hn in *.
  unfold apply_entry, GetLog in Hap, Hl, Hlog, Hc. rewrite HG in Hap, Hl, Hlog, Hc.
  unfold out. destruct (es !! Z.to_nat (i - 1)) as [e|] eqn:He; simpl in Hap, Hl, Hlog, Hc; fold es in Hap, Hl.
  - rewrite (drop_S _ e _ He). simpl take. split_and!; try done.
    + rewrite Hap. destruct (applyFunc p); [|by rewrite app_nil_r].
      rewrite <- (assoc_L (++)). f_equal. simpl. rewrite Z.add_0_r. f_equal.
      apply imap_ext. intros j x _. simpl. f_equal. lia.
    + apply lookup_lt_Some in He. rewrite Hl. simpl length.
      rewrite Hla by (unfold Log.LastIndex, Log.Length; fold es; lia). lia.
  - apply lookup_ge_None in He. rewrite (drop_ge es (S _)) in Hap, Hl by lia.
    rewrite (drop_ge es _ He). rewrite take_nil in Hap, Hl |- *. done.
Qed.

(** At the greatest uint64 the counter never passes the bound. *)
Lemma apply_pass_endless fuel p i :
  applyLoop p = Some (AEntry i (u64_max - 1)) → in_u64 i → apply_pass fuel p = None.
Proof.
  revert p i. induction fuel as [|fuel IH]; intros p i Ha Hi; simpl; rewrite Ha;
    (destruct (Z.leb_spec i (u64_max - 1)); [|unfold in_u64 in Hi; lia]); [done|].
  by apply (IH _ (u64 (i + 1))); [|apply u64_range].
Qed.

(** C26. A pass of applyLoop that no handler interrupts, as the source's loop over
    uint64 runs it.  Below the greatest uint64 it ends: it hands to applyFunc
    exactly the entries after lastApplied up to the commit index, as far as the
    log reaches, in log order and each once with its index, moves lastApplied by
    their number, and leaves the log and the commit index; without an applyFunc
    it only counts them.  At the greatest uint64 it never ends, whatever number
    of iterations it is given.  ([applied_in_order] is about passes that are
    interrupted.) *)
Theorem apply_pass_exact p :
  applyLoop p = Some ATop → stopCh p = false →
  in_u64 (commitIndex (st (node p))) → (0 ≤ lastApplied (st (node p)) < commitIndex (st (node p)))%Z →
  let la := lastApplied (st (node p)) in
  let ci := commitIndex (st (node p)) in
  let out := take (Z.to_nat (ci - la)) (drop (Z.to_nat la) (Log.entries (log (st (node p))))) in
  if decide (ci = u64_max - 1)%Z then ∀ fuel, apply_pass fuel (apply_enter p) = None
  else
    ∃ q, apply_pass (Z.to_nat (ci - la)) (apply_enter p) = Some q ∧ rtc pr_step p q ∧
      applyLoop q = Some ATop ∧
      applied q = applied p ++ (if applyFunc p then imap (λ j e, (la + 1 + Z.of_nat j, e)%Z) out else []) ∧
      lastApplied (st (node q)) = (la + Z.of_nat (length out))%Z ∧
      log (st (node q)) = log (st (node p)) ∧ commitIndex (st (node q)) = ci.
Proof.
  intros Ha Hs [Hc0 Hc1] Hla la ci out.
  assert (apply_enter p = set_apply (Some (AEntry (la + 1) ci)) p) as E.
  { unfold apply_enter, LastApplied, CommitIndex. fold la ci.
    destruct (Z.ltb_spec la ci); [|unfold la, ci in *; lia].
    by rewrite u64_small by (unfold in_u64, la, ci in *; lia). }
  case_decide as Hci.
  - intros fuel. rewrite E, Hci. apply (apply_pass_endless _ _ (la + 1)%Z); [done|].
    unfold in_u64, la, ci in *. lia.
  - destruct (apply_pass_at (Z.to_nat (ci - la)) (set_apply (Some (AEntry (la + 1) ci)) p) (la + 1) ci)
      as (q & HP & HR & HA & Hap & Hl & Hlog & Hcq); try done; try (unfold la, ci in *; simpl; lia).
    replace (la + 1 - 1)%Z with la in * by lia. rewrite E. exists q. split_and!; try done.
    eapply rtc_l; [by apply pr_apply|]. by rewrite E.
Qed.

(** A follower with the three entries of [skip_req1] committed. *)
Lemma apply_pass_exact_witness :
  let p := deliver skip_req1 skip_start in
  ∃ q, apply_pass 3 (apply_enter p) = Some q ∧
    applied q = [(1%Z, skip_entry 1); (2%Z, skip_entry 2); (3%Z, skip_entry 3)].
Proof.
  intros p. assert (commitIndex (st (node p)) = 3%Z) as Hc by (vm_compute; reflexivity).
  assert (lastApplied (st (node p)) = 0%Z) as Hl by (vm_compute; reflexivity).
  pose proof (apply_pass_exact p) as H. rewrite Hc, Hl in H. simpl decide in H. cbv zeta in H.
  destruct H as (q & HP & _ & _ & Hap & _); [vm_compute; reflexivity..|unfold in_u64, u64_max; lia|lia|].
  exists q. split; [exact HP|]. rewrite Hap. vm_compute. reflexivity.
Defined.
