(* ===== verification/Words.v ===== *)
(** * Widths: the numbers of the store are machine words

    Go's uint64 fields are integers of the model.  The operations of the store
    keep them uint64 values, in every history: a number read from the store can
    be sent as a JSON number and decoded into a uint64 (ClientSpec.v). *)

From S2P Require Import Prelude GoLib Sequence DataStore StoreInv StoreSpec.
Import Store Spec.

(** ** The store *)

Definition node_words (n : Node) : Prop := in_u64 (Version n) ∧ in_u64 (Seq n).

Record store_words (s : Store) : Prop := {
  sw_counter : in_u64 (seqCounter s);
  sw_nodes : map_Forall (λ _ n, node_words n) (nodes s)
}.

Lemma in_u64_0 : in_u64 0.
Proof. by unfold in_u64. Qed.
Lemma in_u64_1 : in_u64 1.
Proof. by unfold in_u64. Qed.
#[export] Hint Resolve in_u64_0 in_u64_1 : sky.

Lemma map_Forall_alter (P : Node → Prop) f k (m : gmap string Node) :
  (∀ n, P n → P (f n)) → map_Forall (λ _, P) m → map_Forall (λ _, P) (alter f k m).
Proof.
  intros Hf Hm i n. rewrite lookup_alter_Some. intros [(<- & n' & Hn & ->)|[_ Hn]]; eauto.
Qed.

Lemma Create_words p d e sid sq t1 t2 s :
  store_words s → store_words (Create p d e sid sq t1 t2 s).1.2.
Proof.
  intros [Hc Hn]. assert (in_u64 (seqCounter (if sq then set_seqCounter (u64 (seqCounter s + 1)) s
    else s))) as Hc' by (destruct sq; [apply u64_range|done]).
  unfold Create. destruct (match _ with Some e => _ | None => _ end) as [[r s'] gs] eqn:E.
  repeat case_match; simplify_eq/=; try done;
    try (split; simpl; [auto with sky|done]);
    (split; simpl; [auto with sky|]); repeat case_decide; try done;
    repeat (apply map_Forall_alter; [done|]); apply map_Forall_insert_2; try done;
    (split; simpl; [auto with sky|done]).
Qed.

Lemma Set_words p d v t s : store_words s → store_words (Set_ p d v t s).1.2.
Proof.
  intros [Hc Hn]. unfold Set_. destruct (nodes s !! _) as [n|] eqn:E; [|done].
  case_match; [done|]. split; simpl; [done|]. apply map_Forall_insert_2; [|done].
  split; simpl; [auto with sky|]. by apply (Hn _ _ E).
Qed.

Lemma Delete_words p v s : store_words s → store_words (Delete p v s).1.2.
Proof.
  intros [Hc Hn]. unfold Delete. repeat case_match; try done; split; simpl; try done;
    apply map_Forall_delete; try done; by apply map_Forall_alter.
Qed.

Lemma delete_ephemeral_words p m :
  map_Forall (λ _, node_words) m → map_Forall (λ _, node_words) (delete_ephemeral p m).
Proof.
  intros Hm. unfold delete_ephemeral. apply map_Forall_delete.
  repeat case_match; try done; by apply map_Forall_alter.
Qed.

Lemma DeleteEphemerals_words order sid s :
  store_words s → store_words (DeleteEphemerals order sid s).1.2.
Proof.
  intros [Hc Hn]. split; [done|]. simpl. generalize (merge_sort longer (ephemeral_keys order sid s)).
  intros l. revert Hn. generalize (nodes s). induction l as [|p l IH]; intros m Hm; [done|].
  simpl. by apply IH, delete_ephemeral_words.
Qed.

Lemma exec_words o s : store_words s → store_words (exec o s).2.
Proof.
  intros Hs. destruct o; cbn [exec]; try done.
  - pose proof (Create_words p data eph sid sequential t1 t2 s Hs).
    by destruct (Create _ _ _ _ _ _ _ _) as [[? ?] ?].
  - pose proof (Set_words p data v t s Hs). by destruct (Set_ _ _ _ _ _) as [[? ?] ?].
  - pose proof (Delete_words p v s Hs). by destruct (Delete _ _ _) as [[? ?] ?].
  - pose proof (DeleteEphemerals_words order sid s Hs). by destruct (DeleteEphemerals _ _ _) as [[? ?] ?].
Qed.

(** Widths in the store: after any history of operations from NewStore the
    sequence counter and every node's version and sequence number are uint64
    values, although the counters are incremented without a check. *)
Theorem store_history_words t1 t2 h s : history (NewStore t1 t2) h s → store_words s.
Proof.
  intros Hh. assert (store_words (NewStore t1 t2)) as Hw.
  { split; [auto with sky|]. apply map_Forall_singleton. split; auto with sky. }
  revert Hw. induction Hh as [|s o r s1 h s2 _ Hex _ IH]; [done|]. intros Hw. apply IH.
  replace s1 with (exec o s).2 by (by rewrite Hex). by apply exec_words.
Qed.

Lemma store_history_words_witness : store_words demo_store.
Proof. exact (store_history_words 0 0 demo_history demo_store demo_history_runs). Defined.
