(* ===== verification/Transport.v ===== *)
(** * The gRPC transport (internal/transport/grpc.go and the messages of proto.go)

    The messages and their conversion in both directions, the cache of
    connections, the client calls and the server side that hands a request to
    the Raft node.  grpc itself is a parameter: dialling a target, and invoking a
    method on a connection (None is an error, a cancelled context included). *)

From S2P Require Import Prelude RaftLog RaftState Config RaftNode RaftVote.
Import Raft.

Module Transport.

(** proto.go; Go names the structs like those of package raft. *)
Record pb_VoteRequest := mk_pb_VoteRequest {
  pvq_Term : Z; pvq_CandidateId : string; pvq_LastLogIndex : Z; pvq_LastLogTerm : Z }.
Record pb_VoteResponse := mk_pb_VoteResponse { pvr_Term : Z; pvr_VoteGranted : bool }.
Record pb_LogEntry := mk_pb_LogEntry { ple_Index : Z; ple_Term : Z; ple_Type : Z; ple_Command : string }.
Record pb_AppendEntriesRequest := mk_pb_AppendEntriesRequest {
  paq_Term : Z; paq_LeaderId : string; paq_PrevLogIndex : Z; paq_PrevLogTerm : Z;
  paq_Entries : list pb_LogEntry; paq_LeaderCommit : Z }.
Record pb_AppendEntriesResponse := mk_pb_AppendEntriesResponse { par_Term : Z; par_Success : bool }.

(** Client side: what the calls put into the messages. *)
Definition vote_to_pb (req : VoteRequest) : pb_VoteRequest :=
  mk_pb_VoteRequest (vq_Term req) (vq_CandidateID req) (vq_LastLogIndex req) (vq_LastLogTerm req).

Definition entry_to_pb (e : Log.LogEntry) : pb_LogEntry :=
  mk_pb_LogEntry (Log.Index e) (Log.Term e) (i32 (Log.Type_ e)) (Log.Command e).

Definition append_to_pb (req : AppendEntriesRequest) : pb_AppendEntriesRequest :=
  mk_pb_AppendEntriesRequest (aq_Term req) (aq_LeaderID req) (aq_PrevLogIndex req)
    (aq_PrevLogTerm req) (entry_to_pb <$> aq_Entries req) (aq_LeaderCommit req).

(** Server side: what it reads from them. *)
Definition vote_of_pb (req : pb_VoteRequest) : VoteRequest :=
  mkVoteRequest (pvq_Term req) (pvq_CandidateId req) (pvq_LastLogIndex req) (pvq_LastLogTerm req).

Definition entry_of_pb (e : pb_LogEntry) : Log.LogEntry :=
  Log.mkEntry (ple_Index e) (ple_Term e) (ple_Type e) (ple_Command e).

Definition append_of_pb (req : pb_AppendEntriesRequest) : AppendEntriesRequest :=
  mkAppend (paq_Term req) (paq_LeaderId req) (paq_PrevLogIndex req) (paq_PrevLogTerm req)
    (entry_of_pb <$> paq_Entries req) (paq_LeaderCommit req).

(** raftInternalServer; the node is nil before SetRaftNode.  The error is
    fmt.Errorf("raft node not initialized"); a panic of the handler is None. *)
Definition server_RequestVote (raftNode : option Node) (req : pb_VoteRequest) (now r : Z)
  : option (result string pb_VoteResponse * option Node) :=
  match raftNode with
  | None => Some (Err "raft node not initialized", None)
  | Some n =>
      match HandleRequestVote (vote_of_pb req) now r n with
      | None => None
      | Some (resp, n') => Some (Ok (mk_pb_VoteResponse (vr_Term resp) (vr_VoteGranted resp)), Some n')
      end
  end.

Definition server_AppendEntries (raftNode : option Node) (req : pb_AppendEntriesRequest) (now r : Z)
  : option (result string pb_AppendEntriesResponse * option Node) :=
  match raftNode with
  | None => Some (Err "raft node not initialized", None)
  | Some n =>
      match HandleAppendEntries (append_of_pb req) now r n with
      | None => None
      | Some (resp, n') =>
          Some (Ok (mk_pb_AppendEntriesResponse (ar_Term resp) (ar_Success resp)), Some n')
      end
  end.

Section Client.
Context {Conn : Type}.
(** grpc.Dial, and cc.Invoke for the two methods of the service. *)
Context (Dial : string → option Conn).
Context (InvokeVote : Conn → pb_VoteRequest → option pb_VoteResponse).
Context (InvokeAppend : Conn → pb_AppendEntriesRequest → option pb_AppendEntriesResponse).

Record GRPCTransport := mkTransport { connections : gmap string Conn }.

Definition NewGRPCTransport : GRPCTransport := mkTransport ∅.

(** The section of getConnection under the read lock. *)
Definition find_connection (target : string) (t : GRPCTransport) : option Conn :=
  connections t !! target.

(** The section under the write lock, with the second look-up. *)
Definition open_connection (target : string) (t : GRPCTransport) : option Conn * GRPCTransport :=
  match connections t !! target with
  | Some conn => (Some conn, t)
  | None =>
      match Dial target with
      | None => (None, t)
      | Some conn => (Some conn, mkTransport (<[target := conn]> (connections t)))
      end
  end.

Definition getConnection (target : string) (t : GRPCTransport) : option Conn * GRPCTransport :=
  match find_connection target t with
  | Some conn => (Some conn, t)
  | None => open_connection target t
  end.

(** Stop drops all connections. *)
Definition Stop (t : GRPCTransport) : GRPCTransport := mkTransport ∅.

Definition RequestVote (target : string) (req : VoteRequest) (t : GRPCTransport)
  : option VoteResponse * GRPCTransport :=
  let '(conn, t) := getConnection target t in
  (match conn with
   | None => None
   | Some conn =>
       match InvokeVote conn (vote_to_pb req) with
       | None => None
       | Some resp => Some (mkVoteResponse (pvr_Term resp) (pvr_VoteGranted resp))
       end
   end, t).

Definition AppendEntries (target : string) (req : AppendEntriesRequest) (t : GRPCTransport)
  : option AppendEntriesResponse * GRPCTransport :=
  let '(conn, t) := getConnection target t in
  (match conn with
   | None => None
   | Some conn =>
       match InvokeAppend conn (append_to_pb req) with
       | None => None
       | Some resp => Some (mkAppendResponse (par_Term resp) (par_Success resp))
       end
   end, t).

(** *GRPCTransport implements raft.Transport. *)
#[export] Instance grpc_transport : Raft.Transport GRPCTransport := {
  rpc_RequestVote := RequestVote;
  rpc_AppendEntries := AppendEntries
}.
End Client.
Arguments GRPCTransport : clear implicits.
End Transport.
Import Transport.

(** ** Messages survive the wire *)

Lemma vote_roundtrip req : vote_of_pb (vote_to_pb req) = req.
Proof. by destruct req. Qed.

(** The entry types fit an int32 (the code uses 0, 1 and 2). *)
Definition small_types (es : list Log.LogEntry) : Prop :=
  Forall (λ e, (- 2 ^ 31 ≤ Log.Type_ e < 2 ^ 31)%Z) es.

Lemma entries_roundtrip es : small_types es → entry_of_pb <$> (entry_to_pb <$> es) = es.
Proof.
  induction 1 as [|[i t ty c] es He _ IH]; [done|]. rewrite !fmap_cons, IH. f_equal.
  unfold entry_of_pb, entry_to_pb. simpl in *. by rewrite i32_small.
Qed.

Lemma append_roundtrip req : small_types (aq_Entries req) → append_of_pb (append_to_pb req) = req.
Proof. intros H. unfold append_of_pb. destruct req. simpl in *. by rewrite entries_roundtrip. Qed.

(** The connection of a target, once opened, is the one all later calls use. *)
Lemma getConnection_cached {Conn} (Dial : string → option Conn) target t c t' :
  getConnection Dial target t = (Some c, t') →
  connections t' !! target = Some c ∧ getConnection Dial target t' = (Some c, t').
Proof.
  unfold getConnection, find_connection, open_connection. intros E.
  destruct (connections t !! target) as [c0|] eqn:Ec.
  - injection E as <- <-. by rewrite Ec.
  - destruct (Dial target); [|done]. injection E as <- <-. simpl. by rewrite lookup_insert_eq.
Qed.
