(* ===== verification/Grpc.v ===== *)
(** * The gRPC service of a node (internal/transport/proto.go, grpc.go Start)

    The stubs that call a method by its name, the service descriptor with its
    two handlers, and the server side of the transport (SetRaftNode, Start,
    Stop).  grpc is a parameter: [Invoke] sends a message to a method of the
    server behind a connection, which includes encoding it with grpc's codec.
    [rpc_end_to_end] follows a call through all of it to the handler of the peer,
    for an [Invoke] that delivers; RaftGrpc.v shows that with grpc's default
    codec none does, because of what [method_set] says of the messages. *)

From S2P Require Import Prelude RaftLog RaftState Config RaftNode RaftVote Transport.
Import Raft Transport.

Module Grpc.

(** The messages of the service. *)
Inductive Msg :=
| MVoteRequest (m : pb_VoteRequest)
| MVoteResponse (m : pb_VoteResponse)
| MAppendRequest (m : pb_AppendEntriesRequest)
| MAppendResponse (m : pb_AppendEntriesResponse).

(** The methods declared for the message structs: none. *)
Definition method_set (m : Msg) : list string :=
  match m with
  | MVoteRequest _ => []
  | MVoteResponse _ => []
  | MAppendRequest _ => []
  | MAppendResponse _ => []
  end.

(** ** Client stubs *)

Section Stubs.
Context {Conn : Type} (Invoke : Conn → string → Msg → option Msg).

(** out := new(VoteResponse); a reply of another type does not decode into it. *)
Definition client_RequestVote (cc : Conn) (in_ : pb_VoteRequest) : option pb_VoteResponse :=
  match Invoke cc "/skylock.RaftInternal/RequestVote" (MVoteRequest in_) with
  | Some (MVoteResponse out) => Some out
  | _ => None
  end.

Definition client_AppendEntries (cc : Conn) (in_ : pb_AppendEntriesRequest)
  : option pb_AppendEntriesResponse :=
  match Invoke cc "/skylock.RaftInternal/AppendEntries" (MAppendRequest in_) with
  | Some (MAppendResponse out) => Some out
  | _ => None
  end.
End Stubs.

(** ** The service *)

(** What a handler does: None is a panic; the error is a string; nil is the
    reply of an unimplemented method. *)
Definition Outcome : Type := option (result string (option Msg) * option Node).

(** An interceptor gets the request, the method's full name and the handler. *)
Definition Interceptor : Type := Msg → string → (Msg → Outcome) → Outcome.

Definition reply {A} (f : A → Msg) (x : option (result string A * option Node)) : Outcome :=
  match x with
  | None => None
  | Some (Ok a, n) => Some (Ok (Some (f a)), n)
  | Some (Err e, n) => Some (Err e, n)
  | Some (Panic, n) => None
  end.

(** The type assertion on the request panics on another type. *)
Definition vote_method (node : option Node) (now r : Z) (req : Msg) : Outcome :=
  match req with
  | MVoteRequest m => reply MVoteResponse (server_RequestVote node m now r)
  | _ => None
  end.

Definition append_method (node : option Node) (now r : Z) (req : Msg) : Outcome :=
  match req with
  | MAppendRequest m => reply MAppendResponse (server_AppendEntries node m now r)
  | _ => None
  end.

(** dec(in) decodes the request message [raw] into in, or fails. *)
Definition RequestVote_Handler (node : option Node) (now r : Z) (raw : Msg)
    (interceptor : option Interceptor) : Outcome :=
  match raw with
  | MVoteRequest in_ =>
      match interceptor with
      | None => vote_method node now r (MVoteRequest in_)
      | Some i => i (MVoteRequest in_) "/skylock.RaftInternal/RequestVote" (vote_method node now r)
      end
  | _ => Some (Err "decode error", node)
  end.

Definition AppendEntries_Handler (node : option Node) (now r : Z) (raw : Msg)
    (interceptor : option Interceptor) : Outcome :=
  match raw with
  | MAppendRequest in_ =>
      match interceptor with
      | None => append_method node now r (MAppendRequest in_)
      | Some i => i (MAppendRequest in_) "/skylock.RaftInternal/AppendEntries" (append_method node now r)
      end
  | _ => Some (Err "decode error", node)
  end.

(** RaftInternal_ServiceDesc *)
Definition ServiceName : string := "skylock.RaftInternal".
Definition Methods : list (string * (option Node → Z → Z → Msg → option Interceptor → Outcome)) :=
  [("RequestVote", RequestVote_Handler); ("AppendEntries", AppendEntries_Handler)].

(** UnimplementedRaftInternalServer: both methods return nil, nil. *)
Definition Unimplemented (node : option Node) (req : Msg) : Outcome := Some (Ok None, node).

(** ** The server side of the transport *)

Record Server := mkServer {
  raftNode : option Node;
  listener : option string;      (** the address it listens on *)
  serving : bool
}.

Definition NewServer : Server := mkServer None None false.

Definition SetRaftNode (n : Node) (s : Server) : Server := mkServer (Some n) (listener s) (serving s).

(** net.Listen may fail; otherwise the service is registered and served. *)
Definition Start (Listen : string → bool) (address : string) (s : Server)
  : result string unit * Server :=
  if Listen address then (Ok tt, mkServer (raftNode s) (Some address) true)
  else (Err "failed to listen", s).

(** GracefulStop and the listener's Close; the connections are dropped by
    [Transport.Stop]. *)
Definition Stop (s : Server) : Server := mkServer (raftNode s) (listener s) false.

(** A request that reaches a server: the method is found by its full name. *)
Definition full_name (meth : string) : string := "/" +:+ ServiceName +:+ "/" +:+ meth.

Definition served (s : Server) (now r : Z) (full : string) (x y : Msg) : Prop :=
  serving s = true ∧
  ∃ meth h n', (meth, h) ∈ Methods ∧ full = full_name meth ∧
    h (raftNode s) now r x None = Some (Ok (Some y), n').

End Grpc.
Import Grpc.

(** ** From one node to another *)

Section EndToEnd.
Context {Conn : Type} (Dial : string → option Conn).
Context (Invoke : Conn → string → Msg → option Msg).
(** The server behind a connection, and the readings of a call. *)
Context (peer : Conn → Server) (now r : Z).
Hypothesis grpc_delivers : ∀ c full x y, Invoke c full x = Some y → served (peer c) now r full x y.

Lemma vote_stub c m resp :
  client_RequestVote Invoke c m = Some resp →
  ∃ n n', raftNode (peer c) = Some n ∧
    server_RequestVote (Some n) m now r = Some (Ok resp, Some n').
Proof.
  unfold client_RequestVote. destruct (Invoke c _ _) as [[]|] eqn:E; try done. intros [= <-].
  apply grpc_delivers in E as (_ & meth & h & n' & Hm & Hf & Hh).
  unfold Methods in Hm. rewrite !elem_of_cons in Hm.
  destruct Hm as [[= -> ->]|[[= -> ->]|[]%elem_of_nil]]; [|done]. clear Hf. simpl in Hh.
  destruct (raftNode (peer c)) as [n|]; [|done]. unfold server_RequestVote in *.
  destruct (HandleRequestVote _ _ _ n) as [[rs n1]|] eqn:EH; simpl in Hh; simplify_eq.
  exists n, n1. by rewrite EH.
Qed.

Lemma append_stub c m resp :
  client_AppendEntries Invoke c m = Some resp →
  ∃ n n', raftNode (peer c) = Some n ∧
    server_AppendEntries (Some n) m now r = Some (Ok resp, Some n').
Proof.
  unfold client_AppendEntries. destruct (Invoke c _ _) as [[]|] eqn:E; try done. intros [= <-].
  apply grpc_delivers in E as (_ & meth & h & n' & Hm & Hf & Hh).
  unfold Methods in Hm. rewrite !elem_of_cons in Hm.
  destruct Hm as [[= -> ->]|[[= -> ->]|[]%elem_of_nil]]; [done|]. clear Hf. simpl in Hh.
  destruct (raftNode (peer c)) as [n|]; [|done]. unfold server_AppendEntries in *.
  destruct (HandleAppendEntries _ _ _ n) as [[rs n1]|] eqn:EH; simpl in Hh; simplify_eq.
  exists n, n1. by rewrite EH.
Qed.

(** A remote call is a local call, end to end, where grpc delivers: when RequestVote or
    AppendEntries of the gRPC transport returns a response, it went through the
    client stub, the method of that name in the service descriptor and its
    handler to the Raft node of a server that was started and given a node, and
    the response is what HandleRequestVote, respectively HandleAppendEntries, of
    that node returns for the very request the caller passed; the connection
    stays cached.  A call to a server without a node returns no response. *)
Theorem rpc_end_to_end target t :
  (∀ req resp t', RequestVote Dial (client_RequestVote Invoke) target req t = (Some resp, t') →
     ∃ c n n', connections t' !! target = Some c ∧ raftNode (peer c) = Some n ∧
       HandleRequestVote req now r n = Some (resp, n')) ∧
  (∀ req resp t', small_types (aq_Entries req) →
     AppendEntries Dial (client_AppendEntries Invoke) target req t = (Some resp, t') →
     ∃ c n n', connections t' !! target = Some c ∧ raftNode (peer c) = Some n ∧
       HandleAppendEntries req now r n = Some (resp, n')).
Proof.
  split.
  - intros req resp t' E. unfold RequestVote in E.
    destruct (getConnection Dial target t) as [[c|] t1] eqn:EC; [|done].
    apply getConnection_cached in EC as [Hc _].
    destruct (client_RequestVote Invoke c _) as [m|] eqn:EI; [|done]. injection E as <- <-.
    destruct (vote_stub _ _ _ EI) as (n & n' & Hn & HS). unfold server_RequestVote in HS.
    rewrite vote_roundtrip in HS.
    destruct (HandleRequestVote req now r n) as [[rs n0]|] eqn:EH; [|done].
    injection HS as <- <-. exists c, n, n0. split_and!; [done..|]. rewrite EH. by destruct rs.
  - intros req resp t' Hs E. unfold AppendEntries in E.
    destruct (getConnection Dial target t) as [[c|] t1] eqn:EC; [|done].
    apply getConnection_cached in EC as [Hc _].
    destruct (client_AppendEntries Invoke c _) as [m|] eqn:EI; [|done]. injection E as <- <-.
    destruct (append_stub _ _ _ EI) as (n & n' & Hn & HS). unfold server_AppendEntries in HS.
    rewrite append_roundtrip in HS by done.
    destruct (HandleAppendEntries req now r n) as [[rs n0]|] eqn:EH; [|done].
    injection HS as <- <-. exists c, n, n0. split_and!; [done..|]. rewrite EH. by destruct rs.
Qed.
End EndToEnd.

(** ** Example: every target is a started server with the node [demo_voter] *)

Definition demo_server : Server :=
  (Start (λ _, true) ":5001" (SetRaftNode demo_voter NewServer)).2.

Definition demo_Invoke (_ : unit) (full : string) (x : Msg) : option Msg :=
  match find (λ m, bool_decide (full = full_name m.1)) Methods with
  | Some (_, h) =>
      match h (raftNode demo_server) 0%Z 7%Z x None with Some (Ok (Some y), _) => Some y | _ => None end
  | None => None
  end.

Lemma demo_Invoke_delivers c full x y :
  demo_Invoke c full x = Some y → served demo_server 0 7 full x y.
Proof.
  unfold demo_Invoke. destruct (find _ Methods) as [[meth h]|] eqn:Ef; [|done].
  apply find_some in Ef as [Hin Hb%bool_decide_eq_true]. intros E. split; [done|].
  case_match eqn:Eh; [|done]. repeat case_match; simplify_eq.
  eexists meth, h, _. split; [by apply list_elem_of_In|]. split; [done|]. exact Eh.
Qed.

Lemma rpc_end_to_end_witness :
  ∃ n', HandleRequestVote (mkVoteRequest 1 "a" 0 0) 0 7 demo_voter = Some (mkVoteResponse 1 true, n').
Proof.
  destruct (rpc_end_to_end (λ _, Some tt) demo_Invoke (λ _, demo_server) 0 7 demo_Invoke_delivers
    "b" (@NewGRPCTransport unit)) as [H _].
  destruct (H (mkVoteRequest 1 "a" 0 0) (mkVoteResponse 1 true) (mkTransport {["b" := tt]}))
    as (c & n & n' & _ & En & E); [vm_compute; reflexivity|].
  injection En as <-. exists n'. exact E.
Defined.
