(* ===== verification/RaftGrpc.v ===== *)
(** * A cluster over the gRPC transport

    What becomes of elections when the votes are requested through the transport
    of internal/transport.  The messages of proto.go are plain structs, and grpc's
    default codec encodes only values that implement proto.Message.  grpc stays a
    parameter; the two hypotheses say what its documentation says of the codec
    and of Invoke.  [net_step] is the event loop of RaftLoop.v in which a counted
    vote is the result of a call of the transport. *)

From S2P Require Import Prelude RaftLog RaftState Config RaftNode RaftVote RaftLoop Transport Grpc.
Import State Raft Loop Transport Grpc.

(** The interface proto.Message (of github.com/golang/protobuf) to which the codec
    of grpc 1.60, the version go.mod requires, converts every message. *)
Definition proto_Message : list string := ["Reset"; "String"; "ProtoMessage"].

Definition implements (m : Msg) (iface : list string) : Prop :=
  Forall (λ f, f ∈ method_set m) iface.

Section Net.
Context {Conn Wire : Type} (Dial : string → option Conn).
Context (Marshal : Msg → option Wire) (Invoke : Conn → string → Msg → option Msg).
Hypothesis codec_wants_proto : ∀ m, ¬ implements m proto_Message → Marshal m = None.
Hypothesis invoke_marshals : ∀ c full m, Marshal m = None → Invoke c full m = None.

(** What a call of RequestVote can return. *)
Definition vote_answer (resp : option VoteResponse) : Prop :=
  ∃ target req t t', RequestVote Dial (client_RequestVote Invoke) target req t = (resp, t').

Definition append_answer (resp : option AppendEntriesResponse) : Prop :=
  ∃ target req t t', AppendEntries Dial (client_AppendEntries Invoke) target req t = (resp, t').

(** The critical section of a vote goroutine of the current round. *)
Definition counts_vote (l l' : Loop) : Prop :=
  ∃ term votes k o votes', l = LCandidate term votes (S k) o ∧ l' = LCandidate term votes' k o.

(** A step of the event loop; votes are counted from answers of the transport. *)
Inductive net_step : Node * Loop → Node * Loop → Prop :=
| net_vote n term votes k o resp now votes' n' :
    vote_answer resp → vote_response term resp now votes n = (votes', n') →
    net_step (n, LCandidate term votes (S k) o) (n', LCandidate term votes' k o)
| net_other n l n' l' :
    lp_step (n, l) (n', l') → ¬ counts_vote l l' → net_step (n, l) (n', l').

Lemma not_proto m : ¬ implements m proto_Message.
Proof. unfold implements, proto_Message. rewrite Forall_cons. intros [H _]. by destruct m; apply elem_of_nil in H. Qed.

Lemma invoke_fails c full m : Invoke c full m = None.
Proof. apply invoke_marshals, codec_wants_proto, not_proto. Qed.

Lemma vote_answer_none resp : vote_answer resp → resp = None.
Proof.
  intros (target & req & t & t' & E). unfold RequestVote in E.
  destruct (getConnection Dial target t) as [[c|] t1]; [|by injection E as <- _].
  unfold client_RequestVote in E. rewrite invoke_fails in E. by injection E as <- _.
Qed.

Lemma append_answer_none resp : append_answer resp → resp = None.
Proof.
  intros (target & req & t & t' & E). unfold AppendEntries in E.
  destruct (getConnection Dial target t) as [[c|] t1]; [|by injection E as <- _].
  unfold client_AppendEntries in E. rewrite invoke_fails in E. by injection E as <- _.
Qed.

(** Nobody leads, and a candidate has its own vote only. *)
Definition leaderless (x : Node * Loop) : Prop :=
  (0 < length (peers x.1))%nat ∧ state (st x.1) ≠ Leader ∧ x.2 ≠ LLeader ∧
  ∀ term votes k o, x.2 = LCandidate term votes k o → votes = 1%Z.

Lemma reset_peers r n n' :
  resetElectionTimer r n = Some n' → peers n' = peers n ∧ st n' = st n.
Proof. unfold resetElectionTimer. case_match; [done|]. by intros [= <-]. Qed.

(** What the handlers do to the peers and the role. *)
Lemma handlers_leaderless n n' :
  (∃ req now r resp, HandleRequestVote req now r n = Some (resp, n')) ∨
  (∃ req now r resp, HandleAppendEntries req now r n = Some (resp, n')) →
  peers n' = peers n ∧ (state (st n) ≠ Leader → state (st n') ≠ Leader).
Proof.
  intros [(req & now & r & resp & E)|(req & now & r & resp & E)].
  - unfold HandleRequestVote in E. repeat case_match; simplify_eq/=; try done;
      match goal with H : resetElectionTimer _ _ = Some _ |- _ =>
        apply reset_peers in H as [-> ->] end; done.
  - unfold HandleAppendEntries, new_commit in E. repeat case_match; simplify_eq/=; try done;
      match goal with H : resetElectionTimer _ _ = Some _ |- _ =>
        apply reset_peers in H as [-> _] end; done.
Qed.

Lemma net_step_leaderless x y : net_step x y → leaderless x → leaderless y.
Proof.
  unfold leaderless. intros Hst (Hp & Hs & Hl & Hv).
  destruct Hst as [n term votes k o resp now votes' n' Ha E|n l n' l' Hst Hnc]; simpl in *.
  { apply vote_answer_none in Ha as ->. injection E as <- <-. split_and!; try done.
    intros ? ? ? ? [= <- <- <- <-]. by eapply Hv. }
  inversion Hst; subst; clear Hst; simpl in *; try done.
  - match goal with E : start_candidate _ _ = _ |- _ => rename E into E1 end.
    unfold start_candidate in E1. simpl in E1.
    destruct (resetElectionTimer _ _) eqn:ER; [|done]. injection E1 as _ <-.
    apply reset_peers in ER as [-> ->]. split_and!; try done. by intros ? ? ? ? [= _ <- _ _].
  - split_and!; try done. intros ? ? ? ? [= <- <- <- <-]. by eapply Hv.
  - destruct Hnc. by eexists _, _, _, _, _.
  - match goal with E : finish_candidate _ _ _ = _ |- _ => rename E into E1 end.
    rewrite (Hv _ _ _ _ eq_refl) in E1. unfold finish_candidate, votesNeeded in E1.
    pose proof (Z.div_le_lower_bound (Z.of_nat (length (peers n)) + 1) 2 1 ltac:(lia) ltac:(lia)).
    destruct (Z.leb_spec ((Z.of_nat (length (peers n)) + 1) / 2 + 1) 1); [lia|].
    apply reset_peers in E1 as [-> ->]. done.
  - match goal with E : HandleRequestVote _ _ _ _ = _ |- _ => rename E into E1 end.
    destruct (handlers_leaderless n n') as [-> Hs']; [left; by eexists _, _, _, _|]. by split_and!; auto.
  - match goal with E : HandleAppendEntries _ _ _ _ = _ |- _ => rename E into E1 end.
    destruct (handlers_leaderless n n') as [-> Hs']; [right; by eexists _, _, _, _|]. by split_and!; auto.
  - unfold heartbeat_response. by repeat case_match.
  - match goal with E : vote_response _ _ _ _ _ = _ |- _ => rename E into E1 end.
    unfold vote_response in E1. by repeat case_match; simplify_eq.
  - unfold Propose. by repeat case_match.
Qed.

(** C12. With grpc's default codec, which refuses values that are not
    proto.Message (the structs of proto.go have none of its methods), every call
    between nodes fails, and a server with at least one peer never becomes
    leader: in every run of its event loop, whatever requests, replies to older
    calls, timeouts and elections occur, every RequestVote and AppendEntries of
    the transport returns an error and the node is never in the state Leader. *)
Theorem cluster_never_elects n x :
  (0 < length (peers n))%nat → state (st n) = Follower → rtc net_step (n, LRun) x →
  state (st x.1) ≠ Leader ∧ x.2 ≠ LLeader ∧
  (∀ resp, vote_answer resp → resp = None) ∧ (∀ resp, append_answer resp → resp = None).
Proof.
  intros Hp Hs Hst. assert (leaderless (n, LRun)) as H0 by (split_and!; simpl; try done; congruence).
  assert (leaderless x) as (_ & ? & ? & _).
  { clear Hp Hs. induction Hst as [|x y z Hxy _ IH]; [done|]. by apply IH, (net_step_leaderless x). }
  split_and!; [done..|apply vote_answer_none|apply append_answer_none].
Qed.
End Net.

(** grpc with its codec: a server behind every connection answers what can be
    encoded.  The node [loop_started] waits, its timer fires, it stands for
    election and both votes fail. *)
Definition demo_Marshal (m : Msg) : option unit :=
  if decide (Forall (λ f, f ∈ method_set m) proto_Message) then Some tt else None.

Definition codec_Invoke (c : unit) (full : string) (m : Msg) : option Msg :=
  match demo_Marshal m with Some _ => demo_Invoke c full m | None => None end.

Definition net_candidate : Node :=
  match start_candidate 7 (follower_timeout 0 (set_status Fired 0 loop_started)) with
  | Some (_, n) => n
  | None => loop_started
  end.

Lemma net_run :
  rtc (net_step (λ _, Some tt) codec_Invoke) (loop_started, LRun) (net_candidate, LCandidate 1 1 0 None).
Proof.
  assert (∀ l l', (∀ term v k o, l ≠ LCandidate term v k o) → ¬ counts_vote l l') as Hn.
  { intros l l' H (? & ? & ? & ? & ? & -> & _). by eapply H. }
  assert (vote_answer (λ _, Some tt) codec_Invoke None) as Ha.
  { exists "a", (mkVoteRequest 1 "c" 0 0), (@NewGRPCTransport unit), (mkTransport {["a" := tt]}).
    vm_compute. reflexivity. }
  eapply rtc_l; [apply net_other; [by apply (lp_follower _ 0)|by apply Hn]|].
  eapply rtc_l; [apply net_other; [by apply (lp_fire _ _ 0)|by apply Hn]|].
  eapply rtc_l; [apply net_other; [by apply (lp_follower_timeout _ 0)|by apply Hn]|].
  eapply rtc_l; [apply net_other; [|by apply Hn]|].
  { apply (lp_candidate _ 7 1 net_candidate); [reflexivity|vm_compute; reflexivity]. }
  eapply rtc_l; [by apply (net_vote _ _ _ _ _ _ _ None 0)|].
  by apply rtc_once, (net_vote _ _ _ _ _ _ _ None 0).
Qed.

Lemma cluster_never_elects_witness :
  rtc (net_step (λ _, Some tt) codec_Invoke) (loop_started, LRun) (net_candidate, LCandidate 1 1 0 None) ∧
  state (st net_candidate) ≠ Leader.
Proof.
  split; [exact net_run|].
  refine (proj1 (cluster_never_elects (λ _, Some tt) demo_Marshal codec_Invoke _ _ loop_started
            (net_candidate, LCandidate 1 1 0 None) _ _ net_run)).
  - intros m Hm. unfold demo_Marshal. by rewrite decide_False.
  - intros c full m Hm. unfold codec_Invoke. by rewrite Hm.
  - simpl. lia.
  - reflexivity.
Defined.
