(* ===== verification/RaftCluster.v ===== *)
(** * A cluster of Raft nodes

    An in-memory transport that hands each call to the handler of the node it is
    addressed to, as a second instance of package raft's Transport interface,
    and what a round of calls through it does to the nodes.  The nodes answer
    one call at a time (each handler holds its node's mutex); nodes that are not
    in the map are unreachable. *)

From S2P Require Import Prelude RaftLog RaftState Config RaftNode RaftVote.
Import State Raft.

Module Cluster.

(** [now] and [rnd] are what every handler reads from the clock and from rand. *)
Record Cluster := mkCluster { members : gmap string Node; now : Z; rnd : Z }.

Definition set_member (p : string) (n : Node) (c : Cluster) : Cluster :=
  mkCluster (<[p := n]> (members c)) (now c) (rnd c).

Definition call_vote (p : string) (req : VoteRequest) (c : Cluster)
  : option VoteResponse * Cluster :=
  match members c !! p with
  | None => (None, c)
  | Some n =>
      match HandleRequestVote req (now c) (rnd c) n with
      | None => (None, c)
      | Some (resp, n') => (Some resp, set_member p n' c)
      end
  end.

Definition call_append (p : string) (req : AppendEntriesRequest) (c : Cluster)
  : option AppendEntriesResponse * Cluster :=
  match members c !! p with
  | None => (None, c)
  | Some n =>
      match HandleAppendEntries req (now c) (rnd c) n with
      | None => (None, c)
      | Some (resp, n') => (Some resp, set_member p n' c)
      end
  end.

#[export] Instance cluster_transport : Transport Cluster := {
  rpc_RequestVote := call_vote;
  rpc_AppendEntries := call_append
}.

(** The calls of the vote goroutines of runCandidate, one after the other. *)
Fixpoint request_votes {T} `{Transport T} (req : VoteRequest) (ps : list string) (t : T)
  : list (option VoteResponse) * T :=
  match ps with
  | [] => ([], t)
  | p :: ps =>
      let '(resp, t) := rpc_RequestVote p req t in
      let '(resps, t) := request_votes req ps t in
      (resp :: resps, t)
  end.

(** A round of runCandidate over a transport, for the branch of its select in
    which every vote goroutine has finished ([done]).  The calls, which the
    source makes concurrently, are made one after the other: they go to
    different peers, and all carry the same request, since nothing changes the
    candidate's log meanwhile.  The branches in which the election timer or
    stopCh comes first are those of [runCandidate] and do not use the replies. *)
Definition campaign {T} `{Transport T} (r1 r2 now : Z) (n : Node) (t : T) : option Node * T :=
  match start_candidate r1 n with
  | None => (None, t)
  | Some (term, n1) =>
      let '(resps, t) := request_votes (vote_request term n1) (peers n) t in
      (runCandidate OnDone r1 r2 now resps n, t)
  end.

End Cluster.
Import Cluster.

(** ** Elections *)

(** Peer [p] has recorded its vote of term [T] for [c]. *)
Definition has_voted (T : Z) (c : string) (cl : Cluster) (p : string) : Prop :=
  ∃ n, members cl !! p = Some n ∧ currentTerm (st n) = T ∧ votedFor (st n) = c.

#[export] Instance has_voted_dec T c cl p : Decision (has_voted T c cl p).
Proof.
  unfold has_voted. destruct (members cl !! p) as [n|]; [|right; naive_solver].
  destruct (decide (currentTerm (st n) = T ∧ votedFor (st n) = c)); [left; naive_solver|].
  right. naive_solver.
Defined.

(** Every node has a usable election interval. *)
Definition good_cluster (cl : Cluster) : Prop :=
  ∀ p n, members cl !! p = Some n → good_config (config n) ∧ good_rand (rnd cl) (config n).

Lemma call_vote_spec p req cl :
  good_cluster cl →
  let '(resp, cl') := call_vote p req cl in
  good_cluster cl' ∧ (∀ q, q ≠ p → members cl' !! q = members cl !! q) ∧
  (is_grant (vq_Term req) resp = true → has_voted (vq_Term req) (vq_CandidateID req) cl' p).
Proof.
  intros Hg. unfold call_vote. destruct (members cl !! p) as [n|] eqn:E; [|done].
  destruct (Hg p n E) as [Hc Hr].
  destruct (HandleRequestVote_cases req (now cl) (rnd cl) n Hc Hr)
    as (resp & n' & -> & _ & Ht & Hrt & Hv & _ & Hcf & _).
  split_and!.
  - intros q m. simpl. rewrite lookup_insert_Some. intros [[<- <-]|[_ Hq]]; [by rewrite Hcf|].
    by apply (Hg q).
  - intros q Hq. simpl. by rewrite lookup_insert_ne.
  - simpl. intros [Hle Hgr]%andb_true_iff. exists n'. simpl. rewrite lookup_insert_eq.
    rewrite Hgr in Hv. split_and!; [done| |done]. lia.
Qed.

Lemma request_votes_spec req ps cl :
  NoDup ps → good_cluster cl →
  let '(resps, cl') := request_votes req ps cl in
  good_cluster cl' ∧ (∀ q, q ∉ ps → members cl' !! q = members cl !! q) ∧
  (grants (vq_Term req) resps ≤
     length (filter (has_voted (vq_Term req) (vq_CandidateID req) cl') ps))%nat.
Proof.
  intros Hnd. revert cl. induction ps as [|p ps IH]; intros cl Hg; [done|].
  apply NoDup_cons in Hnd as [Hp Hnd]. cbn [request_votes rpc_RequestVote cluster_transport].
  pose proof (call_vote_spec p req cl Hg) as H1.
  destruct (call_vote p req cl) as [resp cl1]. destruct H1 as (Hg1 & Ho1 & Hv1).
  specialize (IH Hnd cl1 Hg1). destruct (request_votes req ps cl1) as [resps cl2].
  destruct IH as (Hg2 & Ho2 & Hv2). split_and!; [done| |].
  - intros q [? ?]%not_elem_of_cons. rewrite Ho2, Ho1; done.
  - unfold grants in *. simpl. rewrite filter_cons.
    destruct (is_grant (vq_Term req) resp) eqn:E; simpl; [|case_decide; simpl; lia].
    rewrite decide_True; [simpl; lia|].
    destruct (Hv1 eq_refl) as (n & Hn & ?). exists n. by rewrite Ho2.
Qed.

(** C15. A leader really has the votes: when a candidate runs a round against a
    cluster and becomes leader, then, counting itself, a strict majority of the
    cluster has afterwards recorded its vote of the new term for it. *)
Theorem elected_by_recorded_majority r1 r2 now n cl n' cl' :
  good_config (config n) → good_rand r1 (config n) → good_rand r2 (config n) →
  good_cluster cl → NoDup (peers n) →
  campaign r1 r2 now n cl = (Some n', cl') → IsLeader n' = true →
  let T := u64 (currentTerm (st n) + 1) in
  (length (peers n) + 1 < 2 * (1 + length (filter (has_voted T (id n) cl') (peers n))))%nat.
Proof.
  intros Hc Hr1 Hr2 Hg Hnd HC HL T. unfold campaign in HC.
  destruct (start_candidate r1 n) as [[term n1]|] eqn:ES; [|done].
  assert (term = T ∧ id n1 = id n) as [-> Hid].
  { unfold start_candidate in ES. simpl in ES.
    destruct (resetElectionTimer_spec r1 (set_st (SetVotedFor (id n) (BecomeCandidate (st n)).2) n)
                Hc Hr1) as (n0 & E0 & _ & Hid0 & _). simpl in E0. rewrite E0 in ES.
    by injection ES as <- <-. }
  pose proof (request_votes_spec (vote_request T n1) (peers n) cl Hnd Hg) as H.
  destruct (request_votes (vote_request T n1) (peers n) cl) as [resps cl2]. injection HC as HR <-.
  destruct H as (_ & _ & Hv). simpl in Hv. rewrite Hid in Hv.
  destruct (runCandidate_majority r1 r2 now resps n Hc Hr1 Hr2) as (n2 & E2 & [Hm _] & _).
  rewrite HR in E2. injection E2 as <-. specialize (Hm HL). fold T in Hm. lia.
Qed.

(** Three nodes; c stands for election and a is unreachable. *)
Definition demo_cluster : Cluster :=
  mkCluster {[ "b" := NewNode "b" ["a"; "c"] demo_cfg ]} 0 7.

Lemma elected_by_recorded_majority_witness :
  ∃ n' cl', campaign 7 7 0 demo_voter demo_cluster = (Some n', cl') ∧ IsLeader n' = true ∧
    (3 < 2 * (1 + length (filter (has_voted 1 "c" cl') ["a"; "b"])))%nat.
Proof.
  eexists _, _. split; [vm_compute; reflexivity|]. split; [vm_compute; reflexivity|].
  refine (elected_by_recorded_majority 7 7 0 demo_voter demo_cluster _ _
            demo_cfg_good demo_rand_good demo_rand_good _ _ _ _).
  - intros p n Hl. unfold demo_cluster in Hl. cbn [members] in Hl.
    apply lookup_singleton_Some in Hl as [<- <-]. split; [exact demo_cfg_good|exact demo_rand_good].
  - by apply (bool_decide_unpack _); vm_compute.
  - vm_compute. reflexivity.
  - vm_compute. reflexivity.
Defined.
