(* ===== verification/RaftReplicate.v ===== *)
(** * From a proposal to a committed entry

    One round of sendHeartbeats through a transport, and the normal case of
    replication: a leader whose reachable followers have its log proposes a
    command, sends the next heartbeats, and commits it. *)

From S2P Require Import Prelude RaftLog RaftState Config RaftNode RaftVote RaftCommit RaftCluster.
Import State Raft Cluster.

Module Replicate.

(** sendHeartbeats, the goroutines of the peers one after the other. *)
Fixpoint send_heartbeats {T} `{Transport T} (term now : Z) (ps : list string) (n : Node) (t : T)
  : Node * T :=
  match ps with
  | [] => (n, t)
  | p :: ps =>
      let req := heartbeat_request term p n in
      let '(resp, t) := rpc_AppendEntries p req t in
      send_heartbeats term now ps (heartbeat_response term p (aq_Entries req) resp now n) t
  end.

End Replicate.
Import Replicate.

(** ** One peer *)

(** A reachable follower with the leader's log up to entry [k]. *)
Definition follows (L : Node) (k : nat) (cl : Cluster) (p : string) : Prop :=
  ∃ F, members cl !! p = Some F ∧ good_config (config F) ∧ good_rand (rnd cl) (config F) ∧
    (currentTerm (st F) ≤ currentTerm (st L))%Z ∧
    Log.entries (log (st F)) = take k (Log.entries (log (st L))).

(** The leader [L] still has an entry to send: [k] is not the end of its log. *)
Record sender (L : Node) (k : nat) : Prop := {
  se_wf : wf_log (log (st L));
  se_small : (Log.Length (log (st L)) < 2 ^ 63)%Z;
  se_more : (k < length (Log.entries (log (st L))))%nat
}.

(** What a round changes in the leader: the indexes of some peers. *)
Definition same_leader (L L' : Node) : Prop :=
  log (st L') = log (st L) ∧ currentTerm (st L') = currentTerm (st L) ∧
  commitIndex (st L') = commitIndex (st L) ∧ lastApplied (st L') = lastApplied (st L) ∧
  state (st L') = state (st L).

Lemma same_leader_refl L : same_leader L L.
Proof. done. Qed.

Lemma same_leader_trans L1 L2 L3 : same_leader L1 L2 → same_leader L2 L3 → same_leader L1 L3.
Proof. unfold same_leader. intuition congruence. Qed.

Lemma TermAt_take i k es :
  (i ≤ k)%nat → Log.TermAt (Z.of_nat i) (Log.mkLog (take k es)) = Log.TermAt (Z.of_nat i) (Log.mkLog es).
Proof.
  intros Hi. destruct i as [|i]; [done|]. rewrite !TermAt_lookup. simpl.
  by rewrite lookup_take_lt by lia.
Qed.

(** The call to a follower: it ends with the leader's whole log. *)
Lemma call_follower L k cl p now :
  sender L k → nextIndex (st L) !! p = Some (Z.of_nat k + 1)%Z → follows L k cl p →
  let term := currentTerm (st L) in
  let req := heartbeat_request term p L in
  let '(resp, cl') := call_append p req cl in
  let L' := heartbeat_response term p (aq_Entries req) resp now L in
  same_leader L L' ∧
  matchIndex (st L') = <[p := Log.LastIndex (log (st L))]> (matchIndex (st L)) ∧
  (∀ q, q ≠ p → nextIndex (st L') !! q = nextIndex (st L) !! q) ∧
  (∀ q, q ≠ p → members cl' !! q = members cl !! q) ∧ rnd cl' = rnd cl ∧
  ∃ F', members cl' !! p = Some F' ∧ log (st F') = log (st L).
Proof.
  intros [Hwf Hsm Hmore] Hnext (F & HF & Hc & Hr & Ht & Hlog).
  unfold Log.Length in Hsm. unfold call_append. rewrite HF.
  unfold heartbeat_request, lookup_index. rewrite Hnext. simpl default.
  rewrite (u64_small (Z.of_nat k + 1 - 1)) by (unfold in_u64, u64_max; lia).
  replace (Z.of_nat k + 1 - 1)%Z with (Z.of_nat k) by lia. rewrite EntriesAfter_drop.
  set (req := mkAppend _ _ _ _ _ _).
  destruct (HandleAppendEntries_cases req (Cluster.now cl) (rnd cl) F Hc Hr)
    as (resp & F' & -> & _ & H).
  rewrite decide_False in H by (simpl; lia).
  destruct H as (Hrt & _ & _ & _ & _ & Hs & Hl & _).
  assert (ar_Success resp = true) as Hsucc.
  { rewrite Hs. unfold prev_matches, req. simpl.
    destruct (log (st F)) as [fes], (log (st L)) as [les]. simpl in *. subst fes.
    rewrite TermAt_take by lia. rewrite Z.eqb_refl. simpl. by rewrite andb_false_r. }
  rewrite Hsucc in Hl.
  destruct (last (drop k (Log.entries (log (st L))))) as [e|] eqn:Elast.
  2: { apply last_None in Elast. apply (f_equal length) in Elast.
       rewrite length_drop in Elast. simpl in Elast. lia. }
  assert (Log.Index e = Log.LastIndex (log (st L))) as Hidx.
  { rewrite last_lookup, lookup_drop, length_drop in Elast.
    apply Hwf in Elast. unfold Log.LastIndex, Log.Length. lia. }
  unfold heartbeat_response. rewrite Hrt. simpl aq_Term. rewrite Z.ltb_irrefl, Hsucc.
  simpl aq_Entries. rewrite Elast. split_and!; try done.
  - simpl. by rewrite Hidx.
  - intros q Hq. simpl. by rewrite lookup_insert_ne.
  - intros q Hq. simpl. by rewrite lookup_insert_ne.
  - exists F'. simpl. rewrite lookup_insert_eq. split; [done|]. rewrite Hl.
    unfold appended, req. simpl aq_Entries. rewrite decide_True by (rewrite length_drop; lia).
    simpl aq_PrevLogIndex. unfold Log.AppendEntries, Log.Length. rewrite Hlog, length_take.
    destruct (Z.ltb_spec (Z.of_nat (k `min` length (Log.entries (log (st L))))) (Z.of_nat k)); [lia|].
    simpl. rewrite Nat2Z.id, take_take, Nat.min_id, reindex_drop by (done || lia).
    rewrite take_drop. by destruct (log (st L)).
Qed.

(** ** A round *)

Definition reachable (cl : Cluster) (p : string) : Prop := is_Some (members cl !! p).

#[export] Instance reachable_dec cl p : Decision (reachable cl p).
Proof. unfold reachable. apply _. Defined.

Lemma follows_mono L L' k cl cl' p :
  same_leader L L' → members cl' !! p = members cl !! p → rnd cl' = rnd cl →
  follows L k cl p → follows L' k cl' p.
Proof.
  intros (Hl & Ht & _) Hm Hr (F & HF & Hc & Hg & Htt & Hlog). exists F.
  rewrite Hm, Hr, Hl, Ht. done.
Qed.

Lemma sender_mono L L' k : same_leader L L' → sender L k → sender L' k.
Proof. intros (Hl & _) []. by split; rewrite Hl. Qed.

Lemma send_heartbeats_spec term now ps L k cl :
  NoDup ps → sender L k → term = currentTerm (st L) →
  (∀ p, p ∈ ps → nextIndex (st L) !! p = Some (Z.of_nat k + 1)%Z ∧
                 (reachable cl p → follows L k cl p)) →
  let '(L', cl') := send_heartbeats term now ps L cl in
  same_leader L L' ∧
  (∀ p, matchIndex (st L') !! p =
     if decide (p ∈ ps ∧ reachable cl p) then Some (Log.LastIndex (log (st L)))
     else matchIndex (st L) !! p) ∧
  (∀ p, p ∉ ps → members cl' !! p = members cl !! p) ∧
  ∀ p, p ∈ ps → reachable cl p → ∃ F', members cl' !! p = Some F' ∧ log (st F') = log (st L).
Proof.
  intros Hnd. revert L cl. induction ps as [|p ps IH]; intros L cl Hse -> Hps.
  { cbn [send_heartbeats]. split_and!; [done| |done|by intros p ?%elem_of_nil].
    intros p. rewrite decide_False; [done|]. by intros [?%elem_of_nil _]. }
  apply NoDup_cons in Hnd as [Hp Hnd].
  cbn [send_heartbeats rpc_AppendEntries cluster_transport].
  destruct (Hps p ltac:(by left)) as [Hnx Hfo].
  destruct (decide (reachable cl p)) as [Hrp|Hrp].
  - pose proof (call_follower L k cl p now Hse Hnx (Hfo Hrp)) as H1.
    cbv zeta in H1. destruct (call_append p _ cl) as [resp cl1].
    destruct H1 as (Hsl & Hmi & Hni & Hme & Hrn & F1 & HF1 & HlF1).
    set (L1 := heartbeat_response _ _ _ _ _ _) in *.
    specialize (IH Hnd L1 cl1 (sender_mono _ _ _ Hsl Hse)).
    pose proof Hsl as (Hl & Ht & _).
    specialize (IH (eq_sym Ht)).
    destruct (send_heartbeats (currentTerm (st L)) now ps L1 cl1) as [L2 cl2].
    destruct IH as (Hs2 & Hm2 & Hme2 & HF2).
    { intros q Hq. assert (q ≠ p) by (by intros ->). rewrite Hni by done.
      destruct (Hps q ltac:(by right)) as [Hq1 Hq2]. split; [done|].
      unfold reachable. rewrite Hme by done. intros Hr.
      apply (follows_mono L L1 k cl cl1); [done|by apply Hme|done|by apply Hq2]. }
    rewrite Hl in Hm2, HF2. split_and!.
    + by apply (same_leader_trans L L1).
    + intros q. rewrite Hm2, Hmi. destruct (decide (q = p)) as [->|Hne].
      * rewrite decide_False by naive_solver. rewrite lookup_insert_eq.
        rewrite decide_True; [done|]. split; [by left|done].
      * rewrite lookup_insert_ne by done. apply decide_ext.
        unfold reachable. rewrite Hme by done. rewrite elem_of_cons. naive_solver.
    + intros q [? ?]%not_elem_of_cons. rewrite Hme2, Hme; done.
    + intros q [->|Hq]%elem_of_cons Hr; [exists F1; by rewrite Hme2|].
      apply HF2; [done|]. unfold reachable. rewrite Hme; [done|]. by intros ->.
  - unfold call_append. destruct (members cl !! p) as [F|] eqn:EF.
    { exfalso. apply Hrp. by exists F. }
    simpl. specialize (IH Hnd L cl Hse eq_refl).
    destruct (send_heartbeats _ now ps L cl) as [L2 cl2]. destruct IH as (Hs2 & Hm2 & Hme2 & HF2).
    { intros q Hq. apply Hps. by right. }
    split_and!; [done| | |].
    + intros q. rewrite Hm2. apply decide_ext. rewrite elem_of_cons. split; [naive_solver|].
      intros [[->|?] ?]; [done|done].
    + intros q [? ?]%not_elem_of_cons. by apply Hme2.
    + intros q [->|Hq]%elem_of_cons Hr; [done|]. by apply HF2.
Qed.

(** ** The median *)

(** In a sorted list a position beyond the elements below [c] holds at least [c]. *)
Lemma sorted_position l k c x :
  StronglySorted Z.le l → l !! k = Some x → (length l - replicated c l ≤ k)%nat → (c ≤ x)%Z.
Proof.
  intros Hs Hk Hle. destruct (Z.le_gt_cases c x) as [|Hlt]; [done|]. exfalso.
  pose proof (lookup_lt_Some _ _ _ Hk) as Hlen.
  rewrite <- (take_drop k l), (drop_S l x k) in Hs by done.
  apply StronglySorted_app in Hs as (Hs & _ & _).
  assert (replicated c l = replicated c (drop (S k) l)) as Hr.
  { rewrite <- (take_drop k l) at 1. rewrite (drop_S l x k) by done. unfold replicated.
    rewrite filter_app, length_app, filter_cons_False by lia.
    rewrite filter_Forall_none; [done|]. apply Forall_forall. intros y Hy.
    specialize (Hs y x Hy ltac:(by left)). lia. }
  unfold replicated in Hr at 2. pose proof (length_filter (λ i, c ≤ i)%Z (drop (S k) l)) as Hlf.
  rewrite length_drop in Hlf. lia.
Qed.

Lemma commit_median order n c :
  (∀ x, x ∈ matchIndexes order n → (x ≤ c)%Z) →
  (length (matchIndexes order n) < 2 * replicated c (matchIndexes order n))%nat →
  (commitIndex (st n) < c)%Z → Log.TermAt c (log (st n)) = currentTerm (st n) →
  updateCommitIndex order n = set_st (SetCommitIndex c (st n)) n.
Proof.
  intros Hmax Hq Hlt Ht. unfold updateCommitIndex.
  pose proof (sort_indexes_perm (matchIndexes order n)) as Hp.
  rewrite (Permutation_length Hp). set (N := length (matchIndexes order n)) in *.
  assert (N / 2 < N)%nat as HN by (apply Nat.div_lt; [unfold N; simpl; lia|lia]).
  destruct (lookup_lt_is_Some_2 (sort_indexes (matchIndexes order n)) (N / 2)%nat) as [x Hx];
    [by rewrite (Permutation_length Hp)|].
  rewrite Hx. assert (x = c) as ->.
  { apply Z.le_antisymm.
    - apply Hmax. rewrite <- Hp. by eapply list_elem_of_lookup_2.
    - eapply sorted_position; [apply sort_indexes_sorted|exact Hx|].
      rewrite (replicated_perm c _ _ Hp), (Permutation_length Hp). fold N.
      pose proof (Nat.div_mod_eq N 2). pose proof (Nat.mod_upper_bound N 2). lia. }
  destruct (Z.ltb_spec (commitIndex (st n)) c); [|lia]. by rewrite Ht, Z.eqb_refl.
Qed.

Lemma length_filter_fmap {A B} (P : B → Prop) `{!∀ x, Decision (P x)} (f : A → B) (l : list A) :
  length (filter P (f <$> l)) = length (filter (λ x, P (f x)) l).
Proof.
  induction l as [|x l IH]; [done|]. rewrite fmap_cons, !filter_cons.
  case_decide; simpl; by rewrite ?IH.
Qed.

(** The peers that have acknowledged count among the match indexes. *)
Lemma acknowledged_replicated (m : gmap string Z) (Q : list string) c :
  NoDup Q → (∀ p, p ∈ Q → m !! p = Some c) →
  (length Q ≤ replicated c (map_to_list m).*2)%nat.
Proof.
  intros Hnd HQ. unfold replicated. rewrite length_filter_fmap.
  rewrite <- (length_fmap fst). apply submseteq_length, NoDup_submseteq; [done|].
  intros p Hp. apply list_elem_of_fmap. exists (p, c). split; [done|].
  apply list_elem_of_filter. split; [simpl; lia|]. apply elem_of_map_to_list. by apply HQ.
Qed.

(** The steady state of a leader: its reachable followers have its log, and its
    bookkeeping says so. *)
Record steady (L : Node) (cl : Cluster) : Prop := {
  sd_leader : state (st L) = Leader;
  sd_wf : wf_log (log (st L));
  sd_small : (Log.Length (log (st L)) < 2 ^ 63 - 1)%Z;
  sd_peers : NoDup (peers L);
  sd_dom : dom (matchIndex (st L)) = list_to_set (peers L);
  sd_match : ∀ p i, matchIndex (st L) !! p = Some i → (i ≤ Log.LastIndex (log (st L)))%Z;
  sd_commit : (commitIndex (st L) ≤ Log.LastIndex (log (st L)))%Z;
  sd_next : ∀ p, p ∈ peers L → nextIndex (st L) !! p = Some (Log.LastIndex (log (st L)) + 1)%Z;
  sd_follow : ∀ p, p ∈ peers L → reachable cl p →
    follows L (length (Log.entries (log (st L)))) cl p
}.

(** The leader after Propose has one more entry to send. *)
Lemma Propose_sender command L cl :
  steady L cl →
  let k := length (Log.entries (log (st L))) in
  let e := Log.mkEntry (Z.of_nat k + 1) (currentTerm (st L)) Log.LogEntryCommand command in
  let L1 := set_st (set_log (Log.mkLog (Log.entries (log (st L)) ++ [e])) (st L)) L in
  Propose command L = (Ok (Z.of_nat k + 1)%Z, L1) ∧ sender L1 k ∧
  Log.LastIndex (log (st L1)) = (Z.of_nat k + 1)%Z ∧
  Log.Get (Z.of_nat k + 1) (log (st L1)) = Some e ∧
  (∀ p, p ∈ peers L → nextIndex (st L1) !! p = Some (Z.of_nat k + 1)%Z ∧
     (reachable cl p → follows L1 k cl p)).
Proof.
  intros [Hs Hwf Hsm _ _ _ _ Hn Hf] k e L1. split_and!.
  - unfold Propose, GetState. rewrite decide_False by (rewrite Hs; by intros []). done.
  - split; simpl.
    + pose proof (wf_Append (Log.mkEntry 0 (currentTerm (st L)) Log.LogEntryCommand command)
                    (log (st L)) Hwf) as Hw. exact Hw.
    + unfold Log.Length in *. simpl. rewrite length_app. simpl. fold k in Hsm |- *. lia.
    + rewrite length_app. simpl. fold k. lia.
  - unfold Log.LastIndex, Log.Length. simpl. rewrite length_app. simpl. fold k. lia.
  - unfold Log.Get, Log.out_of_range, Log.Length. simpl. rewrite length_app. simpl. fold k.
    destruct (Z.eqb_spec (Z.of_nat k + 1) 0); [lia|].
    destruct (Z.ltb_spec (Z.of_nat (k + 1)) (Z.of_nat k + 1)); [lia|]. simpl.
    replace (Z.to_nat (Z.of_nat k + 1 - 1)) with k by lia. by rewrite list_lookup_middle.
  - intros p Hp. split; [exact (Hn p Hp)|]. intros Hr.
    destruct (Hf p Hp Hr) as (F & HF & Hc & Hg & Ht & Hl). exists F. split_and!; try done.
    rewrite Hl. simpl. unfold k. by rewrite take_app_length, take_ge.
Qed.

(** The match indexes after a round, one per peer and one for the leader. *)
Lemma round_quorum L L2 cl c order :
  steady L cl →
  (∀ p, matchIndex (st L2) !! p =
     if decide (p ∈ peers L ∧ reachable cl p) then Some c else matchIndex (st L) !! p) →
  Log.LastIndex (log (st L2)) = c → (Log.LastIndex (log (st L)) ≤ c)%Z →
  order ≡ₚ (map_to_list (matchIndex (st L2))).*2 →
  (∀ x, x ∈ matchIndexes order L2 → (x ≤ c)%Z) ∧
  length (matchIndexes order L2) = (length (peers L) + 1)%nat ∧
  (1 + length (filter (reachable cl) (peers L)) ≤ replicated c (matchIndexes order L2))%nat.
Proof.
  intros Hsd Hm2 HLI Hle Ho. unfold matchIndexes. rewrite HLI. split_and!.
  - intros x [->|Hx]%elem_of_cons; [lia|]. rewrite Ho in Hx.
    apply list_elem_of_fmap in Hx as ([p v] & -> & Hv%elem_of_map_to_list).
    rewrite Hm2 in Hv. simpl. case_decide; [simplify_eq; lia|].
    apply (sd_match _ _ Hsd) in Hv. lia.
  - assert (dom (matchIndex (st L2)) = list_to_set (C := gset string) (peers L)) as Hd.
    { rewrite <- (sd_dom _ _ Hsd). apply set_eq. intros p. rewrite !elem_of_dom, Hm2.
      case_decide as Hd; [|done]. split; [|by eexists]. intros _.
      apply elem_of_dom. rewrite (sd_dom _ _ Hsd). apply elem_of_list_to_set. naive_solver. }
    simpl. rewrite Ho, length_fmap, length_map_to_list, <- size_dom, Hd.
    rewrite size_list_to_set by apply (sd_peers _ _ Hsd). lia.
  - unfold replicated. rewrite filter_cons_True by lia. simpl. apply le_n_S.
    fold (replicated c order). rewrite (replicated_perm _ _ _ Ho).
    apply acknowledged_replicated; [apply NoDup_filter, (sd_peers _ _ Hsd)|].
    intros p [Hr Hp]%list_elem_of_filter. rewrite Hm2. by rewrite decide_True.
Qed.

(** C9. A proposal is committed by one round of heartbeats: when a leader in
    steady state proposes a command and a strict majority of the cluster
    (itself included) is reachable, then after one round of sendHeartbeats and
    one run of the commit rule its commit index is the index Propose returned,
    and every reachable follower holds the leader's log with the command at
    that index. *)
Theorem proposal_commits_in_one_round command L cl now :
  steady L cl →
  (length (peers L) + 1 < 2 * (1 + length (filter (reachable cl) (peers L))))%nat →
  let '(r, L1) := Propose command L in
  let '(L2, cl2) := send_heartbeats (currentTerm (st L1)) now (peers L1) L1 cl in
  ∃ i e, r = Ok i ∧ i = (Log.LastIndex (log (st L)) + 1)%Z ∧
    Log.Get i (log (st L1)) = Some e ∧ Log.Command e = command ∧
    (∀ order, order ≡ₚ (map_to_list (matchIndex (st L2))).*2 →
       commitIndex (st (updateCommitIndex order L2)) = i) ∧
    ∀ p, p ∈ peers L → reachable cl p →
      ∃ F, members cl2 !! p = Some F ∧ Log.Get i (log (st F)) = Some e.
Proof.
  intros Hsd Hmaj. destruct (Propose_sender command L cl Hsd) as (-> & Hse & HLI & Hget & Hps).
  set (k := length (Log.entries (log (st L)))) in *.
  set (e := Log.mkEntry _ _ _ _) in *. set (L1 := set_st _ _) in *.
  pose proof (send_heartbeats_spec (currentTerm (st L1)) now (peers L) L1 k cl
                (sd_peers _ _ Hsd) Hse eq_refl Hps) as H.
  change (peers L1) with (peers L).
  destruct (send_heartbeats _ now (peers L) L1 cl) as [L2 cl2].
  destruct H as ((Hl2 & Ht2 & Hc2 & _ & _) & Hm2 & _ & HF2).
  exists (Z.of_nat k + 1)%Z, e. split_and!; [done|done|done|done| |].
  - intros order Ho. rewrite HLI in Hm2. rewrite <- Hl2 in HLI.
    assert (Log.LastIndex (log (st L)) = Z.of_nat k) as Hk by done.
    destruct (round_quorum L L2 cl _ order Hsd Hm2 HLI ltac:(lia) Ho) as (Hmax & Hlen & Hrep).
    rewrite (commit_median order L2 (Z.of_nat k + 1)%Z Hmax); [done|lia|..].
    + rewrite Hc2. pose proof (sd_commit _ _ Hsd) as Hci. simpl. lia.
    + rewrite Hl2, Ht2. unfold Log.Get in Hget. unfold Log.TermAt.
      destruct (Log.out_of_range _ _) eqn:Eo; [done|]. by rewrite Hget.
  - intros p Hp Hr. destruct (HF2 p Hp Hr) as (F & HF & HlF). exists F. split; [done|]. by rewrite HlF.
Qed.

(** Node a has won the first election; b is reachable, c is not. *)
Definition steady_leader : Node :=
  let n := NewNode "a" ["b"; "c"] demo_cfg in
  set_st (BecomeLeader "a" ["b"; "c"] (BecomeCandidate (st n)).2) n.

Definition steady_cluster : Cluster :=
  mkCluster {[ "b" := NewNode "b" ["a"; "c"] demo_cfg ]} 0 7.

Lemma steady_demo : steady steady_leader steady_cluster.
Proof.
  split.
  - reflexivity.
  - intros i e He. done.
  - vm_compute. reflexivity.
  - by apply (bool_decide_unpack _); vm_compute.
  - vm_compute. reflexivity.
  - intros p i Hi.
    change (matchIndex (st steady_leader)) with (<["c" := 0%Z]> (<["b" := 0%Z]> (∅ : gmap string Z))) in Hi.
    apply lookup_insert_Some in Hi as [[_ <-]|[_ Hi]]; [done|].
    apply lookup_insert_Some in Hi as [[_ <-]|[_ Hi]]; [done|]. by rewrite lookup_empty in Hi.
  - vm_compute. discriminate.
  - intros p [->|[->|[]%elem_of_nil]%elem_of_cons]%elem_of_cons; reflexivity.
  - intros p [->|[->|[]%elem_of_nil]%elem_of_cons]%elem_of_cons Hr.
    + eexists. split; [reflexivity|]. split_and!;
        [exact demo_cfg_good|exact demo_rand_good|vm_compute; discriminate|reflexivity].
    + destruct Hr as [F HF]. vm_compute in HF. discriminate.
Qed.

Lemma proposal_commits_in_one_round_witness :
  let '(r, L1) := Propose "x" steady_leader in
  let '(L2, cl2) := send_heartbeats (currentTerm (st L1)) 0 (peers L1) L1 steady_cluster in
  r = Ok 1%Z ∧
  commitIndex (st (updateCommitIndex (map_to_list (matchIndex (st L2))).*2 L2)) = 1%Z.
Proof.
  pose proof (proposal_commits_in_one_round "x" steady_leader steady_cluster 0 steady_demo
                ltac:(vm_compute; lia)) as H.
  destruct (Propose "x" steady_leader) as [r L1].
  destruct (send_heartbeats (currentTerm (st L1)) 0 (peers L1) L1 steady_cluster) as [L2 cl2].
  destruct H as (i & e & Hr & Hi & _ & _ & Hc & _).
  rewrite Hr, (Hc _ (Permutation_refl _)), Hi. split; vm_compute; reflexivity.
Defined.
