(* ===== verification/Sessions.v ===== *)
(** * Client sessions (internal/session/manager.go)

    Every method of the session manager holds its mutex for its whole body and
    is one function here.  Clock readings are arguments, in the order the code
    takes them; a new UUID is an argument.  The onExpire callback is called
    synchronously by Close and started as a goroutine by checkExpirations: the
    functions return the sessions it is applied to. *)

From S2P Require Import Prelude.

Module Session.

Record Session := mkSession {
  ID : string;
  ClientID : string;
  CreatedAt : Z;
  LastHeartbeat : Z;
  TTL : Z;
  EphemeralKeys : list string
}.

(** time.Since(t) at clock [now]: a Duration, saturating at the int64 range. *)
Definition Since (now t : Z) : Z :=
  Z.max (- 2 ^ 63) (Z.min (2 ^ 63 - 1) (now - t)).

Definition IsExpired (now : Z) (s : Session) : bool := (TTL s <? Since now (LastHeartbeat s))%Z.

(** [onExpire] says whether the callback is set. *)
Record Manager := mkManager {
  sessions : gmap string Session;
  defaultTTL : Z;
  maxTTL : Z;
  onExpire : bool
}.

Definition set_sessions (ss : gmap string Session) (m : Manager) : Manager :=
  mkManager ss (defaultTTL m) (maxTTL m) (onExpire m).

Definition NewManager (dflt max : Z) : Manager := mkManager ∅ dflt max false.

Definition SetOnExpire (m : Manager) : Manager :=
  mkManager (sessions m) (defaultTTL m) (maxTTL m) true.

(** The TTL a request gets. *)
Definition validate_ttl (ttl : Z) (m : Manager) : Z :=
  let ttl := if (ttl <=? 0)%Z then defaultTTL m else ttl in
  if (maxTTL m <? ttl)%Z then maxTTL m else ttl.

Definition Create (clientID : string) (ttl : Z) (uuid : string) (now1 now2 : Z) (m : Manager)
  : Session * Manager :=
  let session := mkSession uuid clientID now1 now2 (validate_ttl ttl m) [] in
  (session, set_sessions (<[ID session := session]> (sessions m)) m).

Definition Get (sessionID : string) (m : Manager) : option Session := sessions m !! sessionID.

(** session.LastHeartbeat = time.Now() *)
Definition touch (now : Z) (s : Session) : Session :=
  mkSession (ID s) (ClientID s) (CreatedAt s) now (TTL s) (EphemeralKeys s).

Definition Heartbeat (sessionID : string) (now1 now2 : Z) (m : Manager) : bool * Manager :=
  match sessions m !! sessionID with
  | None => (false, m)
  | Some session =>
      if IsExpired now1 session
      then (false, set_sessions (delete sessionID (sessions m)) m)
      else (true, set_sessions (<[sessionID := touch now2 session]> (sessions m)) m)
  end.

(** Close returns the sessions onExpire was called with. *)
Definition Close (sessionID : string) (m : Manager) : bool * Manager * list Session :=
  match sessions m !! sessionID with
  | None => (false, m, [])
  | Some session =>
      (true, set_sessions (delete sessionID (sessions m)) m,
       if onExpire m then [session] else [])
  end.

Definition set_keys (ks : list string) (s : Session) : Session :=
  mkSession (ID s) (ClientID s) (CreatedAt s) (LastHeartbeat s) (TTL s) ks.

Definition RegisterEphemeral (sessionID key : string) (m : Manager) : bool * Manager :=
  match sessions m !! sessionID with
  | None => (false, m)
  | Some s =>
      (true, set_sessions (<[sessionID := set_keys (EphemeralKeys s ++ [key]) s]> (sessions m)) m)
  end.

Definition UnregisterEphemeral (sessionID key : string) (m : Manager) : bool * Manager :=
  match sessions m !! sessionID with
  | None => (false, m)
  | Some s =>
      if decide (key ∈ EphemeralKeys s) then
        (true, set_sessions
                 (<[sessionID := set_keys (remove_first key (EphemeralKeys s)) s]> (sessions m)) m)
      else (false, m)
  end.

(** One iteration of the loop of checkExpirations, for the key [id]; [clock]
    gives the reading taken when the loop reaches it. *)
Definition check_one (clock : string → Z) (acc : Manager * list Session) (id : string)
  : Manager * list Session :=
  let '(m, started) := acc in
  match sessions m !! id with
  | None => (m, started)
  | Some session =>
      if IsExpired (clock id) session
      then (set_sessions (delete id (sessions m)) m,
            started ++ (if onExpire m then [session] else []))
      else (m, started)
  end.

(** checkExpirations; [order] is the iteration order of the map. *)
Definition checkExpirations (order : list string) (clock : string → Z) (m : Manager)
  : Manager * list Session :=
  foldl (check_one clock) (m, []) order.

Definition Count (m : Manager) : Z := Z.of_nat (size (sessions m)).

(** All; the order of the result is the map iteration order. *)
Definition All (order : list string) (m : Manager) : list Session :=
  omap (λ id, sessions m !! id) order.

(** ** HeartbeatClient: the client-side keepalive loop

    [calls] records the heartbeat function calls; stopCh is closed by Stop. *)
Record HeartbeatClient := mkHeartbeatClient {
  hc_sessionID : string;
  hc_interval : Z;
  hc_stopped : bool;
  hc_calls : list string
}.

Definition NewHeartbeatClient (sessionID : string) (interval : Z) : HeartbeatClient :=
  mkHeartbeatClient sessionID interval false [].

(** close(h.stopCh): closing twice panics. *)
Definition hc_Stop (h : HeartbeatClient) : option HeartbeatClient :=
  if hc_stopped h then None
  else Some (mkHeartbeatClient (hc_sessionID h) (hc_interval h) true (hc_calls h)).

(** One iteration of run when the ticker fires: the loop has returned if the
    stop channel was seen closed; an error of the heartbeat is only logged. *)
Definition hc_tick (h : HeartbeatClient) : HeartbeatClient :=
  if hc_stopped h then h
  else mkHeartbeatClient (hc_sessionID h) (hc_interval h) false (hc_calls h ++ [hc_sessionID h]).

End Session.

Import Session.

Definition session_order (order : list string) (m : Manager) : Prop :=
  order ≡ₚ (map_to_list (sessions m)).*1.

(** Every session is stored under its own id. *)
Definition wf_sessions (m : Manager) : Prop :=
  ∀ i s, sessions m !! i = Some s → ID s = i.

(** ** Creation *)

(** A new session gets a usable lifetime: with positive defaults the TTL is
    positive and at most maxTTL, it is the requested one when that lies in
    between, and the session is stored under its id with no keys. *)
Theorem create_session_ttl c ttl uuid t1 t2 m :
  (0 < defaultTTL m)%Z → (0 < maxTTL m)%Z →
  let '(s, m') := Create c ttl uuid t1 t2 m in
  (0 < TTL s ≤ maxTTL m)%Z ∧ ((0 < ttl ≤ maxTTL m)%Z → TTL s = ttl) ∧
  Get uuid m' = Some s ∧ ClientID s = c ∧ EphemeralKeys s = [] ∧
  ∀ i, i ≠ uuid → Get i m' = Get i m.
Proof.
  intros Hd Hm. simpl. unfold validate_ttl, Get. simpl. rewrite lookup_insert_eq.
  destruct (Z.leb_spec ttl 0).
  - destruct (Z.ltb_spec (maxTTL m) (defaultTTL m)); split_and!; try done; try lia;
      intros i Hi; by rewrite lookup_insert_ne.
  - destruct (Z.ltb_spec (maxTTL m) ttl); split_and!; try done; try lia;
      intros i Hi; by rewrite lookup_insert_ne.
Qed.

Definition demo_mgr : Manager := SetOnExpire (NewManager 10000000000 60000000000).

Lemma create_session_ttl_witness :
  TTL (Create "cli" 90000000000 "u" 0 0 demo_mgr).1 = 60000000000%Z ∧
  (0 < TTL (Create "cli" 90000000000 "u" 0 0 demo_mgr).1)%Z.
Proof.
  split; [reflexivity|].
  pose proof (create_session_ttl "cli" 90000000000 "u" 0 0 demo_mgr
                ltac:(simpl; lia) ltac:(simpl; lia)) as H.
  destruct H as ((H & _) & _). exact H.
Defined.

(** ** Expiry *)

(** The session at [i] if it is expired when the loop reads the clock. *)
Definition expired_at (clock : string → Z) (m : Manager) (i : string) : option Session :=
  match sessions m !! i with
  | Some s => if IsExpired (clock i) s then Some s else None
  | None => None
  end.

Lemma check_one_eq clock m st j :
  check_one clock (m, st) j =
  match expired_at clock m j with
  | Some s => (set_sessions (delete j (sessions m)) m, st ++ (if onExpire m then [s] else []))
  | None => (m, st)
  end.
Proof. unfold check_one, expired_at. by repeat case_match. Qed.

Lemma expired_at_delete clock m j i :
  i ≠ j → expired_at clock (set_sessions (delete j (sessions m)) m) i = expired_at clock m i.
Proof. intros. unfold expired_at. simpl. by rewrite lookup_delete_ne. Qed.

Lemma omap_ext_elem {A B} (f g : A → option B) (l : list A) :
  (∀ x, x ∈ l → f x = g x) → omap f l = omap g l.
Proof.
  induction l as [|x l IH]; intros H; [done|]. simpl.
  rewrite H by (by left).
  destruct (g x); [f_equal|]; apply IH; intros y Hy; apply H; by right.
Qed.

Lemma omap_fmap {A B C} (f : B → option C) (g : A → B) (l : list A) :
  omap f (g <$> l) = omap (f ∘ g) l.
Proof. induction l as [|x l IH]; [done|].
  rewrite fmap_cons. cbn [omap list_omap]. unfold compose at 1.
  by destruct (f (g x)); [f_equal|].
Qed.

Lemma check_fold order clock m started :
  NoDup order →
  let '(m', started') := foldl (check_one clock) (m, started) order in
  defaultTTL m' = defaultTTL m ∧ maxTTL m' = maxTTL m ∧ onExpire m' = onExpire m ∧
  (∀ i, sessions m' !! i =
     if decide (i ∈ order ∧ is_Some (expired_at clock m i)) then None else sessions m !! i) ∧
  started' = started ++ (if onExpire m then omap (expired_at clock m) order else []).
Proof.
  revert m started. induction order as [|j order IH]; intros m started Hnd.
  { cbn [foldl]. split_and!; [done|done|done| |by destruct (onExpire m); rewrite app_nil_r].
    intros i. rewrite decide_False; [done|]. by intros [?%elem_of_nil _]. }
  apply NoDup_cons in Hnd as [Hj Hnd]. cbn [foldl]. rewrite check_one_eq.
  destruct (expired_at clock m j) as [s|] eqn:E.
  - specialize (IH (set_sessions (delete j (sessions m)) m)
                  (started ++ (if onExpire m then [s] else [])) Hnd).
    destruct (foldl _ _ _) as [m' st']. destruct IH as (Hd & Hm & Ho & Hs & ->).
    split_and!; try done.
    + intros i. rewrite Hs. destruct (decide (i = j)) as [->|Hne].
      * simpl. rewrite lookup_delete_eq. rewrite (decide_True (P := j ∈ j :: order ∧ _)).
        { by case_decide. }
        split; [by left|by rewrite E].
      * rewrite expired_at_delete by done. simpl. rewrite lookup_delete_ne by done.
        apply decide_ext. rewrite elem_of_cons. naive_solver.
    + simpl. destruct (onExpire m); rewrite <- (assoc_L (++)); [|done]. simpl. rewrite E.
      do 2 f_equal. apply omap_ext_elem. intros i Hi. apply expired_at_delete. by intros ->.
  - specialize (IH m started Hnd). destruct (foldl _ _ _) as [m' st'].
    destruct IH as (Hd & Hm & Ho & Hs & ->). split_and!; try done.
    + intros i. rewrite Hs. apply decide_ext. rewrite elem_of_cons. split; [naive_solver|].
      intros [[->|?] Hx]; [rewrite E in Hx; by destruct Hx|done].
    + simpl. by rewrite E.
Qed.

(** checkExpirations removes exactly the sessions whose last heartbeat is
    more than their TTL ago and keeps all others unchanged, and it starts the
    expiry callback exactly once for each session it removes; neither depends
    on the map iteration order. *)
Theorem check_expirations_exact order clock m :
  session_order order m → onExpire m = true →
  let '(m', started) := checkExpirations order clock m in
  (∀ i, Get i m' = match Get i m with
                   | Some s => if IsExpired (clock i) s then None else Some s
                   | None => None
                   end) ∧
  started ≡ₚ omap (λ '(i, s), if IsExpired (clock i) s then Some s else None)
               (map_to_list (sessions m)).
Proof.
  intros Ho He. unfold checkExpirations.
  assert (NoDup order) as Hnd by (rewrite Ho; apply NoDup_fst_map_to_list).
  pose proof (check_fold order clock m [] Hnd) as H.
  destruct (foldl _ _ _) as [m' started]. destruct H as (_ & _ & _ & Hs & ->).
  rewrite He. split.
  - intros i. unfold Get. rewrite Hs. unfold expired_at.
    destruct (sessions m !! i) as [s|] eqn:E; [|by case_decide].
    assert (i ∈ order) as Hi.
    { rewrite Ho. apply list_elem_of_fmap. exists (i, s). split; [done|].
      by apply elem_of_map_to_list. }
    destruct (IsExpired (clock i) s); [by rewrite decide_True|].
    rewrite decide_False; [done|]. intros [_ [? ?]]. done.
  - simpl. rewrite Ho. clear. rewrite omap_fmap.
    erewrite omap_ext_elem; [reflexivity|].
    intros [i s] Hin%elem_of_map_to_list. simpl. unfold expired_at. by rewrite Hin.
Qed.

(** Two sessions at time 12 s: u1 was created at 0 with TTL 10 s, u2 at 5 s. *)
Definition demo_two : Manager :=
  (Create "c2" 0 "u2" 5000000000 5000000000 (Create "c1" 0 "u1" 0 0 demo_mgr).2).2.

Lemma check_expirations_exact_witness :
  Get "u1" (checkExpirations ["u2"; "u1"] (λ _, 12000000000%Z) demo_two).1 = None ∧
  Get "u2" (checkExpirations ["u2"; "u1"] (λ _, 12000000000%Z) demo_two).1 = Get "u2" demo_two.
Proof.
  assert (session_order ["u2"; "u1"] demo_two) as Ho.
  { unfold session_order. apply NoDup_Permutation.
    - by apply (bool_decide_unpack _); vm_compute.
    - apply NoDup_fst_map_to_list.
    - intros x. vm_compute map_to_list. simpl. set_solver. }
  pose proof (check_expirations_exact ["u2"; "u1"] (λ _, 12000000000%Z) demo_two Ho eq_refl) as H.
  destruct (checkExpirations _ _ _) as [m' started]. destruct H as [H _]. simpl.
  split; [rewrite (H "u1")|rewrite (H "u2")]; vm_compute; reflexivity.
Defined.

(** ** Heartbeats *)

Lemma Since_range now t :
  (- 2 ^ 63 ≤ now - t < 2 ^ 63)%Z → Since now t = (now - t)%Z.
Proof. unfold Since. lia. Qed.

(** Heartbeat answers true exactly for a stored session whose lifetime has
    not run out; it then moves only that session's last heartbeat to the new
    reading, so that the session expires again more than its TTL later.  On
    every other input it answers false, and the only change it can make is to
    remove that expired session. *)
Theorem heartbeat_correct i t1 t2 m :
  let '(ok, m') := Heartbeat i t1 t2 m in
  (ok = true ↔ ∃ s, Get i m = Some s ∧ IsExpired t1 s = false) ∧
  (∀ j, j ≠ i → Get j m' = Get j m) ∧
  (ok = true → ∃ s s', Get i m = Some s ∧ Get i m' = Some s' ∧ ID s' = ID s ∧ TTL s' = TTL s ∧
     EphemeralKeys s' = EphemeralKeys s ∧
     ∀ t, (- 2 ^ 63 ≤ t - t2 < 2 ^ 63)%Z → IsExpired t s' = true ↔ (t2 + TTL s < t)%Z) ∧
  (ok = false → Get i m' = None).
Proof.
  unfold Heartbeat, Get. destruct (sessions m !! i) as [s|] eqn:E.
  2: { split_and!; naive_solver. }
  destruct (IsExpired t1 s) eqn:X; simpl.
  - split_and!; [naive_solver| |done|by intros _; rewrite lookup_delete_eq].
    intros j Hj. by rewrite lookup_delete_ne.
  - split_and!; [naive_solver| | |done].
    { intros j Hj. by rewrite lookup_insert_ne. }
    intros _. exists s, (touch t2 s). rewrite lookup_insert_eq. split_and!; try done.
    intros t Ht. unfold IsExpired, touch. simpl. rewrite Since_range by lia.
    rewrite Z.ltb_lt. lia.
Qed.

Lemma heartbeat_correct_witness :
  (Heartbeat "u1" 9000000000 9000000000 demo_two).1 = true ∧
  (∃ s s', Get "u1" demo_two = Some s ∧
           Get "u1" (Heartbeat "u1" 9000000000 9000000000 demo_two).2 = Some s' ∧ TTL s' = TTL s).
Proof.
  split; [vm_compute; reflexivity|].
  pose proof (heartbeat_correct "u1" 9000000000 9000000000 demo_two) as H.
  destruct (Heartbeat "u1" 9000000000 9000000000 demo_two) as [ok m'] eqn:E.
  destruct H as (_ & _ & H & _). destruct ok; [|vm_compute in E; discriminate].
  destruct (H eq_refl) as (s & s' & H1 & H2 & _ & H3 & _).
  exists s, s'. split; [exact H1|]. split; [exact H2|exact H3].
Defined.

(** ** Histories *)

Inductive op :=
| OCreate (clientID : string) (ttl : Z) (uuid : string) (now1 now2 : Z)
| OHeartbeat (sessionID : string) (now1 now2 : Z)
| OClose (sessionID : string)
| ORegister (sessionID key : string)
| OUnregister (sessionID key : string)
| OCheck (order : list string) (clock : string → Z).

(** What an operation did to the set of sessions: the ids it created, the
    sessions handed to onExpire, the ids dropped without a callback. *)
Record effect := mkEffect { created : list string; expired : list Session; dropped : list string }.

Definition exec (o : op) (m : Manager) : Manager * effect :=
  match o with
  | OCreate c ttl u t1 t2 => ((Create c ttl u t1 t2 m).2, mkEffect [u] [] [])
  | OHeartbeat i t1 t2 =>
      let '(ok, m') := Heartbeat i t1 t2 m in
      (m', mkEffect [] [] (if ok then [] else if decide (is_Some (Get i m)) then [i] else []))
  | OClose i => let '(_, m', e) := Close i m in (m', mkEffect [] e [])
  | ORegister i k => ((RegisterEphemeral i k m).2, mkEffect [] [] [])
  | OUnregister i k => ((UnregisterEphemeral i k m).2, mkEffect [] [] [])
  | OCheck order clock => let '(m', e) := checkExpirations order clock m in (m', mkEffect [] e [])
  end.

Definition app_effect (a b : effect) : effect :=
  mkEffect (created a ++ created b) (expired a ++ expired b) (dropped a ++ dropped b).

Fixpoint run (os : list op) (m : Manager) : Manager * effect :=
  match os with
  | [] => (m, mkEffect [] [] [])
  | o :: os =>
      let '(m', e) := exec o m in
      let '(m'', e') := run os m' in
      (m'', app_effect e e')
  end.

(** The ids of the live sessions. *)
Definition live (m : Manager) : list string := (map_to_list (sessions m)).*1.

Lemma live_delete i m s :
  sessions m !! i = Some s → live m ≡ₚ i :: live (set_sessions (delete i (sessions m)) m).
Proof.
  intros H. unfold live. simpl. rewrite <- (map_to_list_delete _ _ _ H). done.
Qed.

Lemma live_insert_new i s m :
  sessions m !! i = None → live (set_sessions (<[i:=s]> (sessions m)) m) ≡ₚ i :: live m.
Proof. intros H. unfold live. simpl. by rewrite map_to_list_insert. Qed.

Lemma live_insert_old i s s' m :
  sessions m !! i = Some s → live (set_sessions (<[i:=s']> (sessions m)) m) ≡ₚ live m.
Proof.
  intros H. unfold live. simpl. rewrite <- insert_delete_eq, map_to_list_insert
    by apply lookup_delete_eq.
  rewrite <- (map_to_list_delete _ _ _ H). done.
Qed.

Lemma elem_of_live i m : i ∈ live m ↔ is_Some (sessions m !! i).
Proof.
  unfold live. rewrite list_elem_of_fmap. split.
  - intros ([j s] & -> & H%elem_of_map_to_list). by exists s.
  - intros [s H]. exists (i, s). split; [done|]. by apply elem_of_map_to_list.
Qed.

(** The balance of a step: what was live or created is live, expired with a
    callback, or dropped. *)
Definition balanced (m : Manager) (cr : list string) (m' : Manager)
    (ex : list Session) (dr : list string) : Prop :=
  live m ++ cr ≡ₚ live m' ++ (ID <$> ex) ++ dr.

Lemma wf_insert i s m :
  wf_sessions m → ID s = i → wf_sessions (set_sessions (<[i:=s]> (sessions m)) m).
Proof.
  intros Hwf Hi j s'. simpl. destruct (decide (j = i)) as [->|].
  - rewrite lookup_insert_eq. by intros [= <-].
  - rewrite lookup_insert_ne by done. apply Hwf.
Qed.

Lemma wf_delete i m : wf_sessions m → wf_sessions (set_sessions (delete i (sessions m)) m).
Proof. intros Hwf j s. simpl. rewrite lookup_delete_Some. intros [_ H]. by apply Hwf. Qed.

#[export] Hint Resolve wf_insert wf_delete : sky.

Lemma check_balanced order clock m st :
  wf_sessions m → onExpire m = true →
  let '(m', st') := foldl (check_one clock) (m, st) order in
  wf_sessions m' ∧ onExpire m' = true ∧ live m ++ (ID <$> st) ≡ₚ live m' ++ (ID <$> st').
Proof.
  revert m st. induction order as [|j order IH]; intros m st Hwf He; [done|].
  cbn [foldl check_one]. destruct (sessions m !! j) as [s|] eqn:E; [|by apply IH].
  destruct (IsExpired (clock j) s); [|by apply IH]. rewrite He.
  specialize (IH (set_sessions (delete j (sessions m)) m) (st ++ [s])
                (wf_delete _ _ Hwf) He).
  destruct (foldl _ _ _) as [m' st']. destruct IH as (H1 & H2 & H3). split_and!; try done.
  rewrite <- H3, (live_delete _ _ _ E), fmap_app. simpl. rewrite (Hwf _ _ E).
  by rewrite (assoc_L (++)), <- (Permutation_cons_append (_ ++ _)).
Qed.

Lemma exec_balanced o m :
  wf_sessions m → onExpire m = true →
  let '(m', e) := exec o m in
  (∀ i, i ∈ created e → i ∉ live m) →
  wf_sessions m' ∧ onExpire m' = true ∧ balanced m (created e) m' (expired e) (dropped e).
Proof.
  unfold balanced. intros Hwf He.
  destruct o as [c ttl u t1 t2|i t1 t2|i|i k|i k|order clock]; simpl.
  - intros Hfr. assert (sessions m !! u = None) as Hu.
    { apply eq_None_not_Some. rewrite <- elem_of_live. apply Hfr. by left. }
    split_and!; [by apply wf_insert|done|].
    rewrite live_insert_new by done. simpl. by rewrite app_nil_r, <- Permutation_cons_append.
  - unfold Heartbeat, Get. destruct (sessions m !! i) as [s|] eqn:E; simpl.
    2: { intros _. split_and!; try done. }
    destruct (IsExpired t1 s); simpl; intros _; split_and!; auto with sky.
    + by rewrite app_nil_r, (live_delete _ _ _ E), <- Permutation_cons_append.
    + exact (wf_insert _ (touch _ s) _ Hwf (Hwf _ _ E)).
    + by rewrite (live_insert_old _ _ _ _ E).
  - unfold Close. destruct (sessions m !! i) as [s|] eqn:E; simpl; [rewrite He|]; intros _;
      split_and!; auto with sky; simpl.
    by rewrite !app_nil_r, (live_delete _ _ _ E), (Hwf _ _ E), <- Permutation_cons_append.
  - unfold RegisterEphemeral. destruct (sessions m !! i) as [s|] eqn:E; simpl; intros _;
      split_and!; auto with sky; [exact (wf_insert _ (set_keys _ s) _ Hwf (Hwf _ _ E))|by rewrite (live_insert_old _ _ _ _ E)].
  - unfold UnregisterEphemeral. destruct (sessions m !! i) as [s|] eqn:E; simpl;
      [case_decide; simpl|]; intros _;
      split_and!; auto with sky; [exact (wf_insert _ (set_keys _ s) _ Hwf (Hwf _ _ E))|by rewrite (live_insert_old _ _ _ _ E)].
  - unfold checkExpirations. pose proof (check_balanced order clock m [] Hwf He) as H.
    destruct (foldl _ _ _) as [m' e]. destruct H as (H1 & H2 & H3). intros _.
    split_and!; try done. simpl. by rewrite (right_id_L [] (++) (ID <$> e)).
Qed.

Lemma run_balanced os m :
  wf_sessions m → onExpire m = true →
  let '(m', e) := run os m in
  NoDup (live m ++ created e) →
  wf_sessions m' ∧ balanced m (created e) m' (expired e) (dropped e).
Proof.
  revert m. induction os as [|o os IH]; intros m Hwf He.
  { simpl. intros _. split; [done|]. unfold balanced. simpl. done. }
  cbn [run].
  pose proof (exec_balanced o m Hwf He) as Ho. destruct (exec o m) as [m1 e1].
  specialize (IH m1). destruct (run os m1) as [m2 e2]. cbn [created expired dropped app_effect].
  rewrite (assoc_L (++)). intros Hnd.
  destruct Ho as (W1 & E1 & B1).
  { intros i Hi Hl. apply NoDup_app in Hnd as (Hnd & _). apply NoDup_app in Hnd as (_ & Hd & _).
    by apply (Hd i). }
  unfold balanced in *. destruct IH as (W2 & B2); [done|done| |].
  { rewrite B1 in Hnd. rewrite <- !(assoc_L (++)) in Hnd.
    apply NoDup_app in Hnd as (N1 & D1 & N2). apply NoDup_app in N2 as (_ & _ & N2).
    apply NoDup_app in N2 as (_ & _ & N2).
    apply NoDup_app. split_and!; [done| |done].
    intros i Hi Hc. apply (D1 i Hi). set_solver. }
  split; [done|]. rewrite (assoc_L (++)), B1, fmap_app.
  rewrite (comm (++) (live m1)), <- (assoc_L (++)), B2. solve_Permutation.
Qed.

(** C7. Every session is accounted for: when each generated id is used once, the
    ids created over a history are, each exactly once, either still live,
    handed to the expiry callback, or dropped by a late heartbeat.  So no
    session expires twice and none disappears unnoticed otherwise. *)
Theorem session_accounting os dflt max :
  let '(m, e) := run os (SetOnExpire (NewManager dflt max)) in
  NoDup (created e) →
  created e ≡ₚ live m ++ (ID <$> expired e) ++ dropped e ∧
  NoDup (live m ++ (ID <$> expired e) ++ dropped e).
Proof.
  pose proof (run_balanced os (SetOnExpire (NewManager dflt max))) as H.
  destruct (run os _) as [m e].
  assert (live (SetOnExpire (NewManager dflt max)) = []) as L.
  { unfold live. simpl. by rewrite map_to_list_empty. }
  intros Hnd. unfold balanced in H. rewrite L in H.
  destruct H as (_ & B); [|done|done|]. { intros i s. simpl. by rewrite lookup_empty. }
  simpl in B. split; [done|]. by rewrite <- B.
Qed.

(** Three sessions: u1 expires, u2 is closed, u3 beats too late. *)
Definition demo_ops : list op :=
  [OCreate "c" 0 "u1" 0 0; OCreate "c" 0 "u2" 0 0; OCheck ["u1"] (λ _, 11000000000%Z);
   OClose "u2"; OCreate "c" 0 "u3" 0 0; OHeartbeat "u3" 20000000000 20000000000].

Lemma session_accounting_witness :
  (ID <$> expired (run demo_ops demo_mgr).2) = ["u1"; "u2"] ∧
  ["u1"; "u2"; "u3"] ≡ₚ live (run demo_ops demo_mgr).1 ++ ["u1"; "u2"] ++ ["u3"].
Proof.
  split; [vm_compute; reflexivity|].
  pose proof (session_accounting demo_ops 10000000000 60000000000) as H.
  destruct (run demo_ops (SetOnExpire (NewManager 10000000000 60000000000))) as [m e] eqn:E.
  assert (created e = ["u1"; "u2"; "u3"]) as C by (vm_compute in E; by injection E as <- <-).
  assert (ID <$> expired e = ["u1"; "u2"]) as X by (vm_compute in E; by injection E as <- <-).
  assert (dropped e = ["u3"]) as D by (vm_compute in E; by injection E as <- <-).
  unfold demo_mgr. rewrite E. rewrite C, X, D in H. apply H.
  by apply (bool_decide_unpack _); vm_compute.
Defined.

(** The history keeps session [i] alive: each reading taken for it is at most
    [ttl] after its last heartbeat, which the heartbeats move on, and nobody
    closes it or reuses its id. *)
Fixpoint kept (i : string) (ttl last : Z) (os : list op) : Prop :=
  match os with
  | [] => True
  | OCreate _ _ u _ _ :: os => u ≠ i ∧ kept i ttl last os
  | OHeartbeat j t1 t2 :: os =>
      if decide (j = i) then (Since t1 last ≤ ttl)%Z ∧ kept i ttl t2 os else kept i ttl last os
  | OClose j :: os => j ≠ i ∧ kept i ttl last os
  | OCheck _ clock :: os => (Since (clock i) last ≤ ttl)%Z ∧ kept i ttl last os
  | _ :: os => kept i ttl last os
  end.

(** What stays of a session while it lives. *)
Definition same_session (i : string) (ttl last : Z) (m : Manager) : Prop :=
  ∃ s, sessions m !! i = Some s ∧ TTL s = ttl ∧ LastHeartbeat s = last.

Lemma same_insert_ne i j ttl last s m :
  j ≠ i → same_session i ttl last m →
  same_session i ttl last (set_sessions (<[j:=s]> (sessions m)) m).
Proof. intros ? (s' & ? & ?). exists s'. simpl. by rewrite lookup_insert_ne. Qed.

Lemma same_delete_ne i j ttl last m :
  j ≠ i → same_session i ttl last m →
  same_session i ttl last (set_sessions (delete j (sessions m)) m).
Proof. intros ? (s' & ? & ?). exists s'. simpl. by rewrite lookup_delete_ne. Qed.

Lemma same_set_keys i j ttl last s ks m :
  sessions m !! j = Some s → same_session i ttl last m →
  same_session i ttl last (set_sessions (<[j:=set_keys ks s]> (sessions m)) m).
Proof.
  intros Hj H. destruct (decide (j = i)) as [->|]; [|by apply same_insert_ne].
  destruct H as (s' & E & ? & ?). simplify_eq. exists (set_keys ks s). simpl.
  by rewrite lookup_insert_eq.
Qed.

#[export] Hint Resolve same_insert_ne same_delete_ne same_set_keys : sky.

Lemma same_check i ttl last order clock m st :
  (Since (clock i) last ≤ ttl)%Z → same_session i ttl last m → wf_sessions m →
  i ∉ ID <$> st →
  let '(m', st') := foldl (check_one clock) (m, st) order in
  same_session i ttl last m' ∧ wf_sessions m' ∧ i ∉ ID <$> st'.
Proof.
  intros Ht. revert m st. induction order as [|j order IH]; intros m st Hs Hwf Hst; [done|].
  cbn [foldl check_one]. destruct (sessions m !! j) as [s|] eqn:E; [|by apply IH].
  destruct (IsExpired (clock j) s) eqn:X; [|by apply IH].
  assert (j ≠ i) as Hne.
  { intros ->. destruct Hs as (s' & E' & HT & HL). simplify_eq.
    unfold IsExpired in X. apply Z.ltb_lt in X. lia. }
  apply IH; auto with sky. destruct (onExpire m); [|by rewrite app_nil_r].
  rewrite fmap_app, elem_of_app. simpl. rewrite (Hwf _ _ E). set_solver.
Qed.

Lemma kept_step i ttl last o os m :
  same_session i ttl last m → wf_sessions m → kept i ttl last (o :: os) →
  let '(m', e) := exec o m in
  wf_sessions m' ∧ i ∉ ID <$> expired e ∧ i ∉ dropped e ∧
  ∃ last', same_session i ttl last' m' ∧ kept i ttl last' os.
Proof.
  intros Hs Hwf.
  destruct o as [c t u t1 t2|j t1 t2|j|j k|j k|order clock]; cbn [kept exec].
  - intros [Hu Hk]. split_and!; [by apply wf_insert|set_solver|set_solver|].
    exists last. split; [by apply same_insert_ne|done].
  - unfold Heartbeat, Get. destruct (decide (j = i)) as [->|Hne].
    + destruct Hs as (s & E & HT & HL). rewrite E. intros [Ht Hk].
      assert (IsExpired t1 s = false) as -> by (unfold IsExpired; rewrite HT, HL; apply Z.ltb_ge; lia).
      split_and!; [exact (wf_insert _ (touch _ s) _ Hwf (Hwf _ _ E))|set_solver|set_solver|].
      exists t2. split; [|done]. exists (touch t2 s). simpl. by rewrite lookup_insert_eq.
    + intros Hk. destruct (sessions m !! j) as [s|] eqn:E; [destruct (IsExpired t1 s)|];
        simpl; split_and!; auto with sky; try set_solver; try (exists last; auto with sky).
      exact (wf_insert _ (touch _ s) _ Hwf (Hwf _ _ E)).
  - intros [Hj Hk]. unfold Close. destruct (sessions m !! j) as [s|] eqn:E;
      simpl; split_and!; auto with sky; try set_solver; try (exists last; auto with sky).
    destruct (onExpire m); simpl; [|set_solver]. rewrite (Hwf _ _ E). set_solver.
  - intros Hk. unfold RegisterEphemeral. destruct (sessions m !! j) as [s|] eqn:E;
      simpl; split_and!; auto with sky; try set_solver; try (exists last; auto with sky).
    exact (wf_insert _ (set_keys _ s) _ Hwf (Hwf _ _ E)).
  - intros Hk. unfold UnregisterEphemeral. destruct (sessions m !! j) as [s|] eqn:E;
      [case_decide|];
      simpl; split_and!; auto with sky; try set_solver; try (exists last; auto with sky).
    exact (wf_insert _ (set_keys _ s) _ Hwf (Hwf _ _ E)).
  - intros [Ht Hk]. unfold checkExpirations.
    pose proof (same_check i ttl last order clock m [] Ht Hs Hwf) as H.
    destruct (foldl _ _ _) as [m' e]. destruct H as (H1 & H2 & H3); [set_solver|].
    split_and!; [done|done|set_solver|]. by exists last.
Qed.

(** A client that heartbeats in time keeps its session: over any history in
    which each reading taken for the session comes at most TTL after its last
    heartbeat, the session is still stored at the end, its TTL unchanged, and
    it was neither handed to the expiry callback nor dropped. *)
Theorem heartbeats_keep_session_alive os i s m :
  Get i m = Some s → wf_sessions m → kept i (TTL s) (LastHeartbeat s) os →
  let '(m', e) := run os m in
  (∃ s', Get i m' = Some s' ∧ TTL s' = TTL s) ∧ i ∉ ID <$> expired e ∧ i ∉ dropped e.
Proof.
  intros Hs Hwf. assert (same_session i (TTL s) (LastHeartbeat s) m) as HS by by exists s.
  revert HS. generalize (LastHeartbeat s) as last. generalize (TTL s) as ttl. clear Hs s.
  revert m Hwf. induction os as [|o os IH]; intros m Hwf ttl last HS Hk.
  { destruct HS as (s & ? & ? & ?). simpl. split_and!; [by exists s|set_solver|set_solver]. }
  cbn [run]. pose proof (kept_step _ _ _ _ _ _ HS Hwf Hk) as H.
  destruct (exec o m) as [m1 e1]. destruct H as (W1 & E1 & D1 & last' & S1 & K1).
  specialize (IH m1 W1 ttl last' S1 K1). destruct (run os m1) as [m2 e2].
  destruct IH as (? & ? & ?). simpl. rewrite fmap_app. split_and!; [done|set_solver|set_solver].
Qed.

Lemma heartbeats_keep_session_alive_witness :
  let os := [OCheck ["u1"; "u2"] (λ _, 9000000000%Z); OHeartbeat "u1" 9500000000 9500000000;
             OCheck ["u1"; "u2"] (λ _, 19000000000%Z)] in
  let '(m', e) := run os demo_two in
  (∃ s', Get "u1" m' = Some s' ∧ TTL s' = 10000000000%Z) ∧ "u1" ∉ ID <$> expired e ∧
  Get "u2" m' = None.
Proof.
  intros os. destruct (Get "u1" demo_two) as [s|] eqn:E; [|vm_compute in E; discriminate].
  pose proof (heartbeats_keep_session_alive os "u1" s demo_two E) as H.
  assert (wf_sessions demo_two) as W.
  { unfold demo_two. apply wf_insert; [|reflexivity]. apply wf_insert; [|reflexivity].
    intros i x. simpl. by rewrite lookup_empty. }
  vm_compute in E. injection E as <-. specialize (H W).
  destruct (run os demo_two) as [m' e] eqn:R.
  destruct H as (H1 & H2 & _).
  { split; [vm_compute; discriminate|]. split; [vm_compute; discriminate|].
    split; [vm_compute; discriminate|exact I]. }
  split; [exact H1|]. split; [exact H2|].
  vm_compute in R. injection R as <- <-. vm_compute. reflexivity.
Defined.
