(* ===== verification/SessionLoop.v ===== *)
(** * The goroutine that expires sessions (internal/session/manager.go, Start,
    Stop and expirationLoop; HeartbeatClient.Start)

    The manager with its stop channel and the goroutines Start has created.  A
    goroutine waits for the ticker or for the stop channel; a tick is one pass of
    checkExpirations.  When both are ready Go's select takes either. *)

From S2P Require Import Prelude Config Sessions.
Import Session.

Module Expiry.

(** The period of the ticker. *)
Definition period : Z := Config.Second.

Record Proc := mkProc {
  manager : Manager;
  stopped : bool;                (** m.stopCh is closed *)
  loops : nat                    (** expirationLoop goroutines that have not returned *)
}.

Definition NewProc (m : Manager) : Proc := mkProc m false 0.

Definition Start (p : Proc) : Proc := mkProc (manager p) (stopped p) (S (loops p)).

(** Closing the channel twice panics. *)
Definition Stop (p : Proc) : option Proc :=
  if stopped p then None else Some (mkProc (manager p) true (loops p)).

(** What the loop and the requests do to the manager; the label carries the
    sessions for which the callback was started. *)
Inductive step : Proc → list Session → Proc → Prop :=
| st_tick p order clock :
    (0 < loops p)%nat → session_order order (manager p) →
    step p (checkExpirations order clock (manager p)).2
      (mkProc (checkExpirations order clock (manager p)).1 (stopped p) (loops p))
| st_return p :
    stopped p = true → (0 < loops p)%nat →
    step p [] (mkProc (manager p) (stopped p) (loops p - 1))
| st_request p o :
    (∀ order clock, o ≠ OCheck order clock) →
    step p (expired (exec o (manager p)).2) (mkProc (exec o (manager p)).1 (stopped p) (loops p)).

(** HeartbeatClient.Start: the goroutine's ticker panics unless the interval is
    positive. *)
Definition hc_Start (h : HeartbeatClient) : option HeartbeatClient :=
  if (hc_interval h <=? 0)%Z then None else Some h.

End Expiry.
Import Expiry.

(** ** The process is a history of the manager *)

Inductive steps : Proc → list Session → Proc → Prop :=
| sts_nil p : steps p [] p
| sts_cons p a p1 b p2 : step p a p1 → steps p1 b p2 → steps p (a ++ b) p2.

Lemma run_cons o os m :
  (run (o :: os) m).1 = (run os (exec o m).1).1 ∧
  expired (run (o :: os) m).2 = expired (exec o m).2 ++ expired (run os (exec o m).1).2.
Proof. simpl. destruct (exec o m) as [m1 e]. simpl. by destruct (run os m1). Qed.

(** Whatever the goroutines and the requests do, in whatever order, is a history
    of manager operations with the same reports: what is proved of all histories
    holds of the running manager. *)
Lemma steps_history p reported p' :
  steps p reported p' →
  ∃ os, (run os (manager p)).1 = manager p' ∧ expired (run os (manager p)).2 = reported.
Proof.
  induction 1 as [p|p a p1 b p2 Hstep _ (os & Hm & He)]; [by exists []|].
  destruct Hstep as [p order clock _ _|p _ _|p o _]; simpl in *.
  - exists (OCheck order clock :: os). destruct (run_cons (OCheck order clock) os (manager p)) as [-> ->].
    simpl. destruct (checkExpirations order clock (manager p)) as [m1 e]. simpl in *. by rewrite He.
  - by exists os.
  - exists (o :: os). destruct (run_cons o os (manager p)) as [-> ->]. by rewrite He.
Qed.

(** Stop ends the loop: once it has returned, sessions are only reported by
    requests that close them. *)
Lemma stopped_loop_silent p a p' :
  step p a p' → loops p = 0%nat →
  loops p' = 0%nat ∧ ∃ o, (∀ order clock, o ≠ OCheck order clock) ∧
    a = expired (exec o (manager p)).2 ∧ manager p' = (exec o (manager p)).1.
Proof. intros [ | |p0 o Ho] Hl; [lia|lia|]. split; [done|]. by exists o. Qed.

(** ** How late a session is removed *)

(** Passes of the loop over the manager, with the reading taken for session [i]
    and the sessions reported in each. *)
Inductive passes (i : string) : Manager → list (Z * list Session) → Manager → Prop :=
| ps_nil m : passes i m [] m
| ps_cons m order clock run m' :
    session_order order m → passes i (checkExpirations order clock m).1 run m' →
    passes i m ((clock i, (checkExpirations order clock m).2) :: run) m'.

(** The readings come at most [d] apart, the first at most [d] after [t]. *)
Fixpoint paced (d t : Z) (ts : list Z) : Prop :=
  match ts with
  | [] => True
  | t' :: ts => (t' ≤ t + d)%Z ∧ paced d t' ts
  end.

(** One pass at session [i]. *)
Lemma pass_one i order clock m s :
  session_order order m → onExpire m = true → wf_sessions m → Get i m = Some s →
  let '(m', st) := checkExpirations order clock m in
  onExpire m' = true ∧ wf_sessions m' ∧
  if IsExpired (clock i) s then Get i m' = None ∧ s ∈ st
  else Get i m' = Some s ∧ s ∉ st.
Proof.
  intros Ho He Hwf Hs. unfold checkExpirations.
  assert (NoDup order) as Hnd by (rewrite Ho; apply NoDup_fst_map_to_list).
  pose proof (check_fold order clock m [] Hnd) as H.
  destruct (foldl _ _ _) as [m' st]. destruct H as (_ & _ & He' & Hm & ->). rewrite He in *.
  split; [done|]. split.
  { intros j s'. rewrite Hm. case_decide; [done|]. apply Hwf. }
  unfold Get in *. rewrite Hm.
  assert (i ∈ order) as Hi.
  { rewrite Ho. apply list_elem_of_fmap. exists (i, s). split; [done|]. by apply elem_of_map_to_list. }
  assert (expired_at clock m i = if IsExpired (clock i) s then Some s else None) as Ex
    by (unfold expired_at; by rewrite Hs).
  destruct (IsExpired (clock i) s) eqn:X.
  - rewrite decide_True by (split; [done|]; rewrite Ex; by eexists). split; [done|].
    rewrite app_nil_l. apply list_elem_of_omap. by exists i.
  - rewrite decide_False by (rewrite Ex; intros [_ [? ?]]; done). split; [done|].
    rewrite app_nil_l. intros (j & Hj & Ej)%list_elem_of_omap.
    unfold expired_at in Ej. destruct (sessions m !! j) as [s'|] eqn:Es; [|done].
    case_match; simplify_eq. assert (j = i) as -> by (rewrite <- (Hwf _ _ Es); by apply Hwf).
    congruence.
Qed.

(** A session that is gone stays away and is not reported again. *)
Lemma pass_absent i order clock m :
  session_order order m → wf_sessions m → Get i m = None →
  let '(m', st) := checkExpirations order clock m in
  wf_sessions m' ∧ Get i m' = None ∧ Forall (λ s, ID s ≠ i) st.
Proof.
  intros Ho Hwf Hn. unfold checkExpirations.
  assert (NoDup order) as Hnd by (rewrite Ho; apply NoDup_fst_map_to_list).
  pose proof (check_fold order clock m [] Hnd) as H.
  destruct (foldl _ _ _) as [m' st]. destruct H as (_ & _ & _ & Hm & ->). split_and!.
  - intros j s'. rewrite Hm. case_decide; [done|]. apply Hwf.
  - unfold Get in *. rewrite Hm. by case_decide.
  - rewrite app_nil_l. destruct (onExpire m); [|constructor].
    apply Forall_forall. intros s (j & _ & Ej)%list_elem_of_omap Hid.
    unfold expired_at in Ej. destruct (sessions m !! j) as [s'|] eqn:Es; [|done].
    case_match; simplify_eq. unfold Get in Hn. rewrite <- (Hwf _ _ Es) in Es. congruence.
Qed.

Lemma passes_absent i m run m' :
  passes i m run m' → wf_sessions m → Get i m = None →
  Get i m' = None ∧ Forall (λ x, Forall (λ s, ID s ≠ i) x.2) run.
Proof.
  induction 1 as [|m order clock run m' Ho _ IH]; [by intros; split; [|constructor]|]. intros Hwf Hn.
  pose proof (pass_absent i order clock m Ho Hwf Hn) as H.
  destruct (checkExpirations order clock m) as [m1 st]. destruct H as (Hwf1 & Hn1 & Hf).
  destruct (IH Hwf1 Hn1) as [? ?]. split; [done|]. by constructor.
Qed.

Lemma expired_iff now s :
  (- 2 ^ 63 ≤ TTL s < 2 ^ 63 - 1)%Z →
  IsExpired now s = true ↔ (LastHeartbeat s + TTL s < now)%Z.
Proof. intros Ht. unfold IsExpired, Since. rewrite Z.ltb_lt. lia. Qed.

(** C22. An expired session does not linger: if the passes of the expiration loop
    read the clock at most d apart (one second plus the delays of the machine)
    and go on past the session's deadline, its last heartbeat plus its TTL, then
    exactly one of them removes it and starts its callback, at a reading that is
    later than the deadline by at most d; until then it is stored unchanged, and
    afterwards it is gone. *)
Theorem expiry_latency i s d m run m' :
  wf_sessions m → onExpire m = true → Get i m = Some s →
  (- 2 ^ 63 ≤ TTL s < 2 ^ 63 - 1)%Z →
  passes i m run m' → paced d (LastHeartbeat s + TTL s) run.*1 →
  (∃ t, t ∈ run.*1 ∧ LastHeartbeat s + TTL s < t)%Z →
  ∃ pre t st post, run = pre ++ (t, st) :: post ∧
    (LastHeartbeat s + TTL s < t ≤ LastHeartbeat s + TTL s + d)%Z ∧ s ∈ st ∧
    Forall (λ x, x.1 ≤ LastHeartbeat s + TTL s ∧ s ∉ x.2)%Z pre ∧
    Forall (λ x, s ∉ x.2) post ∧ Get i m' = None.
Proof.
  intros Hwf He Hs Ht Hp. set (dl := (LastHeartbeat s + TTL s)%Z).
  assert (∀ t0 : Z, t0 ≤ dl → paced d t0 run.*1 → (∃ t, t ∈ run.*1 ∧ dl < t) →
    ∃ pre t st post, run = pre ++ (t, st) :: post ∧ dl < t ≤ dl + d ∧ s ∈ st ∧
      Forall (λ x, x.1 ≤ dl ∧ s ∉ x.2) pre ∧ Forall (λ x, s ∉ x.2) post ∧ Get i m' = None)%Z as Hgen.
  { revert Hwf He Hs. induction Hp as [m|m order clock run m' Ho Hp IH]; intros Hwf He Hs t0 Hle Hpc Hex.
    { destruct Hex as (t & []%elem_of_nil & _). }
    pose proof (pass_one i order clock m s Ho He Hwf Hs) as H1.
    destruct (checkExpirations order clock m) as [m1 st]. simpl in *. destruct Hpc as [Hle' Hpc].
    destruct H1 as (He1 & Hwf1 & H1). destruct (IsExpired (clock i) s) eqn:X.
    - apply expired_iff in X; [|done]. destruct H1 as [Hn Hin].
      destruct (passes_absent _ _ _ _ Hp Hwf1 Hn) as [Hg Hf].
      exists [], (clock i), st, run. split_and!; try done; [lia|].
      eapply Forall_impl; [done|]. intros x Hx Hsx. rewrite Forall_forall in Hx.
      by destruct (Hx s Hsx), (Hwf i s).
    - assert (clock i ≤ dl)%Z as Hcl.
      { apply Z.le_ngt. intros Hlt. apply (expired_iff _ _ Ht) in Hlt. congruence. }
      destruct H1 as [Hs1 Hni].
      destruct (IH Hwf1 He1 Hs1 (clock i) Hcl Hpc) as (pre & t & st' & post & -> & Hb & Hin & Hf & Hpo & Hg).
      { destruct Hex as (t & [->|Hin]%elem_of_cons & Hlt); [lia|]. by exists t. }
      exists ((clock i, st) :: pre), t, st', post. split_and!; try done; [by apply Hb..|].
      apply Forall_cons. by split; [split|]. }
  intros Hpc Hex. apply (Hgen dl); [lia|done|done].
Qed.

(** u1 of [demo_two] (deadline 10 s), looked at once a second from 9.5 s on. *)
Lemma expiry_latency_witness :
  let run := [(9500000000%Z, []); (10500000000%Z, [mkSession "u1" "c1" 0 0 10000000000 []])] in
  ∃ m', passes "u1" demo_two run m' ∧ Get "u1" m' = None.
Proof.
  intros run.
  assert (passes "u1" demo_two run
    (checkExpirations ["u2"; "u1"] (λ _, 10500000000%Z) demo_two).1) as Hp.
  { assert (session_order ["u2"; "u1"] demo_two) as Ho.
    { unfold session_order. apply NoDup_Permutation.
      - by apply (bool_decide_unpack _); vm_compute.
      - apply NoDup_fst_map_to_list.
      - intros x. assert ((map_to_list (sessions demo_two)).*1 ≡ₚ ["u1"; "u2"]) as ->.
        { apply (bool_decide_unpack _). vm_compute. exact I. }
        set_solver. }
    apply (ps_cons "u1" demo_two ["u2"; "u1"] (λ _, 9500000000%Z)
             [(10500000000%Z, [mkSession "u1" "c1" 0 0 10000000000 []])]); [exact Ho|].
    apply (ps_cons "u1" demo_two ["u2"; "u1"] (λ _, 10500000000%Z) []); [exact Ho|].
    apply ps_nil. }
  eexists. split; [exact Hp|].
  destruct (expiry_latency "u1" (mkSession "u1" "c1" 0 0 10000000000 []) 1000000000 demo_two run
    (checkExpirations ["u2"; "u1"] (λ _, 10500000000%Z) demo_two).1)
    as (_ & _ & _ & _ & _ & _ & _ & _ & _ & Hg).
  - intros i s. assert (sessions demo_two = <["u2" := mkSession "u2" "c2" 5000000000 5000000000 10000000000 []]>
      {["u1" := mkSession "u1" "c1" 0 0 10000000000 []]}) as E by (vm_compute; reflexivity).
    rewrite E. intros [[<- <-]|[_ [<- <-]%lookup_singleton_Some]]%lookup_insert_Some; reflexivity.
  - reflexivity.
  - vm_compute. reflexivity.
  - simpl. lia.
  - exact Hp.
  - simpl. lia.
  - exists 10500000000%Z. simpl. split; [|lia]. right. left.
  - exact Hg.
Defined.
