(* ===== verification/Watches.v ===== *)
(** * Watches (internal/watch/watcher.go)

    A *Watcher is a pointer shared by the manager's lists and by the clients, so
    watchers live in a heap and lists hold pointers.  A channel of capacity 10
    is the queue of buffered events and a closed flag; a send on or a close of
    a closed channel panics.  Every method holds the mutex for its whole body.
    The slices in m.watchers are updated in place by append(l[:i], l[i+1:]...);
    no other slice header over the same array is used afterwards (both loops
    leave with break), so a list value per path is the same. *)

From S2P Require Import Prelude.

Module Watch.

Inductive EventType :=
| EventCreated
| EventDeleted
| EventDataChanged
| EventChildrenChanged.

#[export] Instance EventType_eq_dec : EqDecision EventType.
Proof. solve_decision. Defined.

Definition EventType_String (e : EventType) : string :=
  match e with
  | EventCreated => "Created"
  | EventDeleted => "Deleted"
  | EventDataChanged => "DataChanged"
  | EventChildrenChanged => "ChildrenChanged"
  end.

Record Event := mkEvent {
  ev_ID : string;
  ev_Type : EventType;
  ev_Path : string;
  ev_Data : string;
  ev_Version : Z
}.

(** [buffer] and [closed] are the channel EventCh. *)
Record Watcher := mkWatcher {
  ID : string;
  Path : string;
  buffer : list Event;
  closed : bool;
  Persistent : bool;
  triggered : bool
}.

(** The capacity of make(chan Event, 10). *)
Definition capacity : nat := 10.

Notation ptr := nat (only parsing).

Record Manager := mkManager {
  heap : list Watcher;
  watchers : gmap string (list ptr)
}.

Definition set_heap (h : list Watcher) (m : Manager) : Manager := mkManager h (watchers m).
Definition set_watchers (w : gmap string (list ptr)) (m : Manager) : Manager :=
  mkManager (heap m) w.

Definition NewManager : Manager := mkManager [] ∅.

(** m.watchers[path], the nil slice when the key is absent. *)
Definition list_at (p : string) (m : Manager) : list ptr := default [] (watchers m !! p).

Definition Watch_ (path : string) (persistent : bool) (uuid : string) (m : Manager)
  : ptr * Manager :=
  let watcher := mkWatcher uuid path [] false persistent false in
  let p := length (heap m) in
  (p, mkManager (heap m ++ [watcher]) (<[path := list_at path m ++ [p]]> (watchers m))).

(** watcher.EventCh <- event in a select with a default branch. *)
Definition send (event : Event) (w : Watcher) : option Watcher :=
  if closed w then None
  else if decide (length (buffer w) < capacity)%nat
  then Some (mkWatcher (ID w) (Path w) (buffer w ++ [event]) false (Persistent w) (triggered w))
  else Some w.

(** close(watcher.EventCh) *)
Definition close (w : Watcher) : option Watcher :=
  if closed w then None
  else Some (mkWatcher (ID w) (Path w) (buffer w) true (Persistent w) (triggered w)).

Definition set_triggered (w : Watcher) : Watcher :=
  mkWatcher (ID w) (Path w) (buffer w) (closed w) (Persistent w) true.

(** The loop
      for i, w := range l { if w.ID == id { close(w.EventCh);
        m.watchers[path] = append(l[:i], l[i+1:]...); break } }
    as a function to the heap and the list after it; None is a panic. *)
Fixpoint close_first (id : string) (h : list Watcher) (l : list ptr)
  : option (list Watcher * list ptr) :=
  match l with
  | [] => Some (h, [])
  | p :: l' =>
      match h !! p with
      | None => None
      | Some w =>
          if decide (ID w = id) then
            match close w with
            | None => None
            | Some w' => Some (<[p := w']> h, l')
            end
          else
            match close_first id h l' with
            | None => None
            | Some (h', l'') => Some (h', p :: l'')
            end
      end
  end.

(** if len(m.watchers[path]) == 0 { delete(m.watchers, path) }, with the list
    just computed for the path. *)
Definition store_list (path : string) (l : list ptr) (ws : gmap string (list ptr))
  : gmap string (list ptr) :=
  if decide (length l = 0)%nat then delete path ws else <[path := l]> ws.

Definition Unwatch (p : ptr) (m : Manager) : option Manager :=
  match heap m !! p with
  | None => None
  | Some watcher =>
      match watchers m !! Path watcher with
      | None => Some m
      | Some l =>
          match close_first (ID watcher) (heap m) l with
          | None => None
          | Some (h, l') => Some (mkManager h (store_list (Path watcher) l' (watchers m)))
          end
      end
  end.

(** The delivery loop: the heap after it and the watchers to remove. *)
Fixpoint deliver (event : Event) (h : list Watcher) (l : list ptr)
  : option (list Watcher * list ptr) :=
  match l with
  | [] => Some (h, [])
  | p :: l' =>
      match h !! p with
      | None => None
      | Some w =>
          match send event w with
          | None => None
          | Some w1 =>
              let once := negb (Persistent w1) && negb (triggered w1) in
              let w2 := if once then set_triggered w1 else w1 in
              match deliver event (<[p := w2]> h) l' with
              | None => None
              | Some (h', toRemove) => Some (h', if once then p :: toRemove else toRemove)
              end
          end
      end
  end.

(** The removal loop. *)
Fixpoint remove_all (toRemove : list ptr) (h : list Watcher) (l : list ptr)
  : option (list Watcher * list ptr) :=
  match toRemove with
  | [] => Some (h, l)
  | p :: rest =>
      match h !! p with
      | None => None
      | Some w =>
          match close_first (ID w) h l with
          | None => None
          | Some (h', l') => remove_all rest h' l'
          end
      end
  end.

Definition TriggerEvent (event : Event) (uuid : string) (m : Manager) : option Manager :=
  let event := mkEvent uuid (ev_Type event) (ev_Path event) (ev_Data event) (ev_Version event) in
  match watchers m !! ev_Path event with
  | None => Some m
  | Some l =>
      match deliver event (heap m) l with
      | None => None
      | Some (h, toRemove) =>
          match remove_all toRemove h l with
          | None => None
          | Some (h', l') => Some (mkManager h' (store_list (ev_Path event) l' (watchers m)))
          end
      end
  end.

Definition TriggerCreate (path data : string) (version : Z) : string → Manager → option Manager :=
  TriggerEvent (mkEvent "" EventCreated path data version).

Definition TriggerDelete (path : string) : string → Manager → option Manager :=
  TriggerEvent (mkEvent "" EventDeleted path "" 0).

Definition TriggerDataChange (path data : string) (version : Z)
  : string → Manager → option Manager :=
  TriggerEvent (mkEvent "" EventDataChanged path data version).

Definition TriggerChildrenChange (path : string) : string → Manager → option Manager :=
  TriggerEvent (mkEvent "" EventChildrenChanged path "" 0).

Definition GetWatchCount (path : string) (m : Manager) : Z :=
  match watchers m !! path with None => 0 | Some l => Z.of_nat (length l) end.

(** The sum does not depend on the iteration order of the map. *)
Definition GetTotalWatchCount (m : Manager) : Z :=
  map_fold (λ _ l count, (count + Z.of_nat (length l))%Z) 0%Z (watchers m).

(** A client receives from the channel: the next event, if one is buffered. *)
Definition receive (p : ptr) (m : Manager) : option Event * Manager :=
  match heap m !! p with
  | Some w =>
      match buffer w with
      | e :: b =>
          (Some e, set_heap (<[p := mkWatcher (ID w) (Path w) b (closed w) (Persistent w)
                                      (triggered w)]> (heap m)) m)
      | [] => (None, m)
      end
  | None => (None, m)
  end.

End Watch.

Import Watch.

(** ** Effects of the loops on the heap *)

(** Apply [f] at the pointers of [l]. *)
Definition upd (f : Watcher → Watcher) (l : list ptr) (h : list Watcher) : list Watcher :=
  imap (λ p w, if decide (p ∈ l) then f w else w) h.

Lemma lookup_upd f l h p :
  upd f l h !! p = (λ w, if decide (p ∈ l) then f w else w) <$> h !! p.
Proof. apply list_lookup_imap. Qed.

Lemma length_upd f l h : length (upd f l h) = length h.
Proof. apply length_imap. Qed.

(** The event is queued if there is room. *)
Definition push (event : Event) (w : Watcher) : Watcher :=
  if decide (length (buffer w) < capacity)%nat
  then mkWatcher (ID w) (Path w) (buffer w ++ [event]) (closed w) (Persistent w) (triggered w)
  else w.

Definition is_once (w : Watcher) : bool := negb (Persistent w) && negb (triggered w).

(** A watcher after the delivery loop, and after the removal loop. *)
Definition mark (event : Event) (w : Watcher) : Watcher :=
  if is_once w then set_triggered (push event w) else push event w.

Definition shut (w : Watcher) : Watcher :=
  mkWatcher (ID w) (Path w) (buffer w) true (Persistent w) (triggered w).

Definition open_at (h : list Watcher) (p : ptr) : Prop :=
  ∃ w, h !! p = Some w ∧ closed w = false.

Definition once_at (h : list Watcher) (p : ptr) : bool :=
  match h !! p with Some w => is_once w | None => false end.

Lemma send_open event w : closed w = false → send event w = Some (push event w).
Proof. intros H. unfold send, push. rewrite H. by case_decide. Qed.

Lemma is_once_push event w : is_once (push event w) = is_once w.
Proof. unfold push. by case_decide. Qed.

Lemma closed_mark event w : closed (mark event w) = closed w.
Proof. unfold mark, push. by destruct (is_once w); case_decide. Qed.

Lemma ID_mark event w : ID (mark event w) = ID w.
Proof. unfold mark, push. by destruct (is_once w); case_decide. Qed.

Lemma Path_mark event w : Path (mark event w) = Path w.
Proof. unfold mark, push. by destruct (is_once w); case_decide. Qed.

Lemma Persistent_mark event w : Persistent (mark event w) = Persistent w.
Proof. unfold mark, push. by destruct (is_once w); case_decide. Qed.

#[export] Hint Rewrite ID_mark Path_mark Persistent_mark closed_mark is_once_push : sky_rw.

Lemma upd_cons f p l h w :
  p ∉ l → h !! p = Some w → upd f l (<[p := f w]> h) = upd f (p :: l) h.
Proof.
  intros Hp Hw. apply list_eq. intros q. rewrite !lookup_upd.
  destruct (decide (q = p)) as [->|Hne].
  - rewrite list_lookup_insert_eq by by eapply lookup_lt_Some. rewrite Hw. simpl.
    rewrite decide_False by done. by rewrite decide_True by left.
  - rewrite list_lookup_insert_ne by done. destruct (h !! q); [|done]. simpl. f_equal.
    apply decide_ext. rewrite elem_of_cons. naive_solver.
Qed.

Lemma upd_nil f h : upd f [] h = h.
Proof.
  apply list_eq. intros p. rewrite lookup_upd. by destruct (h !! p).
Qed.

Lemma open_at_insert_ne h p q w : p ≠ q → open_at h q → open_at (<[p:=w]> h) q.
Proof. intros ? (w' & ? & ?). exists w'. by rewrite list_lookup_insert_ne. Qed.

(** The delivery loop never panics on open watchers and marks each once. *)
Lemma deliver_open event h l :
  NoDup l → Forall (open_at h) l →
  deliver event h l = Some (upd (mark event) l h, filter (λ p, once_at h p = true) l).
Proof.
  revert h. induction l as [|p l IH]; intros h Hnd Ho; simpl.
  { by rewrite upd_nil. }
  apply NoDup_cons in Hnd as [Hp Hnd]. apply Forall_cons in Ho as [(w & Hw & Hc) Ho].
  rewrite Hw, send_open by done.
  change (negb (Persistent (push event w)) && negb (triggered (push event w)))
    with (is_once (push event w)).
  rewrite is_once_push.
  replace (if is_once w then set_triggered (push event w) else push event w)
    with (mark event w) by done.
  rewrite IH; [|done|].
  2: { rewrite Forall_forall in Ho |- *. intros q Hq. apply open_at_insert_ne; [by intros ->|auto]. }
  rewrite upd_cons by done. f_equal. f_equal.
  rewrite (filter_ext_elem _ (λ q, once_at h q = true)).
  2: { intros q Hq. unfold once_at. rewrite list_lookup_insert_ne by (by intros ->). done. }
  assert (once_at h p = is_once w) as E by (unfold once_at; by rewrite Hw).
  rewrite filter_cons. destruct (is_once w); [by rewrite decide_True|].
  rewrite decide_False; [done|]. by rewrite E.
Qed.

(** Ids are unique in the heap. *)
Definition unique_ids (h : list Watcher) : Prop := NoDup (ID <$> h).

Lemma unique_ids_eq h p q w w' :
  unique_ids h → h !! p = Some w → h !! q = Some w' → ID w = ID w' → p = q.
Proof.
  intros Hu Hp Hq E. eapply (NoDup_lookup (ID <$> h)); [done| |].
  - rewrite list_lookup_fmap, Hp. done.
  - rewrite list_lookup_fmap, Hq. simpl. by rewrite E.
Qed.

Lemma unique_ids_upd f l h : (∀ w, ID (f w) = ID w) → unique_ids h → unique_ids (upd f l h).
Proof.
  intros Hf Hu. unfold unique_ids. replace (ID <$> upd f l h) with (ID <$> h); [done|].
  apply list_eq. intros p. rewrite !list_lookup_fmap, lookup_upd.
  destruct (h !! p); [|done]. simpl. case_decide; [by rewrite Hf|done].
Qed.

(** The removal loop for a listed watcher closes and unlists just that one. *)
Lemma close_first_listed h l p w :
  unique_ids h → Forall (open_at h) l → p ∈ l → h !! p = Some w →
  close_first (ID w) h l = Some (upd shut [p] h, remove_first p l).
Proof.
  intros Hu Ho. induction l as [|q l IH]; intros Hp Hw; [by apply elem_of_nil in Hp|].
  apply Forall_cons in Ho as [(w' & Hq & Hc) Ho]. simpl. rewrite Hq.
  destruct (decide (ID w' = ID w)) as [E|E].
  - assert (q = p) as -> by by eapply unique_ids_eq. simplify_eq.
    unfold close. rewrite Hc, decide_True by done. f_equal. f_equal.
    rewrite <- (upd_cons shut p [] h w'), upd_nil; [done| |done].
    apply not_elem_of_nil.
  - assert (q ≠ p) as Hne by (intros ->; simplify_eq).
    apply elem_of_cons in Hp as [->|Hp]; [done|]. rewrite IH by done.
    by rewrite decide_False.
Qed.

(** An id that is not listed: the loop does nothing. *)
Lemma close_first_unlisted h l id :
  Forall (open_at h) l → (∀ p w, p ∈ l → h !! p = Some w → ID w ≠ id) →
  close_first id h l = Some (h, l).
Proof.
  intros Ho. induction Ho as [|q l (w & Hq & Hc) Ho IH]; intros Hn; [done|]. simpl.
  rewrite Hq, decide_False by (eapply Hn; [by left|done]).
  rewrite IH; [done|]. intros p w' Hp. apply Hn. by right.
Qed.

Lemma upd_upd f g l l' h :
  (∀ p, p ∈ l → p ∉ l') → upd f l (upd g l' h) = upd g l' (upd f l h).
Proof.
  intros Hd. apply list_eq. intros p. rewrite !lookup_upd. destruct (h !! p); [|done]. simpl.
  f_equal. case_decide; case_decide; try done. by exfalso; eapply Hd.
Qed.

Lemma open_at_upd_ne f l h p : p ∉ l → open_at h p → open_at (upd f l h) p.
Proof.
  intros Hp (w & Hw & Hc). exists w. rewrite lookup_upd, Hw. simpl. by rewrite decide_False.
Qed.

Lemma upd_shut_cons p l h : upd shut l (upd shut [p] h) = upd shut (p :: l) h.
Proof.
  apply list_eq. intros q. rewrite !lookup_upd. destruct (h !! q); [|done]. simpl. f_equal.
  repeat case_decide; try done; set_solver.
Qed.

(** The removal loops close and unlist exactly the collected watchers. *)
Lemma remove_all_listed toRemove h l :
  unique_ids h → NoDup l → Forall (open_at h) l → NoDup toRemove → toRemove ⊆ l →
  remove_all toRemove h l = Some (upd shut toRemove h, filter (λ p, p ∉ toRemove) l).
Proof.
  revert h l. induction toRemove as [|p rest IH]; intros h l Hu Hnd Ho Hr Hsub; simpl.
  { rewrite upd_nil, filter_Forall_id; [done|]. apply Forall_true. intros. apply not_elem_of_nil. }
  apply NoDup_cons in Hr as [Hp Hr]. assert (p ∈ l) as Hpl by (apply Hsub; by left).
  destruct (proj1 (Forall_forall _ _) Ho p Hpl) as (w & Hw & Hc). rewrite Hw.
  rewrite (close_first_listed _ _ p) by done. rewrite IH; [| | | |done|].
  - rewrite upd_shut_cons. do 2 f_equal. by apply filter_remove_first.
  - by apply unique_ids_upd.
  - auto with sky.
  - rewrite Forall_forall in Ho |- *. intros q Hq%elem_of_remove_first; [|done].
    apply open_at_upd_ne; [|naive_solver]. set_solver.
  - intros q Hq. apply elem_of_remove_first; [done|]. split; [apply Hsub; by right|].
    by intros ->.
Qed.

(** ** The invariant of reachable managers *)

Record wf_watch (m : Manager) : Prop := {
  ww_ids : unique_ids (heap m);
  ww_nonempty : ∀ path, watchers m !! path ≠ Some [];
  ww_nodup : ∀ path, NoDup (list_at path m);
  (** registered = open *)
  ww_listed : ∀ path p, p ∈ list_at path m ↔
    ∃ w, heap m !! p = Some w ∧ Path w = path ∧ closed w = false;
  (** a registered one-time watcher has not fired *)
  ww_once : ∀ p w, heap m !! p = Some w → Persistent w = false → closed w = false →
    buffer w = [] ∧ triggered w = false;
  ww_cap : ∀ p w, heap m !! p = Some w → (length (buffer w) ≤ capacity)%nat
}.

Lemma list_at_store q path l h ws :
  list_at q (mkManager h (store_list path l ws)) =
  if decide (q = path) then l else default [] (ws !! q).
Proof.
  unfold list_at, store_list. simpl. destruct l as [|p l]; simpl; case_decide as E; subst.
  - by rewrite lookup_delete_eq.
  - by rewrite lookup_delete_ne.
  - by rewrite lookup_insert_eq.
  - by rewrite lookup_insert_ne.
Qed.

Lemma store_nonempty path l (ws : gmap string (list ptr)) q :
  (∀ q, ws !! q ≠ Some []) → store_list path l ws !! q ≠ Some [].
Proof.
  intros Hn. unfold store_list. destruct l as [|p l]; simpl.
  - rewrite lookup_delete_Some. naive_solver.
  - rewrite lookup_insert_Some. naive_solver.
Qed.

Lemma wf_listed_open m path : wf_watch m → Forall (open_at (heap m)) (list_at path m).
Proof.
  intros Hwf. apply Forall_forall. intros p (w & ? & ? & ?)%(ww_listed _ Hwf). by exists w.
Qed.

Lemma wf_New : wf_watch NewManager.
Proof.
  split; simpl; try done.
  - apply NoDup_nil_2.
  - intros path. apply NoDup_nil_2.
  - intros path p. split; [by intros ?%elem_of_nil|]. intros (w & ? & _). done.
Qed.

(** What TriggerEvent does to a watcher registered on the path. *)
Definition after_trigger (event : Event) (w : Watcher) : Watcher :=
  if Persistent w then push event w else shut (set_triggered (push event w)).

Definition persistent_at (h : list Watcher) (p : ptr) : bool :=
  match h !! p with Some w => Persistent w | None => false end.

(** TriggerEvent overwrites the id of the event. *)
Definition with_id (uuid : string) (event : Event) : Event :=
  mkEvent uuid (ev_Type event) (ev_Path event) (ev_Data event) (ev_Version event).

Lemma once_persistent m path p :
  wf_watch m → p ∈ list_at path m → once_at (heap m) p = negb (persistent_at (heap m) p).
Proof.
  intros Hwf (w & Hw & _ & Hc)%(ww_listed _ Hwf). unfold once_at, persistent_at, is_once.
  rewrite Hw. destruct (Persistent w) eqn:E; [done|].
  by destruct (ww_once _ Hwf p w Hw E Hc) as [_ ->].
Qed.

Lemma TriggerEvent_exact event uuid m :
  wf_watch m →
  ∃ m', TriggerEvent event uuid m = Some m' ∧
    heap m' = upd (after_trigger (with_id uuid event)) (list_at (ev_Path event) m) (heap m) ∧
    (∀ q, watchers m' !! q ≠ Some []) ∧
    ∀ q, list_at q m' =
      if decide (q = ev_Path event)
      then filter (λ p, persistent_at (heap m) p = true) (list_at q m) else list_at q m.
Proof.
  intros Hwf. unfold TriggerEvent. fold (with_id uuid event). simpl.
  pose proof (wf_listed_open m (ev_Path event) Hwf) as Ho.
  pose proof (ww_nodup _ Hwf (ev_Path event)) as Hnd.
  pose proof (once_persistent m (ev_Path event)) as Hop.
  destruct (watchers m !! ev_Path event) as [l|] eqn:E.
  2: { exists m. split_and!; [done| |apply ww_nonempty; done|].
       - unfold list_at. rewrite E. by rewrite upd_nil.
       - intros q. case_decide as Hq; [|done]. subst. unfold list_at. by rewrite E. }
  assert (list_at (ev_Path event) m = l) as El by (unfold list_at; by rewrite E).
  rewrite El in *. rewrite deliver_open by done.
  rewrite remove_all_listed.
  - eexists. split; [reflexivity|]. simpl. split_and!.
    + apply list_eq. intros p. rewrite !lookup_upd.
      destruct (heap m !! p) as [w|] eqn:Hw; [|done]. simpl. f_equal.
      destruct (decide (p ∈ l)) as [Hp|Hp].
      2: { rewrite decide_False; [done|]. by rewrite list_elem_of_filter; intros [_ ?]. }
      specialize (Hop p Hwf Hp). unfold once_at, persistent_at in Hop. rewrite Hw in Hop.
      unfold after_trigger, mark. rewrite Hop. destruct (Persistent w) eqn:Ep; simpl.
      * rewrite decide_False; [done|]. rewrite list_elem_of_filter. unfold once_at.
        rewrite Hw, Hop. by intros [? _].
      * rewrite decide_True; [done|]. rewrite list_elem_of_filter. unfold once_at.
        by rewrite Hw, Hop.
    + intros q. apply store_nonempty. apply ww_nonempty. done.
    + intros q. rewrite list_at_store. case_decide as Hq; [|done]. subst q. rewrite El.
      apply filter_ext_elem. intros p Hp. rewrite list_elem_of_filter, (Hop p Hwf Hp).
      destruct (persistent_at _ _); naive_solver.
  - apply unique_ids_upd; [apply ID_mark|apply Hwf].
  - done.
  - rewrite Forall_forall in Ho |- *. intros p Hp. destruct (Ho p Hp) as (w & Hw & Hc).
    exists (mark (with_id uuid event) w). rewrite lookup_upd, Hw. simpl.
    rewrite decide_True by done. by rewrite closed_mark.
  - by apply NoDup_filter.
  - intros p. rewrite list_elem_of_filter. by intros [_ ?].
Qed.

(** ** Preservation *)

Lemma ex_some {A} (x : A) (P : A → Prop) : (∃ y, Some x = Some y ∧ P y) ↔ P x.
Proof. split; [intros (? & [= <-] & ?); done|intros; by exists x]. Qed.

Lemma listed_path m q p w :
  wf_watch m → heap m !! p = Some w → p ∈ list_at q m ↔ Path w = q ∧ closed w = false.
Proof. intros Hwf Hw. by rewrite (ww_listed _ Hwf), Hw, ex_some. Qed.

Lemma wf_trigger event uuid m m' :
  wf_watch m → TriggerEvent event uuid m = Some m' → wf_watch m'.
Proof.
  intros Hwf E. destruct (TriggerEvent_exact event uuid m Hwf) as (m1 & E1 & Hh & Hn & Hl).
  rewrite E in E1. injection E1 as <-.
  assert (∀ w, ID (after_trigger (with_id uuid event) w) = ID w ∧
               Path (after_trigger (with_id uuid event) w) = Path w ∧
               Persistent (after_trigger (with_id uuid event) w) = Persistent w ∧
               closed (after_trigger (with_id uuid event) w) = negb (Persistent w) || closed w ∧
               length (buffer (after_trigger (with_id uuid event) w)) ≤
                 Nat.max capacity (length (buffer w)))%nat as Ha.
  { intros w. unfold after_trigger, push, shut, set_triggered.
    destruct (Persistent w) eqn:Ep; case_decide; simpl; rewrite ?length_app; simpl;
      split_and!; try done; lia. }
  split.
  - rewrite Hh. apply unique_ids_upd; [naive_solver|apply Hwf].
  - done.
  - intros q. rewrite Hl. case_decide; [apply NoDup_filter|]; apply Hwf.
  - intros q p. rewrite Hl, Hh, lookup_upd. destruct (heap m !! p) as [w|] eqn:Hw; simpl.
    + destruct (Ha w) as (_ & HP & _ & Hcl & _). rewrite ex_some.
      pose proof (listed_path _ q _ _ Hwf Hw) as Hq.
      pose proof (listed_path _ (ev_Path event) _ _ Hwf Hw) as He.
      assert (persistent_at (heap m) p = Persistent w) as Hpp
        by (unfold persistent_at; by rewrite Hw).
      destruct (decide (q = ev_Path event)) as [->|Hne].
      * rewrite list_elem_of_filter, Hpp. case_decide as D; [|tauto].
        rewrite HP, Hcl. apply He in D as [D1 D2]. rewrite D1, D2, He, D1, D2.
        by destruct (Persistent w); simpl; intuition.
      * case_decide as D; [|done]. apply He in D as [D1 D2].
        rewrite Hq, HP, D1. intuition congruence.
    + transitivity False; [|split; [done|by intros (? & ? & _)]]. split; [|done].
      intros Hp. assert (p ∈ list_at q m) as (w & Hx & _)%(ww_listed _ Hwf); [|congruence].
      case_decide; [|done]. by apply list_elem_of_filter in Hp as [_ ?].
  - intros p w. rewrite Hh, lookup_upd. destruct (heap m !! p) as [w0|] eqn:Hw; [|done].
    simpl. destruct (Ha w0) as (_ & _ & HP & Hcl & _).
    intros [= <-]. case_decide; [|by apply (ww_once _ Hwf p)].
    rewrite HP, Hcl. intros ->. done.
  - intros p w. rewrite Hh, lookup_upd. destruct (heap m !! p) as [w0|] eqn:Hw; [|done].
    simpl. destruct (Ha w0) as (_ & _ & _ & _ & Hb). pose proof (ww_cap _ Hwf p w0 Hw).
    intros [= <-]. case_decide; lia.
Qed.

Lemma Unwatch_exact p w m :
  wf_watch m → heap m !! p = Some w →
  ∃ m', Unwatch p m = Some m' ∧
    heap m' = (if closed w then heap m else upd shut [p] (heap m)) ∧
    (∀ q, watchers m' !! q ≠ Some []) ∧
    ∀ q, list_at q m' = if closed w then list_at q m else remove_first p (list_at q m).
Proof.
  intros Hwf Hw. unfold Unwatch. rewrite Hw.
  pose proof (wf_listed_open m (Path w) Hwf) as Ho.
  pose proof (λ q, listed_path m q p w Hwf Hw) as Hl.
  destruct (watchers m !! Path w) as [l|] eqn:E.
  2: { exists m. assert (p ∉ list_at (Path w) m) as Hp.
       { unfold list_at. rewrite E. apply not_elem_of_nil. }
       rewrite Hl in Hp. destruct (closed w); [|tauto]. split_and!; try done. apply Hwf. }
  assert (list_at (Path w) m = l) as El by (unfold list_at; by rewrite E). rewrite El in Ho.
  destruct (closed w) eqn:Hc.
  - rewrite close_first_unlisted; [|done|].
    + eexists. split; [done|]. simpl. split_and!; [done| |].
      { intros q. by apply store_nonempty, ww_nonempty. }
      intros q. rewrite list_at_store. case_decide; [by subst|done].
    + intros p' w' Hp' Hw' Eid. assert (p' = p) as -> by (eapply unique_ids_eq; eauto; apply Hwf).
      rewrite <- El in Hp'. apply Hl in Hp' as [_ ?]. done.
  - rewrite (close_first_listed _ _ p); [|apply Hwf|done| |done].
    2: { rewrite <- El. by apply Hl. }
    eexists. split; [done|]. simpl. split_and!; [done| |].
    { intros q. by apply store_nonempty, ww_nonempty. }
    intros q. rewrite list_at_store. case_decide as D; [by subst|].
    fold (list_at q m). rewrite remove_first_notin; [done|]. rewrite Hl. naive_solver.
Qed.

Lemma wf_unwatch p w m m' :
  wf_watch m → heap m !! p = Some w → Unwatch p m = Some m' → wf_watch m'.
Proof.
  intros Hwf Hw E. destruct (Unwatch_exact p w m Hwf Hw) as (m1 & E1 & Hh & Hn & Hl).
  rewrite E in E1. injection E1 as <-. destruct (closed w) eqn:Hc.
  { destruct m' as [h' ws']. simpl in Hh. subst h'. split; try apply Hwf; simpl.
    - done.
    - intros q. rewrite Hl. apply Hwf.
    - intros q p'. rewrite Hl. apply Hwf. }
  split.
  - rewrite Hh. apply unique_ids_upd; [done|apply Hwf].
  - done.
  - intros q. rewrite Hl. apply remove_first_NoDup, Hwf.
  - intros q p'. rewrite Hl, elem_of_remove_first by apply Hwf. rewrite Hh, lookup_upd.
    destruct (heap m !! p') as [w'|] eqn:Hw'; simpl.
    + rewrite ex_some, (listed_path _ _ _ _ Hwf Hw').
      case_decide as D; rewrite list_elem_of_singleton in D; simpl; [|tauto].
      split; [tauto|]. by intros [_ ?].
    + rewrite (ww_listed _ Hwf), Hw'. naive_solver.
  - intros p' w'. rewrite Hh, lookup_upd. destruct (heap m !! p') as [w0|] eqn:Hw0; [|done].
    simpl. intros [= <-]. case_decide; [done|]. by apply (ww_once _ Hwf p').
  - intros p' w'. rewrite Hh, lookup_upd. destruct (heap m !! p') as [w0|] eqn:Hw0; [|done].
    simpl. intros [= <-]. pose proof (ww_cap _ Hwf p' w0 Hw0). by case_decide.
Qed.

Lemma wf_register path persistent uuid m :
  wf_watch m → uuid ∉ ID <$> heap m → wf_watch (Watch_ path persistent uuid m).2.
Proof.
  intros Hwf Hu. simpl.
  assert (∀ q, list_at q (Watch_ path persistent uuid m).2 =
               if decide (q = path) then list_at q m ++ [length (heap m)] else list_at q m) as Hl.
  { intros q. unfold list_at. simpl. case_decide; subst.
    - by rewrite lookup_insert_eq.
    - by rewrite lookup_insert_ne. }
  assert (∀ q, length (heap m) ∉ list_at q m) as Hfresh.
  { intros q (w & Hw & _)%(ww_listed _ Hwf). apply lookup_lt_Some in Hw. lia. }
  assert (∀ p w, (heap m ++ [mkWatcher uuid path [] false persistent false]) !! p = Some w →
          heap m !! p = Some w ∨ p = length (heap m) ∧ w = mkWatcher uuid path [] false persistent false)
    as Hlk.
  { intros p w [?|[? Hs]]%lookup_app_Some; [by left|right].
    apply list_lookup_singleton_Some in Hs as [? ?]. split; [lia|done]. }
  split; simpl in *.
  - unfold unique_ids. rewrite fmap_app, NoDup_app. split_and!; [apply Hwf| |apply NoDup_singleton].
    set_solver.
  - intros q. rewrite lookup_insert_Some. intros [[_ Hx]|[_ Hx]]; [by destruct (list_at path m)|].
    by eapply ww_nonempty.
  - intros q. rewrite Hl. case_decide; [|apply Hwf]. apply NoDup_app.
    split_and!; [apply Hwf| |apply NoDup_singleton]. intros x Hx ->%list_elem_of_singleton.
    by eapply Hfresh.
  - intros q p. rewrite Hl. split.
    + intros Hp. assert (p ∈ list_at q m ∨ p = length (heap m) ∧ q = path) as [Hq|[-> ->]].
      { case_decide; [|by left]. apply elem_of_app in Hp as [?|?%list_elem_of_singleton]; auto. }
      * apply (ww_listed _ Hwf) in Hq as (w & Hw & ?). exists w.
        by rewrite lookup_app_l by by eapply lookup_lt_Some.
      * exists (mkWatcher uuid path [] false persistent false).
        split; [by rewrite list_lookup_middle|done].
    + intros (w & [Hw|[-> ->]]%Hlk & HP & Hc).
      * assert (p ∈ list_at q m) by (apply (ww_listed _ Hwf); eauto).
        case_decide; [apply elem_of_app; by left|done].
      * rewrite decide_True by done. apply elem_of_app. right. by apply list_elem_of_singleton.
  - intros p w [Hw|[-> ->]]%Hlk; [by apply (ww_once _ Hwf p)|done].
  - intros p w [Hw|[-> ->]]%Hlk; [by apply (ww_cap _ Hwf p)|]. simpl. lia.
Qed.

Lemma wf_receive p m : wf_watch m → wf_watch (receive p m).2.
Proof.
  intros Hwf. unfold receive. destruct (heap m !! p) as [w|] eqn:Hw; [|done].
  destruct (buffer w) as [|e b] eqn:Hb; [done|]. simpl.
  pose proof (lookup_lt_Some _ _ _ Hw) as Hlt.
  pose proof (ww_cap _ Hwf p w Hw) as Hcap. rewrite Hb in Hcap. simpl in Hcap.
  split; simpl.
  - unfold unique_ids. rewrite list_fmap_insert, list_insert_id; [apply Hwf|].
    by rewrite list_lookup_fmap, Hw.
  - apply Hwf.
  - intros q. apply (ww_nodup _ Hwf).
  - intros q p'. rewrite (ww_listed _ Hwf q p'). destruct (decide (p' = p)) as [->|].
    + rewrite Hw, list_lookup_insert_eq by done. by rewrite !ex_some.
    + by rewrite list_lookup_insert_ne.
  - intros p' w'. destruct (decide (p' = p)) as [->|].
    + rewrite list_lookup_insert_eq by done. intros [= <-]. simpl. intros Hp Hc.
      destruct (ww_once _ Hwf p w Hw Hp Hc). congruence.
    + rewrite list_lookup_insert_ne by done. apply Hwf.
  - intros p' w'. destruct (decide (p' = p)) as [->|].
    + rewrite list_lookup_insert_eq by done. intros [= <-]. simpl. unfold capacity in *. lia.
    + rewrite list_lookup_insert_ne by done. apply Hwf.
Qed.

(** ** Histories *)

Inductive op :=
| OWatch (path : string) (persistent : bool) (uuid : string)
| OUnwatch (p : ptr)
| OTrigger (event : Event) (uuid : string)
| OReceive (p : ptr).

(** One operation; a receive reports the event a client got from a watcher. *)
Definition exec (o : op) (m : Manager) : option (Manager * list (ptr * Event)) :=
  match o with
  | OWatch path persistent uuid => Some ((Watch_ path persistent uuid m).2, [])
  | OUnwatch p => match Unwatch p m with Some m' => Some (m', []) | None => None end
  | OTrigger event uuid =>
      match TriggerEvent event uuid m with Some m' => Some (m', []) | None => None end
  | OReceive p =>
      let '(e, m') := receive p m in
      Some (m', match e with Some e => [(p, e)] | None => [] end)
  end.

Fixpoint run (os : list op) (m : Manager) : option (Manager * list (ptr * Event)) :=
  match os with
  | [] => Some (m, [])
  | o :: os =>
      match exec o m with
      | None => None
      | Some (m1, out1) =>
          match run os m1 with
          | None => None
          | Some (m2, out2) => Some (m2, out1 ++ out2)
          end
      end
  end.

(** The ids Watch generates, and that Unwatch is given a pointer Watch
    returned: [n] watchers have been created so far. *)
Definition uuids (os : list op) : list string :=
  omap (λ o, match o with OWatch _ _ u => Some u | _ => None end) os.

Fixpoint valid (n : nat) (os : list op) : Prop :=
  match os with
  | [] => True
  | OWatch _ _ _ :: os => valid (S n) os
  | OUnwatch p :: os => (p < n)%nat ∧ valid n os
  | _ :: os => valid n os
  end.

(** The events a client has received from [p]. *)
Definition received (p : ptr) (out : list (ptr * Event)) : list Event :=
  omap (λ '(q, e), if decide (q = p) then Some e else None) out.

Lemma received_app p a b : received p (a ++ b) = received p a ++ received p b.
Proof. apply omap_app. Qed.

(** One-time watchers: nothing is delivered while registered, at most one
    event ever. *)
Record inv (m : Manager) (out : list (ptr * Event)) : Prop := {
  inv_wf : wf_watch m;
  inv_out : ∀ p, (length (heap m) ≤ p)%nat → received p out = [];
  inv_open : ∀ p w, heap m !! p = Some w → Persistent w = false → closed w = false →
    received p out = [];
  inv_once : ∀ p w, heap m !! p = Some w → Persistent w = false →
    (length (received p out) + length (buffer w) ≤ 1)%nat
}.

Lemma inv_trigger event uuid m m' out :
  inv m out → TriggerEvent event uuid m = Some m' → inv m' out.
Proof.
  intros [Hwf Hout Hopen Honce] E. pose proof (wf_trigger _ _ _ _ Hwf E) as Hwf'.
  destruct (TriggerEvent_exact event uuid m Hwf) as (m1 & E1 & Hh & _ & _).
  rewrite E in E1. injection E1 as <-. split; [done|..].
  - intros p. rewrite Hh, length_upd. apply Hout.
  - intros p w. rewrite Hh, lookup_upd. destruct (heap m !! p) as [w0|] eqn:Hw; [|done].
    simpl. intros [= <-]. case_decide; [|by apply Hopen].
    unfold after_trigger. destruct (Persistent w0) eqn:Ep; [|done].
    unfold push. case_decide; simpl; congruence.
  - intros p w. rewrite Hh, lookup_upd. destruct (heap m !! p) as [w0|] eqn:Hw; [|done].
    simpl. intros [= <-]. case_decide as D; [|by apply Honce].
    apply (listed_path _ _ _ _ Hwf Hw) in D as [_ Hc].
    unfold after_trigger. destruct (Persistent w0) eqn:Ep.
    { unfold push. case_decide; simpl; congruence. }
    intros _. rewrite (Hopen p w0) by done. destruct (ww_once _ Hwf p w0 Hw Ep Hc) as [Hb _].
    unfold push. rewrite Hb. simpl. lia.
Qed.

Lemma inv_unwatch p w m m' out :
  inv m out → heap m !! p = Some w → Unwatch p m = Some m' → inv m' out.
Proof.
  intros [Hwf Hout Hopen Honce] Hw E. pose proof (wf_unwatch _ _ _ _ Hwf Hw E) as Hwf'.
  destruct (Unwatch_exact p w m Hwf Hw) as (m1 & E1 & Hh & _ & _).
  rewrite E in E1. injection E1 as <-. split; [done|..].
  - intros q. rewrite Hh. destruct (closed w); rewrite ?length_upd; apply Hout.
  - intros q w'. rewrite Hh. destruct (closed w); [apply Hopen|]. rewrite lookup_upd.
    destruct (heap m !! q) as [w0|] eqn:Hq; [|done]. simpl. intros [= <-].
    case_decide; [done|]. by apply Hopen.
  - intros q w'. rewrite Hh. destruct (closed w); [apply Honce|]. rewrite lookup_upd.
    destruct (heap m !! q) as [w0|] eqn:Hq; [|done]. simpl. intros [= <-].
    case_decide; by apply (Honce q w0).
Qed.

Lemma inv_register path persistent uuid m out :
  inv m out → uuid ∉ ID <$> heap m → inv (Watch_ path persistent uuid m).2 out.
Proof.
  intros [Hwf Hout Hopen Honce] Hu. split; [by apply wf_register|..]; simpl.
  - intros p. rewrite length_app. simpl. intros. apply Hout. lia.
  - intros p w [?|[? [_ <-]%list_lookup_singleton_Some]]%lookup_app_Some; [by apply Hopen|].
    intros _ _. by apply Hout.
  - intros p w [?|[? [_ <-]%list_lookup_singleton_Some]]%lookup_app_Some; [by apply Honce|].
    intros _. rewrite Hout by done. simpl. lia.
Qed.

Lemma inv_receive p m out :
  inv m out →
  inv (receive p m).2 (out ++ match (receive p m).1 with Some e => [(p, e)] | None => [] end).
Proof.
  intros [Hwf Hout Hopen Honce]. pose proof (wf_receive p m Hwf) as Hwf'. revert Hwf'.
  unfold receive. destruct (heap m !! p) as [w|] eqn:Hw; [|by rewrite app_nil_r].
  destruct (buffer w) as [|e b] eqn:Hb; [by rewrite app_nil_r|]. cbn [fst snd]. intros Hwf'.
  pose proof (lookup_lt_Some _ _ _ Hw) as Hlt.
  assert (∀ q, q ≠ p → received q (out ++ [(p, e)]) = received q out) as Hne.
  { intros q Hq. rewrite received_app. simpl. rewrite decide_False by done. apply app_nil_r. }
  split; [done|..]; simpl.
  - intros q. rewrite length_insert. intros Hq. rewrite Hne by lia. by apply Hout.
  - intros q w'. destruct (decide (q = p)) as [->|].
    + rewrite list_lookup_insert_eq by done. intros [= <-]. simpl. intros Hp Hc.
      destruct (ww_once _ Hwf p w Hw Hp Hc). congruence.
    + rewrite list_lookup_insert_ne, Hne by done. apply Hopen.
  - intros q w'. destruct (decide (q = p)) as [->|].
    + rewrite list_lookup_insert_eq by done. intros [= <-]. simpl. intros Hp.
      pose proof (Honce p w Hw Hp) as H. rewrite Hb in H. rewrite received_app, length_app. simpl.
      rewrite decide_True by done. simpl in *. lia.
    + rewrite list_lookup_insert_ne, Hne by done. apply Honce.
Qed.

Lemma ids_upd f l h : (∀ w, ID (f w) = ID w) → ID <$> upd f l h = ID <$> h.
Proof.
  intros Hf. apply list_eq. intros p. rewrite !list_lookup_fmap, lookup_upd.
  destruct (h !! p); [|done]. simpl. case_decide; [by rewrite Hf|done].
Qed.

Lemma exec_ok o os m out :
  inv m out → NoDup ((ID <$> heap m) ++ uuids [o]) → valid (length (heap m)) (o :: os) →
  ∃ m' out', exec o m = Some (m', out') ∧ inv m' (out ++ out') ∧
    ID <$> heap m' = (ID <$> heap m) ++ uuids [o] ∧ valid (length (heap m')) os.
Proof.
  intros Hinv. pose proof (inv_wf _ _ Hinv) as Hwf.
  destruct o as [path persistent uuid|p|event uuid|p]; cbn [exec valid].
  - intros (_ & Hu & _)%NoDup_app Hv. eexists _, []. split; [done|].
    rewrite app_nil_r. split_and!.
    + apply inv_register; [done|]. intros Hin. apply (Hu uuid Hin). simpl. by left.
    + simpl. by rewrite fmap_app.
    + simpl. rewrite length_app. simpl. by rewrite Nat.add_1_r.
  - intros _ [Hp Hv]. apply lookup_lt_is_Some in Hp as [w Hw].
    destruct (Unwatch_exact p w m Hwf Hw) as (m' & E & Hh & _). rewrite E.
    exists m', []. rewrite app_nil_r. split_and!; [done|by eapply inv_unwatch| |].
    + rewrite Hh, app_nil_r. destruct (closed w); [done|by apply ids_upd].
    + rewrite Hh. by destruct (closed w); rewrite ?length_upd.
  - intros _ Hv. destruct (TriggerEvent_exact event uuid m Hwf) as (m' & E & Hh & _). rewrite E.
    exists m', []. rewrite app_nil_r. split_and!; [done|by eapply inv_trigger| |].
    + rewrite Hh, app_nil_r. apply ids_upd. intros w. unfold after_trigger, push.
      by destruct (Persistent w); case_decide.
    + by rewrite Hh, length_upd.
  - intros _ Hv. pose proof (inv_receive p m out Hinv) as Hi.
    assert (ID <$> heap (receive p m).2 = ID <$> heap m) as Hids.
    { unfold receive. destruct (heap m !! p) as [w|] eqn:Hw; [|done]. destruct (buffer w); [done|].
      simpl. rewrite list_fmap_insert, list_insert_id; [done|]. by rewrite list_lookup_fmap, Hw. }
    destruct (receive p m) as [e m']. eexists _, _. split; [done|]. simpl in *.
    split_and!; [done|by rewrite app_nil_r|].
    by rewrite <- (length_fmap ID), Hids, length_fmap.
Qed.

Lemma run_ok os m out :
  inv m out → NoDup ((ID <$> heap m) ++ uuids os) → valid (length (heap m)) os →
  ∃ m' out', run os m = Some (m', out') ∧ inv m' (out ++ out').
Proof.
  revert m out. induction os as [|o os IH]; intros m out Hinv Hnd Hv.
  { exists m, []. by rewrite app_nil_r. }
  assert (uuids (o :: os) = uuids [o] ++ uuids os) as Hu by apply (omap_app _ [o] os).
  rewrite Hu, (assoc_L (++)) in Hnd.
  destruct (exec_ok o os m out Hinv) as (m1 & out1 & E1 & Hi1 & Hids & Hv1); [|done|].
  { by apply NoDup_app in Hnd as (? & _). }
  destruct (IH m1 (out ++ out1)) as (m2 & out2 & E2 & Hi2); [done|by rewrite Hids|done|].
  exists m2, (out1 ++ out2). cbn [run]. rewrite E1, E2. by rewrite (assoc_L (++)).
Qed.

Lemma inv_New : inv NewManager [].
Proof. split; [apply wf_New|done..]. Qed.

(** C23. The watch manager never panics: over any history in which generated ids
    are distinct and Unwatch is given watchers that Watch returned (possibly
    twice, possibly after they fired), no operation sends on or closes a
    closed channel, and at the end a watcher is listed under a path exactly
    when it watches that path and its channel is open. *)
Theorem watch_never_panics os :
  NoDup (uuids os) → valid 0 os →
  ∃ m out, run os NewManager = Some (m, out) ∧
    ∀ path p, p ∈ list_at path m ↔
      ∃ w, heap m !! p = Some w ∧ Path w = path ∧ closed w = false.
Proof.
  intros Hnd Hv. destruct (run_ok os NewManager [] inv_New Hnd Hv) as (m & out & E & Hi).
  exists m, out. split; [done|]. apply Hi.
Qed.

Definition demo_event : Event := mkEvent "" EventDataChanged "/a" "x" 2.

(** A one-time and a persistent watch on /a; two events; the one-time watch is
    removed once more by its client. *)
Definition demo_watch_ops : list op :=
  [OWatch "/a" false "w0"; OWatch "/a" true "w1"; OTrigger demo_event "e1"; OReceive 0;
   OTrigger demo_event "e2"; OUnwatch 0].

Lemma watch_never_panics_witness :
  ∃ m out, run demo_watch_ops NewManager = Some (m, out) ∧ 1%nat ∈ list_at "/a" m.
Proof.
  destruct (watch_never_panics demo_watch_ops) as (m & out & E & H).
  - by apply (bool_decide_unpack _); vm_compute.
  - vm_compute. split; [lia|exact I].
  - exists m, out. split; [exact E|]. apply H. vm_compute in E. injection E as <- <-.
    eexists. split; [reflexivity|]. split; reflexivity.
Defined.

(** C30. A one-time watch fires at most once: over any such history a client
    gets at most one event from a one-time watcher, counting the event still
    buffered, and none while the watcher is registered. *)
Theorem one_time_watch_fires_once os m out p w :
  NoDup (uuids os) → valid 0 os → run os NewManager = Some (m, out) →
  heap m !! p = Some w → Persistent w = false →
  (length (received p out) + length (buffer w) ≤ 1)%nat ∧
  (p ∈ list_at (Path w) m → received p out = [] ∧ buffer w = []).
Proof.
  intros Hnd Hv E Hw Hp. destruct (run_ok os NewManager [] inv_New Hnd Hv) as (m' & out' & E' & Hi).
  rewrite E in E'. simplify_eq. simpl in Hi. split; [by eapply inv_once|].
  intros [_ Hc]%(listed_path _ _ _ _ (inv_wf _ _ Hi) Hw). split; [by eapply inv_open|].
  by destruct (ww_once _ (inv_wf _ _ Hi) p w Hw Hp Hc).
Qed.

Lemma one_time_watch_fires_once_witness :
  ∃ m out w, run demo_watch_ops NewManager = Some (m, out) ∧ heap m !! 0%nat = Some w ∧
    length (received 0 out) = 1%nat ∧ (length (received 0 out) + length (buffer w) ≤ 1)%nat.
Proof.
  destruct (run demo_watch_ops NewManager) as [[m out]|] eqn:E; [|vm_compute in E; discriminate].
  destruct (heap m !! 0%nat) as [w|] eqn:Hw;
    [|vm_compute in E; injection E as <- <-; vm_compute in Hw; discriminate].
  exists m, out, w. split; [reflexivity|]. split; [exact Hw|]. split.
  - vm_compute in E. injection E as <- <-. reflexivity.
  - apply (one_time_watch_fires_once demo_watch_ops m out 0 w).
    + by apply (bool_decide_unpack _); vm_compute.
    + vm_compute. split; [lia|exact I].
    + exact E.
    + exact Hw.
    + vm_compute in E. injection E as <- <-. vm_compute in Hw. by injection Hw as <-.
Defined.

(** C31. What an event does: TriggerEvent on a well-formed manager succeeds;
    every watcher registered on the event's path gets the event at the end of
    its queue unless ten events are already waiting, every other watcher is
    untouched; persistent watchers stay registered in order, one-time watchers
    are closed and unregistered. *)
Theorem trigger_event_delivers event uuid m :
  wf_watch m →
  ∃ m', TriggerEvent event uuid m = Some m' ∧ wf_watch m' ∧
    (∀ q, list_at q m' =
       if decide (q = ev_Path event)
       then filter (λ p, persistent_at (heap m) p = true) (list_at q m) else list_at q m) ∧
    ∀ p w, heap m !! p = Some w →
      ∃ w', heap m' !! p = Some w' ∧
        (p ∉ list_at (ev_Path event) m → w' = w) ∧
        (p ∈ list_at (ev_Path event) m →
           buffer w' = (if decide (length (buffer w) < 10)%nat
                        then buffer w ++ [with_id uuid event] else buffer w) ∧
           closed w' = negb (Persistent w) ∧ ID w' = ID w).
Proof.
  intros Hwf. destruct (TriggerEvent_exact event uuid m Hwf) as (m' & E & Hh & _ & Hl).
  exists m'. split_and!; [done|by eapply wf_trigger|done|].
  intros p w Hw. rewrite Hh, lookup_upd, Hw. eexists. split; [done|]. simpl. split.
  - intros Hp. by rewrite decide_False.
  - intros Hp. rewrite decide_True by done. apply (listed_path _ _ _ _ Hwf Hw) in Hp as [_ Hc].
    unfold after_trigger, push, capacity. by destruct (Persistent w); case_decide.
Qed.

Definition demo_watch : Manager := (Watch_ "/a" true "w1" (Watch_ "/a" false "w0" NewManager).2).2.

Lemma wf_demo_watch : wf_watch demo_watch.
Proof.
  apply wf_register; [apply wf_register; [apply wf_New|]|];
    by apply (bool_decide_unpack _); vm_compute.
Qed.

Lemma trigger_event_delivers_witness :
  ∃ m' w', TriggerEvent demo_event "e1" demo_watch = Some m' ∧ list_at "/a" m' = [1%nat] ∧
    heap m' !! 0%nat = Some w' ∧ buffer w' = [with_id "e1" demo_event] ∧ closed w' = true.
Proof.
  destruct (trigger_event_delivers demo_event "e1" demo_watch wf_demo_watch)
    as (m' & E & _ & Hl & Hw).
  destruct (Hw 0%nat (mkWatcher "w0" "/a" [] false false false) eq_refl) as (w' & Hw' & _ & Hd).
  exists m', w'. split; [exact E|]. split; [rewrite (Hl "/a"); vm_compute; reflexivity|].
  split; [exact Hw'|]. destruct Hd as (Hb & Hc & _).
  - vm_compute. left.
  - split; [exact Hb|exact Hc].
Defined.
