(* ===== verification/Locks.v ===== *)
(** * Distributed locks (internal/lock/manager.go)

    The lock manager keeps no queue of its own: a lock is a directory of the
    store, a request is an ephemeral sequential node in it, and the holder is
    the child that sorts first.  TryLock is not atomic: each call into the store
    and each section under m.mu is.  The pieces between two such points are
    separate definitions ([ensure_dir], [enqueue], [checkLockAcquired],
    [record_lock], [start_wait], [wait_notified], [wait_timeout]) and [TryLock]
    is their composition; theorems about interleavings use the pieces.

    A waiter is a channel of capacity one, shared by the waiting goroutine and
    the manager's list: channels live in a heap and are full or empty. *)

From S2P Require Import Prelude GoLib Sequence DataStore.

Module Lock.

Inductive Error :=
| StoreError (e : Store.Error)
| ErrLockNotHeld
| ErrLockTimeout
| ErrLockExists.

#[local] Existing Instance Store.Error_eq_dec.

#[export] Instance Error_eq_dec : EqDecision Error.
Proof. solve_decision. Defined.

Record Lock := mkLock {
  Name : string;
  Owner : string;
  SessionID : string;
  Path : string;
  Seq : Z;                (** the field Sequence *)
  Acquired : Z            (** 0 is the zero time *)
}.

(** [chans] tells for each waiter channel whether its buffer is full. *)
Record Manager := mkManager {
  locks : gmap string Lock;
  waiters : gmap string (list nat);
  chans : list bool
}.

(** NewManager also installs onNodeDeleted as the store's delete callback. *)
Definition NewManager (s : Store.Store) : Manager * Store.Store :=
  (mkManager ∅ ∅ [], Store.SetWatchCallbacks None None (Some Store.lock_onNodeDeleted) s).

Definition set_locks (l : gmap string Lock) (m : Manager) : Manager :=
  mkManager l (waiters m) (chans m).

(** A non-blocking send into a channel of capacity one. *)
Definition notify (w : nat) (m : Manager) : Manager :=
  mkManager (locks m) (waiters m) (<[w := true]> (chans m)).

Definition onNodeDeleted (path : string) (m : Manager) : Manager :=
  if negb (strings.HasPrefix path "/locks/") then m
  else
    match strings.Split path.slash path with
    | _ :: _ :: lockName :: _ =>
        match waiters m !! lockName with
        | Some (w :: _) => notify w m
        | _ => m
        end
    | _ => m
    end.

Definition lock_dir (name : string) : string := "/locks/" +:+ name.

(** Lines 102-105: the error of Create is ignored. *)
Definition ensure_dir (lockPath : string) (now1 now2 : Z) (s : Store.Store)
  : Store.Store * list Store.Goroutine :=
  if negb (Store.Exists lockPath s) then
    let '(_, s', gs) := Store.Create lockPath "" false "" false now1 now2 s in (s', gs)
  else (s, []).

(** Lines 107-111. *)
Definition enqueue (lockPath owner sessionID : string) (now1 now2 : Z) (s : Store.Store)
  : result Store.Error string * Store.Store * list Store.Goroutine :=
  Store.Create (lockPath +:+ "/lock-") owner true sessionID true now1 now2 s.

(** The digits of a suffix, as the loop over its runes reads them. *)
Definition parse_digits (s : string) : Z :=
  foldl (λ seq c, u64 (u64 (seq * 10) + u64 (c - 48))) 0%Z (runes.of_string s).

(** Lines 121-131. *)
Definition parse_sequence (nodePath lockPath : string) : Z :=
  let baseName := strings.TrimPrefix nodePath (lockPath +:+ "/") in
  match strings.Split "-"%char baseName with
  | [_; suffix] => parse_digits suffix
  | _ => 0%Z
  end.

Definition checkLockAcquired (lockPath ourPath : string) (s : Store.Store)
  : result Store.Error bool :=
  match Store.GetChildren lockPath s with
  | Err e => Err e
  | Panic => Panic
  | Ok children =>
      match sort_Strings children with
      | [] => Ok false
      | first :: _ =>
          Ok (bool_decide (first = strings.TrimPrefix ourPath (lockPath +:+ "/")))
      end
  end.

(** lock.Acquired = time.Now(); m.locks[nodePath] = lock *)
Definition record_lock (lock : Lock) (now : Z) (m : Manager) : Lock * Manager :=
  let lock := mkLock (Name lock) (Owner lock) (SessionID lock) (Path lock) (Seq lock) now in
  (lock, set_locks (<[Path lock := lock]> (locks m)) m).

(** waitForLock up to its loop: a new channel at the end of the lock's waiters. *)
Definition start_wait (name : string) (m : Manager) : nat * Manager :=
  let w := length (chans m) in
  (w, mkManager (locks m) (<[name := default [] (waiters m !! name) ++ [w]]> (waiters m))
        (chans m ++ [false])).

(** The deferred function of waitForLock. *)
Definition end_wait (name : string) (w : nat) (m : Manager) : Manager :=
  let ws := default [] (waiters m !! name) in
  if decide (w ∈ ws)
  then mkManager (locks m) (<[name := remove_first w ws]> (waiters m)) (chans m)
  else m.

(** The state of a call: finished with a result, or waiting on a channel. *)
Inductive Call :=
| Done (r : result Error Lock)
| Waiting (lock : Lock) (lockPath : string) (w : nat).

(** m.store.Delete(path, -1) with the result ignored. *)
Definition drop_node (path : string) (s : Store.Store) : Store.Store * list Store.Goroutine :=
  let '(_, s', gs) := Store.Delete path (-1) s in (s', gs).

(** The body of the branch case <-waiter, after the receive. *)
Definition wait_notified (lock : Lock) (lockPath : string) (w : nat) (now : Z)
    (s : Store.Store) (m : Manager)
  : Call * Store.Store * Manager * list Store.Goroutine :=
  match checkLockAcquired lockPath (Path lock) s with
  | Ok true =>
      let '(lock', m') := record_lock lock now m in
      (Done (Ok lock'), s, end_wait (Name lock) w m', [])
  | Ok false => (Waiting lock lockPath w, s, m, [])
  | Err e =>
      let '(s', gs) := drop_node (Path lock) s in
      (Done (Err (StoreError e)), s', end_wait (Name lock) w m, gs)
  | Panic => (Done Panic, s, m, [])
  end.

(** <-waiter: the goroutine proceeds only when the buffer is full. *)
Definition wait_receive (w : nat) (m : Manager) : option Manager :=
  match chans m !! w with
  | Some true => Some (mkManager (locks m) (waiters m) (<[w := false]> (chans m)))
  | _ => None
  end.

(** The branch case <-timer; the timer exists only for a positive timeout. *)
Definition wait_timeout (lock : Lock) (w : nat) (s : Store.Store) (m : Manager)
  : Call * Store.Store * Manager * list Store.Goroutine :=
  let '(s', gs) := drop_node (Path lock) s in
  (Done (Err ErrLockTimeout), s', end_wait (Name lock) w m, gs).

(** TryLock up to its return or to the loop of waitForLock, run without
    interference; [clock] gives the successive clock readings. *)
Definition TryLock (name owner sessionID : string) (timeout : Z) (clock : nat → Z)
    (s : Store.Store) (m : Manager)
  : Call * Store.Store * Manager * list Store.Goroutine :=
  let lockPath := lock_dir name in
  let '(s1, g1) := ensure_dir lockPath (clock 0%nat) (clock 1%nat) s in
  let '(r, s2, g2) := enqueue lockPath owner sessionID (clock 2%nat) (clock 3%nat) s1 in
  match r with
  | Err e => (Done (Err (StoreError e)), s2, m, g1 ++ g2)
  | Panic => (Done Panic, s2, m, g1 ++ g2)
  | Ok nodePath =>
      let lock := mkLock name owner sessionID nodePath (parse_sequence nodePath lockPath) 0 in
      match checkLockAcquired lockPath nodePath s2 with
      | Err e =>
          let '(s3, g3) := drop_node nodePath s2 in
          (Done (Err (StoreError e)), s3, m, g1 ++ g2 ++ g3)
      | Panic => (Done Panic, s2, m, g1 ++ g2)
      | Ok true =>
          let '(lock', m') := record_lock lock (clock 4%nat) m in
          (Done (Ok lock'), s2, m', g1 ++ g2)
      | Ok false =>
          if (timeout <? 0)%Z then
            let '(s3, g3) := drop_node nodePath s2 in
            (Done (Err ErrLockTimeout), s3, m, g1 ++ g2 ++ g3)
          else
            let '(w, m') := start_wait name m in
            (Waiting lock lockPath w, s2, m', g1 ++ g2)
      end
  end.

Definition Lock_ (name owner sessionID : string) :=
  TryLock name owner sessionID 0.

(** lockID, generated when empty, is not used. *)
Definition LockWithID (name owner sessionID lockID uuid : string) :=
  let lockID := if decide (lockID = "") then uuid else lockID in
  Lock_ name owner sessionID.

Definition Unlock (lock : option Lock) (s : Store.Store) (m : Manager)
  : result Error unit * Store.Store * Manager * list Store.Goroutine :=
  match lock with
  | None => (Err ErrLockNotHeld, s, m, [])
  | Some lock =>
      if decide (Path lock = "") then (Err ErrLockNotHeld, s, m, [])
      else
        let m' := set_locks (delete (Path lock) (locks m)) m in
        let '(r, s', gs) := Store.Delete (Path lock) (-1) s in
        (match r with Ok _ => Ok tt | Err e => Err (StoreError e) | Panic => Panic end,
         s', m', gs)
  end.

Definition IsLocked (name : string) (s : Store.Store) : bool :=
  match Store.GetChildren (lock_dir name) s with
  | Ok children => bool_decide (0 < length children)%nat
  | _ => false
  end.

Definition GetLockHolder (name : string) (s : Store.Store) : result Store.Error string :=
  match Store.GetChildren (lock_dir name) s with
  | Err e => Err e
  | Panic => Panic
  | Ok children =>
      match sort_Strings children with
      | [] => Ok ""
      | first :: _ =>
          match Store.Get (lock_dir name +:+ "/" +:+ first) s with
          | Ok node => Ok (Store.Data node)
          | Err e => Err e
          | Panic => Panic
          end
      end
  end.

Definition GetQueueLength (name : string) (s : Store.Store) : Z :=
  match Store.GetChildren (lock_dir name) s with
  | Ok children => Z.of_nat (length children)
  | _ => 0%Z
  end.

End Lock.
