(* ===== verification/LockQueue.v ===== *)
(** * Lock directories as queues: mutual exclusion and order

    The tickets of a lock are the sequential nodes in its directory.  The
    theorems hold for every interleaving of the atomic store operations of any
    number of clients with the calls to checkLockAcquired, provided nobody
    creates foreign nodes inside the lock's directory. *)

From S2P Require Import Prelude GoLib Sequence DataStore StoreInv StoreSpec Locks.
Import Store Spec Lock.

(** ** Names *)

Definition dir (name : string) : list string := ["locks"; name].
Definition ticket (k : Z) : string := "lock-" +:+ Sequence.formatSequence k.
Definition ticket_path (name : string) (k : Z) : string := abs_path (dir name ++ [ticket k]).

Lemma valid_locks : valid_comp "locks".
Proof. by apply (bool_decide_unpack _); vm_compute. Qed.

Lemma valid_prefix : valid_comp "lock-".
Proof. by apply (bool_decide_unpack _); vm_compute. Qed.

Lemma valid_dir name : valid_comp name → Forall valid_comp (dir name).
Proof. intros. constructor; [apply valid_locks|]. by apply Forall_singleton. Qed.

Lemma valid_snoc cs c : Forall valid_comp cs → valid_comp c → Forall valid_comp (cs ++ [c]).
Proof. intros. apply Forall_app. split; [done|]. by apply Forall_singleton. Qed.

Lemma valid_ticket k : in_u64 k → valid_comp (ticket k).
Proof. intros. by apply valid_comp_seq. Qed.

#[export] Hint Resolve valid_dir valid_snoc valid_ticket valid_locks valid_prefix : sky.

Lemma lock_dir_abs name : lock_dir name = abs_path (dir name).
Proof. done. Qed.

Lemma child_path name c : lock_dir name +:+ "/" +:+ c = abs_path (dir name ++ [c]).
Proof. by rewrite lock_dir_abs, abs_path_snoc. Qed.

Lemma TrimPrefix_child name c :
  strings.TrimPrefix (abs_path (dir name ++ [c])) (lock_dir name +:+ "/") = c.
Proof. rewrite <- child_path, <- str_app_assoc. apply TrimPrefix_app. Qed.

Lemma ticket_inj j k : in_u64 j → in_u64 k → ticket j = ticket k → j = k.
Proof.
  intros Hj Hk E. apply formatSequence_inj; [done..|]. unfold ticket in E.
  by apply (inj (String.app "lock-")) in E.
Qed.

Lemma ticket_le j k :
  (0 ≤ j < 10 ^ 10)%Z → (0 ≤ k < 10 ^ 10)%Z → String.le (ticket j) (ticket k) ↔ (j ≤ k)%Z.
Proof.
  intros Hj Hk. unfold String.le, String.leb, ticket.
  rewrite compare_app, formatSequence_compare by done.
  destruct (Z.compare_spec j k); simpl; split; try done; lia.
Qed.

(** ** The first child *)

Lemma sort_Strings_first l x r :
  sort_Strings l = x :: r → x ∈ l ∧ ∀ y, y ∈ l → String.le x y.
Proof.
  intros E. unfold sort_Strings in E.
  pose proof (merge_sort_Permutation String.le l) as Hp.
  pose proof (Sorted_merge_sort String.le l) as Hs. rewrite E in Hp, Hs.
  apply Sorted_StronglySorted in Hs; [|apply _]. apply StronglySorted_inv in Hs as [_ Hs].
  rewrite Forall_forall in Hs. split; [rewrite <- Hp; by left|].
  intros y. rewrite <- Hp. intros [->|Hy]%elem_of_cons; [done|auto].
Qed.

Lemma sort_Strings_idem l : sort_Strings (sort_Strings l) = sort_Strings l.
Proof. apply sort_Strings_perm. apply merge_sort_Permutation. Qed.

Lemma sort_Strings_elem l x : x ∈ sort_Strings l ↔ x ∈ l.
Proof. unfold sort_Strings. by rewrite merge_sort_Permutation. Qed.

Lemma length_sort_Strings l : length (sort_Strings l) = length l.
Proof. apply Permutation_length, merge_sort_Permutation. Qed.

(** [c] is a node in the directory of lock [name]. *)
Definition in_dir (name : string) (s : Store) (c : string) : Prop :=
  valid_comp c ∧ is_Some (nodes s !! abs_path (dir name ++ [c])).

Lemma GetChildren_dir name s :
  wf s → valid_comp name →
  match GetChildren (lock_dir name) s with
  | Ok cs => is_Some (nodes s !! lock_dir name) ∧ ∀ c, c ∈ cs ↔ in_dir name s c
  | Err _ => ∀ c, ¬ in_dir name s c
  | Panic => False
  end.
Proof.
  intros [Hwf _] Hn. unfold GetChildren. rewrite lock_dir_abs, normalizePath_id by auto with sky.
  destruct (nodes s !! abs_path (dir name)) as [n|] eqn:E.
  - split; [done|]. intros c. rewrite sort_Strings_elem.
    rewrite (Children_perm _ _ _ Hwf (valid_dir _ Hn) E). by apply elem_of_child_names, valid_dir.
  - intros c [Hc [m Hm]].
    destruct (wf_parent _ Hwf (dir name) c m) as (pn & Hpn & _); [auto with sky|done|congruence].
Qed.

(** checkLockAcquired answers true exactly for the first name of the directory. *)
Lemma checkLockAcquired_first name c s :
  wf s → valid_comp name →
  checkLockAcquired (lock_dir name) (abs_path (dir name ++ [c])) s = Ok true ↔
  in_dir name s c ∧ ∀ d, in_dir name s d → String.le c d.
Proof.
  intros Hwf Hn. unfold checkLockAcquired. pose proof (GetChildren_dir name s Hwf Hn) as H.
  destruct (GetChildren (lock_dir name) s) as [cs|e|]; [|split; [done|naive_solver]|done].
  destruct H as [_ H]. destruct (sort_Strings cs) as [|f r] eqn:E.
  - split; [done|]. intros [Hc _]. apply H, sort_Strings_elem in Hc.
    rewrite E in Hc. by apply elem_of_nil in Hc.
  - destruct (sort_Strings_first _ _ _ E) as [Hf Hle]. rewrite TrimPrefix_child. split.
    + intros [= ->%bool_decide_eq_true]. split; [by apply H|]. intros d Hd. by apply Hle, H.
    + intros [Hc Hm]. f_equal. apply bool_decide_eq_true.
      apply (anti_symm String.le); [by apply Hle, H|by apply Hm, H].
Qed.

(** ** Interleavings *)

(** Nodes are created inside the lock's directory only as TryLock does it: as
    sequential nodes with the prefix lock-. *)
Definition respects (name : string) (o : op) : Prop :=
  match o with
  | OCreate p _ _ _ sq _ _ =>
      parentPath (normalizePath p) = lock_dir name →
      normalizePath p = abs_path (dir name ++ ["lock-"]) ∧ sq = true
  | _ => True
  end.

(** The second component collects the paths for which some client was told
    that it has the lock. *)
Inductive lstep (name : string) : Store * list string → Store * list string → Prop :=
| ls_store o s acq :
    op_ok o s → respects name o → lstep name (s, acq) ((exec o s).2, acq)
| ls_check c s acq :
    checkLockAcquired (lock_dir name) (lock_dir name +:+ "/" +:+ c) s = Ok true →
    lstep name (s, acq) (s, (lock_dir name +:+ "/" +:+ c) :: acq).

Lemma Create_err_nodes p d e sid sq t1 t2 s r s' gs :
  Create p d e sid sq t1 t2 s = (r, s', gs) → (∀ a, r ≠ Ok a) → nodes s' = nodes s.
Proof.
  intros E Hr. destruct (normalizePath_cases p) as [Hp|(cs & c & Hv & Hp)].
  - rewrite Create_root in E by done. cbv zeta in E. case_match; simplify_eq.
    + by destruct sq.
    + by exfalso; eapply Hr.
  - rewrite (Create_child _ _ _ _ _ _ _ _ cs c) in E by done. cbv zeta in E.
    repeat case_match; simplify_eq; try done; [by destruct sq|by exfalso; eapply Hr].
Qed.

(** A new key comes from a successful Create. *)
Lemma exec_new_key o s q :
  wf s → op_ok o s → is_Some (nodes (exec o s).2 !! q) →
  is_Some (nodes s !! q) ∨
  ∃ p d e sid sq t1 t2 gs, o = OCreate p d e sid sq t1 t2 ∧
    Create p d e sid sq t1 t2 s = (Ok q, (exec o s).2, gs).
Proof.
  intros Hwf Hok Hq.
  assert (is_Some (tree (a_exec o (abs s)).2 !! q)) as Ha.
  { rewrite exec_refines by done. simpl. by rewrite lookup_fmap, fmap_is_Some. }
  assert (Habs : is_Some (tree (abs s) !! q) → is_Some (nodes s !! q)).
  { simpl. by rewrite lookup_fmap, fmap_is_Some. }
  revert Hq Ha. destruct o; cbn [exec a_exec]; intros Hq Ha.
  2, 5, 6, 8: by left; apply Habs.
  - destruct (Create p data eph sid sequential t1 t2 s) as [[r s'] gs] eqn:E. simpl in Hq.
    destruct r as [a|e|].
    + destruct (decide (q = a)) as [->|Hne]; [by right; eexists _, _, _, _, _, _, _, gs|].
      left. destruct (Create_ok _ _ _ _ _ _ _ _ _ _ _ E) as (_ & _ & _ & He).
      rewrite <- (fmap_is_Some entry), <- lookup_fmap, He, lookup_insert_ne, lookup_fmap,
        fmap_is_Some in Hq by done. done.
    + left. eapply Create_err_nodes in E; [by rewrite E in Hq|done].
    + left. eapply Create_err_nodes in E; [by rewrite E in Hq|done].
  - left. apply Habs. unfold a_Set in Ha. repeat case_match; simplify_eq; try done. simpl in *.
    destruct (decide (q = normalizePath p)) as [->|]; [by eexists|].
    by rewrite lookup_insert_ne in Ha.
  - left. apply Habs. unfold a_Delete in Ha. repeat case_match; simplify_eq; try done. simpl in *.
    destruct Ha as [nd [_ Hn]%lookup_delete_Some]. by eexists.
  - left. apply Habs. destruct Ha as [nd [Hn _]%map_lookup_filter_Some]. by eexists.
Qed.

(** The invariant: the directory holds tickets with numbers up to the counter,
    and a path that was granted is, while its node exists, the lowest. *)
Record queue_inv (name : string) (s : Store) (acq : list string) : Prop := {
  qi_wf : wf s;
  qi_tickets : ∀ c, in_dir name s c → ∃ k, c = ticket k ∧ (0 < k ≤ seqCounter s)%Z;
  qi_granted : ∀ p, p ∈ acq →
    ∃ k, p = ticket_path name k ∧ (0 < k ≤ seqCounter s)%Z ∧
      (in_dir name s (ticket k) → ∀ j, in_dir name s (ticket j) → (0 < j ≤ seqCounter s)%Z →
         (k ≤ j)%Z)
}.

(** A successful Create in the directory takes the next ticket. *)
Lemma Create_in_dir name p d e sid sq t1 t2 s q s' gs c :
  valid_comp name → wf s → (0 ≤ seqCounter s < 10 ^ 10 - 1)%Z →
  respects name (OCreate p d e sid sq t1 t2) →
  Create p d e sid sq t1 t2 s = (Ok q, s', gs) →
  valid_comp c → q = abs_path (dir name ++ [c]) →
  c = ticket (seqCounter s + 1) ∧ seqCounter s' = (seqCounter s + 1)%Z.
Proof.
  intros Hn Hwf Hb Hr HC Hc Hq. assert (Forall valid_comp (dir name ++ [c])) as Hv by auto with sky.
  destruct (normalizePath_cases p) as [Hp|(cs & c' & Hv' & Hp)].
  - rewrite Create_root in HC by done. cbv zeta in HC. case_match; [done|].
    injection HC as E _ _. rewrite Hq in E. exfalso. destruct sq.
    + apply abs_path_inj in E; [|repeat constructor; apply (valid_comp_seq "" _ eq_refl), u64_range|done].
      done.
    + symmetry in E. by apply (abs_path_snoc_not_root (dir name) c).
  - rewrite (Create_child _ _ _ _ _ _ _ _ cs c') in HC by done. cbv zeta in HC.
    pose proof (seq_name_valid sq cs c' s Hv') as Hv''.
    repeat case_match; try done. injection HC as E <- _. rewrite Hq in E.
    apply abs_path_inj in E; [|done..]. apply app_inj_tail in E as [-> <-].
    unfold respects in Hr. rewrite Hp, parentPath_abs in Hr by done. destruct (Hr eq_refl) as [Hpre ->].
    apply abs_path_inj in Hpre; [|done|auto with sky]. apply app_inj_tail in Hpre as [_ ->].
    assert (u64 (seqCounter s + 1) = seqCounter s + 1)%Z as Hu
      by (apply u64_small; unfold in_u64, u64_max; lia).
    unfold seq_name, ticket. simpl. by rewrite Hu.
Qed.

Lemma exec_counter_bound o s :
  wf s → (seqCounter s < 10 ^ 10 - 1)%Z →
  (seqCounter s ≤ seqCounter (exec o s).2 ≤ seqCounter s + 1)%Z.
Proof.
  intros [_ Hin] Hb. unfold in_u64 in Hin.
  destruct (exec_counter o s) as [->| ->]; [done|lia|].
  rewrite u64_small; unfold in_u64, u64_max; lia.
Qed.

Lemma queue_inv_store name o s acq :
  valid_comp name → (seqCounter s < 10 ^ 10 - 1)%Z → op_ok o s → respects name o →
  queue_inv name s acq → queue_inv name (exec o s).2 acq.
Proof.
  intros Hn Hb Hok Hr [Hwf Ht Hg].
  assert (0 ≤ seqCounter s)%Z as H0 by (destruct Hwf as [_ [? _]]; done).
  pose proof (exec_counter_bound o s Hwf Hb) as Hc.
  assert (Hnew : ∀ c, in_dir name (exec o s).2 c →
    in_dir name s c ∨ c = ticket (seqCounter s + 1) ∧
                      seqCounter (exec o s).2 = (seqCounter s + 1)%Z).
  { intros c [Hv Hs]. destruct (exec_new_key o s _ Hwf Hok Hs)
      as [?|(p & d & e & sid & sq & t1 & t2 & gs & -> & HC)]; [by left|right].
    by eapply (Create_in_dir name p d e sid sq t1 t2 s). }
  split.
  - by apply exec_wf.
  - intros c [Hd|[-> Hs]]%Hnew.
    + destruct (Ht c Hd) as (k & -> & Hk). exists k. split; [done|lia].
    + exists (seqCounter s + 1)%Z. split; [done|lia].
  - intros p Hp. destruct (Hg p Hp) as (k & -> & Hk & Hlow). exists k.
    split; [done|]. split; [lia|]. intros Hdk j Hdj Hj.
    assert (in_dir name s (ticket k)) as Hk0.
    { destruct (Hnew _ Hdk) as [?|[E _]]; [done|].
      apply ticket_inj in E; unfold in_u64, u64_max; lia. }
    destruct (Hnew _ Hdj) as [Hj0|[E _]].
    + apply Hlow; [done..|]. destruct (Ht _ Hj0) as (j' & E & Hj').
      apply ticket_inj in E; unfold in_u64, u64_max; lia.
    + apply ticket_inj in E; unfold in_u64, u64_max; lia.
Qed.

Lemma queue_inv_check name c s acq :
  valid_comp name → (seqCounter s < 10 ^ 10)%Z → queue_inv name s acq →
  checkLockAcquired (lock_dir name) (lock_dir name +:+ "/" +:+ c) s = Ok true →
  queue_inv name s ((lock_dir name +:+ "/" +:+ c) :: acq).
Proof.
  intros Hn Hb [Hwf Ht Hg]. rewrite child_path, checkLockAcquired_first by done.
  intros [Hc Hlow]. split; [done..|].
  intros p [->|Hp]%elem_of_cons; [|by apply Hg]. destruct (Ht c Hc) as (k & -> & Hk).
  exists k. split; [done|]. split; [done|]. intros _ j Hj Hbj.
  apply Hlow in Hj. apply ticket_le in Hj; lia.
Qed.

Lemma queue_inv_reach name k s0 acq0 s acq :
  valid_comp name → nsteps (lstep name) k (s0, acq0) (s, acq) →
  queue_inv name s0 acq0 → (seqCounter s0 + Z.of_nat k < 10 ^ 10)%Z →
  queue_inv name s acq ∧ (seqCounter s ≤ seqCounter s0 + Z.of_nat k)%Z.
Proof.
  intros Hn. revert s0 acq0. induction k as [|k IH]; intros s0 acq0 Hst Hinv Hb.
  { inversion Hst; subst. split; [done|lia]. }
  inversion Hst as [|? ? [s1 acq1] ? Hs Hrest]; subst. inversion Hs; subst.
  - destruct (IH _ _ Hrest) as [? ?].
    + apply queue_inv_store; try done. lia.
    + pose proof (exec_counter_bound o s0 (qi_wf _ _ _ Hinv) ltac:(lia)). lia.
    + pose proof (exec_counter_bound o s0 (qi_wf _ _ _ Hinv) ltac:(lia)). split; [done|lia].
  - destruct (IH _ _ Hrest) as [? ?]; [|lia|split; [done|lia]].
    apply queue_inv_check; try done. lia.
Qed.

Lemma wf_SetWatchCallbacks a b c s : wf s → wf (SetWatchCallbacks a b c s).
Proof. done. Qed.

Lemma queue_inv_New name a b c t1 t2 :
  valid_comp name → queue_inv name (SetWatchCallbacks a b c (NewStore t1 t2)) [].
Proof.
  intros Hn. split; [apply wf_SetWatchCallbacks, wf_NewStore| |intros p []%elem_of_nil].
  intros d [Hd [n Hs]]. simpl in Hs. apply lookup_singleton_Some in Hs as [E _]. exfalso.
  apply (abs_path_snoc_not_root (dir name) d); auto with sky.
Qed.

(** GetLockHolder reads the lowest ticket. *)
Lemma GetLockHolder_first name c s :
  wf s → valid_comp name → in_dir name s c → (∀ d, in_dir name s d → String.le c d) →
  ∃ n, Get (abs_path (dir name ++ [c])) s = Ok n ∧ GetLockHolder name s = Ok (Data n).
Proof.
  intros Hwf Hn Hc Hlow. unfold GetLockHolder. pose proof (GetChildren_dir name s Hwf Hn) as H.
  destruct (GetChildren (lock_dir name) s) as [cs|e|]; [|by apply H in Hc|done].
  destruct H as [_ H]. destruct (sort_Strings cs) as [|f r] eqn:E.
  { apply H, sort_Strings_elem in Hc. rewrite E in Hc. by apply elem_of_nil in Hc. }
  destruct (sort_Strings_first _ _ _ E) as [Hf Hle].
  assert (f = c) as ->.
  { apply (anti_symm String.le); [by apply Hle, H|by apply Hlow, H]. }
  rewrite child_path. unfold Get. destruct Hc as [Hv [n Hs]].
  rewrite normalizePath_id by auto with sky. rewrite Hs. by exists n.
Qed.

(** C1. Mutual exclusion among the users of the lock manager: from a new store,
    under any interleaving of store operations by any clients with the calls of
    checkLockAcquired, of all the nodes for which some client was told that it
    holds the lock at most one still exists, and its owner is the one
    GetLockHolder reports.  The lock's name is one path element; the operations
    create nodes in the lock's directory only as TryLock does, and none is a
    sequential node at the root; there are fewer than 10^10 steps.  (The API does
    not keep other nodes out, see [foreign_node_blocks_lock].) *)
Theorem lock_mutual_exclusion name a b c t1 t2 k s acq :
  valid_comp name → (Z.of_nat k < 10 ^ 10)%Z →
  nsteps (lstep name) k (SetWatchCallbacks a b c (NewStore t1 t2), []) (s, acq) →
  (∀ p q, p ∈ acq → q ∈ acq → Exists p s = true → Exists q s = true → p = q) ∧
  ∀ p, p ∈ acq → Exists p s = true →
    ∃ n, Get p s = Ok n ∧ GetLockHolder name s = Ok (Data n).
Proof.
  intros Hn Hk Hst.
  destruct (queue_inv_reach name k _ _ s acq Hn Hst (queue_inv_New name a b c t1 t2 Hn))
    as [[Hwf Ht Hg] Hc]; [simpl; lia|]. simpl in Hc.
  assert (Hex : ∀ i, (0 < i ≤ seqCounter s)%Z → Exists (ticket_path name i) s = true →
                     in_dir name s (ticket i)).
  { intros i Hi He. assert (valid_comp (ticket i)) as Hv
      by (apply valid_ticket; unfold in_u64, u64_max; lia). split; [done|].
    unfold ticket_path in He. rewrite Exists_canonical in He by (eexists; split; [|done]; auto with sky).
    by apply bool_decide_eq_true in He. }
  split.
  - intros p q Hp Hq Ep Eq. destruct (Hg p Hp) as (i & -> & Hi & Li).
    destruct (Hg q Hq) as (j & -> & Hj & Lj).
    specialize (Hex i Hi Ep) as Di. specialize (Hex j Hj Eq) as Dj. f_equal.
    specialize (Li Di j Dj Hj). specialize (Lj Dj i Di Hi). lia.
  - intros p Hp Ep. destruct (Hg p Hp) as (i & -> & Hi & Li). specialize (Hex i Hi Ep) as Di.
    apply GetLockHolder_first; [done..|]. intros d Hd. destruct (Ht d Hd) as (j & -> & Hj).
    apply ticket_le; [lia..|]. by apply Li.
Qed.

(** Two clients queue for lock L; the first is told it holds the lock. *)
Definition demo_lock_ops : list op :=
  [OCreate "/locks" "" false "" false 0 0; OCreate "/locks/L" "" false "" false 0 0;
   OCreate "/locks/L/lock-" "alice" true "s1" true 0 0;
   OCreate "/locks/L/lock-" "bob" true "s2" true 0 0].

Definition demo_lock_store : Store := foldl (λ s o, (exec o s).2) (NewStore 0 0) demo_lock_ops.

(** Running store operations is a sequence of steps. *)
Lemma ops_steps name acq os s :
  (∀ o s, o ∈ os → op_ok o s) → (∀ o, o ∈ os → respects name o) →
  nsteps (lstep name) (length os) (s, acq) (foldl (λ s o, (exec o s).2) s os, acq).
Proof.
  revert s. induction os as [|o os IH]; intros s Hok Hr; simpl; [constructor|].
  eapply nsteps_l; [apply ls_store|].
  - apply Hok. by left.
  - apply Hr. by left.
  - apply IH; intros; [apply Hok|apply Hr]; by right.
Qed.

Lemma demo_lock_steps :
  nsteps (lstep "L") 5 (NewStore 0 0, []) (demo_lock_store, ["/locks/L/lock-0000000001"]).
Proof.
  apply (nsteps_trans 4 1 _ (demo_lock_store, [])).
  - apply (ops_steps "L" [] demo_lock_ops).
    + intros o s. unfold demo_lock_ops. rewrite !elem_of_cons.
      intros [->|[->|[->|[->|[]%elem_of_nil]]]] [? ?]; done.
    + intros o. unfold demo_lock_ops. rewrite !elem_of_cons.
      intros [->|[->|[->|[->|[]%elem_of_nil]]]] H; vm_compute in H; try done;
        split; vm_compute; reflexivity.
  - eapply nsteps_l; [|apply nsteps_O].
    apply (ls_check "L" "lock-0000000001"). vm_compute. reflexivity.
Qed.

Lemma lock_mutual_exclusion_witness :
  Exists "/locks/L/lock-0000000001" demo_lock_store = true ∧
  ∃ n, Get "/locks/L/lock-0000000001" demo_lock_store = Ok n ∧
       GetLockHolder "L" demo_lock_store = Ok (Data n).
Proof.
  split; [vm_compute; reflexivity|].
  destruct (lock_mutual_exclusion "L" None None None 0 0 5 demo_lock_store
              ["/locks/L/lock-0000000001"]) as [_ H].
  - by apply (bool_decide_unpack _); vm_compute.
  - lia.
  - exact demo_lock_steps.
  - apply H; [left|vm_compute; reflexivity].
Defined.

(** C6. Locks are granted in the order of the requests, under the conditions of
    [lock_mutual_exclusion] (one path element as name, only tickets created in
    the lock's directory, no sequential node at the root, fewer than 10^10
    steps): in every reachable state checkLockAcquired answers true for a ticket
    exactly when it is queued and no queued ticket has a lower number; so while
    an earlier request is queued a later one is refused, and a non-empty queue
    always has exactly one ticket that is granted. *)
Theorem lock_granted_in_request_order name a b c t1 t2 k s acq :
  valid_comp name → (Z.of_nat k < 10 ^ 10)%Z →
  nsteps (lstep name) k (SetWatchCallbacks a b c (NewStore t1 t2), []) (s, acq) →
  let queued i := (0 < i ≤ seqCounter s)%Z ∧ Exists (ticket_path name i) s = true in
  (∀ i, (0 < i ≤ seqCounter s)%Z →
     checkLockAcquired (lock_dir name) (ticket_path name i) s = Ok true ↔
     queued i ∧ ∀ j, queued j → (i ≤ j)%Z) ∧
  ((0 < GetQueueLength name s)%Z →
     ∃ i, queued i ∧ checkLockAcquired (lock_dir name) (ticket_path name i) s = Ok true).
Proof.
  intros Hn Hk Hst queued.
  destruct (queue_inv_reach name k _ _ s acq Hn Hst (queue_inv_New name a b c t1 t2 Hn))
    as [[Hwf Ht _] Hc]; [simpl; lia|]. simpl in Hc.
  assert (Hex : ∀ i, (0 < i ≤ seqCounter s)%Z →
                     Exists (ticket_path name i) s = true ↔ in_dir name s (ticket i)).
  { intros i Hi. assert (valid_comp (ticket i)) as Hv
      by (apply valid_ticket; unfold in_u64, u64_max; lia).
    unfold ticket_path, in_dir. rewrite Exists_canonical by (eexists; split; [|done]; auto with sky).
    rewrite bool_decide_eq_true. naive_solver. }
  split.
  - intros i Hi. unfold ticket_path at 1. rewrite checkLockAcquired_first by done. split.
    + intros [Hd Hlow]. split; [split; [done|by apply Hex]|].
      intros j [Hj Ej]. apply Hex, Hlow, ticket_le in Ej; lia.
    + intros [[_ Ei] Hlow]. split; [by apply Hex|]. intros d Hd.
      destruct (Ht d Hd) as (j & -> & Hj). apply ticket_le; [lia..|]. apply Hlow.
      split; [done|by apply Hex].
  - unfold GetQueueLength. pose proof (GetChildren_dir name s Hwf Hn) as H.
    destruct (GetChildren (lock_dir name) s) as [cs|e|] eqn:E; [|lia..]. destruct H as [_ H].
    intros Hl. destruct (sort_Strings cs) as [|f r] eqn:Es.
    { apply (f_equal length) in Es. rewrite length_sort_Strings in Es. simpl in Es. lia. }
    destruct (sort_Strings_first _ _ _ Es) as [Hf Hle]. apply H in Hf as Hd.
    destruct (Ht f Hd) as (i & -> & Hi). exists i. split; [split; [done|by apply Hex]|].
    apply checkLockAcquired_first; [done..|]. split; [done|].
    intros d Hd'. by apply Hle, H.
Qed.

Lemma lock_granted_in_request_order_witness :
  GetQueueLength "L" demo_lock_store = 2%Z ∧
  (∃ i, Exists (ticket_path "L" i) demo_lock_store = true ∧
     checkLockAcquired (lock_dir "L") (ticket_path "L" i) demo_lock_store = Ok true) ∧
  checkLockAcquired (lock_dir "L") (ticket_path "L" 2) demo_lock_store = Ok false.
Proof.
  split; [vm_compute; reflexivity|]. split; [|vm_compute; reflexivity].
  destruct (lock_granted_in_request_order "L" None None None 0 0 5 demo_lock_store
              ["/locks/L/lock-0000000001"]) as [_ H].
  - by apply (bool_decide_unpack _); vm_compute.
  - lia.
  - exact demo_lock_steps.
  - destruct H as (i & [_ He] & Hc); [vm_compute; reflexivity|].
    exists i. split; [exact He|exact Hc].
Defined.

(** C27. Any other node in the lock's directory that sorts before a ticket blocks
    that ticket: while the node exists, checkLockAcquired is false for the ticket
    even if it is the lowest one.  Nothing stops a client from creating such a
    node through the node API, for instance /locks/L/a for the lock L. *)
Theorem foreign_node_blocks_lock name c i s :
  wf s → valid_comp name → valid_comp c → Exists (abs_path (dir name ++ [c])) s = true →
  c ≠ ticket i → String.le c (ticket i) →
  checkLockAcquired (lock_dir name) (ticket_path name i) s = Ok false.
Proof.
  intros Hwf Hn Hc He Hne Hle.
  assert (in_dir name s c) as Hd.
  { split; [done|]. rewrite Exists_canonical in He by (eexists; split; [|done]; auto with sky).
    by apply bool_decide_eq_true in He. }
  pose proof (checkLockAcquired_first name (ticket i) s Hwf Hn) as [H _]. fold (ticket_path name i) in H.
  unfold checkLockAcquired in *. pose proof (GetChildren_dir name s Hwf Hn) as HG.
  destruct (GetChildren (lock_dir name) s) as [cs|e|]; [|by exfalso; eapply HG|done].
  destruct (sort_Strings cs) as [|f r]; [done|]. f_equal. apply not_true_is_false. intros Hb.
  destruct H as [_ H]; [by rewrite Hb|]. apply Hne, (anti_symm String.le); auto.
Qed.

(** Ticket 1 of alice with the node /locks/L/a beside it. *)
Definition foreign_store : Store :=
  foldl (λ s o, (exec o s).2) demo_lock_store [OCreate "/locks/L/a" "x" false "" false 0 0].

Lemma foreign_store_wf : wf foreign_store.
Proof.
  assert (wf demo_lock_store) as Hwf.
  { unfold demo_lock_store. assert (∀ os s, wf s → (∀ o s, o ∈ os → op_ok o s) →
      wf (foldl (λ s o, (exec o s).2) s os)) as Hf.
    { induction os as [|o os IH]; intros s Hs Ho; [done|]. apply IH; [|intros; apply Ho; by right].
      apply exec_wf; [done|]. apply Ho. by left. }
    apply Hf; [apply wf_NewStore|]. intros o s Ho. unfold demo_lock_ops in Ho.
    rewrite !elem_of_cons in Ho. destruct Ho as [->|[->|[->|[->|[]%elem_of_nil]]]]; by intros [? ?]. }
  apply exec_wf; [done|]. by intros [? ?].
Qed.

Lemma foreign_node_blocks_lock_witness :
  Exists (ticket_path "L" 1) foreign_store = true ∧
  checkLockAcquired (lock_dir "L") (ticket_path "L" 1) foreign_store = Ok false.
Proof.
  split; [vm_compute; reflexivity|].
  apply (foreign_node_blocks_lock "L" "a" 1 foreign_store foreign_store_wf).
  - by apply (bool_decide_unpack _); vm_compute.
  - by apply (bool_decide_unpack _); vm_compute.
  - vm_compute. reflexivity.
  - vm_compute. discriminate.
  - vm_compute. exact I.
Defined.
