(* ===== verification/LockOps.v ===== *)
(** * TryLock and Unlock, call by call

    What a call of the lock manager returns and does to the store: the ticket
    number is read back from the node's name, a free lock is acquired, a busy
    one is refused and leaves the tree as it was, Unlock frees it again, and no
    lock can be taken while /locks does not exist. *)

From S2P Require Import Prelude GoLib Sequence DataStore StoreInv StoreSpec Locks LockQueue.
Import Store Spec Lock.

(** ** The ticket number *)

Lemma runes_digits s : Sequence.all_digits s = true → runes.of_string s = runes.bytes_Z s.
Proof.
  unfold runes.of_string. induction s as [|a s IH]; [done|]. simpl. unfold runes.between.
  intros [Ha Hs]%andb_true_iff. destruct (Z.ltb_spec (runes.byte_Z a) 128); [|lia].
  by rewrite IH.
Qed.

Lemma u64_step x c : u64 (u64 (u64 x * 10) + u64 (c - 48)) = u64 (x * 10 + (c - 48)).
Proof.
  unfold u64, u64_max. rewrite Z.mul_mod_idemp_l, <- Z.add_mod by done. done.
Qed.

Lemma parse_digits_dec s :
  Sequence.all_digits s = true → parse_digits s = u64 (Sequence.dec_from 0 s).
Proof.
  intros Hs. unfold parse_digits, Sequence.dec_from. rewrite runes_digits by done.
  change 0%Z with (u64 0) at 1. generalize 0%Z as acc. clear Hs.
  induction (runes.bytes_Z s) as [|b bs IH]; intros acc; [done|]. simpl.
  rewrite u64_step. apply IH.
Qed.

Lemma parse_ticket name k : in_u64 k → parse_sequence (ticket_path name k) (lock_dir name) = k.
Proof.
  intros Hk. unfold parse_sequence, ticket_path. rewrite TrimPrefix_child. unfold ticket.
  destruct (formatSequence_digits k Hk) as [Hd Hv].
  change ("lock-" +:+ Sequence.formatSequence k)
    with ("lock" +:+ String "-"%char (Sequence.formatSequence k)).
  rewrite Split_app_sep by done. rewrite Split_no_sep.
  - rewrite parse_digits_dec, Hv by done. by apply u64_small.
  - by apply all_digits_no_char.
Qed.

(** ** The directory and the ticket *)

(** The directory of locks exists and can have children. *)
Definition locks_ready (name : string) (s : Store) : Prop :=
  (∃ n, nodes s !! "/locks" = Some n ∧ Ephemeral n = false) ∧
  (∀ n, nodes s !! lock_dir name = Some n → Ephemeral n = false).

Definition dir_ready (name : string) (s : Store) : Prop :=
  ∃ n, nodes s !! abs_path (dir name) = Some n ∧ Ephemeral n = false.

Lemma norm_dir name : valid_comp name → normalizePath (lock_dir name) = abs_path (["locks"] ++ [name]).
Proof. intros. rewrite lock_dir_abs, normalizePath_id by auto with sky. done. Qed.

Lemma norm_prefix name :
  valid_comp name → normalizePath (lock_dir name +:+ "/lock-") = abs_path (dir name ++ ["lock-"]).
Proof.
  intros. change "/lock-" with ("/" +:+ "lock-"). rewrite child_path.
  apply normalizePath_id. auto with sky.
Qed.

Lemma respects_dir name d e sid t1 t2 :
  valid_comp name → respects name (OCreate (lock_dir name) d e sid false t1 t2).
Proof.
  intros Hn. unfold respects. rewrite norm_dir by done.
  rewrite parentPath_abs by (apply (valid_dir _ Hn)). intros E.
  apply (abs_path_inj ["locks"] (dir name)) in E; [done|repeat constructor; apply valid_locks|].
  auto with sky.
Qed.

Lemma respects_ticket name d e sid t1 t2 :
  valid_comp name → respects name (OCreate (lock_dir name +:+ "/lock-") d e sid true t1 t2).
Proof. intros Hn. unfold respects. rewrite norm_prefix by done. done. Qed.

(** ensure_dir: the directory exists afterwards and its contents are unchanged. *)
Lemma ensure_dir_ready name t1 t2 s acq :
  valid_comp name → (seqCounter s < 10 ^ 10 - 1)%Z → queue_inv name s acq →
  locks_ready name s →
  let '(s', _) := ensure_dir (lock_dir name) t1 t2 s in
  queue_inv name s' acq ∧ dir_ready name s' ∧ seqCounter s' = seqCounter s ∧
  (∀ c, in_dir name s' c ↔ in_dir name s c) ∧
  (is_Some (nodes s !! lock_dir name) → s' = s).
Proof.
  intros Hn Hb Hinv [(ln & Hln & Hle) Hd]. unfold ensure_dir.
  unfold Exists. rewrite norm_dir by done.
  change (abs_path (["locks"] ++ [name])) with (lock_dir name).
  destruct (nodes s !! lock_dir name) as [n|] eqn:E; simpl.
  { split_and!; try done. exists n. split; [done|by apply Hd]. }
  pose proof (queue_inv_store name (OCreate (lock_dir name) "" false "" false t1 t2) s acq
                Hn Hb (λ H, ltac:(by destruct H)) (respects_dir _ _ _ _ _ _ Hn) Hinv) as Hinv'.
  cbn [exec] in Hinv'.
  rewrite (Create_child _ _ _ _ _ _ _ _ ["locks"] name) in *
    by (try apply norm_dir; try apply (valid_dir name); done).
  change (abs_path ["locks"]) with "/locks" in *. rewrite Hln, Hle in *. cbv zeta in *.
  change (seq_name false name s) with name in *.
  change (abs_path (["locks"] ++ [name])) with (lock_dir name) in *. rewrite E in *.
  cbn [snd] in Hinv'. split_and!; [done| |done| |by intros []].
  - eexists. split; [apply (lookup_link_new ["locks"] name); apply (valid_dir _ Hn)|done].
  - intros c. unfold in_dir. simpl. split; intros [Hc [x Hx]]; split; try done.
    + apply (lookup_link ["locks"] name) in Hx as [[Ha _]|(_ & n0 & ? & _)];
        [|by eexists|apply (valid_dir _ Hn)].
      apply (abs_path_inj (dir name ++ [c]) (dir name)) in Ha; [done|auto with sky..].
    + eexists. apply (lookup_link_other ["locks"] name _ _ _ x); [apply (valid_dir _ Hn)|done|].
      intros Ha. apply (abs_path_inj (dir name ++ [c]) (dir name)) in Ha; [done|auto with sky..].
Qed.

(** enqueue: the next ticket is added to the directory. *)
Lemma enqueue_ok name owner sid t1 t2 s acq :
  valid_comp name → (0 ≤ seqCounter s < 10 ^ 10 - 1)%Z → queue_inv name s acq →
  dir_ready name s →
  ∃ s' gs, enqueue (lock_dir name) owner sid t1 t2 s =
             (Ok (ticket_path name (seqCounter s + 1)), s', gs) ∧
    queue_inv name s' acq ∧ seqCounter s' = (seqCounter s + 1)%Z ∧
    (∀ c, in_dir name s' c ↔ in_dir name s c ∨ c = ticket (seqCounter s + 1)) ∧
    nodes s' = link (dir name) (ticket (seqCounter s + 1))
      (mkNode (ticket_path name (seqCounter s + 1)) owner 1 true sid true
         (seqCounter s + 1) [] t1 t2) (nodes s).
Proof.
  intros Hn Hb Hinv (dn & Hdn & Hde). unfold enqueue.
  pose proof (queue_inv_store name (OCreate (lock_dir name +:+ "/lock-") owner true sid true t1 t2)
                s acq Hn ltac:(lia)) as Hinv'.
  cbn [exec] in Hinv'. specialize (Hinv' (λ H, ltac:(by rewrite norm_prefix in H; [destruct H|]))
    (respects_ticket _ _ _ _ _ _ Hn) Hinv).
  assert (Forall valid_comp (dir name ++ ["lock-"])) as Hv by auto with sky.
  rewrite (Create_child _ _ _ _ _ _ _ _ (dir name) "lock-") in * by (by try apply norm_prefix).
  rewrite Hdn, Hde in *. cbv zeta in *.
  assert (u64 (seqCounter s + 1) = seqCounter s + 1)%Z as Hu
    by (apply u64_small; unfold in_u64, u64_max; lia).
  assert (seq_name true "lock-" s = ticket (seqCounter s + 1)) as Hsn
    by (unfold seq_name, ticket; simpl; by rewrite Hu).
  assert (seqCounter (bump true s) = seqCounter s + 1)%Z as Hbc by (simpl; by rewrite Hu).
  assert (in_u64 (seqCounter s + 1)) as Hin by (unfold in_u64, u64_max; lia).
  assert (Forall valid_comp (dir name ++ [ticket (seqCounter s + 1)])) as Hvt by auto with sky.
  rewrite Hsn, Hbc in *. fold (ticket_path name (seqCounter s + 1)) in *.
  destruct (nodes s !! ticket_path name (seqCounter s + 1)) as [x|] eqn:Hf.
  { exfalso. destruct (qi_tickets _ _ _ Hinv (ticket (seqCounter s + 1))) as (k & E & Hk).
    - split; [by apply valid_ticket|by eexists].
    - apply ticket_inj in E; unfold in_u64, u64_max; lia. }
  eexists _, _. split; [reflexivity|]. split_and!; [done|by simpl; rewrite Hu| |done].
  intros c. unfold in_dir. cbn [nodes set_nodes]. split.
  - intros [Hc [n Hl]]. apply lookup_link in Hl as [[E _]|(_ & n0 & ? & _)]; [right|left|done].
    + apply abs_path_inj in E; [|auto with sky..]. by apply app_inj_tail in E as [_ ->].
    + split; [done|by eexists].
  - intros [[Hc [n Hl]]| ->].
    + split; [done|]. destruct (decide (c = ticket (seqCounter s + 1))) as [->|Hne].
      { eexists. by apply lookup_link_new. }
      eexists. apply lookup_link_other; [done|exact Hl|]. intros E.
      apply abs_path_inj in E; [|auto with sky..]. by apply app_inj_tail in E as [_ ->].
    + split; [by apply valid_ticket|]. eexists. by apply lookup_link_new.
Qed.

Lemma IsLocked_spec name s :
  wf s → valid_comp name → IsLocked name s = true ↔ ∃ c, in_dir name s c.
Proof.
  intros Hwf Hn. unfold IsLocked. pose proof (GetChildren_dir name s Hwf Hn) as H.
  destruct (GetChildren (lock_dir name) s) as [cs|e|]; [|naive_solver|done].
  destruct H as [_ H]. rewrite bool_decide_eq_true. setoid_rewrite <- H. split.
  - destruct cs as [|c cs]; simpl; [lia|]. intros _. exists c. by left.
  - intros [c Hc]. destruct cs; [by apply elem_of_nil in Hc|simpl; lia].
Qed.

(** Deleting a ticket just taken undoes it. *)
Lemma drop_ticket name k n s :
  valid_comp name → in_u64 k → wf s →
  nodes s !! ticket_path name k = Some n → Children n = [] →
  let '(s', _) := drop_node (ticket_path name k) s in
  wf s' ∧ nodes s' = unlink (dir name) (ticket k) (nodes s) ∧
  seqCounter s' = seqCounter s ∧
  (∀ c, in_dir name s' c ↔ in_dir name s c ∧ c ≠ ticket k).
Proof.
  intros Hn Hk Hwf Hl Hch. assert (Forall valid_comp (dir name ++ [ticket k])) as Hv by auto with sky.
  unfold drop_node. destruct (Delete (ticket_path name k) (-1) s) as [[r s'] gs] eqn:HD.
  pose proof (Delete_wf _ _ _ _ _ _ Hwf HD) as Hwf'.
  rewrite (Delete_child _ _ _ (dir name) (ticket k)) in HD
    by (try apply normalizePath_id; done).
  unfold ticket_path in Hl. rewrite Hl in HD. change (version_conflict (-1) n) with false in HD.
  cbv match in HD. rewrite decide_False in HD by (rewrite Hch; simpl; lia).
  injection HD as <- <- <-. split_and!; try done. intros c. unfold in_dir. cbn [nodes set_nodes]. split.
  - intros [Hc [x [Hne (n0 & H0 & _)]%lookup_unlink]]; [|done].
    split; [split; [done|by eexists]|]. by intros ->.
  - intros [[Hc [x Hx]] Hne]. split; [done|]. eexists. apply lookup_unlink; [done|].
    split; [|by exists x]. intros E. apply abs_path_inj in E; [|auto with sky..].
    by apply app_inj_tail in E as [_ ->].
Qed.

Lemma Delete_ticket name k n s :
  valid_comp name → in_u64 k → wf s →
  nodes s !! ticket_path name k = Some n → Children n = [] →
  ∃ gs, Delete (ticket_path name k) (-1) s =
    (Ok tt, set_nodes (unlink (dir name) (ticket k) (nodes s)) s, gs).
Proof.
  intros Hn Hk Hwf Hl Hch. assert (Forall valid_comp (dir name ++ [ticket k])) as Hv by auto with sky.
  rewrite (Delete_child _ _ _ (dir name) (ticket k)) by (try apply normalizePath_id; done).
  unfold ticket_path in Hl. rewrite Hl. change (version_conflict (-1) n) with false. cbv match.
  rewrite decide_False by (rewrite Hch; simpl; lia). by eexists.
Qed.

Lemma unlink_link cs c node m :
  Forall valid_comp (cs ++ [c]) → m !! abs_path (cs ++ [c]) = None →
  entry <$> unlink cs c (link cs c node m) = entry <$> m.
Proof.
  intros Hv Hf. rewrite entry_unlink, entry_link, delete_insert_eq.
  apply delete_id. by rewrite lookup_fmap, Hf.
Qed.

(** ** Calls *)

Lemma in_dir_dir name s c :
  wf s → valid_comp name → in_dir name s c → is_Some (nodes s !! lock_dir name).
Proof.
  intros [Hwf _] Hn [Hc [x Hx]].
  destruct (wf_parent _ Hwf (dir name) c x) as (pn & Hpn & _); [auto with sky|done|].
  by exists pn.
Qed.

(** A ticket just taken is the lowest exactly when the queue was empty. *)
Lemma check_new_ticket name k s s' acq :
  valid_comp name → (0 < k < 10 ^ 10)%Z → wf s → queue_inv name s' acq →
  (∀ c, in_dir name s c → ∃ j, c = ticket j ∧ (0 < j < k)%Z) →
  (∀ c, in_dir name s' c ↔ in_dir name s c ∨ c = ticket k) →
  checkLockAcquired (lock_dir name) (ticket_path name k) s' =
    Ok (negb (IsLocked name s)).
Proof.
  intros Hn Hk Hws Hinv Ht Hd. pose proof (qi_wf _ _ _ Hinv) as Hwf.
  assert (in_dir name s' (ticket k)) as Hk' by (apply Hd; by right).
  assert (Hor : checkLockAcquired (lock_dir name) (ticket_path name k) s' = Ok true ∨
                checkLockAcquired (lock_dir name) (ticket_path name k) s' = Ok false).
  { unfold checkLockAcquired. pose proof (GetChildren_dir name s' Hwf Hn) as H.
    destruct (GetChildren (lock_dir name) s') as [cs|e|]; [|by apply H in Hk'|done].
    destruct (sort_Strings cs); [by right|]. destruct (bool_decide _); auto. }
  pose proof (checkLockAcquired_first name (ticket k) s' Hwf Hn) as Hfirst.
  fold (ticket_path name k) in Hfirst. destruct Hor as [E|E]; rewrite E in Hfirst |- *; f_equal; symmetry.
  - apply negb_true_iff, not_true_is_false. intros (c & Hc)%IsLocked_spec; [|done..].
    destruct Hfirst as [Hf _]. destruct (Hf eq_refl) as [_ Hlow].
    destruct (Ht c Hc) as (j & -> & Hj). assert (in_dir name s' (ticket j)) as Hj' by (apply Hd; by left).
    apply Hlow, ticket_le in Hj'; lia.
  - apply negb_false_iff, not_false_is_true. intros Hno. destruct Hfirst as [_ Hf].
    discriminate Hf. split; [done|]. intros d [Hc| ->]%Hd; [|done].
    assert (IsLocked name s = true); [|congruence]. apply IsLocked_spec; [done..|by exists d].
Qed.

(** TryLock on every outcome: [k] is the number of its ticket.  A free lock is
    taken; a busy one is refused, or waited for with the ticket in the queue. *)
Lemma TryLock_outcome name owner sid timeout clock s m acq :
  valid_comp name → (seqCounter s < 10 ^ 10 - 1)%Z → queue_inv name s acq →
  locks_ready name s →
  let k := (seqCounter s + 1)%Z in
  let '(call, s', m', _) := TryLock name owner sid timeout clock s m in
  if IsLocked name s then
    (timeout < 0 → call = Done (Err ErrLockTimeout) ∧ m' = m ∧
      entry <$> nodes s' = entry <$> nodes s)%Z ∧
    (0 ≤ timeout →
      call = Waiting (mkLock name owner sid (ticket_path name k) k 0) (lock_dir name)
               (length (chans m)) ∧
      m' = (start_wait name m).2 ∧ wf s' ∧ nodes s !! ticket_path name k = None ∧
      nodes s' = link (dir name) (ticket k)
        (mkNode (ticket_path name k) owner 1 true sid true k [] (clock 2%nat) (clock 3%nat))
        (nodes s))%Z
  else
    let lock := mkLock name owner sid (ticket_path name k) k (clock 4%nat) in
    call = Done (Ok lock) ∧ m' = set_locks (<[ticket_path name k := lock]> (locks m)) m ∧
    queue_inv name s' acq ∧ seqCounter s' = k ∧ (∀ c, in_dir name s' c ↔ c = ticket k) ∧
    nodes s' !! ticket_path name k =
      Some (mkNode (ticket_path name k) owner 1 true sid true k [] (clock 2%nat) (clock 3%nat)).
Proof.
  intros Hn Hb Hinv Hr. cbv zeta. pose proof (proj1 (proj2 (qi_wf _ _ _ Hinv))) as H0.
  unfold TryLock. pose proof (ensure_dir_ready name (clock 0%nat) (clock 1%nat) s acq Hn Hb Hinv Hr) as H1.
  destruct (ensure_dir _ _ _ s) as [s1 g1]. destruct H1 as (Hinv1 & Hd1 & Hc1 & Hin1 & Hs1).
  destruct (enqueue_ok name owner sid (clock 2%nat) (clock 3%nat) s1 acq Hn ltac:(lia) Hinv1 Hd1)
    as (s2 & g2 & E2 & Hinv2 & Hc2 & Hin2 & Hnodes2). rewrite E2. rewrite Hc1 in *.
  set (k := (seqCounter s + 1)%Z) in *. assert (in_u64 k) as Hk by (unfold in_u64, u64_max, k; lia).
  assert (Forall valid_comp (dir name ++ [ticket k])) as Hv by auto with sky.
  assert (IsLocked name s1 = IsLocked name s) as HL.
  { apply eq_true_iff_eq. rewrite !IsLocked_spec by (done || apply Hinv || apply Hinv1).
    by setoid_rewrite Hin1. }
  rewrite (check_new_ticket name k s1 s2 acq); [|done|lia|apply Hinv1|done| |done].
  2: { intros c Hc. destruct (qi_tickets _ _ _ Hinv1 c Hc) as (j & ? & ?). exists j. split; [done|lia]. }
  assert (nodes s2 !! ticket_path name k = Some (mkNode (ticket_path name k) owner 1 true sid true
            k [] (clock 2%nat) (clock 3%nat))) as Hnew by (rewrite Hnodes2; by apply lookup_link_new).
  rewrite HL, parse_ticket by done. destruct (IsLocked name s) eqn:EL; cbn [negb].
  - apply IsLocked_spec in EL as (c & Hc); [|apply Hinv|done].
    assert (s1 = s) as -> by (apply Hs1; apply (in_dir_dir name s c); [apply Hinv|done|done]).
    assert (nodes s !! ticket_path name k = None) as Hf.
    { apply eq_None_not_Some. intros Hs. destruct (qi_tickets _ _ _ Hinv (ticket k)) as (j & Ej & Hj).
      - split; [by apply valid_ticket|done].
      - apply ticket_inj in Ej; [|done|unfold in_u64, u64_max; lia]. unfold k in Ej. lia. }
    destruct (Z.ltb_spec timeout 0).
    + pose proof (drop_ticket name k _ s2 Hn Hk (qi_wf _ _ _ Hinv2) Hnew eq_refl) as HD.
      destruct (drop_node _ s2) as [s3 g3]. destruct HD as (_ & Hn3 & _ & _).
      split; [|lia]. intros _. split_and!; [done|done|]. rewrite Hn3, Hnodes2. by apply unlink_link.
    + simpl. split; [lia|]. intros _. split_and!; try done. apply Hinv2.
  - assert (¬ ∃ c, in_dir name s1 c) as Hno.
    { intros (c & Hc%Hin1). assert (IsLocked name s = true); [|congruence].
      apply IsLocked_spec; [apply Hinv|done|by exists c]. }
    simpl. split_and!; try done. intros c. rewrite Hin2. naive_solver.
Qed.

(** The lowest ticket's owner is the holder. *)
Lemma single_ticket_holder name k n s :
  valid_comp name → wf s → (∀ c, in_dir name s c ↔ c = ticket k) →
  in_u64 k → nodes s !! ticket_path name k = Some n →
  IsLocked name s = true ∧ GetLockHolder name s = Ok (Data n).
Proof.
  intros Hn Hwf Hin Hk Hl. split; [apply IsLocked_spec; [done..|]; exists (ticket k); by apply Hin|].
  destruct (GetLockHolder_first name (ticket k) s) as (n' & Hg & Hh);
    [done|done|by apply Hin|by intros d ->%Hin|].
  unfold Get in Hg. rewrite normalizePath_id in Hg by auto with sky.
  fold (ticket_path name k) in Hg. rewrite Hl in Hg. by injection Hg as <-.
Qed.

(** A TryLock that does not wait (timeout below zero) takes a free lock and
    refuses a busy one: if the lock is free the call returns a lock owned by
    the caller whose sequence number is the next value of the store's counter,
    the manager records it, and GetLockHolder reports the caller; if the lock
    is held it returns ErrLockTimeout, the manager is unchanged and the tree
    of nodes is exactly as before (the request leaves no node behind). *)
Theorem try_lock_without_waiting name owner sid timeout clock s m acq :
  valid_comp name → (seqCounter s < 10 ^ 10 - 1)%Z → queue_inv name s acq →
  locks_ready name s → (timeout < 0)%Z →
  let '(call, s', m', _) := TryLock name owner sid timeout clock s m in
  if IsLocked name s then
    call = Done (Err ErrLockTimeout) ∧ m' = m ∧ entry <$> nodes s' = entry <$> nodes s
  else
    ∃ lock, call = Done (Ok lock) ∧ Name lock = name ∧ Owner lock = owner ∧
      Lock.SessionID lock = sid ∧ Lock.Seq lock = (seqCounter s + 1)%Z ∧
      Lock.Path lock = ticket_path name (seqCounter s + 1) ∧
      locks m' !! Lock.Path lock = Some lock ∧
      IsLocked name s' = true ∧ GetLockHolder name s' = Ok owner.
Proof.
  intros Hn Hb Hinv Hr Ht. pose proof (proj1 (proj2 (qi_wf _ _ _ Hinv))) as H0.
  pose proof (TryLock_outcome name owner sid timeout clock s m acq Hn Hb Hinv Hr) as H. cbv zeta in H.
  destruct (TryLock name owner sid timeout clock s m) as [[[call s'] m'] gs].
  destruct (IsLocked name s); [by apply H|]. destruct H as (-> & -> & Hinv' & _ & Hin & Hl).
  destruct (single_ticket_holder _ _ _ _ Hn (qi_wf _ _ _ Hinv') Hin
    ltac:(unfold in_u64, u64_max; lia) Hl) as [? ?].
  eexists. split_and!; try done. simpl. apply lookup_insert_eq.
Qed.

(** A store in which only /locks exists. *)
Definition demo_locks : Store :=
  (exec (OCreate "/locks" "" false "" false 0 0) (NewStore 0 0)).2.

Lemma queue_inv_demo : queue_inv "L" demo_locks [] ∧ queue_inv "L" demo_lock_store [].
Proof.
  assert (valid_comp "L") as Hn by (by apply (bool_decide_unpack _); vm_compute).
  split; (eapply queue_inv_reach; [exact Hn| |apply (queue_inv_New "L" None None None 0 0 Hn)|]).
  - apply (ops_steps "L" [] [OCreate "/locks" "" false "" false 0 0]).
    + intros o s ->%list_elem_of_singleton [? ?]. done.
    + intros o ->%list_elem_of_singleton H. vm_compute in H. done.
  - simpl. lia.
  - apply (ops_steps "L" [] demo_lock_ops).
    + intros o s. unfold demo_lock_ops. rewrite !elem_of_cons.
      intros [->|[->|[->|[->|[]%elem_of_nil]]]] [? ?]; done.
    + intros o. unfold demo_lock_ops. rewrite !elem_of_cons.
      intros [->|[->|[->|[->|[]%elem_of_nil]]]] H; vm_compute in H; try done;
        split; vm_compute; reflexivity.
  - simpl. lia.
Qed.

Lemma try_lock_without_waiting_witness :
  (∃ lock, (TryLock "L" "alice" "s1" (-1) (λ _, 0%Z) demo_locks (mkManager ∅ ∅ [])).1.1.1
           = Done (Ok lock) ∧ Lock.Seq lock = 1%Z) ∧
  (TryLock "L" "carol" "s3" (-1) (λ _, 0%Z) demo_lock_store (mkManager ∅ ∅ [])).1.1.1
    = Done (Err ErrLockTimeout).
Proof.
  assert (valid_comp "L") as Hn by (by apply (bool_decide_unpack _); vm_compute).
  split.
  - pose proof (try_lock_without_waiting "L" "alice" "s1" (-1) (λ _, 0%Z) demo_locks
                  (mkManager ∅ ∅ []) [] Hn ltac:(vm_compute; reflexivity)
                  (proj1 queue_inv_demo)) as H.
    destruct (TryLock _ _ _ _ _ _ _) as [[[call s'] m'] gs].
    replace (IsLocked "L" demo_locks) with false in H by (vm_compute; reflexivity).
    destruct H as (lock & E & _ & _ & _ & Hs & _).
    + split; [eexists; split; vm_compute; reflexivity|].
      intros n Hx. vm_compute in Hx. discriminate.
    + lia.
    + exists lock. split; [exact E|]. rewrite Hs. vm_compute. reflexivity.
  - pose proof (try_lock_without_waiting "L" "carol" "s3" (-1) (λ _, 0%Z) demo_lock_store
                  (mkManager ∅ ∅ []) [] Hn ltac:(vm_compute; reflexivity)
                  (proj2 queue_inv_demo)) as H.
    destruct (TryLock _ _ _ _ _ _ _) as [[[call s'] m'] gs].
    replace (IsLocked "L" demo_lock_store) with true in H by (vm_compute; reflexivity).
    destruct H as (E & _).
    + split; [eexists; split; vm_compute; reflexivity|].
      intros n Hx. vm_compute in Hx. injection Hx as <-. reflexivity.
    + lia.
    + exact E.
Defined.

(** C25. Unlock hands the lock on, where the lock's directory holds nothing but
    tickets of the sequence counter, which is below 10^10, and the name is one
    path element ([queue_inv], which [queue_inv_reach] shows for the histories of
    LockQueue.v): releasing a queued ticket succeeds, removes
    that node and the manager's record and no other ticket, the lowest of the
    remaining tickets now passes checkLockAcquired, and a second Unlock of the
    same lock fails with ErrNodeNotFound. *)
Theorem unlock_hands_over name lock k n s m acq :
  valid_comp name → (seqCounter s < 10 ^ 10)%Z → queue_inv name s acq →
  (0 < k ≤ seqCounter s)%Z → Lock.Path lock = ticket_path name k →
  nodes s !! ticket_path name k = Some n → Ephemeral n = true →
  let '(r, s', m', _) := Unlock (Some lock) s m in
  r = Ok tt ∧ locks m' !! Lock.Path lock = None ∧
  (∀ c, in_dir name s' c ↔ in_dir name s c ∧ c ≠ ticket k) ∧
  (∀ j, in_dir name s (ticket j) → j ≠ k → (0 < j ≤ seqCounter s)%Z →
     (∀ i, in_dir name s (ticket i) → i ≠ k → (0 < i ≤ seqCounter s)%Z → (j ≤ i)%Z) →
     checkLockAcquired (lock_dir name) (ticket_path name j) s' = Ok true) ∧
  (Unlock (Some lock) s' m').1.1.1 = Err (StoreError ErrNodeNotFound).
Proof.
  intros Hn Hb Hinv Hk Hp Hx He. pose proof (qi_wf _ _ _ Hinv) as Hwf.
  assert (in_u64 k) as Hku by (unfold in_u64, u64_max; lia).
  pose proof (wf_ephemeral_leaf _ _ _ (proj1 Hwf) Hx He) as Hleaf.
  pose proof (drop_ticket name k n s Hn Hku Hwf Hx Hleaf) as HD.
  unfold drop_node in HD. unfold Unlock. rewrite !Hp.
  assert (Forall valid_comp (dir name ++ [ticket k])) as Hv by auto with sky.
  assert (ticket_path name k ≠ "") as Hne by apply abs_path_nonempty.
  rewrite (decide_False (P := ticket_path name k = "")) by done.
  destruct (Delete (ticket_path name k) (-1) s) as [[r s'] gs] eqn:ED.
  destruct HD as (Hwf' & Hn' & Hc' & Hin').
  assert (r = Ok tt) as ->.
  { destruct (Delete_ticket name k n s) as [gs' E']; try done. congruence. }
  split_and!; [done|simpl; apply lookup_delete_eq|done| |].
  - intros j Hj Hjk Hjb Hmin. apply checkLockAcquired_first; [done..|]. split.
    + apply Hin'. split; [done|]. intros E.
      apply ticket_inj in E; unfold in_u64, u64_max; try done; lia.
    + intros d [Hd Hdk]%Hin'. destruct (qi_tickets _ _ _ Hinv d Hd) as (i & -> & Hi).
      apply ticket_le; [lia..|]. apply Hmin; [done| |done]. by intros ->.
  - rewrite (Delete_child _ _ _ (dir name) (ticket k)) by (try apply normalizePath_id; done).
    rewrite Hn'. destruct (unlink _ _ _ !! _) eqn:E; [|done].
    apply lookup_unlink in E as [? _]; done.
Qed.

Lemma unlock_hands_over_witness :
  let lock := mkLock "L" "alice" "s1" "/locks/L/lock-0000000001" 1 0 in
  let '(r, s', m', _) := Unlock (Some lock) demo_lock_store (mkManager ∅ ∅ []) in
  r = Ok tt ∧
  checkLockAcquired (lock_dir "L") (ticket_path "L" 2) s' = Ok true.
Proof.
  intros lock. assert (valid_comp "L") as Hn by (by apply (bool_decide_unpack _); vm_compute).
  set (n := mkNode "/locks/L/lock-0000000001" "alice" 1 true "s1" true 1 [] 0 0).
  assert (nodes demo_lock_store !! ticket_path "L" 1 = Some n) as E by (vm_compute; reflexivity).
  assert (Lock.Path lock = ticket_path "L" 1) as EP by (vm_compute; reflexivity).
  pose proof (unlock_hands_over "L" lock 1 n demo_lock_store (mkManager ∅ ∅ []) []
                Hn ltac:(vm_compute; reflexivity) (proj2 queue_inv_demo)
                ltac:(split; [lia|vm_compute; discriminate]) EP E eq_refl) as H.
  destruct (Unlock (Some lock) demo_lock_store (mkManager ∅ ∅ [])) as [[[r s'] m'] gs].
  destruct H as (H1 & _ & _ & H2 & _).
  split; [exact H1|]. apply H2.
  - split; [by apply (bool_decide_unpack _); vm_compute|eexists; vm_compute; reflexivity].
  - lia.
  - split; [lia|vm_compute; discriminate].
  - intros i _ Hi Hb. assert (seqCounter demo_lock_store = 2%Z) as Hs by (vm_compute; reflexivity).
    rewrite Hs in Hb. lia.
Defined.

(** C40. No lock whose name is one path element can be taken on a server whose
    store has no /locks node: TryLock creates the lock's own directory but not
    its parent, ignores the failure of that, and then fails with ErrNodeNotFound
    for every owner and timeout, leaving the store as it was.  (A name
    with dots or slashes that path.Clean changes is not meant.) *)
Theorem try_lock_needs_locks_directory name owner sid timeout clock s m :
  wf s → valid_comp name → nodes s !! "/locks" = None →
  TryLock name owner sid timeout clock s m =
    (Done (Err (StoreError ErrNodeNotFound)), s, m, []).
Proof.
  intros [Hwf _] Hn Hl. unfold TryLock, ensure_dir, enqueue.
  assert (nodes s !! lock_dir name = None) as Hd.
  { apply eq_None_not_Some. intros [x Hx].
    destruct (wf_parent _ Hwf ["locks"] name x) as (pn & Hpn & _); [apply (valid_dir _ Hn)|done|].
    change (abs_path ["locks"]) with "/locks" in Hpn. congruence. }
  unfold Exists. rewrite norm_dir by done.
  change (abs_path (["locks"] ++ [name])) with (lock_dir name).
  rewrite Hd. rewrite bool_decide_eq_false_2 by (by intros []). cbn [negb].
  rewrite (Create_child (lock_dir name) _ _ _ _ _ _ s ["locks"] name (norm_dir _ Hn) (valid_dir _ Hn)).
  change (abs_path ["locks"]) with "/locks". rewrite Hl.
  rewrite (Create_child (lock_dir name +:+ "/lock-") _ _ _ _ _ _ s (dir name) "lock-"
             (norm_prefix _ Hn)) by auto with sky.
  rewrite <- lock_dir_abs, Hd. done.
Qed.

Lemma try_lock_needs_locks_directory_witness :
  (TryLock "L" "alice" "s1" 0 (λ _, 0%Z) (NewStore 0 0) (mkManager ∅ ∅ [])).1.1.1
    = Done (Err (StoreError ErrNodeNotFound)).
Proof.
  rewrite (try_lock_needs_locks_directory "L" "alice" "s1" 0 (λ _, 0%Z) (NewStore 0 0)
             (mkManager ∅ ∅ []) (wf_NewStore 0 0)).
  - reflexivity.
  - by apply (bool_decide_unpack _); vm_compute.
  - vm_compute. reflexivity.
Defined.
