(* ===== verification/System.v ===== *)
(** * The server process (cmd/skylock/main.go)

    [boot] creates the components and wires them as main does: the session
    manager's expiry callback deletes the session's ephemeral nodes, the
    store's callbacks feed the watch manager.  The store and the session manager
    name the callbacks they start; [run_goroutine] and [onExpire] are their
    bodies.  The command-line helpers of main.go are here too. *)

From S2P Require Import Prelude GoLib DataStore Config RaftState RaftNode Sessions Watches Locks.

Module Main.

(** ** Command line *)

(** splitPeers: the state of its loop is the result so far and [current]. *)
Definition split_step (acc : list string * string) (c : Z) : list string * string :=
  let '(result, current) := acc in
  if (c =? 44)%Z then
    if decide (current = "") then (result, current) else (result ++ [current], "")
  else (result, current +:+ runes.to_string c).

Definition splitPeers (peers : string) : list string :=
  if decide (peers = "") then []
  else
    let '(result, current) := foldl split_step ([], "") (runes.of_string peers) in
    if decide (current = "") then result else result ++ [current].

(** The loop of itoa on an int: at most 19 digits; a negative number prints as
    the empty string. *)
Fixpoint itoa_loop (fuel : nat) (n : Z) (result : string) : string :=
  match fuel with
  | O => result
  | S fuel' =>
      if (0 <? n)%Z
      then itoa_loop fuel' (n / 10) (runes.to_string (48 + n mod 10) +:+ result)
      else result
  end.

Definition itoa (n : Z) : string := if (n =? 0)%Z then "0" else itoa_loop 19 n "".

Definition formatAddr (port : Z) : string := ":" +:+ itoa port.

(** The command-line overrides; an unset flag is the zero value. *)
Definition apply_flags (nodeID : string) (grpcPort httpPort : Z) (peers : string)
    (cfg : Config.Config) : Config.Config :=
  let cl := Config.Cluster cfg in
  let sv := Config.Server cfg in
  let nid := if decide (nodeID = "") then Config.NodeID cl else nodeID in
  let gp := if (grpcPort =? 0)%Z then Config.GRPCPort sv else grpcPort in
  let hp := if (httpPort =? 0)%Z then Config.HTTPPort sv else httpPort in
  let ps := if decide (peers = "") then Config.Peers cl else splitPeers peers in
  Config.mkConfig (Config.mkCluster nid ps) (Config.mkServer gp hp) (Config.Raft cfg)
    (Config.Session cfg) (Config.Storage cfg).

(** ** The components of a server *)

Record System := mkSystem {
  raftNode : Raft.Node;
  sessions : Session.Manager;
  store : Store.Store;
  watches : Watch.Manager;
  locks : Lock.Manager
}.

Definition set_sessions (m : Session.Manager) (y : System) : System :=
  mkSystem (raftNode y) m (store y) (watches y) (locks y).
Definition set_store (s : Store.Store) (y : System) : System :=
  mkSystem (raftNode y) (sessions y) s (watches y) (locks y).
Definition set_watches (w : Watch.Manager) (y : System) : System :=
  mkSystem (raftNode y) (sessions y) (store y) w (locks y).
Definition set_locks (l : Lock.Manager) (y : System) : System :=
  mkSystem (raftNode y) (sessions y) (store y) (watches y) l.

(** Lines 64-98.  lock.NewManager installs its own delete callback first; the
    later SetWatchCallbacks replaces all three. *)
Definition boot (cfg : Config.Config) (now1 now2 : Z) : System :=
  let raftNode := Raft.NewNode (Config.NodeID (Config.Cluster cfg))
                    (Config.Peers (Config.Cluster cfg)) (Config.Raft cfg) in
  let sessionMgr := Session.NewManager (Config.DefaultTTL (Config.Session cfg))
                      (Config.MaxTTL (Config.Session cfg)) in
  let dataStore := Store.NewStore now1 now2 in
  let watchMgr := Watch.NewManager in
  let '(lockMgr, dataStore) := Lock.NewManager dataStore in
  let sessionMgr := Session.SetOnExpire sessionMgr in
  let dataStore := Store.SetWatchCallbacks (Some Store.main_onCreate) (Some Store.main_onUpdate)
                     (Some Store.main_onDelete) dataStore in
  mkSystem raftNode sessionMgr dataStore watchMgr lockMgr.

(** The expiry callback, for the iteration order [order] of the node map. *)
Definition onExpire (order : list string) (sess : Session.Session) (y : System)
  : System * list Store.Goroutine :=
  let '(_, s', gs) := Store.DeleteEphemerals order (Session.ID sess) (store y) in
  (set_store s' y, gs).

(** The body of a goroutine the store started; [uuid] is the id of the event it
    triggers.  None is a panic. *)
Definition run_goroutine (g : Store.Goroutine) (uuid : string) (y : System) : option System :=
  match g with
  | Store.GoCreate Store.main_onCreate path node =>
      (λ w, set_watches w y) <$>
        Watch.TriggerCreate path (Store.Data node) (Store.Version node) uuid (watches y)
  | Store.GoUpdate Store.main_onUpdate path node =>
      (λ w, set_watches w y) <$>
        Watch.TriggerDataChange path (Store.Data node) (Store.Version node) uuid (watches y)
  | Store.GoDelete Store.main_onDelete path =>
      (λ w, set_watches w y) <$> Watch.TriggerDelete path uuid (watches y)
  | Store.GoDelete Store.lock_onNodeDeleted path =>
      Some (set_locks (Lock.onNodeDeleted path (locks y)) y)
  | _ => Some y
  end.

End Main.
