(* ===== verification/Api.v ===== *)
(** * The HTTP API (internal/api/server.go)

    One function per handler, from the decoded request to the response, the
    new system and the goroutines the store started.  What encoding/json makes
    of a body is an argument: None when Decode returns an error, otherwise the
    request struct it filled.  URL parameters are arguments as well; Http.v has
    the routes, the decoding of requests and the encoding of responses around
    these handlers.  A panic becomes the empty 500 response of
    middleware.Recoverer; a duration in a response is kept as a number of
    nanoseconds. *)

From S2P Require Import Prelude GoLib DataStore Config RaftState RaftNode Sessions Watches Locks System.
Import Main.

Module Api.

Inductive Body :=
| BEmpty
| BError (message : string)
| BStatus (status : string)
| BSession (session_id : string) (ttl : Z)
| BNode (node : Store.Node)
| BPath (path : string)
| BVersion (path : string) (version : Z)
| BChildren (path : string) (children : list string)
| BLock (lock_id name owner : string) (acquired_at : Z)
| BLockInfo (name : string) (locked : bool) (holder : string) (queue_length : Z)
| BLeader (leader_id : string) (is_leader : bool)
| BCluster (leader_id : string) (is_leader : bool) (sessions nodes watches : Z).

Record Response := mkResponse { status : Z; body : Body }.

(** respondError and respondJSON. *)
Definition respondError (code : Z) (message : string) : Response := mkResponse code (BError message).
Definition respondJSON (code : Z) (b : Body) : Response := mkResponse code b.

(** err.Error() *)
Definition store_error_string (e : Store.Error) : string :=
  match e with
  | Store.ErrNodeExists => "node already exists"
  | Store.ErrNodeNotFound => "node not found"
  | Store.ErrVersionMismatch => "version mismatch"
  | Store.ErrNotEmpty => "node has children"
  | Store.ErrInvalidPath => "invalid path"
  | Store.ErrEphemeralParent => "cannot create child under ephemeral node"
  | Store.ErrDeleteRoot => "cannot delete root"
  end.

Definition lock_error_string (e : Lock.Error) : string :=
  match e with
  | Lock.StoreError e => store_error_string e
  | Lock.ErrLockNotHeld => "lock not held"
  | Lock.ErrLockTimeout => "lock acquisition timed out"
  | Lock.ErrLockExists => "lock already exists"
  end.

(** path := "/" + strings.TrimPrefix(chi.URLParam(r, "*"), "/") *)
Definition node_path (param : string) : string := "/" +:+ strings.TrimPrefix param "/".

(** ** Sessions *)

Record CreateSessionReq := mkCreateSession { cs_ClientID : string; cs_TTL : Z }.

Definition createSession (req : option CreateSessionReq) (uuid : string) (now1 now2 : Z)
    (y : System) : Response * System :=
  match req with
  | None => (respondError 400 "invalid request body", y)
  | Some req =>
      if decide (cs_ClientID req = "") then (respondError 400 "client_id required", y)
      else
        let ttl := i64 (cs_TTL req * Config.Second) in
        let '(sess, m) := Session.Create (cs_ClientID req) ttl uuid now1 now2 (sessions y) in
        (respondJSON 201 (BSession (Session.ID sess) (Session.TTL sess)), set_sessions m y)
  end.

Definition heartbeat (id : string) (now1 now2 : Z) (y : System) : Response * System :=
  let '(ok, m) := Session.Heartbeat id now1 now2 (sessions y) in
  (if ok then respondJSON 200 (BStatus "ok")
   else respondError 404 "session not found or expired", set_sessions m y).

(** Close calls the expiry callback before it returns. *)
Definition closeSession (id : string) (order : list string) (y : System)
  : Response * System * list Store.Goroutine :=
  let '(ok, m, expired) := Session.Close id (sessions y) in
  let y := set_sessions m y in
  let '(y, gs) :=
    match expired with
    | sess :: _ => onExpire order sess y
    | [] => (y, [])
    end in
  (if ok then mkResponse 204 BEmpty else respondError 404 "session not found", y, gs).

(** ** Nodes *)

Definition getNode (param : string) (y : System) : Response :=
  match Store.Get (node_path param) (store y) with
  | Ok node => respondJSON 200 (BNode node)
  | Err Store.ErrNodeNotFound => respondError 404 "node not found"
  | Err e => respondError 500 (store_error_string e)
  | Panic => mkResponse 500 BEmpty
  end.

Record CreateNodeReq := mkCreateNode {
  cn_Data : string;
  cn_Ephemeral : bool;
  cn_Sequential : bool;
  cn_SessionID : string
}.

(** createNode up to the call of the store, which is one critical section:
    either the handler has answered, or it goes on with the path of the new
    node. *)
Definition createNode_store (param : string) (req : option CreateNodeReq) (now1 now2 : Z) (y : System)
  : (Response + string) * System * list Store.Goroutine :=
  match req with
  | None => (inl (respondError 400 "invalid request body"), y, [])
  | Some req =>
      if decide (cn_Ephemeral req = true ∧ cn_SessionID req = "")
      then (inl (respondError 400 "session_id required for ephemeral nodes"), y, [])
      else
        let '(r, s, gs) := Store.Create (node_path param) (cn_Data req) (cn_Ephemeral req)
                             (cn_SessionID req) (cn_Sequential req) now1 now2 (store y) in
        (match r with
         | Err Store.ErrNodeExists => inl (respondError 409 "node already exists")
         | Err Store.ErrNodeNotFound => inl (respondError 404 "parent node not found")
         | Err e => inl (respondError 500 (store_error_string e))
         | Panic => inl (mkResponse 500 BEmpty)
         | Ok actualPath => inr actualPath
         end, set_store s y, gs)
  end.

(** Its rest: the session manager's critical section and the answer. *)
Definition createNode_register (req : option CreateNodeReq) (actualPath : string) (y : System)
  : Response * System :=
  (respondJSON 201 (BPath actualPath),
   match req with
   | Some req =>
       if cn_Ephemeral req
       then set_sessions (Session.RegisterEphemeral (cn_SessionID req) actualPath (sessions y)).2 y
       else y
   | None => y
   end).

Definition createNode (param : string) (req : option CreateNodeReq) (now1 now2 : Z) (y : System)
  : Response * System * list Store.Goroutine :=
  let '(r, y, gs) := createNode_store param req now1 now2 y in
  match r with
  | inl resp => (resp, y, gs)
  | inr actualPath =>
      let '(resp, y) := createNode_register req actualPath y in (resp, y, gs)
  end.

(** The version is -1 when the body does not give one. *)
Record SetNodeReq := mkSetNode { sn_Data : string; sn_Version : option Z }.

Definition setNode (param : string) (req : option SetNodeReq) (now : Z) (y : System)
  : Response * System * list Store.Goroutine :=
  match req with
  | None => (respondError 400 "invalid request body", y, [])
  | Some req =>
      let version := default (-1)%Z (sn_Version req) in
      let '(r, s, gs) := Store.Set_ (node_path param) (sn_Data req) version now (store y) in
      let y := set_store s y in
      match r with
      | Ok node => (respondJSON 200 (BVersion (Store.Path node) (Store.Version node)), y, gs)
      | Err Store.ErrNodeNotFound => (respondError 404 "node not found", y, gs)
      | Err Store.ErrVersionMismatch => (respondError 409 "version mismatch", y, gs)
      | Err e => (respondError 500 (store_error_string e), y, gs)
      | Panic => (mkResponse 500 BEmpty, y, gs)
      end
  end.

(** The loop over the version parameter starts from -1. *)
Definition parse_version (versionStr : string) : Z :=
  foldl (λ version c, i64 (i64 (version * 10) + (c - 48)))%Z (-1)%Z (runes.of_string versionStr).

Definition deleteNode (param versionStr : string) (y : System)
  : Response * System * list Store.Goroutine :=
  let version := parse_version versionStr in
  let '(r, s, gs) := Store.Delete (node_path param) version (store y) in
  let y := set_store s y in
  match r with
  | Ok _ => (mkResponse 204 BEmpty, y, gs)
  | Err Store.ErrNodeNotFound => (respondError 404 "node not found", y, gs)
  | Err Store.ErrVersionMismatch => (respondError 409 "version mismatch", y, gs)
  | Err Store.ErrNotEmpty => (respondError 400 "node has children", y, gs)
  | Err e => (respondError 500 (store_error_string e), y, gs)
  | Panic => (mkResponse 500 BEmpty, y, gs)
  end.

Definition getChildren (param : string) (y : System) : Response :=
  match Store.GetChildren (node_path param) (store y) with
  | Ok children => respondJSON 200 (BChildren (node_path param) children)
  | Err Store.ErrNodeNotFound => respondError 404 "node not found"
  | Err e => respondError 500 (store_error_string e)
  | Panic => mkResponse 500 BEmpty
  end.

(** ** Locks *)

Record AcquireReq := mkAcquire { aq_Owner : string; aq_SessionID : string; aq_Timeout : Z }.

(** The response once TryLock has returned. *)
Definition lock_response (r : result Lock.Error Lock.Lock) : Response :=
  match r with
  | Ok lck => respondJSON 200 (BLock (Lock.Path lck) (Lock.Name lck) (Lock.Owner lck)
                                 (Lock.Acquired lck))
  | Err Lock.ErrLockTimeout => respondError 408 "lock acquisition timed out"
  | Err e => respondError 500 (lock_error_string e)
  | Panic => mkResponse 500 BEmpty
  end.

Definition lock_timeout (timeout_ms : Z) : Z :=
  let timeout := i64 (timeout_ms * Config.Millisecond) in
  if (timeout =? 0)%Z then i64 (30 * Config.Second) else timeout.

(** The handler is left in TryLock when the lock is busy and a wait is allowed. *)
Definition acquireLock (lockName : string) (req : option AcquireReq) (clock : nat → Z) (y : System)
  : (Response + Lock.Call) * System * list Store.Goroutine :=
  match req with
  | None => (inl (respondError 400 "invalid request body"), y, [])
  | Some req =>
      if decide (aq_SessionID req = "") then (inl (respondError 400 "session_id required"), y, [])
      else
        let '(call, s, m, gs) := Lock.TryLock lockName (aq_Owner req) (aq_SessionID req)
                                   (lock_timeout (aq_Timeout req)) clock (store y) (locks y) in
        let y := set_locks m (set_store s y) in
        (match call with
         | Lock.Done r => inl (lock_response r)
         | Lock.Waiting _ _ _ => inr call
         end, y, gs)
  end.

Definition releaseLock (lockName : string) (lockID : option string) (y : System)
  : Response * System * list Store.Goroutine :=
  match lockID with
  | None => (respondError 400 "invalid request body", y, [])
  | Some lockID =>
      let lck := Lock.mkLock lockName "" "" lockID 0 0 in
      let '(r, s, m, gs) := Lock.Unlock (Some lck) (store y) (locks y) in
      let y := set_locks m (set_store s y) in
      match r with
      | Ok _ => (mkResponse 204 BEmpty, y, gs)
      | Err Lock.ErrLockNotHeld => (respondError 404 "lock not held", y, gs)
      | Err e => (respondError 500 (lock_error_string e), y, gs)
      | Panic => (mkResponse 500 BEmpty, y, gs)
      end
  end.

Definition getLockInfo (lockName : string) (y : System) : Response :=
  match Lock.GetLockHolder lockName (store y) with
  | Err e => respondError 500 (store_error_string e)
  | Panic => mkResponse 500 BEmpty
  | Ok holder =>
      respondJSON 200 (BLockInfo lockName (bool_decide (holder ≠ "")) holder
                         (Lock.GetQueueLength lockName (store y)))
  end.

(** ** Cluster *)

Definition getLeader (y : System) : Response :=
  respondJSON 200 (BLeader (Raft.GetLeaderID (raftNode y)) (Raft.IsLeader (raftNode y))).

Definition getStatus (y : System) : Response :=
  respondJSON 200 (BCluster (Raft.GetLeaderID (raftNode y)) (Raft.IsLeader (raftNode y))
                     (Session.Count (sessions y)) (Store.Count (store y))
                     (Watch.GetTotalWatchCount (watches y))).

Definition healthCheck : Response := respondJSON 200 (BStatus "healthy").

End Api.
