(* ===== verification/ApiSpec.v ===== *)
(** * The server as a whole

    A server is the booted system together with the goroutines the store has
    started and the lock requests that wait; a step is one handler, one
    goroutine, one pass of the session checker or one event of a waiting
    request.  The invariant of reachable servers ties the components together;
    the rest of the file states what single requests do to several
    components. *)

From S2P Require Import Prelude GoLib Sequence DataStore StoreInv StoreSpec Config RaftState RaftNode.
From S2P Require Import Sessions Watches Locks LockQueue LockOps System Api.
Import Main Api.

(** ** Conditional deletes *)

(** Reading digits after a number already read: no overflow below 10^18. *)
Lemma version_loop v acc :
  Sequence.all_digits v = true →
  (- (2 ^ 63) ≤ acc * Sequence.pow10 v)%Z → (acc < 0)%Z →
  foldl (λ version c, i64 (i64 (version * 10) + (c - 48)))%Z acc (runes.bytes_Z v) =
    Sequence.dec_from acc v ∧ (Sequence.dec_from acc v < 0)%Z.
Proof.
  revert acc. induction v as [|a v IH]; intros acc Hd Hb Hn; [done|].
  simpl in Hd. unfold runes.between in Hd. apply andb_true_iff in Hd as [Ha Hd].
  rewrite dec_from_cons, pow10_cons in *. simpl. pose proof (pow10_pos v) as Hp.
  assert (- 2 ^ 63 ≤ acc * 10)%Z by nia.
  rewrite (i64_small (acc * 10)) by lia. rewrite i64_small by lia. apply IH; [done| |lia]. nia.
Qed.

Lemma parse_version_negative v :
  Sequence.all_digits v = true → (String.length v ≤ 18)%nat → (parse_version v < 0)%Z.
Proof.
  intros Hd Hl. unfold parse_version. rewrite runes_digits by done.
  destruct (version_loop v (-1) Hd) as [-> H]; [|lia|done].
  unfold Sequence.pow10.
  assert (10 ^ Z.of_nat (String.length v) ≤ 10 ^ 18)%Z by (apply Z.pow_le_mono_r; lia). lia.
Qed.

Lemma Delete_unconditional p v w s :
  (v < 0)%Z → (w < 0)%Z → Store.Delete p v s = Store.Delete p w s.
Proof.
  intros Hv Hw. unfold Store.Delete.
  assert (∀ x n, (x < 0)%Z → Store.version_conflict x n = false) as Hc.
  { intros x n Hx. unfold Store.version_conflict. destruct (Z.leb_spec 0 x); [lia|done]. }
  case_decide; [done|]. destruct (Store.nodes s !! _); [|done]. by rewrite !Hc.
Qed.

(** The version parameter of DELETE /v1/nodes never takes effect: its
    digits are read after the initial -1, so any decimal number of up to 18
    digits gives a negative version, and the request does exactly what it does
    without the parameter, whatever the node's version is. *)
Theorem delete_version_parameter_ignored param v y :
  Sequence.all_digits v = true → (String.length v ≤ 18)%nat →
  deleteNode param v y = deleteNode param "" y.
Proof.
  intros Hd Hl. unfold deleteNode.
  assert (parse_version v < 0)%Z by (by apply parse_version_negative).
  by rewrite (Delete_unconditional _ (parse_version v) (parse_version "")).
Qed.

Definition demo_sys : System :=
  set_store (Store.SetWatchCallbacks (Some Store.main_onCreate) (Some Store.main_onUpdate)
    (Some Store.main_onDelete) demo_app) (boot Config.DefaultConfig 0 0).

Lemma delete_version_parameter_ignored_witness :
  status (deleteNode "app" "7" demo_sys).1.1 = 204%Z ∧
  deleteNode "app" "7" demo_sys = deleteNode "app" "" demo_sys.
Proof.
  split; [vm_compute; reflexivity|].
  apply (delete_version_parameter_ignored "app" "7" demo_sys).
  - reflexivity.
  - simpl. lia.
Defined.

(** ** The end of a session *)

(** After expiry no ephemeral node of the session is left, everything else is. *)
Lemma onExpire_frees order sess y :
  wf (store y) → iteration_order order (Store.nodes (store y)) →
  let '(y', _) := onExpire order sess y in
  wf (store y') ∧ sessions y' = sessions y ∧
  ∀ p, entry <$> Store.nodes (store y') !! p =
    if Store.owned_at (Session.ID sess) (Store.nodes (store y)) p then None
    else entry <$> Store.nodes (store y) !! p.
Proof.
  intros Hwf Ho. unfold onExpire.
  pose proof (DeleteEphemerals_refines order (Session.ID sess) (store y) Hwf Ho) as HR.
  pose proof (exec_wf (Spec.ODeleteEphemerals order (Session.ID sess)) _ Hwf Ho) as HW.
  cbn [Spec.exec] in HW.
  destruct (Store.DeleteEphemerals _ _ _) as [[ps s'] gs]. split; [done|]. split; [done|].
  intros p. unfold Spec.a_DeleteEphemerals in HR. injection HR as _ HT.
  simpl. rewrite <- !lookup_fmap. rewrite <- HT. unfold Store.owned_at. simpl.
  rewrite lookup_fmap. apply option_eq. intros n.
  rewrite map_lookup_filter_Some, lookup_fmap_Some.
  destruct (Store.nodes (store y) !! p) as [n0|]; simpl; [|naive_solver].
  change (Store.owned_ephemeral (Session.ID sess) n0)
    with (Store.owned_ephemeral (Session.ID sess) (entry n0)).
  destruct (Store.owned_ephemeral _ (entry n0)) eqn:E; naive_solver congruence.
Qed.

Lemma closeSession_effect id order y :
  wf (store y) → wf_sessions (sessions y) → Session.onExpire (sessions y) = true →
  iteration_order order (Store.nodes (store y)) →
  let '(r, y', _) := closeSession id order y in
  match Session.Get id (sessions y) with
  | None => status r = 404%Z ∧ y' = y
  | Some _ =>
      status r = 204%Z ∧ Session.Get id (sessions y') = None ∧
      (∀ i, i ≠ id → Session.Get i (sessions y') = Session.Get i (sessions y)) ∧
      ∀ p, entry <$> Store.nodes (store y') !! p =
        if Store.owned_at id (Store.nodes (store y)) p then None
        else entry <$> Store.nodes (store y) !! p
  end.
Proof.
  intros Hwf Hws He Ho. unfold closeSession, Session.Close, Session.Get.
  destruct (Session.sessions (sessions y) !! id) as [sess|] eqn:E.
  2: { split; [done|]. by destruct y. }
  rewrite He. pose proof (onExpire_frees order sess
    (set_sessions (Session.set_sessions (delete id (Session.sessions (sessions y))) (sessions y)) y)
    Hwf Ho) as H.
  destruct (onExpire _ _ _) as [y' gs]. destruct H as (_ & Hs & Hn).
  rewrite (Hws _ _ E) in Hn. rewrite Hs. simpl. split_and!; [done|apply lookup_delete_eq| |done].
  intros i Hi. by rewrite lookup_delete_ne.
Qed.

(** C24. DELETE /v1/session/{id} ends a session completely: for a stored session
    it answers 204, the session is gone, every ephemeral node created with its
    id is removed (its lock tickets included) and every other node is kept;
    for an unknown id it answers 404 and changes nothing. *)
Theorem close_session_releases_everything id order y :
  wf (store y) → wf_sessions (sessions y) → Session.onExpire (sessions y) = true →
  iteration_order order (Store.nodes (store y)) →
  let '(r, y', _) := closeSession id order y in
  match Session.Get id (sessions y) with
  | None => status r = 404%Z ∧ y' = y
  | Some _ =>
      status r = 204%Z ∧ Session.Get id (sessions y') = None ∧
      (∀ i, i ≠ id → Session.Get i (sessions y') = Session.Get i (sessions y)) ∧
      ∀ p, entry <$> Store.nodes (store y') !! p =
        if Store.owned_at id (Store.nodes (store y)) p then None
        else entry <$> Store.nodes (store y) !! p
  end.
Proof. apply closeSession_effect. Qed.

(** A session s1 with an ephemeral node /app/e. *)
Definition demo_eph : System :=
  (createNode "app/e" (Some (mkCreateNode "x" true false "s1")) 0 0
    (createSession (Some (mkCreateSession "c" 0)) "s1" 0 0 demo_sys).2).1.2.

Lemma demo_eph_ok :
  wf (store demo_eph) ∧ wf_sessions (sessions demo_eph) ∧
  Session.onExpire (sessions demo_eph) = true.
Proof.
  split_and!; [| |reflexivity].
  - apply (exec_wf (Spec.OCreate "/app/e" "x" true "s1" false 0 0)
             (Store.SetWatchCallbacks (Some Store.main_onCreate) (Some Store.main_onUpdate)
                (Some Store.main_onDelete) demo_app)); [|by intros [? ?]].
    apply wf_SetWatchCallbacks, wf_demo_app.
  - assert (Session.sessions (sessions demo_eph) =
      {[ "s1" := Session.mkSession "s1" "c" 0 0 10000000000 ["/app/e"] ]}) as E
      by (vm_compute; reflexivity).
    intros i s. rewrite E. by intros [<- <-]%lookup_singleton_Some.
Qed.

Lemma close_session_releases_everything_witness :
  let '(r, y', _) := closeSession "s1" (Store.keys (store demo_eph)) demo_eph in
  status r = 204%Z ∧ entry <$> Store.nodes (store y') !! "/app/e" = None ∧
  entry <$> Store.nodes (store y') !! "/app" = entry <$> Store.nodes (store demo_eph) !! "/app".
Proof.
  destruct demo_eph_ok as (H1 & H2 & H3).
  pose proof (close_session_releases_everything "s1" (Store.keys (store demo_eph)) demo_eph
                H1 H2 H3 (Permutation_refl _)) as H.
  destruct (closeSession "s1" (Store.keys (store demo_eph)) demo_eph) as [[r y'] gs].
  assert (Session.Get "s1" (sessions demo_eph) =
    Some (Session.mkSession "s1" "c" 0 0 10000000000 ["/app/e"])) as E by (vm_compute; reflexivity).
  rewrite E in H. destruct H as (Hr & _ & _ & Hn).
  split; [exact Hr|]. split; rewrite Hn; vm_compute; reflexivity.
Defined.

(** An id that is not stored is never handed to the callback, unless a session
    is created under it. *)
Lemma absent_never_expires id os m :
  wf_sessions m → Session.onExpire m = true → Session.Get id m = None →
  let '(m', e) := Sessions.run os m in
  NoDup (live m ++ created e) → id ∉ created e →
  id ∉ Session.ID <$> expired e ∧ Session.Get id m' = None.
Proof.
  intros Hwf He Hn. pose proof (run_balanced os m Hwf He) as H.
  destruct (Sessions.run os m) as [m' e]. intros Hnd Hc. destruct (H Hnd) as [_ Hb].
  unfold balanced in Hb.
  assert (id ∉ live m' ++ (Session.ID <$> expired e) ++ dropped e) as Hno.
  { rewrite <- Hb, elem_of_app, elem_of_live. unfold Session.Get in Hn. rewrite Hn. by intros [[]|]. }
  rewrite !elem_of_app, elem_of_live in Hno. split; [tauto|]. apply eq_None_not_Some. tauto.
Qed.

(** C39. A heartbeat that arrives after the session has run out, but before the
    checker noticed, orphans the session's nodes: the request answers 404 and
    drops the session without the expiry callback, the store and so all its
    ephemeral nodes staying as they are; closing the session right afterwards
    answers 404 and removes nothing; and in every later history of operations on
    the session manager, in which new sessions get fresh ids, the expiry callback
    is never started for the session, so that no expiry will remove its nodes. *)
Theorem late_heartbeat_orphans_nodes id s now1 now2 y :
  wf_sessions (sessions y) → Session.onExpire (sessions y) = true →
  Session.Get id (sessions y) = Some s → Session.IsExpired now1 s = true →
  let '(r, y1) := heartbeat id now1 now2 y in
  status r = 404%Z ∧ store y1 = store y ∧
  (∀ order, closeSession id order y1 = (respondError 404 "session not found", y1, [])) ∧
  ∀ os, let '(m, e) := Sessions.run os (sessions y1) in
    NoDup (live (sessions y1) ++ created e) → id ∉ created e →
    id ∉ Session.ID <$> expired e ∧ Session.Get id m = None.
Proof.
  intros Hws Hon Hs He. unfold heartbeat, Session.Heartbeat. unfold Session.Get in Hs.
  rewrite Hs, He. simpl. split_and!; [done|done| |].
  - intros order. unfold closeSession, Session.Close. simpl. by rewrite lookup_delete_eq.
  - intros os. apply absent_never_expires; [by apply wf_delete|done|]. apply lookup_delete_eq.
Qed.

(** Session s1 beats too late; afterwards another session is created and the
    checker runs twice. *)
Definition demo_later : list Sessions.op :=
  [OCheck ["s1"] (λ _, 30000000000%Z); OCreate "c" 0 "s2" 0 0; OClose "s1";
   OCheck ["s2"; "s1"] (λ _, 60000000000%Z)].

Lemma late_heartbeat_orphans_nodes_witness :
  let '(r, y1) := heartbeat "s1" 20000000000 20000000000 demo_eph in
  status r = 404%Z ∧ is_Some (Store.nodes (store y1) !! "/app/e") ∧
  "s1" ∉ Session.ID <$> expired (Sessions.run demo_later (sessions y1)).2.
Proof.
  pose proof (late_heartbeat_orphans_nodes "s1"
    (Session.mkSession "s1" "c" 0 0 10000000000 ["/app/e"]) 20000000000 20000000000 demo_eph
    (proj1 (proj2 demo_eph_ok)) (proj2 (proj2 demo_eph_ok))
    ltac:(vm_compute; reflexivity) ltac:(vm_compute; reflexivity)) as H.
  destruct (heartbeat "s1" 20000000000 20000000000 demo_eph) as [r y1] eqn:E.
  destruct H as (H1 & H2 & _ & H3). split; [exact H1|]. split.
  - rewrite H2. eexists. vm_compute. reflexivity.
  - specialize (H3 demo_later). vm_compute in E. injection E as <- <-.
    destruct (Sessions.run demo_later _) as [m e] eqn:ER.
    apply H3; vm_compute in ER; injection ER as <- <-; by apply (bool_decide_unpack _); vm_compute.
Defined.

(** ** Reachable servers *)

(** The goroutines started with the callbacks main installs. *)
Definition main_goroutine (g : Store.Goroutine) : Prop :=
  match g with
  | Store.GoCreate f _ _ => f = Store.main_onCreate
  | Store.GoUpdate f _ _ => f = Store.main_onUpdate
  | Store.GoDelete f _ => f = Store.main_onDelete
  end.

Record store_ok (s : Store.Store) : Prop := {
  so_wf : wf s;
  so_create : Store.onNodeCreate s = Some Store.main_onCreate;
  so_update : Store.onNodeUpdate s = Some Store.main_onUpdate;
  so_delete : Store.onNodeDelete s = Some Store.main_onDelete
}.

Lemma Create_store_ok p d e sid sq t1 t2 s :
  ¬ (Store.normalizePath p = "/" ∧ sq = true) → store_ok s →
  let '(_, s', gs) := Store.Create p d e sid sq t1 t2 s in
  store_ok s' ∧ Forall main_goroutine gs.
Proof.
  intros Hp [Hwf Hc Hu Hd]. destruct (Store.Create p d e sid sq t1 t2 s) as [[r s'] gs] eqn:E.
  pose proof (Create_wf _ _ _ _ _ _ _ _ _ _ _ Hwf Hp E) as Hwf'. unfold Store.Create in E.
  split; [split; [done|..]|]; repeat case_match; simplify_eq; simpl; try done;
    rewrite ?Hc; simpl; by constructor.
Qed.

Lemma Set_store_ok p d v t s :
  store_ok s →
  let '(_, s', gs) := Store.Set_ p d v t s in store_ok s' ∧ Forall main_goroutine gs.
Proof.
  intros [Hwf Hc Hu Hd]. destruct (Store.Set_ p d v t s) as [[r s'] gs] eqn:E.
  pose proof (Set_wf _ _ _ _ _ _ _ _ Hwf E) as Hwf'. unfold Store.Set_ in E.
  split; [split; [done|..]|]; repeat case_match; simplify_eq; simpl; try done;
    rewrite ?Hu; simpl; by constructor.
Qed.

Lemma Delete_store_ok p v s :
  store_ok s →
  let '(_, s', gs) := Store.Delete p v s in store_ok s' ∧ Forall main_goroutine gs.
Proof.
  intros [Hwf Hc Hu Hd]. destruct (Store.Delete p v s) as [[r s'] gs] eqn:E.
  pose proof (Delete_wf _ _ _ _ _ _ Hwf E) as Hwf'. unfold Store.Delete in E.
  split; [split; [done|..]|]; repeat case_match; simplify_eq; simpl; try done;
    rewrite ?Hd; simpl; by constructor.
Qed.

Lemma onExpire_store_ok order sess y :
  store_ok (store y) → iteration_order order (Store.nodes (store y)) →
  let '(y', gs) := onExpire order sess y in
  store_ok (store y') ∧ Forall main_goroutine gs ∧ sessions y' = sessions y ∧
  watches y' = watches y ∧ locks y' = locks y.
Proof.
  intros [Hwf Hc Hu Hd] Ho. unfold onExpire.
  pose proof (exec_wf (Spec.ODeleteEphemerals order (Session.ID sess)) _ Hwf Ho) as HW.
  cbn [Spec.exec] in HW. unfold Store.DeleteEphemerals in *. simpl in *.
  split; [done|]. split; [|done]. apply Forall_forall. intros g Hg. rewrite Hd in Hg. simpl in Hg.
  apply list_elem_of_In, in_flat_map in Hg as (p & _ & [<-|[]]). done.
Qed.

Lemma Split_snoc sep (a b : string) :
  strings.has_char sep b = false →
  strings.Split sep (a +:+ String sep b) = strings.Split sep a ++ [b].
Proof.
  intros Hb. induction a as [|x a IH].
  - cbn [strings.Split app]. simpl. rewrite decide_True by done. by rewrite Split_no_sep.
  - rewrite str_app_cons. simpl. rewrite IH. case_decide; [done|].
    pose proof (Split_nonempty sep a). by destruct (strings.Split sep a).
Qed.

Lemma concat_snoc_nonempty (l : list string) c : c ≠ "" → String.concat "/" (l ++ [c]) ≠ "".
Proof.
  intros Hc. destruct l as [|x l]; [done|]. simpl. destruct (l ++ [c]) eqn:E; [by destruct l|].
  by destruct x.
Qed.

(** A ticket is never requested at the root: the path ends in lock-. *)
Lemma ticket_not_root lockPath :
  strings.HasPrefix lockPath "/" = true →
  Store.normalizePath (lockPath +:+ "/lock-") ≠ "/".
Proof.
  intros Hp. unfold Store.normalizePath. apply HasPrefix_spec in Hp as [r ->].
  rewrite decide_False by done.
  replace (strings.HasPrefix (("/" +:+ r) +:+ "/lock-") "/") with true
    by (symmetry; apply HasPrefix_spec; exists (r +:+ "/lock-"); by rewrite str_app_assoc).
  unfold path.Clean. rewrite decide_False by done.
  replace (strings.HasPrefix (("/" +:+ r) +:+ "/lock-") "/") with true
    by (symmetry; apply HasPrefix_spec; exists (r +:+ "/lock-"); by rewrite str_app_assoc).
  change "/lock-" with (String path.slash "lock-").
  rewrite Split_snoc by done. unfold path.clean_comps. rewrite foldl_app. cbn [foldl].
  rewrite clean_step_valid by apply valid_prefix. rewrite reverse_cons. intros E. apply (concat_snoc_nonempty
    (reverse (foldl (path.clean_step true) [] (strings.Split path.slash ("/" +:+ r)))) "lock-");
    [done|]. by injection E.
Qed.

(** The system, the goroutines of the store that have not run yet, and the
    sessions whose expiry callback was started and has not run yet. *)
Record Server := mkServer {
  sys : System;
  pending : list Store.Goroutine;
  expiring : list Session.Session
}.

(** One step.  A handler is one step, except acquireLock, whose pieces (see
    Locks.v) are steps of their own that may happen at any time: this includes
    every interleaving of several TryLock calls with the other requests. *)
Inductive sv_step : Server → Server → Prop :=
| sv_createSession req uuid now1 now2 y gs ex :
    sv_step (mkServer y gs ex) (mkServer (createSession req uuid now1 now2 y).2 gs ex)
| sv_heartbeat id now1 now2 y gs ex :
    sv_step (mkServer y gs ex) (mkServer (heartbeat id now1 now2 y).2 gs ex)
| sv_closeSession id order y gs ex r y' gs' :
    iteration_order order (Store.nodes (store y)) →
    closeSession id order y = (r, y', gs') →
    sv_step (mkServer y gs ex) (mkServer y' (gs ++ gs') ex)
| sv_createNode param req now1 now2 y gs ex r y' gs' :
    ¬ (Store.normalizePath (node_path param) = "/" ∧ cn_Sequential <$> req = Some true) →
    createNode_store param req now1 now2 y = (r, y', gs') →
    sv_step (mkServer y gs ex) (mkServer y' (gs ++ gs') ex)
| sv_register req actualPath y gs ex :
    sv_step (mkServer y gs ex) (mkServer (createNode_register req actualPath y).2 gs ex)
| sv_setNode param req now y gs ex r y' gs' :
    setNode param req now y = (r, y', gs') →
    sv_step (mkServer y gs ex) (mkServer y' (gs ++ gs') ex)
| sv_deleteNode param v y gs ex r y' gs' :
    deleteNode param v y = (r, y', gs') →
    sv_step (mkServer y gs ex) (mkServer y' (gs ++ gs') ex)
| sv_releaseLock name id y gs ex r y' gs' :
    releaseLock name id y = (r, y', gs') →
    sv_step (mkServer y gs ex) (mkServer y' (gs ++ gs') ex)
| sv_forget path y gs ex :
    sv_step (mkServer y gs ex)
      (mkServer (set_locks (Lock.set_locks (delete path (Lock.locks (locks y))) (locks y)) y) gs ex)
| sv_ensure_dir name now1 now2 y gs ex s' gs' :
    Lock.ensure_dir (Lock.lock_dir name) now1 now2 (store y) = (s', gs') →
    sv_step (mkServer y gs ex) (mkServer (set_store s' y) (gs ++ gs') ex)
| sv_enqueue name owner sid now1 now2 y gs ex r s' gs' :
    Lock.enqueue (Lock.lock_dir name) owner sid now1 now2 (store y) = (r, s', gs') →
    sv_step (mkServer y gs ex) (mkServer (set_store s' y) (gs ++ gs') ex)
| sv_drop_node path y gs ex s' gs' :
    Lock.drop_node path (store y) = (s', gs') →
    sv_step (mkServer y gs ex) (mkServer (set_store s' y) (gs ++ gs') ex)
| sv_record lock now y gs ex :
    sv_step (mkServer y gs ex) (mkServer (set_locks (Lock.record_lock lock now (locks y)).2 y) gs ex)
| sv_start_wait name y gs ex :
    sv_step (mkServer y gs ex) (mkServer (set_locks (Lock.start_wait name (locks y)).2 y) gs ex)
| sv_receive w m y gs ex :
    Lock.wait_receive w (locks y) = Some m →
    sv_step (mkServer y gs ex) (mkServer (set_locks m y) gs ex)
| sv_end_wait name w y gs ex :
    sv_step (mkServer y gs ex) (mkServer (set_locks (Lock.end_wait name w (locks y)) y) gs ex)
| sv_check order clock y gs ex m started :
    Session.checkExpirations order clock (sessions y) = (m, started) →
    sv_step (mkServer y gs ex) (mkServer (set_sessions m y) gs (ex ++ started))
| sv_expire sess order y gs ex ex' y' gs' :
    iteration_order order (Store.nodes (store y)) →
    onExpire order sess y = (y', gs') →
    sv_step (mkServer y gs (ex ++ sess :: ex')) (mkServer y' (gs ++ gs') (ex ++ ex'))
| sv_goroutine g uuid y gs gs' ex y' :
    run_goroutine g uuid y = Some y' →
    sv_step (mkServer y (gs ++ g :: gs') ex) (mkServer y' (gs ++ gs') ex).

Record server_inv (v : Server) : Prop := {
  si_store : store_ok (store (sys v));
  si_sessions : wf_sessions (sessions (sys v));
  si_expire : Session.onExpire (sessions (sys v)) = true;
  si_watches : watches (sys v) = Watch.NewManager;
  si_pending : Forall main_goroutine (pending v);
  (** no waiter's channel has ever been written to *)
  si_chans : Forall (λ full, full = false) (Lock.chans (locks (sys v)))
}.

Lemma run_main_goroutine g uuid y :
  main_goroutine g → watches y = Watch.NewManager → run_goroutine g uuid y = Some y.
Proof.
  intros Hg Hw. destruct y as [rn ss st ws lk]. simpl in Hw. subst ws.
  destruct g as [f p n|f p n|f p]; simpl in Hg; subst f; simpl.
  - unfold Watch.TriggerCreate, Watch.TriggerEvent. simpl. by rewrite lookup_empty.
  - unfold Watch.TriggerDataChange, Watch.TriggerEvent. simpl. by rewrite lookup_empty.
  - unfold Watch.TriggerDelete, Watch.TriggerEvent. simpl. by rewrite lookup_empty.
Qed.

(** Only the store, the pending goroutines or the lock tables change: the
    common shape of most steps. *)
Lemma server_inv_store y gs ex s' gs' :
  server_inv (mkServer y gs ex) → store_ok s' → Forall main_goroutine gs' →
  server_inv (mkServer (set_store s' y) (gs ++ gs') ex).
Proof. intros [] ? ?. split; try done. simpl in *. by apply Forall_app. Qed.

Lemma server_inv_locks y gs ex m :
  server_inv (mkServer y gs ex) → Forall (λ full, full = false) (Lock.chans m) →
  server_inv (mkServer (set_locks m y) gs ex).
Proof. by intros [] ?; split. Qed.

Lemma server_inv_sessions y gs ex ex' m :
  server_inv (mkServer y gs ex) → wf_sessions m → Session.onExpire m = true →
  server_inv (mkServer (set_sessions m y) gs ex').
Proof. by intros [] ?; split. Qed.

#[export] Hint Resolve server_inv_store server_inv_locks server_inv_sessions : sky.

Lemma boot_inv cfg t1 t2 : server_inv (mkServer (boot cfg t1 t2) [] []).
Proof.
  split; simpl; try done.
  - split; try done. simpl. apply wf_SetWatchCallbacks, wf_SetWatchCallbacks, wf_NewStore.
Qed.

(** The session operations keep the session table well-formed. *)
Lemma session_op_ok o m :
  wf_sessions m → Session.onExpire m = true → created (Sessions.exec o m).2 = [] →
  wf_sessions (Sessions.exec o m).1 ∧ Session.onExpire (Sessions.exec o m).1 = true.
Proof.
  intros Hwf He Hc. pose proof (exec_balanced o m Hwf He) as H.
  destruct (Sessions.exec o m) as [m' e]. simpl in *. rewrite Hc in H.
  destruct H as (? & ? & _); [by intros i ?%elem_of_nil|done].
Qed.

Lemma inv_createSession req uuid t1 t2 y gs ex :
  server_inv (mkServer y gs ex) → server_inv (mkServer (createSession req uuid t1 t2 y).2 gs ex).
Proof.
  intros H. unfold createSession. destruct req as [req|]; [|done]. case_decide; [done|]. simpl.
  destruct H. eapply server_inv_sessions; [by split|by apply wf_insert|done].
Qed.

Lemma inv_heartbeat id t1 t2 y gs ex :
  server_inv (mkServer y gs ex) → server_inv (mkServer (heartbeat id t1 t2 y).2 gs ex).
Proof.
  intros H. unfold heartbeat.
  destruct (session_op_ok (OHeartbeat id t1 t2) (sessions y)) as [Hw He].
  - apply (si_sessions _ H).
  - apply (si_expire _ H).
  - simpl. by destruct (Session.Heartbeat _ _ _ _).
  - simpl in Hw, He. destruct (Session.Heartbeat _ _ _ _) as [ok m]. simpl in *.
    by eapply server_inv_sessions.
Qed.

Lemma inv_onExpire order sess y gs ex ex' y' gs' :
  server_inv (mkServer y gs ex) → iteration_order order (Store.nodes (store y)) →
  onExpire order sess y = (y', gs') → server_inv (mkServer y' (gs ++ gs') ex').
Proof.
  intros H Ho E. pose proof (onExpire_store_ok order sess y (si_store _ H) Ho) as HE.
  rewrite E in HE. destruct HE as (Hs & Hg & E1 & E2 & E3). destruct H. simpl in *.
  split; simpl; rewrite ?E1, ?E2, ?E3; try done. by apply Forall_app.
Qed.

Lemma inv_closeSession id order y gs ex r y' gs' :
  iteration_order order (Store.nodes (store y)) → closeSession id order y = (r, y', gs') →
  server_inv (mkServer y gs ex) → server_inv (mkServer y' (gs ++ gs') ex).
Proof.
  intros Ho E H. unfold closeSession in E.
  destruct (session_op_ok (OClose id) (sessions y)) as [Hw He];
    [apply (si_sessions _ H)|apply (si_expire _ H)|by simpl; destruct (Session.Close _ _) as [[]]|].
  simpl in Hw, He. destruct (Session.Close id (sessions y)) as [[ok m] expired]. simpl in *.
  assert (server_inv (mkServer (set_sessions m y) gs ex)) as H1 by by eapply server_inv_sessions.
  destruct expired as [|sess l]; [injection E as <- <- <-; by rewrite app_nil_r|].
  destruct (onExpire order sess (set_sessions m y)) as [y1 g1] eqn:EO. injection E as <- <- <-.
  by eapply inv_onExpire.
Qed.

Lemma inv_createNode param req t1 t2 y gs ex r y' gs' :
  ¬ (Store.normalizePath (node_path param) = "/" ∧ cn_Sequential <$> req = Some true) →
  createNode_store param req t1 t2 y = (r, y', gs') →
  server_inv (mkServer y gs ex) → server_inv (mkServer y' (gs ++ gs') ex).
Proof.
  intros Hp E H. unfold createNode_store in E.
  destruct req as [req|]; [|injection E as <- <- <-; by rewrite app_nil_r].
  case_decide; [injection E as <- <- <-; by rewrite app_nil_r|].
  pose proof (Create_store_ok (node_path param) (cn_Data req) (cn_Ephemeral req) (cn_SessionID req)
    (cn_Sequential req) t1 t2 (store y)) as HC.
  destruct (Store.Create _ _ _ _ _ _ _ _) as [[r0 s'] g0].
  destruct HC as [Hs Hg]; [|apply (si_store _ H)|].
  { intros [? Hq]. apply Hp. split; [done|]. simpl. by rewrite Hq. }
  injection E as _ <- <-. auto with sky.
Qed.

Lemma inv_node_register req p y gs ex :
  server_inv (mkServer y gs ex) → server_inv (mkServer (createNode_register req p y).2 gs ex).
Proof.
  intros H. unfold createNode_register. destruct req as [req|]; [|done]. simpl.
  destruct (cn_Ephemeral req); [|done].
  destruct (session_op_ok (ORegister (cn_SessionID req) p) (sessions y)) as [Hw He];
    [apply (si_sessions _ H)|apply (si_expire _ H)|done|].
  by eapply server_inv_sessions.
Qed.

Lemma inv_setNode param req t y gs ex r y' gs' :
  setNode param req t y = (r, y', gs') →
  server_inv (mkServer y gs ex) → server_inv (mkServer y' (gs ++ gs') ex).
Proof.
  intros E H. unfold setNode in E.
  destruct req as [req|]; [|injection E as <- <- <-; by rewrite app_nil_r].
  pose proof (Set_store_ok (node_path param) (sn_Data req) (default (-1)%Z (sn_Version req)) t
    (store y) (si_store _ H)) as HC.
  destruct (Store.Set_ _ _ _ _ _) as [[r0 s'] g0]. destruct HC as [Hs Hg].
  destruct r0 as [p|[]|]; injection E as <- <- <-; auto with sky.
Qed.

Lemma inv_deleteNode param v y gs ex r y' gs' :
  deleteNode param v y = (r, y', gs') →
  server_inv (mkServer y gs ex) → server_inv (mkServer y' (gs ++ gs') ex).
Proof.
  intros E H. unfold deleteNode in E.
  pose proof (Delete_store_ok (node_path param) (parse_version v) (store y) (si_store _ H)) as HC.
  destruct (Store.Delete _ _ _) as [[r0 s'] g0]. destruct HC as [Hs Hg].
  destruct r0 as [p|[]|]; injection E as <- <- <-; auto with sky.
Qed.

Lemma inv_releaseLock name id y gs ex r y' gs' :
  releaseLock name id y = (r, y', gs') →
  server_inv (mkServer y gs ex) → server_inv (mkServer y' (gs ++ gs') ex).
Proof.
  intros E H. unfold releaseLock, Lock.Unlock in E.
  destruct id as [id|]; [|injection E as <- <- <-; by rewrite app_nil_r]. simpl in E.
  pose proof (si_chans _ H) as Hch. simpl in Hch. destruct (decide (id = "")).
  { injection E as <- <- <-. rewrite app_nil_r. destruct H. by split. }
  pose proof (Delete_store_ok id (-1) (store y) (si_store _ H)) as HC.
  destruct (Store.Delete _ _ _) as [[r0 s'] g0]. destruct HC as [Hs Hg].
  destruct r0 as [p|[]|]; injection E as <- <- <-; auto with sky.
Qed.

Lemma sv_step_inv v v' : sv_step v v' → server_inv v → server_inv v'.
Proof.
  intros Hst H. inversion Hst; subst; clear Hst.
  - by apply inv_createSession.
  - by apply inv_heartbeat.
  - by eapply inv_closeSession.
  - by eapply inv_createNode.
  - by apply inv_node_register.
  - by eapply inv_setNode.
  - by eapply inv_deleteNode.
  - by eapply inv_releaseLock.
  - apply server_inv_locks; [done|]. apply (si_chans _ H).
  - unfold Lock.ensure_dir in H0. destruct (negb _); [|simplify_eq; rewrite app_nil_r; by destruct H].
    pose proof (Create_store_ok (Lock.lock_dir name) "" false "" false now1 now2 (store y)) as HC.
    destruct (Store.Create _ _ _ _ _ _ _ _) as [[r0 s0] g0]. simplify_eq.
    destruct HC as [? ?]; [by intros [? ?]|apply (si_store _ H)|]. auto with sky.
  - unfold Lock.enqueue in H0.
    pose proof (Create_store_ok (Lock.lock_dir name +:+ "/lock-") owner true sid true now1 now2 (store y)) as HC.
    rewrite H0 in HC. destruct HC as [? ?]; [|apply (si_store _ H)|auto with sky].
    intros [Hr _]. by apply ticket_not_root in Hr.
  - unfold Lock.drop_node in H0. pose proof (Delete_store_ok path (-1) (store y) (si_store _ H)) as HC.
    destruct (Store.Delete _ _ _) as [[r0 s0] g0]. simplify_eq. destruct HC. auto with sky.
  - apply server_inv_locks; [done|]. apply (si_chans _ H).
  - apply server_inv_locks; [done|]. simpl. apply Forall_app. split; [apply (si_chans _ H)|].
    by apply Forall_singleton.
  - exfalso. unfold Lock.wait_receive in H0. pose proof (si_chans _ H) as Hc. simpl in Hc.
    destruct (Lock.chans (locks y) !! w) as [[]|] eqn:E; try done.
    by apply (Forall_lookup_1 _ _ _ _ Hc) in E.
  - apply server_inv_locks; [done|]. unfold Lock.end_wait. case_decide; apply (si_chans _ H).
  - pose proof (check_balanced order clock (sessions y) [] (si_sessions _ H) (si_expire _ H)) as HC.
    unfold Session.checkExpirations in H0. rewrite H0 in HC. destruct HC as (? & ? & _).
    by eapply server_inv_sessions.
  - by eapply inv_onExpire.
  - pose proof (si_pending _ H) as Hp. simpl in Hp. apply Forall_app in Hp as [? [Hg ?]%Forall_cons].
    rewrite run_main_goroutine in H0; [|done|apply (si_watches _ H)]. injection H0 as <-.
    destruct H. split; try done. by apply Forall_app.
Qed.

Lemma reachable_inv cfg t1 t2 v :
  rtc sv_step (mkServer (boot cfg t1 t2) [] []) v → server_inv v.
Proof.
  intros H. pose proof (boot_inv cfg t1 t2) as H0. revert H0.
  induction H as [|x z v Hs _ IH]; [done|]. intros Hx. by apply IH, (sv_step_inv x).
Qed.

(** C5. The components stay consistent in every reachable server, under any
    interleaving of requests, pieces of lock requests, callbacks and passes of
    the session checker (sequential nodes not requested at the root itself):
    the node map is a tree, every session is stored under its own id with the
    expiry callback installed, and no request to delete a node and no pending
    callback can panic. *)
Theorem server_consistent cfg t1 t2 v :
  rtc sv_step (mkServer (boot cfg t1 t2) [] []) v →
  wf (store (sys v)) ∧ wf_sessions (sessions (sys v)) ∧
  Session.onExpire (sessions (sys v)) = true ∧
  (∀ p w, (Store.Delete p w (store (sys v))).1.1 ≠ Panic) ∧
  ∀ g uuid, g ∈ pending v → is_Some (run_goroutine g uuid (sys v)).
Proof.
  intros H%reachable_inv. pose proof (so_wf _ (si_store _ H)) as Hwf.
  split_and!; [done|apply H|apply H| |].
  - intros p w. destruct (normalizePath_cases p) as [Hp|(cs & c & Hv & Hp)].
    + by rewrite Delete_root.
    + rewrite (Delete_child _ _ _ cs c) by done. by repeat case_match.
  - intros g uuid Hg. rewrite run_main_goroutine; [by eexists| |apply H].
    by apply (proj1 (Forall_forall _ _) (si_pending _ H)).
Qed.

(** A session is created, then an ephemeral node; its callback is pending. *)
Definition demo_created : Response * System * list Store.Goroutine :=
  createNode "e" (Some (mkCreateNode "x" true false "s1")) 0 0
    (createSession (Some (mkCreateSession "c" 0)) "s1" 0 0 (boot Config.DefaultConfig 0 0)).2.

Lemma demo_server :
  rtc sv_step (mkServer (boot Config.DefaultConfig 0 0) [] [])
    (mkServer demo_created.1.2 demo_created.2 []).
Proof.
  eapply rtc_l; [apply (sv_createSession (Some (mkCreateSession "c" 0)) "s1" 0 0)|].
  eapply rtc_l; [eapply (sv_createNode "e" (Some (mkCreateNode "x" true false "s1")) 0 0 _ [] [])|].
  - by intros [_ ?].
  - vm_compute. reflexivity.
  - eapply rtc_l; [apply (sv_register (Some (mkCreateNode "x" true false "s1")) "/e")|].
    vm_compute. apply rtc_refl.
Qed.

Lemma server_consistent_witness :
  ∃ v, rtc sv_step (mkServer (boot Config.DefaultConfig 0 0) [] []) v ∧
    wf (store (sys v)) ∧ length (pending v) = 1%nat ∧
    ∀ g uuid, g ∈ pending v → is_Some (run_goroutine g uuid (sys v)).
Proof.
  eexists. split; [exact demo_server|].
  destruct (server_consistent Config.DefaultConfig 0 0 _ demo_server) as (H1 & _ & _ & _ & H2).
  split; [exact H1|]. split; [vm_compute; reflexivity|exact H2].
Defined.

(** C38. Nobody is ever notified: main replaces the delete callback that the
    lock manager installed, and no code of the server registers a watch.  In
    every reachable server no waiter's channel can be received from, so a lock
    request that waits ends only by its timeout even if the lock has become
    free, and the number of watches is zero. *)
Theorem waiting_lock_requests_never_woken cfg t1 t2 v w :
  rtc sv_step (mkServer (boot cfg t1 t2) [] []) v →
  Lock.wait_receive w (locks (sys v)) = None ∧
  (∀ path, Store.GoDelete Store.lock_onNodeDeleted path ∉ pending v) ∧
  Watch.GetTotalWatchCount (watches (sys v)) = 0%Z.
Proof.
  intros H%reachable_inv. split_and!.
  - unfold Lock.wait_receive. destruct (Lock.chans _ !! w) as [[]|] eqn:E; try done.
    by apply (Forall_lookup_1 _ _ _ _ (si_chans _ H)) in E.
  - intros path Hp. by apply (proj1 (Forall_forall _ _) (si_pending _ H)) in Hp.
  - by rewrite (si_watches _ H).
Qed.

Lemma waiting_lock_requests_never_woken_witness :
  ∃ v, rtc sv_step (mkServer (boot Config.DefaultConfig 0 0) [] []) v ∧
    Lock.chans (locks (sys v)) = [false] ∧ Lock.wait_receive 0 (locks (sys v)) = None.
Proof.
  set (v := mkServer (set_locks (Lock.start_wait "L" (locks (boot Config.DefaultConfig 0 0))).2
                        (boot Config.DefaultConfig 0 0)) [] []).
  assert (rtc sv_step (mkServer (boot Config.DefaultConfig 0 0) [] []) v) as H.
  { eapply rtc_l; [apply (sv_start_wait "L")|apply rtc_refl]. }
  exists v. split; [exact H|]. split; [reflexivity|].
  exact (proj1 (waiting_lock_requests_never_woken Config.DefaultConfig 0 0 v 0 H)).
Defined.
