(* ===== verification/Daemon.v ===== *)
(** * The life of a server process (cmd/skylock/main.go, main; the lifecycle of
    internal/api/server.go)

    [launch] is main from the loaded configuration to "SkyLock started
    successfully"; [d_step] is what the started goroutines do until a signal
    arrives (the Raft node's two loops of RaftProc.v, the requests, callbacks and
    passes of the session checker of ApiSpec.v, the goroutine that starts the
    HTTP server); [shutdown] is the rest of main.  The values of the flags are
    arguments of [launch], and reading the configuration file and listening on
    an address are parameters. *)

From S2P Require Import Prelude GoLib DataStore StoreInv Config RaftState RaftNode RaftVote RaftCommit.
From S2P Require Import RaftLoop RaftProc Grpc Sessions SessionLoop Watches Locks System Api ApiSpec.

Module Daemon.

(** ** The HTTP server of the API *)




(** ** The process *)






Section Launch.
Context {E File : Type} (ReadInConfig : string → result E File).
Context (Unmarshal : File → Config.Config → result E Config.Config).
Context (Listen : string → bool).

End Launch.





End Daemon.
Import Daemon.

(** ** Reachable processes *)













