(* ===== verification/Http.v ===== *)
(** * Requests and responses (internal/api/server.go, setupRoutes and helpers)

    From an HTTP request to an HTTP response: the routes of setupRoutes, the
    URL parameters, the decoding of each request body into the struct of its
    handler, the handlers of Api.v, and the encoding of their results.

    The router is chi, which is not part of the repository: it is the class
    [Mux], with the documented behaviour as [MuxLaws] (a route whose pattern is
    the only one that matches is chosen, with the text of its placeholders as
    parameters; a request that is not routed is answered with a client error).
    [plain_mux] is an instance of both. *)

From S2P Require Import Prelude GoLib Json Url DataStore Config RaftState RaftNode Sessions.
From S2P Require Import Watches Locks System Api.
Import Main Api.

(** ** The router *)

Module chi.

(** A pattern and a path as lists of elements: a placeholder in braces matches
    one non-empty element, a final star the rest of the path. *)
Definition placeholder (s : string) : option string :=
  match s with
  | String a s' =>
      if decide (a = "{"%char)
      then Some (String.substring 0 (String.length s' - 1) s')
      else None
  | EmptyString => None
  end.

Fixpoint match_elements (pat path : list string) : option (list (string * string)) :=
  match pat, path with
  | [], [] => Some []
  | s :: pat, x :: path =>
      if decide (s = "*" ∧ pat = []) then Some [("*", String.concat "/" (x :: path))]
      else
        match placeholder s with
        | Some key => if decide (x = "") then None else cons (key, x) <$> match_elements pat path
        | None => if decide (s = x) then match_elements pat path else None
        end
  | _, _ => None
  end.

Definition match_pattern (pattern path : string) : option (list (string * string)) :=
  match_elements (strings.Split path.slash pattern) (strings.Split path.slash path).

(** A table of methods and patterns; does route [i] match the request? *)
Definition table := list (string * string).

Definition matches (R : table) (i : nat) (method path : string) : option (list (string * string)) :=
  match R !! i with
  | Some (m, pattern) => if decide (m = method) then match_pattern pattern path else None
  | None => None
  end.

Inductive Match :=
| Found (route : nat) (params : list (string * string))
| Unrouted (code : Z).

Class Mux := route : table → string → string → Match.

Class MuxLaws `{Mux} : Prop := {
  route_unique R m p i ps :
    matches R i m p = Some ps → (∀ j, is_Some (matches R j m p) → j = i) →
    route R m p = Found i ps;
  route_error R m p code : route R m p = Unrouted code → (400 ≤ code < 500)%Z
}.

(** chi.URLParam(r, key) *)
Definition URLParam (key : string) (params : list (string * string)) : string :=
  default "" (snd <$> head (filter (λ kv, kv.1 = key) params)).

(** An instance: the first route that matches. *)
Fixpoint first_match (i : nat) (R : table) (m p : string) : Match :=
  match R with
  | [] => Unrouted 404
  | (m', pat) :: R' =>
      match (if decide (m' = m) then match_pattern pat p else None) with
      | Some ps => Found i ps
      | None => first_match (S i) R' m p
      end
  end.

Definition plain_mux : Mux := first_match 0.

End chi.
Import chi.

Module Http.

(** A body: JSON, or text that is not JSON, or nothing. *)
Inductive payload :=
| NoBody
| Json (v : json.value)
| Text (s : string).

Record Request := mkRequest {
  Method : string;
  RoutePath : string;
  RawQuery : string;
  ReqBody : option json.value
}.

(** ** The routes *)

Inductive Handler :=
| HCreateSession | HHeartbeat | HCloseSession
| HGetNode | HCreateNode | HSetNode | HDeleteNode | HGetChildren
| HAcquireLock | HReleaseLock | HGetLockInfo
| HGetLeader | HGetStatus | HHealthCheck.

(** setupRoutes; the patterns of the group under /v1 are written in full. *)
Definition setupRoutes : list (string * string * Handler) := [
  ("POST", "/v1/session", HCreateSession);
  ("POST", "/v1/session/{id}/heartbeat", HHeartbeat);
  ("DELETE", "/v1/session/{id}", HCloseSession);
  ("GET", "/v1/nodes/*", HGetNode);
  ("PUT", "/v1/nodes/*", HCreateNode);
  ("POST", "/v1/nodes/*", HSetNode);
  ("DELETE", "/v1/nodes/*", HDeleteNode);
  ("GET", "/v1/children/*", HGetChildren);
  ("POST", "/v1/locks/{name}", HAcquireLock);
  ("DELETE", "/v1/locks/{name}", HReleaseLock);
  ("GET", "/v1/locks/{name}", HGetLockInfo);
  ("GET", "/v1/cluster/leader", HGetLeader);
  ("GET", "/v1/cluster/status", HGetStatus);
  ("GET", "/health", HHealthCheck)
].

Definition route_table : table := fst <$> setupRoutes.

(** ** Request bodies *)

Definition createSession_fields : json.fields CreateSessionReq := [
  ("client_id", λ v r, (λ x, mkCreateSession x (cs_TTL r)) <$> json.to_str v (cs_ClientID r));
  ("ttl_seconds", λ v r, (λ x, mkCreateSession (cs_ClientID r) x) <$> json.to_int v (cs_TTL r))
].

Definition createNode_fields : json.fields CreateNodeReq := [
  ("data", λ v r, (λ x, mkCreateNode x (cn_Ephemeral r) (cn_Sequential r) (cn_SessionID r))
                    <$> json.to_str v (cn_Data r));
  ("ephemeral", λ v r, (λ x, mkCreateNode (cn_Data r) x (cn_Sequential r) (cn_SessionID r))
                    <$> json.to_bool v (cn_Ephemeral r));
  ("sequential", λ v r, (λ x, mkCreateNode (cn_Data r) (cn_Ephemeral r) x (cn_SessionID r))
                    <$> json.to_bool v (cn_Sequential r));
  ("session_id", λ v r, (λ x, mkCreateNode (cn_Data r) (cn_Ephemeral r) (cn_Sequential r) x)
                    <$> json.to_str v (cn_SessionID r))
].

Definition setNode_fields : json.fields SetNodeReq := [
  ("data", λ v r, (λ x, mkSetNode x (sn_Version r)) <$> json.to_str v (sn_Data r));
  ("version", λ v r, (λ x, mkSetNode (sn_Data r) (Some x))
                    <$> json.to_int v (default (-1)%Z (sn_Version r)))
].

Definition acquire_fields : json.fields AcquireReq := [
  ("owner", λ v r, (λ x, mkAcquire x (aq_SessionID r) (aq_Timeout r)) <$> json.to_str v (aq_Owner r));
  ("session_id", λ v r, (λ x, mkAcquire (aq_Owner r) x (aq_Timeout r))
                    <$> json.to_str v (aq_SessionID r));
  ("timeout_ms", λ v r, (λ x, mkAcquire (aq_Owner r) (aq_SessionID r) x)
                    <$> json.to_int v (aq_Timeout r))
].

Definition release_fields : json.fields string := [("lock_id", json.to_str)].

(** json.NewDecoder(r.Body).Decode(&req); an empty body is an error. *)
Definition Decode {A} (fs : json.fields A) (zero : A) (r : Request) : option A :=
  match ReqBody r with
  | None => None
  | Some v => json.decode fs zero v
  end.

(** ** Response bodies *)

Definition encode (b : Body) : payload :=
  match b with
  | BEmpty => NoBody
  | BError m => Json (json.obj [("error", json.str m)])
  | BStatus s => Json (json.obj [("status", json.str s)])
  | BSession id ttl => Json (json.obj [("session_id", json.str id); ("ttl", json.seconds ttl)])
  | BNode n =>
      Json (json.obj [
        ("children", json.JArr (json.str <$> Store.Children n));
        ("created_at", json.JTime (Store.CreateTime n));
        ("data", json.str (Store.Data n));
        ("ephemeral", json.JBool (Store.Ephemeral n));
        ("modified_at", json.JTime (Store.ModifyTime n));
        ("path", json.str (Store.Path n));
        ("version", json.JInt (Store.Version n))])
  | BPath p => Json (json.obj [("path", json.str p)])
  | BVersion p v => Json (json.obj [("path", json.str p); ("version", json.JInt v)])
  | BChildren p cs => Json (json.obj [("children", json.JArr (json.str <$> cs)); ("path", json.str p)])
  | BLock id name owner t =>
      Json (json.obj [("acquired", json.JBool true); ("acquired_at", json.JTime t);
        ("lock_id", json.str id); ("name", json.str name); ("owner", json.str owner)])
  | BLockInfo name locked holder q =>
      Json (json.obj [("holder", json.str holder); ("locked", json.JBool locked);
        ("name", json.str name); ("queue_length", json.JInt q)])
  | BLeader id b => Json (json.obj [("is_leader", json.JBool b); ("leader_id", json.str id)])
  | BCluster id b s n w =>
      Json (json.obj [("is_leader", json.JBool b); ("leader_id", json.str id);
        ("nodes", json.JInt n); ("sessions", json.JInt s); ("watches", json.JInt w)])
  end.

(** ** Serving a request *)

(** What a handler takes from its surroundings: successive clock readings, a
    fresh identifier, the iteration order of the node map. *)
Record Env := mkEnv { clock : nat → Z; uuid : string; order : list string }.

(** A handler has answered, or waits in TryLock with this timeout. *)
Inductive Reply :=
| Answered (r : Response)
| Pending (call : Lock.Call) (timeout : Z).

Definition answered (x : Response * System * list Store.Goroutine)
  : Reply * System * list Store.Goroutine :=
  let '(r, y, gs) := x in (Answered r, y, gs).

Definition handle (h : Handler) (ps : list (string * string)) (r : Request) (e : Env) (y : System)
  : Reply * System * list Store.Goroutine :=
  match h with
  | HCreateSession =>
      let '(resp, y) := createSession (Decode createSession_fields (mkCreateSession "" 0) r)
                          (uuid e) (clock e 0%nat) (clock e 1%nat) y in
      (Answered resp, y, [])
  | HHeartbeat =>
      let '(resp, y) := heartbeat (URLParam "id" ps) (clock e 0%nat) (clock e 1%nat) y in
      (Answered resp, y, [])
  | HCloseSession => answered (closeSession (URLParam "id" ps) (order e) y)
  | HGetNode => (Answered (getNode (URLParam "*" ps) y), y, [])
  | HCreateNode =>
      answered (createNode (URLParam "*" ps)
        (Decode createNode_fields (mkCreateNode "" false false "") r)
        (clock e 0%nat) (clock e 1%nat) y)
  | HSetNode =>
      answered (setNode (URLParam "*" ps) (Decode setNode_fields (mkSetNode "" None) r)
        (clock e 0%nat) y)
  | HDeleteNode =>
      answered (deleteNode (URLParam "*" ps) (url.Query_Get "version" (RawQuery r)) y)
  | HGetChildren => (Answered (getChildren (URLParam "*" ps) y), y, [])
  | HAcquireLock =>
      let req := Decode acquire_fields (mkAcquire "" "" 0) r in
      let '(resp, y, gs) := acquireLock (URLParam "name" ps) req (clock e) y in
      (match resp with
       | inl resp => Answered resp
       | inr call => Pending call (lock_timeout (default 0%Z (aq_Timeout <$> req)))
       end, y, gs)
  | HReleaseLock =>
      answered (releaseLock (URLParam "name" ps) (Decode release_fields "" r) y)
  | HGetLockInfo => (Answered (getLockInfo (URLParam "name" ps) y), y, [])
  | HGetLeader => (Answered (getLeader y), y, [])
  | HGetStatus => (Answered (getStatus y), y, [])
  | HHealthCheck => (Answered healthCheck, y, [])
  end.

Section Serve.
Context `{Mux}.

(** The router, then the handler.  An unrouted request is answered by chi. *)
Definition ServeHTTP (r : Request) (e : Env) (y : System)
  : (Reply + Z) * System * list Store.Goroutine :=
  match route route_table (Method r) (RoutePath r) with
  | Unrouted code => (inr code, y, [])
  | Found i ps =>
      match setupRoutes !! i with
      | None => (inr 404%Z, y, [])
      | Some (_, _, h) =>
          let '(reply, y, gs) := handle h ps r e y in (inl reply, y, gs)
      end
  end.
End Serve.

End Http.
Import Http.

(** ** Routing *)

Lemma first_match_found R m p i k ps :
  matches R i m p = Some ps → (∀ j, is_Some (matches R j m p) → j = i) →
  first_match k R m p = Found (k + i) ps.
Proof.
  revert i k. induction R as [|[m' pat] R IH]; intros i k Hi Hu; [done|]. simpl.
  destruct i as [|i].
  - unfold matches in Hi. simpl in Hi. rewrite Hi. by rewrite Nat.add_0_r.
  - destruct (if decide (m' = m) then match_pattern pat p else None) eqn:E.
    + exfalso. assert (0 = S i)%nat by (apply Hu; unfold matches; simpl; rewrite E; eauto). lia.
    + rewrite (IH i); [f_equal; lia|done|]. intros j Hj.
      assert (S j = S i) by (by apply Hu). lia.
Qed.

Lemma first_match_error R k m p code :
  first_match k R m p = Unrouted code → code = 404%Z.
Proof.
  revert k. induction R as [|[m' pat] R IH]; intros k; simpl; [by intros [= <-]|].
  repeat case_match; try done; apply IH.
Qed.

Lemma plain_mux_laws : @MuxLaws plain_mux.
Proof.
  split.
  - intros R m p i ps Hi Hu. by apply (first_match_found R m p i 0 ps).
  - intros R m p code E. apply first_match_error in E. lia.
Qed.

(** Matching one element of a pattern, whatever follows. *)
Lemma match_cons s pat l ps :
  s ≠ "*" → match_elements (s :: pat) l = Some ps →
  ∃ x path ps', l = x :: path ∧ match_elements pat path = Some ps' ∧
    (placeholder s = None → x = s).
Proof.
  intros Hstar. destruct l as [|x path]; [done|]. simpl. rewrite decide_False by naive_solver.
  intros Hm. exists x, path. destruct (placeholder s) as [key|] eqn:E.
  - case_decide; [done|]. apply fmap_Some in Hm as (ps' & Hm & _). naive_solver.
  - case_decide; [|done]. naive_solver.
Qed.

Lemma match_nil l ps : match_elements [] l = Some ps → l = [].
Proof. by destruct l. Qed.

(** The fixed elements of a matching path, read off the pattern. *)
Ltac match_shape H :=
  match type of H with
  | match_elements ?a _ = _ => let a' := eval vm_compute in a in change a with a' in H
  end;
  repeat match type of H with
  | match_elements (_ :: _) _ = _ =>
      apply match_cons in H as (? & ? & ? & ? & H & ?); [|done];
      repeat match goal with E : placeholder _ = None → _ |- _ => specialize (E eq_refl) end;
      simplify_eq
  | match_elements [] _ = _ => apply match_nil in H; simplify_eq
  end.

(** The routes of one method are told apart by their fixed elements. *)
Lemma routes_unambiguous m p i j :
  is_Some (matches route_table i m p) → is_Some (matches route_table j m p) → i = j.
Proof.
  unfold matches, match_pattern. generalize (strings.Split path.slash p). intros l.
  intros [ps Hi] [ps' Hj].
  destruct (route_table !! i) as [[mi pi]|] eqn:Ei; [|done].
  destruct (route_table !! j) as [[mj pj]|] eqn:Ej; [|done].
  case_decide; [|done]. case_decide; [|done]. subst mi mj.
  do 14 (destruct i as [|i]; [cbn in Ei; injection Ei as <- <-; match_shape Hi;
    do 14 (destruct j as [|j]; [cbn in Ej; simplify_eq; try done; match_shape Hj; done|]); done|]).
  done.
Qed.

(** A request whose path matches the pattern of a route goes to its handler. *)
Lemma serve_route `{MuxLaws} i m pat h ps r e y :
  setupRoutes !! i = Some (m, pat, h) → Method r = m →
  match_pattern pat (RoutePath r) = Some ps →
  ServeHTTP r e y = (inl (handle h ps r e y).1.1, (handle h ps r e y).1.2, (handle h ps r e y).2).
Proof.
  intros Hi Hm Hp. unfold ServeHTTP.
  assert (matches route_table i (Method r) (RoutePath r) = Some ps) as Hmt.
  { unfold matches.
    assert (route_table !! i = Some (m, pat)) as -> by (etrans; [apply list_lookup_fmap|by rewrite Hi]).
    by rewrite decide_True. }
  rewrite (route_unique _ _ _ i ps) by (done || (intros j Hj; eapply routes_unambiguous; eauto)).
  rewrite Hi. by destruct (handle h ps r e y) as [[? ?] ?].
Qed.

(** The paths the clients build. *)
Lemma Split_v1 x p :
  strings.has_char path.slash x = false →
  strings.Split path.slash ("/v1/" +:+ x +:+ "/" +:+ p) = "" :: "v1" :: x :: strings.Split path.slash p.
Proof.
  intros Hx. change ("/v1/" +:+ x +:+ "/" +:+ p) with
    ("" +:+ String path.slash ("v1" +:+ String path.slash (x +:+ String path.slash p))).
  by rewrite !Split_app_sep.
Qed.

Lemma match_star p : match_elements ["*"] (strings.Split path.slash p) = Some [("*", p)].
Proof.
  pose proof (concat_Split p) as Hc. pose proof (Split_nonempty path.slash p) as Hne.
  destruct (strings.Split path.slash p) as [|x l]; [done|].
  cbn [match_elements]. by rewrite decide_True, Hc.
Qed.

Lemma match_nodes p : match_pattern "/v1/nodes/*" ("/v1/nodes/" +:+ p) = Some [("*", p)].
Proof.
  unfold match_pattern.
  change ("/v1/nodes/" +:+ p) with ("/v1/" +:+ "nodes" +:+ "/" +:+ p).
  rewrite (Split_v1 "nodes" p eq_refl).
  apply match_star.
Qed.

Lemma match_children p : match_pattern "/v1/children/*" ("/v1/children/" +:+ p) = Some [("*", p)].
Proof.
  unfold match_pattern.
  change ("/v1/children/" +:+ p) with ("/v1/" +:+ "children" +:+ "/" +:+ p).
  rewrite (Split_v1 "children" p eq_refl).
  apply match_star.
Qed.

(** One path element: not empty and without a slash. *)
Definition element (s : string) : Prop := s ≠ "" ∧ strings.has_char path.slash s = false.

Lemma match_locks n :
  element n → match_pattern "/v1/locks/{name}" ("/v1/locks/" +:+ n) = Some [("name", n)].
Proof.
  intros [Hn Hs]. unfold match_pattern.
  change ("/v1/locks/" +:+ n) with ("/v1/" +:+ "locks" +:+ "/" +:+ n).
  rewrite (Split_v1 "locks" n eq_refl), (Split_no_sep _ n) by done.
  simpl. by rewrite decide_False.
Qed.

Lemma match_session id :
  element id → match_pattern "/v1/session/{id}" ("/v1/session/" +:+ id) = Some [("id", id)].
Proof.
  intros [Hn Hs]. unfold match_pattern.
  change ("/v1/session/" +:+ id) with ("/v1/" +:+ "session" +:+ "/" +:+ id).
  rewrite (Split_v1 "session" id eq_refl), (Split_no_sep _ id) by done.
  simpl. by rewrite decide_False.
Qed.

Lemma match_heartbeat id :
  element id →
  match_pattern "/v1/session/{id}/heartbeat" ("/v1/session/" +:+ id +:+ "/heartbeat")
  = Some [("id", id)].
Proof.
  intros [Hn Hs]. unfold match_pattern.
  change ("/v1/session/" +:+ id +:+ "/heartbeat")
    with ("/v1/" +:+ "session" +:+ "/" +:+ (id +:+ String path.slash "heartbeat")).
  rewrite (Split_v1 "session" _ eq_refl).
  rewrite (Split_app_sep _ id) by done. simpl. by rewrite decide_False.
Qed.
