(* ===== verification/Network.v ===== *)
(** * Clients and servers connected

    net/http's client as an interface: [http_Do] sends a request, given by its
    method, URL and optional JSON body, and returns the status and body of the
    answer, or None when there is none (an invalid URL, no connection, a
    deadline).  The client SDK and the command line tool are written against the
    class.  [host_http] is the instance in which one server of this development
    listens on a base URL and nothing else happens while it serves a request. *)

From S2P Require Import Prelude GoLib Json Url DataStore Config Locks System Api Http.
Import Main Api chi Http.

Class HTTP (W : Type) :=
  http_Do : string → string → option json.value → W → option (Z * payload) * W.

Module Network.

(** The write timeout Start sets for the HTTP server. *)
Definition WriteTimeout : Z := 10 * Config.Second.

(** A server process: its components, the goroutines the store has started and
    the number of requests served. *)
Record Host := mkHost {
  sys : System;
  started : list Store.Goroutine;
  served : nat
}.

Definition strip (base u : string) : option string :=
  if strings.HasPrefix u base then
    let t := strings.drop (String.length base) u in
    if strings.HasPrefix t "/" then Some t else None
  else None.

(** A handler left in TryLock ends with its timer, since in a server as main
    wires it nothing signals a waiter; its answer is lost when the write
    timeout has passed. *)
Definition finish (reply : Reply) (y : System)
  : option (Z * payload) * System * list Store.Goroutine :=
  match reply with
  | Answered r => (Some (status r, encode (body r)), y, [])
  | Pending (Lock.Done r) _ =>
      (Some (status (lock_response r), encode (body (lock_response r))), y, [])
  | Pending (Lock.Waiting lock _ w) timeout =>
      let '(call, s, m, gs) := Lock.wait_timeout lock w (store y) (locks y) in
      let resp := match call with
                  | Lock.Done r => lock_response r
                  | Lock.Waiting _ _ _ => mkResponse 500 BEmpty
                  end in
      (if (WriteTimeout <=? timeout)%Z then None else Some (status resp, encode (body resp)),
       set_locks m (set_store s y), gs)
  end.

Section Host.
Context `{Mux}.
(** The base URL the server listens on, and the surroundings of each request. *)
Context (base : string) (env : nat → Env).

(** The text of chi's own answers is not modelled. *)
Definition serve (r : Request) (h : Host) : option (Z * payload) * Host :=
  let '(out, y, gs) := ServeHTTP r (env (served h)) (sys h) in
  let '(answer, y, gs') :=
    match out with
    | inr code => (Some (code, Text ""), y, [])
    | inl reply => finish reply y
    end in
  (answer, mkHost y (started h ++ gs ++ gs') (S (served h))).

Definition exchange (method u : string) (reqbody : option json.value) (h : Host)
  : option (Z * payload) * Host :=
  match strip base u with
  | None => (None, h)
  | Some t =>
      match url.parse_target t with
      | None => (None, h)
      | Some (path, raw, q) =>
          match url.server_path (url.EscapedPath (path, raw)) with
          | None => (Some (400%Z, Text "400 Bad Request"), h)
          | Some rp =>
              if strings.has_char " "%char q then (Some (400%Z, Text "400 Bad Request"), h)
              else serve (mkRequest method rp q reqbody) h
          end
      end
  end.

#[local] Instance host_http : HTTP Host := exchange.
End Host.

End Network.
