(* ===== verification/Client.v ===== *)
(** * The client SDK (pkg/client/client.go)

    One definition per method of Client, over any HTTP client.  The body of a
    request is the JSON value of its map; a response is decoded into the struct
    the method declares.  heartbeatStop is a channel that is nil, open or
    closed; the goroutine of startHeartbeat is known by its interval, and
    [heartbeat_tick] is one round of it. *)

From S2P Require Import Prelude GoLib Json Config Http Network.
Import Http.

Module Client.

Inductive Error :=
| ENotConnected                          (** fmt.Errorf("not connected") *)
| ETransport                             (** the error of http.NewRequest or Do *)
| EStatus (code : Z) (body : payload)    (** fmt.Errorf("HTTP %d: %s", ...) *)
| EDecode.                               (** the error of json.Unmarshal *)

(** A channel that is only ever closed. *)
Inductive Chan := ChNil | ChOpen | ChClosed.

Record Client := mkClient {
  baseURL : string;
  sessionID : string;
  heartbeatStop : Chan;
  heartbeats : list Z                    (** intervals of the goroutines started *)
}.

(** The http.Client it makes gives up after thirty seconds, later than the server,
    which answers or drops every request within its write timeout of ten. *)
Definition NewClient (servers : list string) : Client :=
  mkClient (match servers with s :: _ => s | [] => "http://localhost:8080" end) "" ChNil [].

Record Lock := mkLock { Name : string; LockID : string; Owner : string }.

Definition Unmarshal {A} (fs : json.fields A) (zero : A) (p : payload) : option A :=
  match p with Json v => json.decode fs zero v | _ => None end.

(** The structs the responses are read into. *)
Definition session_fields : json.fields (string * Z) := [
  ("session_id", λ v r, (λ x, (x, r.2)) <$> json.to_str v r.1);
  ("ttl", λ v r, (λ x, (r.1, x)) <$> json.to_seconds v r.2)
].
Definition lock_fields : json.fields Lock := [
  ("lock_id", λ v r, (λ x, mkLock (Name r) x (Owner r)) <$> json.to_str v (LockID r));
  ("name", λ v r, (λ x, mkLock x (LockID r) (Owner r)) <$> json.to_str v (Name r));
  ("owner", λ v r, (λ x, mkLock (Name r) (LockID r) x) <$> json.to_str v (Owner r))
].
Definition path_fields : json.fields string := [("path", json.to_str)].
Definition node_fields : json.fields (string * Z) := [
  ("data", λ v r, (λ x, (x, r.2)) <$> json.to_str v r.1);
  ("version", λ v r, (λ x, (r.1, x)) <$> json.to_uint v r.2)
].
Definition version_fields : json.fields Z := [("version", json.to_uint)].
Definition children_fields : json.fields (list string) := [("children", json.to_strs)].
Definition leader_fields : json.fields string := [("leader_id", json.to_str)].

Section Operations.
Context {W : Type} `{HTTP W}.

Definition doRequest (method path : string) (body : option json.value) (c : Client) (w : W)
  : result Error payload * W :=
  let '(resp, w) := http_Do method (baseURL c +:+ path) body w in
  match resp with
  | None => (Err ETransport, w)
  | Some (StatusCode, respBody) =>
      if (400 <=? StatusCode)%Z then (Err (EStatus StatusCode respBody), w) else (Ok respBody, w)
  end.

(** doRequest followed by json.Unmarshal of the response. *)
Definition request {A} (fs : json.fields A) (zero : A) (method path : string)
    (body : option json.value) (c : Client) (w : W) : result Error A * W :=
  let '(r, w) := doRequest method path body c w in
  (match r with
   | Ok resp => match Unmarshal fs zero resp with Some a => Ok a | None => Err EDecode end
   | Err e => Err e
   | Panic => Panic
   end, w).

(** The goroutine makes a ticker first, which panics unless the interval is
    positive; a panic in a goroutine ends the program. *)
Definition startHeartbeat (interval : Z) (c : Client) : option Client :=
  if (interval <=? 0)%Z then None
  else Some (mkClient (baseURL c) (sessionID c) ChOpen (heartbeats c ++ [interval])).

(** time.Duration(result.TTL/3) * time.Second, for TTL in nanoseconds; TTL is a
    float64 of seconds in the source, and the quotient, truncated, is the exact
    one for the TTLs Connect can get, of at most thirty seconds. *)
Definition heartbeat_interval (ttl : Z) : Z :=
  i64 (Z.quot ttl (3 * Config.Second) * Config.Second).

Definition Connect (clientID : string) (c : Client) (w : W) : result Error unit * Client * W :=
  let '(r, w) := request session_fields ("", 0%Z) "POST" "/v1/session"
    (Some (json.obj [("client_id", json.str clientID); ("ttl_seconds", json.JInt 30)])) c w in
  match r with
  | Err e => (Err e, c, w)
  | Panic => (Panic, c, w)
  | Ok (id, ttl) =>
      let c := mkClient (baseURL c) id (heartbeatStop c) (heartbeats c) in
      match startHeartbeat (heartbeat_interval ttl) c with
      | None => (Panic, c, w)
      | Some c => (Ok tt, c, w)
      end
  end.

(** One round of the heartbeat goroutine; the error is only logged. *)
Definition heartbeat_tick (c : Client) (w : W) : result Error payload * W :=
  doRequest "POST" ("/v1/session/" +:+ sessionID c +:+ "/heartbeat") None c w.

(** Closing a closed channel panics. *)
Definition Close (c : Client) (w : W) : result Error unit * Client * W :=
  match heartbeatStop c with
  | ChClosed => (Panic, c, w)
  | stop =>
      let c := mkClient (baseURL c) (sessionID c)
                 (match stop with ChNil => ChNil | _ => ChClosed end)
                 (match stop with ChNil => heartbeats c | _ => [] end) in
      if decide (sessionID c = "") then (Ok tt, c, w)
      else
        let '(_, w) := doRequest "DELETE" ("/v1/session/" +:+ sessionID c) None c w in
        (Ok tt, c, w)
  end.

(** int(timeout.Milliseconds()), with 30000 for zero. *)
Definition timeout_ms (timeout : Z) : Z :=
  let ms := Z.quot timeout Config.Millisecond in
  if (ms =? 0)%Z then 30000%Z else ms.

Definition TryLock (name : string) (timeout : Z) (c : Client) (w : W) : result Error Lock * W :=
  if decide (sessionID c = "") then (Err ENotConnected, w)
  else
    request lock_fields (mkLock "" "" "") "POST" ("/v1/locks/" +:+ name)
      (Some (json.obj [("owner", json.str "sdk-client"); ("session_id", json.str (sessionID c));
                       ("timeout_ms", json.JInt (timeout_ms timeout))])) c w.

Definition Lock_ (name : string) (c : Client) (w : W) : result Error Lock * W :=
  TryLock name 0 c w.

Definition Unlock (l : Lock) (c : Client) (w : W) : result Error unit * W :=
  let '(r, w) := doRequest "DELETE" ("/v1/locks/" +:+ Name l)
    (Some (json.obj [("lock_id", json.str (LockID l))])) c w in
  (match r with Ok _ => Ok tt | Err e => Err e | Panic => Panic end, w).

Definition Create (path data : string) (ephemeral : bool) (c : Client) (w : W)
  : result Error string * W :=
  if decide (ephemeral = true ∧ sessionID c = "") then (Err ENotConnected, w)
  else
    request path_fields "" "PUT" ("/v1/nodes/" +:+ path)
      (Some (json.obj [("data", json.str data); ("ephemeral", json.JBool ephemeral);
                       ("session_id", json.str (sessionID c))])) c w.

Definition Get (path : string) (c : Client) (w : W) : result Error (string * Z) * W :=
  request node_fields ("", 0%Z) "GET" ("/v1/nodes/" +:+ path) None c w.

Definition Set_ (path data : string) (version : Z) (c : Client) (w : W) : result Error Z * W :=
  request version_fields 0%Z "POST" ("/v1/nodes/" +:+ path)
    (Some (json.obj [("data", json.str data); ("version", json.JInt version)])) c w.

Definition Delete (path : string) (c : Client) (w : W) : result Error unit * W :=
  let '(r, w) := doRequest "DELETE" ("/v1/nodes/" +:+ path) None c w in
  (match r with Ok _ => Ok tt | Err e => Err e | Panic => Panic end, w).

Definition GetChildren (path : string) (c : Client) (w : W) : result Error (list string) * W :=
  request children_fields [] "GET" ("/v1/children/" +:+ path) None c w.

Definition GetLeader (c : Client) (w : W) : result Error string * W :=
  request leader_fields "" "GET" "/v1/cluster/leader" None c w.

End Operations.
End Client.
