(* ===== verification/ClientSpec.v ===== *)
(** * The client SDK against the server

    The client's node operations, run through URLs, routing, JSON and the
    handlers, are the store's operations ([client_refines_store]): same answers,
    same store, whatever the sequence of calls. *)

From S2P Require Import Prelude GoLib Json Url Sequence DataStore StoreInv StoreSpec Config RaftState.
From S2P Require Import RaftNode Sessions Watches Locks LockQueue LockOps System Api ApiSpec Http.
From S2P Require Import Words Network Client.
Import Main Api chi Http Network Client.

(** ** Bodies *)

Lemma concat_to_string_ne cs : cs ≠ [] → String.concat "" (runes.to_string <$> cs) ≠ "".
Proof.
  destruct cs as [|c cs]; [done|]. intros _. rewrite fmap_cons.
  assert (runes.to_string c ≠ "") as Hc by (unfold runes.to_string; repeat case_match; done).
  destruct (runes.to_string c) as [|a t]; [done|]. by destruct (runes.to_string <$> cs).
Qed.

(** Only the empty string is coerced to the empty string. *)
Lemma coerce_empty s : json.coerce s = "" → s = "".
Proof.
  destruct s as [|a s]; [done|]. intros H. exfalso. revert H. apply concat_to_string_ne.
  unfold runes.of_string. simpl. repeat case_match; done.
Qed.

Definition in_i64 (x : Z) : Prop := (- 2 ^ 63 ≤ x ≤ 2 ^ 63 - 1)%Z.

Lemma decode_create_body m t d e sid :
  Decode createNode_fields (mkCreateNode "" false false "")
    (mkRequest m t "" (Some (json.obj [("data", json.str d); ("ephemeral", json.JBool e);
                                       ("session_id", json.str sid)])))
  = Some (mkCreateNode (json.coerce d) e false (json.coerce sid)).
Proof. reflexivity. Qed.


Lemma unmarshal_path p : Unmarshal path_fields "" (encode (BPath p)) = Some (json.coerce p).
Proof. reflexivity. Qed.

Lemma to_uint_word v old : in_u64 v → json.to_uint (json.JInt v) old = Some v.
Proof.
  unfold in_u64, u64_max. intros Hv. unfold json.to_uint.
  by rewrite (proj2 (between_true _ _ _)) by lia.
Qed.

Lemma unmarshal_node n :
  in_u64 (Store.Version n) →
  Unmarshal node_fields ("", 0%Z) (encode (BNode n))
  = Some (json.coerce (Store.Data n), Store.Version n).
Proof.
  intros Hv. change (Unmarshal node_fields _ _) with
    ((λ x, (json.coerce (Store.Data n), x)) <$> json.to_uint (json.JInt (Store.Version n)) 0).
  by rewrite to_uint_word.
Qed.




(** ** One request *)

Section Host.
Context `{MuxLaws} (base : string) (env : nat → Env).
#[local] Existing Instance host_http.
#[local] Instance the_host : HTTP Host := host_http base env.

Lemma strip_app t : strings.HasPrefix t "/" = true → strip base (base +:+ t) = Some t.
Proof.
  intros Ht. unfold strip.
  assert (strings.HasPrefix (base +:+ t) base = true) as -> by (by apply HasPrefix_spec; eexists).
  by rewrite str_drop_app, Ht.
Qed.

(** A transparent target reaches the router unchanged. *)
Lemma exchange_transparent m t b h :
  transparent t → strings.HasPrefix t "/" = true →
  exchange base env m (base +:+ t) b h = serve env (mkRequest m t "" b) h.
Proof.
  intros Ht Hs. unfold exchange. rewrite strip_app by done.
  destruct (transparent_path t) as (raw & -> & ->); [done|by intros ->|done].
Qed.

(** A request to a route whose handler answers. *)
Lemma doRequest_host i pat hd ps m t b c h r y gs :
  baseURL c = base → transparent t → strings.HasPrefix t "/" = true →
  setupRoutes !! i = Some (m, pat, hd) → match_pattern pat t = Some ps →
  handle hd ps (mkRequest m t "" b) (env (served h)) (sys h) = (Answered r, y, gs) →
  doRequest m t b c h =
    (if (400 <=? status r)%Z then Err (EStatus (status r) (encode (body r)))
     else Ok (encode (body r)), mkHost y (started h ++ gs) (S (served h))).
Proof.
  intros Hb Ht Hs Hi Hp Hh. unfold doRequest, http_Do, the_host, host_http.
  rewrite Hb, exchange_transparent by done. unfold serve.
  rewrite (serve_route i m pat hd ps) by done. rewrite Hh. simpl. rewrite app_nil_r.
  by case_match.
Qed.

(** ** Node operations *)

Inductive call :=
| CCreate (path data : string) (ephemeral : bool)
| CGet (path : string)
| CSet (path data : string) (version : Z)
| CDelete (path : string)
| CChildren (path : string).

Inductive answer :=
| APath (path : string)
| ANode (data : string) (version : Z)
| AVersion (version : Z)
| ADone
| ANames (names : list string).

Definition rmap {E A B} (f : A → B) (r : result E A) : result E B :=
  match r with Ok a => Ok (f a) | Err e => Err e | Panic => Panic end.

(** The method of the client. *)
Definition client_call (k : call) (c : Client) (w : Host) : result Client.Error answer * Host :=
  match k with
  | CCreate p d e => let '(r, w) := Client.Create p d e c w in (rmap APath r, w)
  | CGet p => let '(r, w) := Client.Get p c w in (rmap (λ x, ANode x.1 x.2) r, w)
  | CSet p d v => let '(r, w) := Client.Set_ p d v c w in (rmap AVersion r, w)
  | CDelete p => let '(r, w) := Client.Delete p c w in (rmap (λ _, ADone) r, w)
  | CChildren p => let '(r, w) := Client.GetChildren p c w in (rmap ANames r, w)
  end.

(** The operation of the store it stands for; strings are coerced to UTF-8. *)
Definition store_call (sid : string) (e : Env) (k : call) (s : Store.Store)
  : result Store.Error answer * Store.Store :=
  match k with
  | CCreate p d eph =>
      let '(r, s, _) := Store.Create (node_path p) (json.coerce d) eph (json.coerce sid) false
                          (clock e 0%nat) (clock e 1%nat) s in
      (rmap (λ a, APath (json.coerce a)) r, s)
  | CGet p =>
      (rmap (λ n, ANode (json.coerce (Store.Data n)) (Store.Version n)) (Store.Get (node_path p) s), s)
  | CSet p d v =>
      let '(r, s, _) := Store.Set_ (node_path p) (json.coerce d) v (clock e 0%nat) s in
      (rmap (λ n, AVersion (Store.Version n)) r, s)
  | CDelete p => let '(r, s, _) := Store.Delete (node_path p) (-1) s in (rmap (λ _, ADone) r, s)
  | CChildren p => (rmap (λ l, ANames (json.coerce <$> l)) (Store.GetChildren (node_path p) s), s)
  end.

(** The status code for an error of the store. *)
Definition status_of (e : Store.Error) : Z :=
  match e with
  | Store.ErrNodeExists | Store.ErrVersionMismatch => 409
  | Store.ErrNodeNotFound => 404
  | Store.ErrNotEmpty => 400
  | Store.ErrInvalidPath | Store.ErrEphemeralParent | Store.ErrDeleteRoot => 500
  end.

(** What the client returns for a result of the store. *)
Definition agree (r : result Client.Error answer) (r' : result Store.Error answer) : Prop :=
  match r' with
  | Ok a => r = Ok a
  | Err e => ∃ b, r = Err (EStatus (status_of e) b)
  | Panic => r = Err (EStatus 500 NoBody)
  end.

Definition call_path (k : call) : string :=
  match k with CCreate p _ _ | CGet p | CSet p _ _ | CDelete p | CChildren p => p end.

(** A path that a URL carries as it is; a version that is an int64; for an
    ephemeral node, a session. *)
Definition call_ok (c : Client) (k : call) : Prop :=
  transparent (call_path k) ∧
  match k with
  | CCreate _ _ e => e = true → sessionID c ≠ ""
  | CSet _ _ v => in_i64 v
  | _ => True
  end.

Lemma transparent_nodes p : transparent p → transparent ("/v1/nodes/" +:+ p).
Proof. intros Hp. apply transparent_app. by split; [reflexivity|]. Qed.


(** The errors each operation can return. *)
Lemma Create_errors p d e sid sq t1 t2 s err s' gs :
  Store.Create p d e sid sq t1 t2 s = (Err err, s', gs) →
  err = Store.ErrNodeNotFound ∨ err = Store.ErrEphemeralParent ∨ err = Store.ErrNodeExists.
Proof. unfold Store.Create. intros. repeat case_match; simplify_eq; auto. Qed.


Lemma refines_create p d e c h :
  baseURL c = base → call_ok c (CCreate p d e) →
  let '(r, h') := client_call (CCreate p d e) c h in
  let '(r', s') := store_call (sessionID c) (env (served h)) (CCreate p d e) (store (sys h)) in
  agree r r' ∧ store (sys h') = s' ∧ served h' = S (served h).
Proof.
  intros Hb [Ht Hs]. cbn [client_call store_call call_path] in *.
  unfold Client.Create. rewrite decide_False by naive_solver. unfold request.
  pose proof (λ r y gs, doRequest_host 4 "/v1/nodes/*" HCreateNode [("*", p)] "PUT" _
    (Some (json.obj [("data", json.str d); ("ephemeral", json.JBool e);
                     ("session_id", json.str (sessionID c))])) c h r y gs Hb
    (transparent_nodes p Ht) eq_refl eq_refl (match_nodes p)) as HD.
  cbn [handle] in HD. rewrite decode_create_body in HD. unfold createNode, createNode_store, createNode_register in HD. cbn in HD.
  rewrite decide_False in HD by (intros [? ?%coerce_empty]; naive_solver).
  change (URLParam "*" [("*", p)]) with p in HD.
  destruct (Store.Create (node_path p) _ _ _ _ _ _ _) as [[r' s'] gs] eqn:E.
  destruct r' as [a|err|];
    [|destruct (Create_errors _ _ _ _ _ _ _ _ _ _ _ E) as [->|[->| ->]]|];
    erewrite HD by reflexivity; split_and!; try done; try (by eexists); by destruct e.
Qed.

Lemma refines_get p c h :
  baseURL c = base → call_ok c (CGet p) →
  (∀ n, Store.Get (node_path p) (store (sys h)) = Ok n → in_u64 (Store.Version n)) →
  let '(r, h') := client_call (CGet p) c h in
  let '(r', s') := store_call (sessionID c) (env (served h)) (CGet p) (store (sys h)) in
  agree r r' ∧ store (sys h') = s' ∧ served h' = S (served h).
Proof.
  intros Hb [Ht _] Hw. cbn [client_call store_call call_path] in *. unfold Client.Get, request.
  pose proof (λ r y gs, doRequest_host 3 "/v1/nodes/*" HGetNode [("*", p)] "GET" _ None c h r y gs Hb
    (transparent_nodes p Ht) eq_refl eq_refl (match_nodes p)) as HD.
  cbn [handle] in HD. change (URLParam "*" [("*", p)]) with p in HD.
  unfold getNode, Store.Get in *. destruct (Store.nodes _ !! _) as [n|];
    erewrite HD by reflexivity; [|split_and!; [by eexists|done..]]. cbn [status body respondJSON].
  change (400 <=? 200)%Z with false. cbv iota. by rewrite unmarshal_node by (by apply Hw).
Qed.









Lemma Create_plain_path p d e sid t1 t2 s a s' gs :
  Store.Create p d e sid false t1 t2 s = (Ok a, s', gs) → a = Store.normalizePath p.
Proof. unfold Store.Create. intros. repeat case_match; by simplify_eq. Qed.

(** C20. What a client writes it reads back: after a successful Create, Get of the
    same path returns version 1 and the data as UTF-8 text, which is the data
    itself when it is valid UTF-8; every invalid byte comes back as the three
    bytes of U+FFFD. *)
Theorem client_create_get p d e c h a h1 :
  baseURL c = base → transparent p → Client.Create p d e c h = (Ok a, h1) →
  (Client.Get p c h1).1 = Ok (json.coerce d, 1%Z).
Proof.
  intros Hb Ht HC.
  assert (call_ok c (CCreate p d e)) as Hok.
  { split; [done|]. intros -> Hs. unfold Client.Create in HC. by rewrite decide_True in HC. }
  pose proof (refines_create p d e c h Hb Hok) as H1. cbn [client_call store_call] in H1.
  rewrite HC in H1. destruct (Store.Create _ _ _ _ _ _ _ _) as [[r' s'] gs] eqn:E.
  destruct H1 as (Ha & Hs & _). destruct r' as [a'|err|]; [|by destruct Ha|done].
  destruct (Create_ok _ _ _ _ _ _ _ _ _ _ _ E) as (_ & _ & Hn & _).
  rewrite (Create_plain_path _ _ _ _ _ _ _ _ _ _ E) in Hn. rewrite <- Hs in Hn.
  pose proof (refines_get p c h1 Hb (conj Ht I)) as H2. cbn [client_call store_call] in H2.
  unfold Store.Get in H2. rewrite Hn in H2. destruct (Client.Get p c h1) as [r2 h2].
  destruct H2 as (H2 & _); [by intros n [= <-]; simpl; auto with sky|].
  unfold agree in H2. cbn [rmap Store.Data Store.Version] in H2. rewrite coerce_idemp in H2.
  destruct r2 as [[x y]|?|]; simpl in H2; by simplify_eq/=.
Qed.
End Host.

(** ** Example: a client of the demo server *)

Definition demo_env (n : nat) : Env := mkEnv (λ _, Z.of_nat n) "u" [].
Definition demo_host : Host := mkHost demo_sys [] 0.
Definition demo_client : Client := mkClient "http://localhost:8080" "s1" ChNil [].






(** Two bytes that are not UTF-8 come back as two replacement characters. *)
Definition bad_data : string := String (ascii_of_nat 255) (String (ascii_of_nat 254) "").

Lemma client_create_get_witness :
  ∃ h1, Client.Create (W := Host) (H := host_http (H := plain_mux) "http://localhost:8080" demo_env)
          "app/x" bad_data false demo_client demo_host = (Ok "/app/x", h1) ∧
    (Client.Get (W := Host) (H := host_http (H := plain_mux) "http://localhost:8080" demo_env)
      "app/x" demo_client h1).1 = Ok (json.coerce bad_data, 1%Z) ∧ json.coerce bad_data ≠ bad_data.
Proof.
  eexists. split; [vm_compute; reflexivity|]. split; [|vm_compute; discriminate].
  refine (client_create_get (H := plain_mux) (H0 := plain_mux_laws) "http://localhost:8080" demo_env
    "app/x" bad_data false demo_client demo_host "/app/x" _ eq_refl eq_refl _).
  vm_compute. reflexivity.
Defined.
