(* ===== verification/ClientLocks.v ===== *)
(** * Locks through the client SDK

    TryLock, Lock and Unlock of the client against a server: what they return
    and what they leave in the server's store, for a free lock and for a busy
    one. *)

From S2P Require Import Prelude GoLib Json Url Sequence DataStore StoreInv StoreSpec Config RaftState.
From S2P Require Import RaftNode Sessions Watches Locks LockQueue LockOps System Api ApiSpec Http.
From S2P Require Import Network Client ClientSpec.
Import Main Api chi Http Network Client.

(** ** Names *)

Lemma digits_bytes s :
  Sequence.all_digits s = true → Forall (λ b, 48 ≤ b ≤ 57)%Z (runes.bytes_Z s).
Proof.
  induction s as [|a s IH]; [done|]. simpl. rewrite andb_true_iff, between_true.
  intros [Ha Hs]. constructor; [done|by apply IH].
Qed.

(** The path of a ticket is text when the lock's name is. *)
Lemma ticket_path_valid name k : valid_utf8 name → in_u64 k → valid_utf8 (ticket_path name k).
Proof.
  intros Hn Hk. unfold ticket_path. rewrite <- child_path. unfold Lock.lock_dir, ticket.
  destruct (formatSequence_digits k Hk) as [Hd _].
  pose proof (digits_valid _ (digits_bytes _ Hd)) as Hf.
  repeat apply valid_utf8_app; try done; reflexivity.
Qed.

Lemma valid_comp_element name : valid_comp name → element name.
Proof. intros (? & _ & _ & ?). by split. Qed.

(** ** Durations *)

(** The wait a client asks for, as the server computes it. *)
Definition server_wait (timeout : Z) : Z := lock_timeout (timeout_ms timeout).

Lemma timeout_ms_range timeout : in_i64 timeout → in_i64 (timeout_ms timeout).
Proof.
  unfold in_i64, timeout_ms, Config.Millisecond. intros Ht.
  case_match; [lia|]. Z.to_euclidean_division_equations. lia.
Qed.

Section Host.
Context `{MuxLaws} (base : string) (env : nat → Env).
#[local] Hint Extern 0 (HTTP Host) => exact (the_host base env) : typeclass_instances.

(** ** Requests for a lock *)

Lemma decode_acquire_body m t owner sid ms :
  in_i64 ms →
  Decode acquire_fields (mkAcquire "" "" 0)
    (mkRequest m t "" (Some (json.obj [("owner", json.str owner); ("session_id", json.str sid);
                                       ("timeout_ms", json.JInt ms)])))
  = Some (mkAcquire (json.coerce owner) (json.coerce sid) ms).
Proof.
  intros Hv. change (Decode acquire_fields _ _) with
    ((λ x, mkAcquire (json.coerce owner) (json.coerce sid) x) <$> json.to_int (json.JInt ms) 0).
  unfold json.to_int. by rewrite (proj2 (between_true _ _ _)).
Qed.

(** The handler's part of a TryLock request. *)
Lemma acquire_handler name timeout c h :
  in_i64 timeout → sessionID c ≠ "" →
  handle HAcquireLock [("name", name)]
    (mkRequest "POST" ("/v1/locks/" +:+ name) ""
       (Some (json.obj [("owner", json.str "sdk-client"); ("session_id", json.str (sessionID c));
                        ("timeout_ms", json.JInt (timeout_ms timeout))])))
    (env (served h)) (sys h) =
  let '(call, s, m, gs) := Lock.TryLock name "sdk-client" (json.coerce (sessionID c))
    (server_wait timeout) (clock (env (served h))) (store (sys h)) (locks (sys h)) in
  (match call with
   | Lock.Done r => Answered (lock_response r)
   | _ => Pending call (server_wait timeout)
   end, set_locks m (set_store s (sys h)), gs).
Proof.
  intros Ht Hs. cbn [handle]. rewrite decode_acquire_body by (by apply timeout_ms_range).
  change (URLParam "name" [("name", name)]) with name. unfold acquireLock.
  cbn [aq_Owner aq_SessionID aq_Timeout].
  rewrite decide_False by (intros ?%coerce_empty; done).
  change (json.coerce "sdk-client") with "sdk-client". fold (server_wait timeout).
  destruct (Lock.TryLock _ _ _ _ _ _ _) as [[[call s] m] gs]. by destruct call.
Qed.

Lemma transparent_locks p : transparent p → transparent ("/v1/locks/" +:+ p).
Proof. intros Hp. apply transparent_app. by split; [reflexivity|]. Qed.


Lemma Unlock_request name l k n c h :
  baseURL c = base → valid_comp name → transparent name → in_u64 k →
  wf (store (sys h)) → Store.nodes (store (sys h)) !! ticket_path name k = Some n →
  Store.Children n = [] → Name l = name → LockID l = ticket_path name k →
  valid_utf8 (ticket_path name k) →
  ∃ h2, Unlock l c h = (Ok tt, h2) ∧ wf (store (sys h2)) ∧
    ∀ c, in_dir name (store (sys h2)) c ↔ in_dir name (store (sys h)) c ∧ c ≠ ticket k.
Proof.
  intros Hb Hn Ht Hk Hwf Hl Hch HN HI Hu. unfold Unlock. rewrite HN, HI.
  destruct (Delete_ticket name k n (store (sys h)) Hn Hk Hwf Hl Hch) as [gs E].
  pose proof (drop_ticket name k n (store (sys h)) Hn Hk Hwf Hl Hch) as HD.
  unfold Lock.drop_node in HD. rewrite E in HD. destruct HD as (Hwf' & _ & _ & Hin).
  pose proof (λ r y gs, doRequest_host base env 9 "/v1/locks/{name}" HReleaseLock [("name", name)]
    "DELETE" _ (Some (json.obj [("lock_id", json.str (ticket_path name k))])) c h r y gs Hb
    (transparent_locks name Ht) eq_refl eq_refl (match_locks name (valid_comp_element _ Hn))) as HR.
  cbn [handle] in HR. change (Decode release_fields "" _) with
    (Some (json.coerce (ticket_path name k))) in HR. rewrite Hu in HR.
  change (URLParam "name" [("name", name)]) with name in HR.
  unfold releaseLock, Lock.Unlock in HR. cbn [Lock.Path] in HR.
  rewrite decide_False in HR by apply abs_path_nonempty. rewrite E in HR.
  unfold json.obj, json.str in *. rewrite Hu in *.
  erewrite HR by reflexivity. eexists. split; [reflexivity|]. by split.
Qed.

(** C10. A free lock, taken and given back by a client: TryLock, with any timeout,
    returns a lock under the requested name, the server reports the client as
    its holder, Unlock of what TryLock returned succeeds, and the lock is free
    again.  The name is a path element that a URL carries as it is and is valid
    UTF-8; the server has a /locks node, and the lock's directory, if there is
    one, holds nothing but tickets (fewer than 10^10). *)
Theorem client_lock_unlock name timeout c h acq :
  baseURL c = base → sessionID c ≠ "" → in_i64 timeout →
  valid_comp name → transparent name → valid_utf8 name →
  (Store.seqCounter (store (sys h)) < 10 ^ 10 - 1)%Z →
  queue_inv name (store (sys h)) acq → locks_ready name (store (sys h)) →
  Lock.IsLocked name (store (sys h)) = false →
  ∃ l h1 h2, TryLock name timeout c h = (Ok l, h1) ∧ Name l = name ∧ Owner l = "sdk-client" ∧
    Lock.IsLocked name (store (sys h1)) = true ∧
    Lock.GetLockHolder name (store (sys h1)) = Ok "sdk-client" ∧
    Unlock l c h1 = (Ok tt, h2) ∧ Lock.IsLocked name (store (sys h2)) = false.
Proof.
  intros Hb Hs Hto Hn Ht Hu Hq Hinv Hr Hfree.
  pose proof (proj1 (proj2 (qi_wf _ _ _ Hinv))) as H0'.
  pose proof (TryLock_outcome name "sdk-client" (json.coerce (sessionID c)) (server_wait timeout)
    (clock (env (served h))) (store (sys h)) (locks (sys h)) acq Hn Hq Hinv Hr) as HO.
  cbv zeta in HO. rewrite Hfree in HO. set (k := (Store.seqCounter (store (sys h)) + 1)%Z) in *.
  assert (in_u64 k) as Hk by (unfold in_u64, u64_max, k; lia).
  pose proof (acquire_handler name timeout c h Hto Hs) as HH.
  destruct (Lock.TryLock _ _ _ _ _ _ _) as [[[call s'] m'] gs].
  destruct HO as (-> & -> & Hinv' & Hc' & Hin & Hl). cbv beta iota in HH.
  pose proof (doRequest_host base env 8 "/v1/locks/{name}" HAcquireLock [("name", name)] "POST" _
    _ c h _ _ _ Hb (transparent_locks name Ht) eq_refl eq_refl
    (match_locks name (valid_comp_element _ Hn)) HH) as HD.
  pose proof (ticket_path_valid name k Hu Hk) as Hut.
  unfold TryLock, request. rewrite decide_False by done. rewrite HD. simpl.
  set (h1 := mkHost _ _ _). set (l := mkLock name (ticket_path name k) "sdk-client").
  destruct (Unlock_request name l k _ c h1 Hb Hn Ht Hk (qi_wf _ _ _ Hinv') Hl eq_refl eq_refl
    eq_refl Hut) as (h2 & HU & Hwf2 & Hin2).
  destruct (single_ticket_holder _ _ _ _ Hn (qi_wf _ _ _ Hinv') Hin Hk Hl) as [Hlk Hh].
  exists l, h1, h2. split_and!; try done.
  - f_equal. change (Ok (mkLock (json.coerce name) (json.coerce (ticket_path name k))
      (json.coerce "sdk-client")) = Ok l :> result Error Lock). by rewrite Hu, Hut.
  - apply not_true_is_false. intros (x & [Hx Hne]%Hin2)%IsLocked_spec; [|done..].
    by apply Hne, Hin.
Qed.

End Host.

(** ** Example: a server with a free lock and one with a held lock *)

Definition demo_lock_host (s : Store.Store) : Host := mkHost (set_store s demo_sys) [] 0.

Lemma demo_ready s :
  s = demo_locks ∨ s = demo_lock_store → locks_ready "L" s.
Proof.
  intros [->| ->]; (split; [eexists; split; vm_compute; reflexivity|]);
    intros n Hx; vm_compute in Hx; [discriminate|by injection Hx as <-].
Qed.

Lemma client_lock_unlock_witness :
  ∃ l h1 h2,
    TryLock (H := the_host (H := plain_mux) "http://localhost:8080" demo_env) "L" 5000000000
      demo_client (demo_lock_host demo_locks) = (Ok l, h1) ∧
    LockID l = "/locks/L/lock-0000000001" ∧
    Unlock (H := the_host (H := plain_mux) "http://localhost:8080" demo_env) l demo_client h1
      = (Ok tt, h2).
Proof.
  assert (valid_comp "L") as Hn by (by apply (bool_decide_unpack _); vm_compute).
  destruct (client_lock_unlock (H := plain_mux) (H0 := plain_mux_laws) "http://localhost:8080"
    demo_env "L" 5000000000 demo_client (demo_lock_host demo_locks) [] eq_refl ltac:(done)
    ltac:(unfold in_i64; lia) Hn eq_refl eq_refl ltac:(vm_compute; reflexivity)
    (proj1 queue_inv_demo) (demo_ready _ (or_introl eq_refl)) ltac:(vm_compute; reflexivity))
    as (l & h1 & h2 & E1 & _ & _ & _ & _ & E2 & _).
  exists l, h1, h2. split; [exact E1|]. split; [|exact E2].
  vm_compute in E1. by injection E1 as <- _.
Defined.

