(* ===== verification/ClientSession.v ===== *)
(** * Sessions through the client SDK

    Connect against a server, the heartbeats that follow, and Close. *)

From S2P Require Import Prelude GoLib Json Url Sequence DataStore StoreInv StoreSpec Config RaftState.
From S2P Require Import RaftNode Sessions Watches Locks LockQueue LockOps System Api ApiSpec Http.
From S2P Require Import Network Client ClientSpec.
Import Main Api chi Http Network Client.

Lemma to_seconds_seconds ns old : json.to_seconds (json.seconds ns) old = Some ns.
Proof.
  unfold json.seconds. destruct (Z.eqb_spec (ns mod 1000000000) 0); simpl; [|done].
  f_equal. Z.to_euclidean_division_equations. lia.
Qed.

Lemma unmarshal_session id ttl :
  Unmarshal session_fields ("", 0%Z) (encode (BSession id ttl)) = Some (json.coerce id, ttl).
Proof.
  change (Unmarshal session_fields _ _) with
    ((λ x, (json.coerce id, x)) <$> json.to_seconds (json.seconds ttl) 0).
  by rewrite to_seconds_seconds.
Qed.

(** The heartbeat interval is a third of the TTL, in whole seconds. *)
Lemma heartbeat_interval_bounds ttl :
  (0 ≤ ttl < 2 ^ 62)%Z →
  let i := heartbeat_interval ttl in
  (0 ≤ i ∧ 3 * i ≤ ttl < 3 * i + 3 * Config.Second)%Z.
Proof.
  intros Ht. unfold heartbeat_interval, Config.Second. cbv zeta.
  rewrite i64_small; Z.to_euclidean_division_equations; lia.
Qed.

Lemma heartbeat_interval_short ttl :
  (- 2 ^ 63 ≤ ttl < 3 * Config.Second)%Z → (heartbeat_interval ttl ≤ 0)%Z.
Proof.
  intros Ht. unfold heartbeat_interval, Config.Second in *.
  rewrite i64_small; Z.to_euclidean_division_equations; lia.
Qed.

Section Host.
Context `{MuxLaws} (base : string) (env : nat → Env).
#[local] Hint Extern 0 (HTTP Host) => exact (the_host base env) : typeclass_instances.

(** C34. Connect: the server stores a session under the identifier it generates,
    with the client's name and a TTL of thirty seconds cut to the server's
    limits; the client takes over the identifier and starts one heartbeat
    goroutine whose interval i, in whole seconds, satisfies
    3 i <= TTL < 3 i + 3 s, so that two heartbeats in a row may fail.  With a
    TTL below three seconds the interval is not positive and the ticker
    panics. *)
Theorem client_connect clientID c h :
  baseURL c = base → clientID ≠ "" → valid_utf8 (uuid (env (served h))) →
  (- 2 ^ 63 ≤ Session.maxTTL (sessions (sys h)))%Z →
  let id := uuid (env (served h)) in
  let ttl := Session.validate_ttl (30 * Config.Second) (sessions (sys h)) in
  let '(r, c', h') := Connect clientID c h in
  Session.Get id (sessions (sys h')) =
    Some (Session.mkSession id (json.coerce clientID) (clock (env (served h)) 0%nat)
            (clock (env (served h)) 1%nat) ttl []) ∧
  sessionID c' = id ∧ store (sys h') = store (sys h) ∧
  if (ttl <? 3 * Config.Second)%Z then r = Panic
  else r = Ok tt ∧ heartbeatStop c' = ChOpen ∧
    ∃ i, heartbeats c' = heartbeats c ++ [i] ∧ (Config.Second ≤ i)%Z ∧
      (3 * i ≤ ttl < 3 * i + 3 * Config.Second)%Z.
Proof.
  intros Hb Hc Hu Hm. cbv zeta. set (e := env (served h)) in *.
  set (ttl := Session.validate_ttl _ _).
  assert (- 2 ^ 63 ≤ ttl ≤ 30 * Config.Second)%Z as Httl.
  { unfold ttl, Session.validate_ttl, Config.Second.
    destruct (Z.ltb_spec (Session.maxTTL (sessions (sys h)))
      (if (30 * 1000000000 <=? 0)%Z then Session.defaultTTL (sessions (sys h)) else 30 * 1000000000));
      simpl in *; lia. }
  pose proof (λ r y gs, doRequest_host base env 0 "/v1/session" HCreateSession [] "POST" "/v1/session"
    (Some (json.obj [("client_id", json.str clientID); ("ttl_seconds", json.JInt 30)])) c h r y gs Hb
    eq_refl eq_refl eq_refl eq_refl) as HD.
  cbn [handle] in HD. change (Decode createSession_fields _ _) with
    (Some (mkCreateSession (json.coerce clientID) 30)) in HD. unfold createSession in HD.
  cbn [cs_ClientID cs_TTL] in HD. rewrite decide_False in HD by (intros ?%coerce_empty; done).
  change (i64 (30 * Config.Second)) with (30 * Config.Second)%Z in HD.
  unfold Connect, request. erewrite HD by reflexivity. clear HD.
  cbn [status body respondJSON Session.ID Session.TTL]. change (400 <=? 201)%Z with false. cbv iota.
  rewrite unmarshal_session. fold e. rewrite Hu. fold ttl. unfold startHeartbeat.
  destruct (Z.ltb_spec ttl (3 * Config.Second)) as [Hlt|Hge].
  - pose proof (heartbeat_interval_short ttl ltac:(lia)).
    rewrite (proj2 (Z.leb_le (heartbeat_interval ttl) 0)) by done.
    split_and!; try done. simpl. apply lookup_insert_eq.
  - pose proof (heartbeat_interval_bounds ttl ltac:(unfold Config.Second in *; lia)) as Hi.
    cbv zeta in Hi.
    assert (Config.Second ≤ heartbeat_interval ttl)%Z as H1.
    { unfold heartbeat_interval, Config.Second in *.
      rewrite i64_small in *; Z.to_euclidean_division_equations; lia. }
    rewrite (proj2 (Z.leb_gt (heartbeat_interval ttl) 0)) by (unfold Config.Second in *; lia).
    split_and!; try done; [simpl; apply lookup_insert_eq|].
    exists (heartbeat_interval ttl). by split_and!; try done; apply Hi.
Qed.

(** ** Heartbeats *)

Lemma transparent_heartbeat id :
  transparent id → transparent ("/v1/session/" +:+ id +:+ "/heartbeat").
Proof. intros Hi. rewrite !transparent_app. by split_and!. Qed.

Lemma transparent_session id : transparent id → transparent ("/v1/session/" +:+ id).
Proof. intros Hi. rewrite transparent_app. by split. Qed.

(** One heartbeat within the TTL is accepted and moves the session on. *)
Lemma heartbeat_tick_ok id c h s :
  baseURL c = base → sessionID c = id → element id → transparent id →
  Session.Get id (sessions (sys h)) = Some s →
  (Session.Since (clock (env (served h)) 0%nat) (Session.LastHeartbeat s) ≤ Session.TTL s)%Z →
  ∃ h', heartbeat_tick c h = (Ok (encode (BStatus "ok")), h') ∧ served h' = S (served h) ∧
    Session.Get id (sessions (sys h')) = Some (Session.touch (clock (env (served h)) 1%nat) s).
Proof.
  intros Hb Hi He Ht Hs Hd. unfold heartbeat_tick. rewrite Hi.
  pose proof (λ r y gs, doRequest_host base env 1 "/v1/session/{id}/heartbeat" HHeartbeat [("id", id)]
    "POST" _ None c h r y gs Hb (transparent_heartbeat id Ht) eq_refl eq_refl (match_heartbeat id He))
    as HD.
  cbn [handle] in HD. change (URLParam "id" [("id", id)]) with id in HD.
  unfold heartbeat, Session.Heartbeat in HD. unfold Session.Get in Hs. rewrite Hs in HD.
  assert (Session.IsExpired (clock (env (served h)) 0%nat) s = false) as Hx
    by (unfold Session.IsExpired; apply Z.ltb_ge; lia).
  rewrite Hx in HD. erewrite HD by reflexivity. eexists. split; [reflexivity|]. split; [done|].
  simpl. apply lookup_insert_eq.
Qed.

(** The goroutine's rounds, one request each. *)
Fixpoint heartbeat_ticks (n : nat) (c : Client) (h : Host) : list (result Error payload) * Host :=
  match n with
  | O => ([], h)
  | S n =>
      let '(r, h) := heartbeat_tick c h in
      let '(rs, h) := heartbeat_ticks n c h in (r :: rs, h)
  end.

(** The server's clock at the next [n] requests from number [k] on: each one is
    read at most [ttl] after the last heartbeat was recorded. *)
Fixpoint timely (ttl last : Z) (k n : nat) : Prop :=
  match n with
  | O => True
  | S n => (Session.Since (clock (env k) 0%nat) last ≤ ttl)%Z ∧ timely ttl (clock (env k) 1%nat) (S k) n
  end.

(** C21. A client whose heartbeats reach the server in time keeps its session: if
    each of n rounds of the heartbeat goroutine is served at most the session's
    TTL after the previous one, every round is answered with success and the
    session is still stored afterwards with the same TTL. *)
Theorem client_heartbeats_keep_session n c h s :
  baseURL c = base → element (sessionID c) → transparent (sessionID c) →
  Session.Get (sessionID c) (sessions (sys h)) = Some s →
  timely (Session.TTL s) (Session.LastHeartbeat s) (served h) n →
  let '(rs, h') := heartbeat_ticks n c h in
  Forall (λ r, r = Ok (encode (BStatus "ok"))) rs ∧
  ∃ s', Session.Get (sessionID c) (sessions (sys h')) = Some s' ∧
    Session.TTL s' = Session.TTL s ∧ Session.ClientID s' = Session.ClientID s.
Proof.
  intros Hb He Ht. revert h s. induction n as [|n IH]; intros h s Hs Hn.
  { split; [constructor|]. by exists s. }
  destruct Hn as [H1 Hn].
  destruct (heartbeat_tick_ok (sessionID c) c h s Hb eq_refl He Ht Hs H1) as (h1 & E & Hk & Hs1).
  simpl. rewrite E. specialize (IH h1 _ Hs1). rewrite Hk in IH. specialize (IH Hn).
  destruct (heartbeat_ticks n c h1) as [rs h2]. destruct IH as [IH1 IH2].
  split; [by constructor|done].
Qed.

(** ** Close *)

(** C35. Close of a connected client ends its session on the server: it returns
    without an error, the session is gone, every ephemeral node it owned is
    removed and every other node is kept.  A second Close panics, because the
    channel that stops the heartbeats is closed again. *)
Theorem client_close_ends_session c h s :
  baseURL c = base → heartbeatStop c = ChOpen →
  element (sessionID c) → transparent (sessionID c) →
  wf (store (sys h)) → wf_sessions (sessions (sys h)) → Session.onExpire (sessions (sys h)) = true →
  Session.Get (sessionID c) (sessions (sys h)) = Some s →
  iteration_order (order (env (served h))) (Store.nodes (store (sys h))) →
  let '(r, c', h') := Close c h in
  r = Ok tt ∧ Session.Get (sessionID c) (sessions (sys h')) = None ∧
  (∀ p, entry <$> Store.nodes (store (sys h')) !! p =
     if Store.owned_at (sessionID c) (Store.nodes (store (sys h))) p then None
     else entry <$> Store.nodes (store (sys h)) !! p) ∧
  (Close c' h').1.1 = Panic.
Proof.
  intros Hb Hch He Ht Hwf Hws Hex Hs Ho. unfold Close. rewrite Hch. cbn [sessionID].
  rewrite decide_False by apply He.
  pose proof (λ r y gs, doRequest_host base env 2 "/v1/session/{id}" HCloseSession
    [("id", sessionID c)] "DELETE" _ None (mkClient (baseURL c) (sessionID c) ChClosed []) h r y gs Hb
    (transparent_session _ Ht) eq_refl eq_refl (match_session _ He)) as HD.
  cbn [handle] in HD. change (URLParam "id" [("id", sessionID c)]) with (sessionID c) in HD.
  pose proof (closeSession_effect (sessionID c) (order (env (served h))) (sys h) Hwf Hws Hex Ho) as HC.
  destruct (closeSession _ _ _) as [[r y] gs]. rewrite Hs in HC. destruct HC as (_ & Hg & _ & Hn).
  cbn [answered] in HD. rewrite (HD r y gs eq_refl). by case_match.
Qed.
End Host.

(** ** Example *)

Definition session_env (n : nat) : Env :=
  mkEnv (λ _, (Z.of_nat n * 9000000000)%Z) "u1" (Store.keys (store demo_sys)).

Definition plain_client : Client := NewClient [].

Lemma client_connect_witness :
  let '(r, c', h') := Connect (H := the_host (H := plain_mux) "http://localhost:8080" session_env)
                        "me" plain_client demo_host in
  r = Ok tt ∧ heartbeats c' = [10000000000%Z] ∧ sessionID c' = "u1".
Proof.
  pose proof (client_connect (H := plain_mux) (H0 := plain_mux_laws) "http://localhost:8080" session_env
    "me" plain_client demo_host eq_refl ltac:(done) eq_refl ltac:(vm_compute; discriminate)) as HC.
  cbv zeta in HC.
  assert ((Connect (H := the_host (H := plain_mux) "http://localhost:8080" session_env) "me"
    plain_client demo_host).1.2 = mkClient "http://localhost:8080" "u1" ChOpen [10000000000%Z]) as E
    by (vm_compute; reflexivity).
  destruct (Connect "me" plain_client demo_host) as [[r c'] h']. cbn [fst snd] in E. subst c'.
  destruct HC as (_ & Hi & _ & Hr).
  assert ((Session.validate_ttl (30 * Config.Second) (sessions (sys demo_host)) <? 3 * Config.Second)%Z
    = false) as X by (vm_compute; reflexivity).
  rewrite X in Hr. split; [exact (proj1 Hr)|]. split; [reflexivity|exact Hi].
Defined.

(** The server after that Connect. *)
Definition session_host : Host :=
  (Connect (H := the_host (H := plain_mux) "http://localhost:8080" session_env)
     "me" plain_client demo_host).2.
Definition session_client : Client := mkClient "http://localhost:8080" "u1" ChOpen [10000000000%Z].

Lemma session_host_session :
  Session.Get "u1" (sessions (sys session_host))
  = Some (Session.mkSession "u1" "me" 0 0 30000000000 []).
Proof. vm_compute. reflexivity. Qed.

Lemma client_heartbeats_keep_session_witness :
  let '(rs, h') := heartbeat_ticks (H := plain_mux) "http://localhost:8080" session_env 3
                     session_client session_host in
  Forall (λ r, r = Ok (encode (BStatus "ok"))) rs ∧ is_Some (Session.Get "u1" (sessions (sys h'))).
Proof.
  pose proof (client_heartbeats_keep_session (H := plain_mux) (H0 := plain_mux_laws)
    "http://localhost:8080" session_env 3 session_client session_host _ eq_refl
    ltac:(split; [done|reflexivity]) eq_refl session_host_session) as HK.
  destruct (heartbeat_ticks _ _ 3 _ _) as [rs h']. destruct HK as [H1 (s' & H2 & _)].
  - vm_compute. repeat split; discriminate.
  - split; [exact H1|]. by exists s'.
Defined.

Lemma client_close_ends_session_witness :
  let '(r, c', h') := Close (H := the_host (H := plain_mux) "http://localhost:8080" session_env)
                        session_client session_host in
  r = Ok tt ∧ Session.Get "u1" (sessions (sys h')) = None ∧
  (Close (H := the_host (H := plain_mux) "http://localhost:8080" session_env) c' h').1.1 = Panic.
Proof.
  assert (wf_sessions (sessions (sys session_host))) as Hws.
  { intros i s. assert (Session.sessions (sessions (sys session_host)) =
      {[ "u1" := Session.mkSession "u1" "me" 0 0 30000000000 [] ]}) as E by (vm_compute; reflexivity).
    rewrite E. by intros [<- <-]%lookup_singleton_Some. }
  pose proof (client_close_ends_session (H := plain_mux) (H0 := plain_mux_laws)
    "http://localhost:8080" session_env session_client session_host
    (Session.mkSession "u1" "me" 0 0 30000000000 []) eq_refl eq_refl
    ltac:(split; [done|reflexivity]) eq_refl
    (wf_SetWatchCallbacks (Some Store.main_onCreate) (Some Store.main_onUpdate)
       (Some Store.main_onDelete) _ wf_demo_app) Hws eq_refl session_host_session
    (Permutation_refl (Store.keys (store demo_sys)))) as HC.
  destruct (Close session_client session_host) as [[r c'] h'].
  destruct HC as (H1 & H2 & _ & H3). split; [exact H1|]. split; [exact H2|exact H3].
Defined.
