(* ===== verification/Ctl.v ===== *)
(** * The command line tool (cmd/skylockctl/main.go)

    [main] is the program from its arguments to its exit code and output, over
    any HTTP client: the flag package for the one flag -server, the choice of
    the command with its usage messages, and one method of Client per command.
    Output is the list of things printed: a line of text, or the body of a
    response. *)

From S2P Require Import Prelude GoLib Json Url Http Network Client.
Import Http.

(** ** Package flag, for string flags *)
Module flag.

Inductive Parsed :=
| Args (value : string) (rest : list string)     (** the flag's value, flag.Args() *)
| Help                                           (** -h: usage, exit code 0 *)
| Bad.                                           (** message and usage, exit code 2 *)

(** Parse with one string flag [flagname]; an argument that is no flag, or the
    argument --, ends the flags. *)
Fixpoint Parse (flagname : string) (args : list string) (value : string) : Parsed :=
  match args with
  | [] => Args value []
  | s :: rest =>
      match s with
      | String a (String b s') =>
          if decide (a ≠ "-"%char) then Args value (s :: rest)
          else if decide (b = "-"%char ∧ s' = "") then Args value rest
          else
            let name := if decide (b = "-"%char) then s' else String b s' in
            match name with
            | EmptyString => Bad
            | String c name' =>
                if decide (c = "-"%char ∨ c = "="%char) then Bad
                else
                  let '(n, v, hasValue) := url.Cut "="%char name' in
                  let n := String c n in
                  if decide (n ≠ flagname) then
                    if decide (n = "help" ∨ n = "h") then Help else Bad
                  else if hasValue then Parse flagname rest v
                  else
                    match rest with
                    | v :: rest' => Parse flagname rest' v
                    | [] => Bad
                    end
            end
      | _ => Args value (s :: rest)
      end
  end.

End flag.

Module Ctl.

Inductive Error :=
| ETransport
| EStatus (code : Z) (body : payload).

Inductive line :=
| Line (s : string)
| Body (p : payload).

(** The end of the process: exit code, standard output, the error printed to
    standard error. *)
Record Exit := mkExit { code : Z; stdout : list line; stderr : option Error }.

Record Client := mkClient { baseURL : string }.

Definition quote : string := String (ascii_of_nat 34) "".

Definition printUsage : list line := [
  Line "SkyLock CLI - Distributed Lock Service Client";
  Line "";
  Line "Usage: skylockctl [flags] <command> [args]";
  Line "";
  Line "Global Flags:";
  Line ("  -server string    SkyLock server address (default " +:+ quote +:+ "http://localhost:8080" +:+ quote +:+ ")");
  Line "";
  Line "Commands:";
  Line "  leader                           Get current leader";
  Line "  status                           Get cluster status";
  Line "  ";
  Line "  session create <client-id>       Create a new session";
  Line "  session heartbeat <session-id>   Send heartbeat";
  Line "  session close <session-id>       Close a session";
  Line "  ";
  Line "  get <path>                       Get node data";
  Line "  create <path> [data]             Create a node";
  Line "  set <path> <data>                Set node data";
  Line "  delete <path>                    Delete a node";
  Line "  children <path>                  Get children of a node";
  Line "  ";
  Line "  lock <name> <session-id> [owner] Acquire a lock";
  Line "  unlock <name> <lock-id>          Release a lock";
  Line "  lockinfo <name>                  Get lock information"
].

Section Commands.
Context {W : Type} `{HTTP W}.

Definition doRequest (method path : string) (body : option json.value) (c : Client) (w : W)
  : result Error payload * W :=
  let '(resp, w) := http_Do method (baseURL c +:+ path) body w in
  match resp with
  | None => (Err ETransport, w)
  | Some (StatusCode, respBody) =>
      if (400 <=? StatusCode)%Z then (Err (EStatus StatusCode respBody), w) else (Ok respBody, w)
  end.

(** What a command returns: an error, and what it printed. *)
Definition Outcome : Type := option Error * list line.

(** fmt.Println(string(resp)), and fmt.Println of a fixed text. *)
Definition print_body (r : result Error payload * W) : Outcome * W :=
  let '(r, w) := r in
  (match r with
   | Ok resp => (None, [Body resp])
   | Err e => (Some e, [])
   | Panic => (None, [])
   end, w).

Definition print_text (text : string) (r : result Error payload * W) : Outcome * W :=
  let '(r, w) := r in
  (match r with
   | Ok _ => (None, [Line text])
   | Err e => (Some e, [])
   | Panic => (None, [])
   end, w).

Definition getLeader (c : Client) (w : W) : Outcome * W :=
  print_body (doRequest "GET" "/v1/cluster/leader" None c w).

Definition getStatus (c : Client) (w : W) : Outcome * W :=
  print_body (doRequest "GET" "/v1/cluster/status" None c w).

Definition createSession (clientID : string) (c : Client) (w : W) : Outcome * W :=
  print_body (doRequest "POST" "/v1/session"
    (Some (json.obj [("client_id", json.str clientID); ("ttl_seconds", json.JInt 30)])) c w).

Definition heartbeat (sessionID : string) (c : Client) (w : W) : Outcome * W :=
  print_body (doRequest "POST" ("/v1/session/" +:+ sessionID +:+ "/heartbeat") None c w).

Definition closeSession (sessionID : string) (c : Client) (w : W) : Outcome * W :=
  print_text "Session closed" (doRequest "DELETE" ("/v1/session/" +:+ sessionID) None c w).

Definition getNode (path : string) (c : Client) (w : W) : Outcome * W :=
  print_body (doRequest "GET" ("/v1/nodes/" +:+ path) None c w).

Definition createNode (path data : string) (ephemeral : bool) (sessionID : string)
    (c : Client) (w : W) : Outcome * W :=
  print_body (doRequest "PUT" ("/v1/nodes/" +:+ path)
    (Some (json.obj [("data", json.str data); ("ephemeral", json.JBool ephemeral);
                     ("session_id", json.str sessionID)])) c w).

Definition setNode (path data : string) (c : Client) (w : W) : Outcome * W :=
  print_body (doRequest "POST" ("/v1/nodes/" +:+ path)
    (Some (json.obj [("data", json.str data); ("version", json.JInt (-1))])) c w).

Definition deleteNode (path : string) (c : Client) (w : W) : Outcome * W :=
  print_text "Node deleted" (doRequest "DELETE" ("/v1/nodes/" +:+ path) None c w).

Definition getChildren (path : string) (c : Client) (w : W) : Outcome * W :=
  print_body (doRequest "GET" ("/v1/children/" +:+ path) None c w).

Definition acquireLock (name sessionID owner : string) (c : Client) (w : W) : Outcome * W :=
  print_body (doRequest "POST" ("/v1/locks/" +:+ name)
    (Some (json.obj [("owner", json.str owner); ("session_id", json.str sessionID);
                     ("timeout_ms", json.JInt 30000)])) c w).

Definition releaseLock (name lockID : string) (c : Client) (w : W) : Outcome * W :=
  print_text "Lock released" (doRequest "DELETE" ("/v1/locks/" +:+ name)
    (Some (json.obj [("lock_id", json.str lockID)])) c w).

Definition getLockInfo (name : string) (c : Client) (w : W) : Outcome * W :=
  print_body (doRequest "GET" ("/v1/locks/" +:+ name) None c w).

(** fmt.Println of a message, then os.Exit(1). *)
Definition fail (text : string) (w : W) : Exit * W := (mkExit 1 [Line text] None, w).

(** The end of main: the error goes to standard error. *)
Definition finish (r : Outcome * W) : Exit * W :=
  let '((err, out), w) := r in
  (match err with Some e => mkExit 1 out (Some e) | None => mkExit 0 out None end, w).

(** case "session": *)
Definition session_command (args : list string) (c : Client) (w : W) : Exit * W :=
  match args with
  | [] => fail "Usage: skylockctl session <create|heartbeat|close> [args]" w
  | sub :: args =>
      if decide (sub = "create") then
        match args with
        | id :: _ => finish (createSession id c w)
        | [] => fail "Usage: skylockctl session create <client-id>" w
        end
      else if decide (sub = "heartbeat") then
        match args with
        | id :: _ => finish (heartbeat id c w)
        | [] => fail "Usage: skylockctl session heartbeat <session-id>" w
        end
      else if decide (sub = "close") then
        match args with
        | id :: _ => finish (closeSession id c w)
        | [] => fail "Usage: skylockctl session close <session-id>" w
        end
      else fail ("Unknown session command: " +:+ sub) w
  end.

(** switch cmd *)
Definition command (cmd : string) (args : list string) (c : Client) (w : W) : Exit * W :=
  if decide (cmd = "leader") then finish (getLeader c w)
  else if decide (cmd = "status") then finish (getStatus c w)
  else if decide (cmd = "session") then session_command args c w
  else if decide (cmd = "get") then
    match args with
    | path :: _ => finish (getNode path c w)
    | [] => fail "Usage: skylockctl get <path>" w
    end
  else if decide (cmd = "create") then
    match args with
    | [] => fail "Usage: skylockctl create <path> [data]" w
    | path :: rest =>
        let data := match rest with d :: _ => d | [] => "" end in
        finish (createNode path data false "" c w)
    end
  else if decide (cmd = "set") then
    match args with
    | path :: data :: _ => finish (setNode path data c w)
    | _ => fail "Usage: skylockctl set <path> <data>" w
    end
  else if decide (cmd = "delete") then
    match args with
    | path :: _ => finish (deleteNode path c w)
    | [] => fail "Usage: skylockctl delete <path>" w
    end
  else if decide (cmd = "children") then
    match args with
    | path :: _ => finish (getChildren path c w)
    | [] => fail "Usage: skylockctl children <path>" w
    end
  else if decide (cmd = "lock") then
    match args with
    | name :: sid :: rest =>
        let owner := match rest with o :: _ => o | [] => "cli" end in
        finish (acquireLock name sid owner c w)
    | _ => fail "Usage: skylockctl lock <name> <session-id> [owner]" w
    end
  else if decide (cmd = "unlock") then
    match args with
    | name :: lockID :: _ => finish (releaseLock name lockID c w)
    | _ => fail "Usage: skylockctl unlock <name> <lock-id>" w
    end
  else if decide (cmd = "lockinfo") then
    match args with
    | name :: _ => finish (getLockInfo name c w)
    | [] => fail "Usage: skylockctl lockinfo <name>" w
    end
  else (mkExit 1 (Line ("Unknown command: " +:+ cmd) :: printUsage) None, w).

(** [argv] is os.Args[1:]. *)
Definition main (argv : list string) (w : W) : Exit * W :=
  match flag.Parse "server" argv "http://localhost:8080" with
  | flag.Help => (mkExit 0 [] None, w)
  | flag.Bad => (mkExit 2 [] None, w)
  | flag.Args serverAddr [] => (mkExit 1 printUsage None, w)
  | flag.Args serverAddr (cmd :: args) => command cmd args (mkClient serverAddr) w
  end.

End Commands.
End Ctl.
Import Ctl.

(** ** One command, one request *)

Section Recorded.
(** A network that answers by a function and records the requests. *)
Context (answer : string → string → option json.value → option (Z * payload)).

Definition Requests := list (string * string * option json.value).

#[local] Instance recording : HTTP Requests :=
  λ m u b w, (answer m u b, w ++ [(m, u, b)]).

(** What the tool prints of a successful answer [p]: its body, or, for the three
    commands that delete, a text that depends on the resource only. *)
Definition confirmation (path : string) : string :=
  if String.prefix "/v1/session/" path then "Session closed"
  else if String.prefix "/v1/nodes/" path then "Node deleted"
  else "Lock released".

Lemma confirm_session id : confirmation ("/v1/session/" +:+ id) = "Session closed".
Proof. by destruct id. Qed.

Lemma confirm_node p : confirmation ("/v1/nodes/" +:+ p) = "Node deleted".
Proof. by destruct p. Qed.

Lemma confirm_lock name : confirmation ("/v1/locks/" +:+ name) = "Lock released".
Proof. done. Qed.

#[local] Hint Resolve confirm_session confirm_node confirm_lock : sky.

Definition shown (m path : string) (p : payload) : line :=
  if decide (m = "DELETE") then Line (confirmation path) else Body p.

(** The exit that reports the answer [a] to the request [m path]. *)
Definition report (m path : string) (a : option (Z * payload)) : Exit :=
  match a with
  | None => mkExit 1 [] (Some ETransport)
  | Some (st, p) =>
      if (400 <=? st)%Z then mkExit 1 [] (Some (EStatus st p)) else mkExit 0 [shown m path p] None
  end.

(** A command that sent one request to the server and reports its answer. *)
Definition one_request (c : Client) (w : Requests) (r : Exit * Requests) : Prop :=
  ∃ m path b, r = (report m path (answer m (baseURL c +:+ path) b),
                   w ++ [(m, baseURL c +:+ path, b)]).

Lemma body_request m path b c w :
  m ≠ "DELETE" → one_request c w (finish (print_body (doRequest m path b c w))).
Proof.
  intros Hm. exists m, path, b. unfold doRequest, http_Do, recording, report, shown.
  generalize (baseURL c +:+ path). intros u.
  destruct (answer m u b) as [[st p]|]; simpl; [|done]. rewrite decide_False by done.
  by destruct (400 <=? st)%Z.
Qed.

Lemma text_request text path b c w :
  confirmation path = text →
  one_request c w (finish (print_text text (doRequest "DELETE" path b c w))).
Proof.
  intros <-. exists "DELETE", path, b. unfold doRequest, http_Do, recording, report, shown.
  generalize (baseURL c +:+ path). intros u.
  destruct (answer "DELETE" u b) as [[st p]|]; simpl; [|done]. by destruct (400 <=? st)%Z.
Qed.

Lemma command_request cmd args c w :
  let r := command cmd args c w in
  (r.2 = w ∧ code r.1 = 1%Z ∧ stderr r.1 = None) ∨ one_request c w r.
Proof.
  unfold command, session_command. cbv zeta.
  repeat case_decide; repeat case_match; simpl;
    first [by left|right; by apply body_request|right; apply text_request; auto with sky].
Qed.

(** C29. Every run of skylockctl sends at most one request, to the server it was
    given.  Without a request it prints no error and exits with 1 after a usage
    message, with 2 after a flag error and with 0 if help was asked for.  With a
    request, exit code, output and error are a function of the answer: below
    status 400 the code is 0 and the output the body of the response, or, for
    the three commands that delete, the confirmation for the deleted resource;
    otherwise the code is 1, nothing is printed, and the error is the status and
    body, or the transport error. *)
Theorem ctl_one_request argv w :
  let r := main argv w in
  let parsed := flag.Parse "server" argv "http://localhost:8080" in
  (r.2 = w ∧ stderr r.1 = None ∧
   code r.1 = match parsed with flag.Help => 0 | flag.Bad => 2 | flag.Args _ _ => 1 end%Z) ∨
  ∃ server args, parsed = flag.Args server args ∧ one_request (mkClient server) w r.
Proof.
  unfold main. cbv zeta. destruct (flag.Parse _ argv _) as [server [|cmd args]| |]; simpl.
  1,3,4: by left.
  destruct (command_request cmd args (mkClient server) w) as [(-> & -> & ->)|Hr]; [by left|].
  right. by exists server, (cmd :: args).
Qed.
End Recorded.

(** ** The tool and the SDK *)

Section Compare.
Context {W : Type} `{HTTP W}.



End Compare.
